(** * InWasm / EmWasm runtime loaders: a shallow embedding

    The development follows [inwasm/src/definitions.ts] (function [InWasm],
    helpers [_dec] and [_env]) and [src/emwasm/definitions.ts] (function
    [EmWasm] with verbatim copies of the two helpers).

    Layout:
    - [Js]       JavaScript values, truthiness, strict equality, objects;
    - [Codec]    base64 (encoder of the compile step, the two platform
                 decoders) and the helpers [_dec] and [_env];
    - [Runtime]  the heap, the host WebAssembly engine, promises and the job
                 queue;
    - [InWasm], [EmWasm]  the two loaders;
    - the theorems. *)

From Stdlib Require Import ZArith Lia Ascii String.
From stdpp Require Import base gmap sets list strings.

Open Scope Z_scope.

(* ===================================================================== *)
(** ** JavaScript values *)
(* ===================================================================== *)

Module Js.

(** Heap addresses: object identity is address equality. *)
Abbreviation loc := nat.

(** The values a property of the definition object can hold.  Numbers are
    the integers the compile step writes ([t], [s] are enum constants). *)
Inductive JsVal : Type :=
| VUndef
| VNull
| VBool (b : bool)
| VNum (n : Z)
| VStr (s : string)
| VObj (l : loc).

#[global] Instance JsVal_eq_dec : EqDecision JsVal.
Proof. solve_decision. Defined.

(** ToBoolean: [if (v)], [v ? a : b], [v || w]. *)
Definition truthy (v : JsVal) : bool :=
  match v with
  | VUndef | VNull => false
  | VBool b => b
  | VNum n => negb (n =? 0)
  | VStr s => negb (String.eqb s "")
  | VObj _ => true
  end.

(** [v === w] on the values above. *)
Definition strict_eq (v w : JsVal) : bool := bool_decide (v = w).

(** A plain object: its own properties. *)
Abbreviation JsObject := (gmap string JsVal).

(** Property read [o.k]: [undefined] for a missing property. *)
Definition get (o : JsObject) (k : string) : JsVal := default VUndef (o !! k).

(** [k in o]: the property is present, whatever it holds. *)
Definition has (o : JsObject) (k : string) : bool := bool_decide (is_Some (o !! k)).

End Js.
Import Js.

(** [const enum OutputType] and [const enum OutputMode]. *)
Module OutputType.
Definition INSTANCE : Z := 0.
Definition MODULE : Z := 1.
Definition BYTES : Z := 2.
End OutputType.

Module OutputMode.
Definition ASYNC : Z := 0.
Definition SYNC : Z := 1.
End OutputMode.

(* ===================================================================== *)
(** ** Codec: base64 and the runtime helpers *)
(* ===================================================================== *)

Module Codec.

(** Bytes are integers in [0, 256). *)
Definition is_byte (b : Z) : Prop := 0 <= b < 256.
Definition is_byteb (b : Z) : bool := (0 <=? b) && (b <? 256).

Definition alphabet : list ascii :=
  list_ascii_of_string
    "ABCDEFGHIJKLMNOPQRSTUVWXYZabcdefghijklmnopqrstuvwxyz0123456789+/".

Definition pad_char : ascii := "="%char.

(** Character of a sextet. *)
Definition b64char (n : Z) : ascii := nth (Z.to_nat n) alphabet pad_char.

Fixpoint index_of (c : ascii) (l : list ascii) (i : Z) : option Z :=
  match l with
  | [] => None
  | x :: r => if Ascii.eqb c x then Some i else index_of c r (i + 1)
  end.

(** Sextet of a character of the standard alphabet. *)
Definition b64index (c : ascii) : option Z := index_of c alphabet 0.

(** Sextets of a byte sequence, three bytes making four sextets; the last
    group of one or two bytes makes two or three. *)
Fixpoint sextets (bs : list Z) : list Z :=
  match bs with
  | a :: b :: c :: rest =>
      a / 4 :: (a mod 4) * 16 + b / 16 :: (b mod 16) * 4 + c / 64 :: c mod 64
        :: sextets rest
  | [a; b] => [a / 4; (a mod 4) * 16 + b / 16; (b mod 16) * 4]
  | [a] => [a / 4; (a mod 4) * 16]
  | [] => []
  end.

Definition padding (n : nat) : list ascii :=
  match (n mod 3)%nat with
  | 1%nat => [pad_char; pad_char]
  | 2%nat => [pad_char]
  | _ => []
  end.

(** Modelled from the spec: the compile step's encoder, which is not under
    the loader sources ("the generated wasm binary gets base64 encoded",
    [d] is the "base64 string of raw wasm bytes"): standard base64 with
    padding. *)
Definition base64_encode (bs : list Z) : string :=
  string_of_list_ascii (map b64char (sextets bs) ++ padding (length bs)).

(** Bytes of a sextet sequence; a trailing group of two or three sextets
    gives one or two bytes, its spare bits dropped; one lone sextet gives
    nothing. *)
Fixpoint unsextets (sx : list Z) : list Z :=
  match sx with
  | a :: b :: c :: d :: rest =>
      a * 4 + b / 16 :: (b mod 16) * 16 + c / 4 :: (c mod 4) * 64 + d
        :: unsextets rest
  | [a; b; c] => [a * 4 + b / 16; (b mod 16) * 16 + c / 4]
  | [a; b] => [a * 4 + b / 16]
  | _ => []
  end.

(** *** Platform primitive [atob]

    The browser's forgiving base64 decoder: ASCII whitespace is removed,
    one or two trailing [=] are removed when the length is a multiple of
    four, a length of 1 modulo 4 or a character outside the alphabet
    fails (the primitive throws), and the result is a binary string, one
    character per byte. *)

Definition is_ws (c : ascii) : bool :=
  let n := nat_of_ascii c in
  (n =? 9)%nat || (n =? 10)%nat || (n =? 12)%nat || (n =? 13)%nat || (n =? 32)%nat.

Fixpoint strip_pad (l : list ascii) : list ascii :=
  match l with
  | [] => []
  | c :: r =>
      match r with
      | [] => if Ascii.eqb c pad_char then [] else [c]
      | [c'] =>
          if Ascii.eqb c pad_char && Ascii.eqb c' pad_char then []
          else c :: strip_pad r
      | _ => c :: strip_pad r
      end
  end.

Definition ascii_of_Z (b : Z) : ascii := ascii_of_nat (Z.to_nat b).
Definition Z_of_ascii (c : ascii) : Z := Z.of_nat (nat_of_ascii c).

Definition atob (s : string) : option string :=
  let data := filter (λ c, is_ws c = false) (list_ascii_of_string s) in
  let data := if (length data mod 4 =? 0)%nat then strip_pad data else data in
  if (length data mod 4 =? 1)%nat then None
  else sx ← mapM b64index data;
       Some (string_of_list_ascii (map ascii_of_Z (unsextets sx))).

(** *** Platform primitive [Buffer.from(s, 'base64')]

    Node's decoder never throws: it also reads the URL-safe characters,
    skips every other character, and stops at the first [=]. *)

Definition b64index_lenient (c : ascii) : option Z :=
  if Ascii.eqb c "-"%char then Some 62
  else if Ascii.eqb c "_"%char then Some 63
  else b64index c.

Fixpoint until_pad (l : list ascii) : list ascii :=
  match l with
  | [] => []
  | c :: r => if Ascii.eqb c pad_char then [] else c :: until_pad r
  end.

Definition Buffer_from_base64 (s : string) : list Z :=
  unsextets (omap b64index_lenient (until_pad (list_ascii_of_string s))).

(** *** [_dec] *)

(** [bs.charCodeAt(i)] as stored into a [Uint8Array]: out of range the
    call gives NaN, which the typed array stores as 0. *)
Definition charCodeAt (bs : string) (i : nat) : Z :=
  match String.get i bs with
  | Some c => Z_of_ascii c
  | None => 0
  end.

(** [r[i] = v] on a [Uint8Array]: the value wraps to 8 bits, an index out
    of range is ignored. *)
Definition u8_store (r : list Z) (i : nat) (v : Z) : list Z :=
  <[i := v mod 256]> r.

(** [for (let i = 0; i < r.length; ++i) r[i] = bs.charCodeAt(i);] *)
Definition _dec_loop (bs : string) (r : list Z) : list Z :=
  fold_left (λ r i, u8_store r i (charCodeAt bs i)) (seq 0 (length r)) r.

(** [_dec(s)].  [hasBuffer] is [typeof Buffer !== 'undefined'].  [None]
    stands for the exception of [atob]. *)
Definition _dec (hasBuffer : bool) (s : string) : option (list Z) :=
  if hasBuffer then Some (Buffer_from_base64 s)
  else
    bs ← atob s;
    let r := replicate (String.length bs) 0 in
    Some (_dec_loop bs r).

(** [_env(env)]: [env ? { env: env } : undefined]. *)
Definition _env (env : JsVal) : option (gmap string JsVal) :=
  if truthy env then Some {[ "env" := env ]} else None.

(** *** Predicates used in the round-trip proof *)

Definition is_sextet (n : Z) : Prop := 0 <= n < 64.

(** The character of a sextet is read back by both decoders and is neither
    padding nor whitespace. *)
Definition char_ok (n : Z) : Prop :=
  b64index (b64char n) = Some n
  ∧ b64index_lenient (b64char n) = Some n
  ∧ Ascii.eqb (b64char n) pad_char = false
  ∧ is_ws (b64char n) = false.

Definition text_char (c : ascii) : Prop :=
  Ascii.eqb c pad_char = false ∧ is_ws c = false.

End Codec.
Import Codec.

(* ===================================================================== *)
(** ** Runtime: heap, host engine, promises *)
(* ===================================================================== *)

Module Runtime.

(** Errors of the WebAssembly engine ([CompileError], [LinkError],
    [RuntimeError] of the declared namespace). *)
Inductive HostErr : Type :=
| CompileError (msg : string)
| LinkError (msg : string)
| RuntimeError (msg : string).

(** What a [throw] or a rejected promise carries. *)
Inductive JsErr : Type :=
| Error (msg : string)          (* [new Error(msg)] *)
| TypeError                     (* a platform call on a value of the wrong kind *)
| DOMException                  (* [atob] on a malformed string *)
| EngineError (err : HostErr)   (* raised by the WebAssembly engine *)
| Raised (v : JsVal).           (* any other thrown value *)

Inductive PromiseState : Type :=
| Pending
| Fulfilled (v : JsVal)
| Rejected (err : JsErr).

Abbreviation ImportObject := (gmap string JsVal).

Inductive HeapObj : Type :=
| OPlain (props : JsObject)                          (* an object literal *)
| OBytes (content : list Z)                          (* [Uint8Array], [Buffer] *)
| OModule (code : list Z)                            (* [WebAssembly.Module] and the bytes it was compiled from *)
| OInstance (m : loc) (imports : option ImportObject) (* [WebAssembly.Instance] *)
| OPromise (st : PromiseState)
| OEnv (b m : JsVal).                                (* the closure variables [bytes] and [mod] *)

(** Operations of the host engine as the loaders invoke them. *)
Inductive HostOp : Type :=
| NewModule (bytes : JsVal)                                   (* [new W.Module(bytes)] *)
| NewInstance (m : JsVal) (imports : option ImportObject)     (* [new W.Instance(mod, imports)] *)
| Compile (bytes : JsVal)                                     (* [W.compile(bytes)] *)
| Instantiate (src : JsVal) (imports : option ImportObject).  (* [W.instantiate(bytes | mod, imports)] *)

Inductive Event : Type :=
| EvDecode (d : JsVal)          (* [_dec(d)] was called *)
| EvHost (op : HostOp).         (* an engine operation was invoked *)

(** The [.then] callbacks of the two loaders. *)
Inductive Reaction : Type :=
| RNone                        (* no [.then]: the host promise itself *)
| RSetMod (env : loc)          (* [m => mod = m] *)
| RSetModInstance (env : loc)  (* [r => (mod = r.module) && r.instance] *)
| RInstance.                   (* [r => r.instance] *)

(** A host operation in flight, the callback chained on it and the promise
    the accessor returned for it. *)
Record Job : Type := mkJob {
  job_op : HostOp;
  job_then : Reaction;
  job_promise : loc
}.

Record World : Type := mkWorld {
  heap : gmap loc HeapObj;
  trace : list Event;       (* decoder and engine calls, latest first *)
  jobs : list Job           (* host operations that have not settled yet *)
}.

(** The platform: whether [Buffer] exists, and the engine's verdicts.  A
    verdict may depend on everything the platform has been asked so far. *)
Record Platform : Type := mkPlatform {
  hasBuffer : bool;
  wasm_validate : list Event → list Z → option HostErr;
  wasm_link : list Event → list Z → option ImportObject → option HostErr
}.

(** *** State and exception monad *)

Inductive Completion (A : Type) : Type :=
| Normal (a : A)
| Throw (err : JsErr).
Arguments Normal {A} a.
Arguments Throw {A} err.

Definition M (A : Type) : Type := World → Completion A * World.

Definition ret {A} (a : A) : M A := λ w, (Normal a, w).
Definition throw {A} (err : JsErr) : M A := λ w, (Throw err, w).
Definition bind {A B} (m : M A) (k : A → M B) : M B :=
  λ w, match m w with
       | (Normal a, w') => k a w'
       | (Throw err, w') => (Throw err, w')
       end.

Notation "x <~ m ;; k" := (bind m (λ x, k))
  (at level 100, m at next level, right associativity).
Notation "m ;;; k" := (bind m (λ _, k))
  (at level 100, right associativity).

Definition set_heap (f : gmap loc HeapObj → gmap loc HeapObj) (w : World) : World :=
  mkWorld (f (heap w)) (trace w) (jobs w).

(** A new object, at an address no object has. *)
Definition alloc (o : HeapObj) : M loc :=
  λ w, let l := fresh (dom (heap w)) in (Normal l, set_heap (insert l o) w).

Definition log (ev : Event) : M unit :=
  λ w, (Normal tt, mkWorld (heap w) (ev :: trace w) (jobs w)).

Definition push_job (j : Job) : M unit :=
  λ w, (Normal tt, mkWorld (heap w) (trace w) (jobs w ++ [j])).

(** *** Closure variables *)

Definition env_bytes (w : World) (env : loc) : JsVal :=
  match heap w !! env with Some (OEnv b _) => b | _ => VUndef end.

Definition env_mod (w : World) (env : loc) : JsVal :=
  match heap w !! env with Some (OEnv _ m) => m | _ => VUndef end.

Definition read_bytes (env : loc) : M JsVal := λ w, (Normal (env_bytes w env), w).
Definition read_mod (env : loc) : M JsVal := λ w, (Normal (env_mod w env), w).

(** [bytes = v] *)
Definition write_bytes (env : loc) (v : JsVal) : M unit :=
  λ w, (Normal tt, set_heap (insert env (OEnv v (env_mod w env))) w).

(** [mod = v] *)
Definition write_mod (env : loc) (v : JsVal) : M unit :=
  λ w, (Normal tt, set_heap (insert env (OEnv (env_bytes w env) v)) w).

(** *** Objects of the heap *)

(** Own properties of the object at [l]; typed arrays, modules and the like
    have none of the properties the loaders read. *)
Definition props_at (w : World) (l : loc) : JsObject :=
  match heap w !! l with Some (OPlain o) => o | _ => ∅ end.

(** The bytes of a buffer source; the engine raises [TypeError] on any
    other value. *)
Definition bytes_of (v : JsVal) : M (list Z) :=
  λ w, match v with
       | VObj l => match heap w !! l with
                   | Some (OBytes c) => (Normal c, w)
                   | _ => (Throw TypeError, w)
                   end
       | _ => (Throw TypeError, w)
       end.

Definition module_of (v : JsVal) : M (loc * list Z) :=
  λ w, match v with
       | VObj l => match heap w !! l with
                   | Some (OModule c) => (Normal (l, c), w)
                   | _ => (Throw TypeError, w)
                   end
       | _ => (Throw TypeError, w)
       end.

(** *** The decoder as the loaders call it *)

(** [_dec(d)]: a new byte array.  [d] is declared a string; the conversion
    the platform decoders would apply to another value is not modelled, such
    a call raises [TypeError]. *)
Definition dec (P : Platform) (d : JsVal) : M JsVal :=
  log (EvDecode d);;;
  match d with
  | VStr s =>
      match _dec (hasBuffer P) s with
      | Some c => b <~ alloc (OBytes c);; ret (VObj b)
      | None => throw DOMException
      end
  | _ => throw TypeError
  end.

(** *** The engine *)

Definition validate (P : Platform) (c : list Z) : M unit :=
  λ w, match wasm_validate P (trace w) c with
       | None => (Normal tt, w)
       | Some err => (Throw (EngineError err), w)
       end.

Definition link (P : Platform) (c : list Z) (imports : option ImportObject) : M unit :=
  λ w, match wasm_link P (trace w) c imports with
       | None => (Normal tt, w)
       | Some err => (Throw (EngineError err), w)
       end.

(** What an engine operation does once it runs: a module, an instance, or
    for [W.instantiate(bytes, imports)] the object [{ module, instance }]. *)
Definition perform (P : Platform) (op : HostOp) : M JsVal :=
  match op with
  | NewModule b | Compile b =>
      c <~ bytes_of b;;
      validate P c;;;
      m <~ alloc (OModule c);;
      ret (VObj m)
  | NewInstance m imports =>
      mc <~ module_of m;;
      link P mc.2 imports;;;
      i <~ alloc (OInstance mc.1 imports);;
      ret (VObj i)
  | Instantiate src imports =>
      λ w, match module_of src w with
           | (Normal mc, _) =>
               (link P mc.2 imports;;;
                i <~ alloc (OInstance mc.1 imports);;
                ret (VObj i)) w
           | _ =>
               (c <~ bytes_of src;;
                validate P c;;;
                link P c imports;;;
                m <~ alloc (OModule c);;
                i <~ alloc (OInstance m imports);;
                r <~ alloc (OPlain {[ "module" := VObj m; "instance" := VObj i ]});;
                ret (VObj r)) w
           end
  end.

(** A synchronous engine call: [new W.Module(..)], [new W.Instance(..)]. *)
Definition host_sync (P : Platform) (op : HostOp) : M JsVal :=
  log (EvHost op);;; perform P op.

(** An asynchronous engine call with its [.then] callback: the operation is
    invoked now and a pending promise is returned; it settles later. *)
Definition host_async (op : HostOp) (r : Reaction) : M JsVal :=
  log (EvHost op);;;
  p <~ alloc (OPromise Pending);;
  push_job (mkJob op r p);;;
  ret (VObj p).

(** [Promise.resolve(v)] for a value that is no promise. *)
Definition promise_resolve (v : JsVal) : M JsVal :=
  p <~ alloc (OPromise (Fulfilled v));; ret (VObj p).

(** Property read [v.k]: a [TypeError] on [undefined] and [null], and
    [undefined] on a value without that property. *)
Definition read_prop (v : JsVal) (k : string) : M JsVal :=
  λ w, match v with
       | VUndef | VNull => (Throw TypeError, w)
       | VObj l => (Normal (get (props_at w l) k), w)
       | _ => (Normal VUndef, w)
       end.

(** The callback applied to the value the host promise is fulfilled with. *)
Definition react (r : Reaction) (v : JsVal) : M JsVal :=
  match r with
  | RNone => ret v
  | RSetMod env => write_mod env v;;; ret v
  | RSetModInstance env =>
      m <~ read_prop v "module";;
      write_mod env m;;;
      if truthy m then read_prop v "instance" else ret m
  | RInstance => read_prop v "instance"
  end.

Fixpoint take_job (p : loc) (js : list Job) : option (Job * list Job) :=
  match js with
  | [] => None
  | j :: r =>
      if bool_decide (job_promise j = p) then Some (j, r)
      else match take_job p r with
           | Some (j', r') => Some (j', j :: r')
           | None => None
           end
  end.

(** The promise [p] settles: its host operation runs, and on success the
    callback; the promise is fulfilled with the callback's value or
    rejected with the error of the operation.  Nothing happens when no
    operation is in flight for [p]. *)
Definition settle (P : Platform) (p : loc) (w : World) : World :=
  match take_job p (jobs w) with
  | None => w
  | Some (j, rest) =>
      let w0 := mkWorld (heap w) (trace w) rest in
      match (v <~ perform P (job_op j);; react (job_then j) v) w0 with
      | (Normal v, w1) => set_heap (insert p (OPromise (Fulfilled v))) w1
      | (Throw err, w1) => set_heap (insert p (OPromise (Rejected err))) w1
      end
  end.

Definition promise_state (w : World) (p : loc) : option PromiseState :=
  match heap w !! p with Some (OPromise st) => Some st | _ => None end.

(** *** Accessors *)

(** The six arrow functions a loader can return. *)
Inductive Arrow : Type :=
| BytesSync | BytesAsync | ModuleSync | ModuleAsync | InstanceSync | InstanceAsync.

(** A returned arrow function with what it closes over: [d], [e] and the
    environment holding [bytes] and [mod]. *)
Record Accessor : Type := mkAccessor {
  acc_arrow : Arrow;
  acc_d : JsVal;
  acc_e : JsVal;
  acc_env : loc
}.

(** The capture context [_wasmCtx] / [_emwasmCtx]: one operation [add], an
    arbitrary piece of outside code that may raise. *)
Record Ctx : Type := mkCtx {
  add : loc → M unit
}.

Definition dq : string := String "034"%char EmptyString.

End Runtime.
Import Runtime.

(* ===================================================================== *)
(** ** The loader [InWasm] *)
(* ===================================================================== *)

Module Inwasm.

Definition must_run : JsErr := Error ("must run " +:+ dq +:+ "inwasm" +:+ dq).

(** [InWasm(def)].  [ctx] is the ambient [_wasmCtx], [None] when
    [typeof _wasmCtx === 'undefined'].  The result is the returned arrow
    function, or [None] when the end of the function is reached. *)
Definition InWasm (ctx : option Ctx) (def : loc) : M (option Accessor) :=
  λ w,
    let o := props_at w def in
    if truthy (get o "d") then
      let t := get o "t" in
      let s := get o "s" in
      let d := get o "d" in
      let e := get o "e" in
      (env <~ alloc (OEnv VUndef VUndef);;
       if strict_eq t (VNum OutputType.BYTES) then
         if truthy s then ret (Some (mkAccessor BytesSync d e env))
         else ret (Some (mkAccessor BytesAsync d e env))
       else if strict_eq t (VNum OutputType.MODULE) then
         if truthy s then ret (Some (mkAccessor ModuleSync d e env))
         else ret (Some (mkAccessor ModuleAsync d e env))
       else
         if truthy s then ret (Some (mkAccessor InstanceSync d e env))
         else ret (Some (mkAccessor InstanceAsync d e env))) w
    else
      match ctx with
      | None => throw must_run w
      | Some c => (add c def;;; ret None) w
      end.

(** [bytes || (bytes = _dec(d))] *)
Definition or_bytes (P : Platform) (a : Accessor) : M JsVal :=
  b <~ read_bytes (acc_env a);;
  if truthy b then ret b
  else b' <~ dec P (acc_d a);;
       write_bytes (acc_env a) b';;;
       ret b'.

(** [mod || (mod = new W.Module(bytes || (bytes = _dec(d))))] *)
Definition or_mod (P : Platform) (a : Accessor) : M JsVal :=
  m <~ read_mod (acc_env a);;
  if truthy m then ret m
  else b <~ or_bytes P a;;
       m' <~ host_sync P (NewModule b);;
       write_mod (acc_env a) m';;;
       ret m'.

(** A call [accessor()] of the arrow function [a]. *)
Definition call (P : Platform) (a : Accessor) : M JsVal :=
  match acc_arrow a with
  | BytesSync => or_bytes P a
  | BytesAsync => b <~ or_bytes P a;; promise_resolve b
  | ModuleSync => or_mod P a
  | ModuleAsync =>
      m <~ read_mod (acc_env a);;
      if truthy m then promise_resolve m
      else b <~ or_bytes P a;;
           host_async (Compile b) (RSetMod (acc_env a))
  | InstanceSync =>
      m <~ or_mod P a;;
      host_sync P (NewInstance m (_env (acc_e a)))
  | InstanceAsync =>
      m <~ read_mod (acc_env a);;
      if truthy m then host_async (Instantiate m (_env (acc_e a))) RNone
      else b <~ or_bytes P a;;
           host_async (Instantiate b (_env (acc_e a))) (RSetModInstance (acc_env a))
  end.

End Inwasm.

(* ===================================================================== *)
(** ** The loader [EmWasm] *)
(* ===================================================================== *)

Module Emwasm.

Definition must_run : JsErr := Error ("must run " +:+ dq +:+ "emwasm" +:+ dq).

(** [EmWasm(def)]: the bytes are decoded here, once, into the constant
    [bytes] the arrow functions close over. *)
Definition EmWasm (P : Platform) (ctx : option Ctx) (def : loc) : M (option Accessor) :=
  λ w,
    let o := props_at w def in
    if truthy (get o "d") then
      let t := get o "t" in
      let s := get o "s" in
      let d := get o "d" in
      let e := get o "e" in
      (bytes <~ dec P d;;
       env <~ alloc (OEnv bytes VUndef);;
       if strict_eq t (VNum OutputType.BYTES) then
         if truthy s then ret (Some (mkAccessor BytesSync d e env))
         else ret (Some (mkAccessor BytesAsync d e env))
       else if strict_eq t (VNum OutputType.MODULE) then
         if truthy s then ret (Some (mkAccessor ModuleSync d e env))
         else ret (Some (mkAccessor ModuleAsync d e env))
       else
         if truthy s then ret (Some (mkAccessor InstanceSync d e env))
         else ret (Some (mkAccessor InstanceAsync d e env))) w
    else
      match ctx with
      | None => throw must_run w
      | Some c => (add c def;;; ret None) w
      end.

(** A call [accessor()] of the arrow function [a]. *)
Definition call (P : Platform) (a : Accessor) : M JsVal :=
  match acc_arrow a with
  | BytesSync => read_bytes (acc_env a)
  | BytesAsync => b <~ read_bytes (acc_env a);; promise_resolve b
  | ModuleSync =>
      b <~ read_bytes (acc_env a);;
      host_sync P (NewModule b)
  | ModuleAsync =>
      b <~ read_bytes (acc_env a);;
      host_async (Compile b) RNone
  | InstanceSync =>
      b <~ read_bytes (acc_env a);;
      m <~ host_sync P (NewModule b);;
      host_sync P (NewInstance m (_env (acc_e a)))
  | InstanceAsync =>
      b <~ read_bytes (acc_env a);;
      host_async (Instantiate b (_env (acc_e a))) RInstance
  end.

End Emwasm.

(* ===================================================================== *)
(** ** Vocabulary of the statements *)
(* ===================================================================== *)

Module Spec.

(** [n] successive calls of an accessor: the completions, first call
    first, and the final world. *)
Fixpoint calls (call : M JsVal) (n : nat) (w : World) : list (Completion JsVal) * World :=
  match n with
  | O => ([], w)
  | S n' =>
      let r := call w in
      let rs := calls call n' r.2 in
      (r.1 :: rs.1, rs.2)
  end.

(** The values of the calls that returned. *)
Definition returned (rs : list (Completion JsVal)) : list JsVal :=
  omap (λ r, match r with Normal v => Some v | Throw _ => None end) rs.

(** What the caller ends up with: the value itself, or for a fulfilled
    promise the value it is fulfilled with. *)
Definition delivered (w : World) (v : JsVal) : JsVal :=
  match v with
  | VObj p =>
      match heap w !! p with
      | Some (OPromise (Fulfilled x)) => x
      | _ => v
      end
  | _ => v
  end.

(** The events a step added to the trace, latest first. *)
Definition new_events (w w' : World) : list Event :=
  take (length (trace w') - length (trace w)) (trace w').

(** The import arguments of the instantiations among some events. *)
Definition instantiations (evs : list Event) : list (option ImportObject) :=
  omap (λ ev, match ev with
              | EvHost (NewInstance _ i) | EvHost (Instantiate _ i) => Some i
              | _ => None
              end) evs.

(** No instantiation among the events; exactly one, with import argument
    [io], when the computation returns, and at most that one when it
    raises. *)
Definition no_inst {A} (r : Completion A) (evs : list Event) : Prop :=
  instantiations evs = [].
Definition one_inst {A} (io : option ImportObject) (r : Completion A) (evs : list Event) : Prop :=
  instantiations evs = [io].
Definition inst_of_call {A} (io : option ImportObject) (r : Completion A) (evs : list Event) : Prop :=
  match r with
  | Normal _ => instantiations evs = [io]
  | Throw _ => instantiations evs = [] ∨ instantiations evs = [io]
  end.

(** The operands of the compilations among some events:
    [new W.Module(b)], [W.compile(b)], and [W.instantiate(b, ..)] on
    something that is no module. *)
Definition compilations (w : World) (evs : list Event) : list JsVal :=
  omap (λ ev, match ev with
              | EvHost (NewModule b) | EvHost (Compile b) => Some b
              | EvHost (Instantiate (VObj l) _) =>
                  match heap w !! l with
                  | Some (OModule _) => None
                  | _ => Some (VObj l)
                  end
              | _ => None
              end) evs.

Definition decodes (evs : list Event) : list JsVal :=
  omap (λ ev, match ev with EvDecode d => Some d | _ => None end) evs.

(** Which arrow function the dispatch on [t] and [s] selects. *)
Definition arrow_of (t s : JsVal) : Arrow :=
  if strict_eq t (VNum OutputType.BYTES) then
    if truthy s then BytesSync else BytesAsync
  else if strict_eq t (VNum OutputType.MODULE) then
    if truthy s then ModuleSync else ModuleAsync
  else
    if truthy s then InstanceSync else InstanceAsync.

(** The closure variables of the accessor exist. *)
Definition has_env (w : World) (env : loc) : bool :=
  match heap w !! env with Some (OEnv _ _) => true | _ => false end.

(** Every operation in flight belongs to a promise of the heap. *)
Definition jobs_allocated (w : World) : bool :=
  forallb (λ j, bool_decide (is_Some (heap w !! job_promise j))) (jobs w).

(** [bytes] is empty or holds a byte array, [mod] is empty or holds a
    module. *)
Definition cells_typed (w : World) (env : loc) : bool :=
  match heap w !! env with
  | Some (OEnv b m) =>
      (negb (truthy b)
       || match b with
          | VObj l => match heap w !! l with Some (OBytes _) => true | _ => false end
          | _ => false
          end)
      && (negb (truthy m)
          || match m with
             | VObj l => match heap w !! l with Some (OModule _) => true | _ => false end
             | _ => false
             end)
  | _ => false
  end.

(** A world in which the accessor [a] can run: what the entry point
    leaves behind, and what calls and settlements preserve. *)
Definition ready (a : Accessor) (w : World) : bool :=
  has_env w (acc_env a) && jobs_allocated w && cells_typed w (acc_env a).

(** [m] only adds events to the trace, and [Q] holds of its completion and
    the events it added (latest first). *)
Definition logs {A} (m : M A) (Q : Completion A → list Event → Prop) : Prop :=
  ∀ w r w', m w = (r, w') → ∃ evs, trace w' = evs ++ trace w ∧ Q r evs.

(** The completion and the events of a step that logs nothing, and of one
    that moreover always returns. *)
Definition quiet {A} (r : Completion A) (evs : list Event) : Prop := evs = [].
Definition quiet_ok {A} (r : Completion A) (evs : list Event) : Prop :=
  evs = [] ∧ ∃ a, r = Normal a.

(** The variable [bytes] of the accessor holds the byte array at [l], whose
    content is [c]. *)
Definition bytes_cached (a : Accessor) (l : loc) (c : list Z) (w : World) : Prop :=
  env_bytes w (acc_env a) = VObj l ∧ heap w !! l = Some (OBytes c).

(** The content of a byte array, the address and code of a module. *)
Definition bytes_at (w : World) (v : JsVal) : option (list Z) :=
  match v with
  | VObj l => match heap w !! l with Some (OBytes c) => Some c | _ => None end
  | _ => None
  end.

Definition module_at (w : World) (v : JsVal) : option (loc * list Z) :=
  match v with
  | VObj l => match heap w !! l with Some (OModule c) => Some (l, c) | _ => None end
  | _ => None
  end.

(** The world once the engine operation [op] has been logged. *)
Definition logged (op : HostOp) (w : World) : World :=
  mkWorld (heap w) (EvHost op :: trace w) (jobs w).

(** A computation that never raises an [Error] object. *)
Definition no_Error {A} (m : M A) : Prop :=
  ∀ w msg w', m w ≠ (Throw (Error msg), w').

(** Outside code overwrites the definition object at [def]. *)
Definition mutate (def : loc) (o : JsObject) (w : World) : World :=
  set_heap (insert def (OPlain o)) w.

(** [m] does not look at the definition object at [def] and does not touch
    it: run after the object was overwritten, it completes the same way
    and leaves the same world, but for that object.  [env] is the closure
    environment [m] may write to; it stays in place. *)
Definition blind (def env : loc) {A} (m : M A) : Prop :=
  ∀ w o o',
    heap w !! def = Some (OPlain o) → has_env w env = true →
    m (mutate def o' w) = ((m w).1, mutate def o' (m w).2)
    ∧ heap (m w).2 !! def = Some (OPlain o)
    ∧ has_env (m w).2 env = true.

(** What a caller can tell of a value without comparing addresses: the
    content of a byte array, the code of a module, the code and the import
    argument of an instance. *)
Inductive Obs : Type :=
| ObsBytes (c : list Z)
| ObsModule (c : list Z)
| ObsInstance (c : list Z) (io : option ImportObject)
| ObsOther.

Definition observe (w : World) (v : JsVal) : Obs :=
  match v with
  | VObj l =>
      match heap w !! l with
      | Some (OBytes c) => ObsBytes c
      | Some (OModule c) => ObsModule c
      | Some (OInstance lm io) =>
          match heap w !! lm with
          | Some (OModule c) => ObsInstance c io
          | _ => ObsOther
          end
      | _ => ObsOther
      end
  | _ => ObsOther
  end.




(** A platform whose engine gives its verdicts on the code and the import
    argument alone, whatever it was asked before. *)
Definition steady_platform (buffer : bool) (valid : list Z → option HostErr)
    (links : list Z → option ImportObject → option HostErr) : Platform :=
  mkPlatform buffer (λ _, valid) (λ _, links).

(** The accessors that return a promise. *)
Definition async_arrow (a : Accessor) : Prop :=
  acc_arrow a = BytesAsync ∨ acc_arrow a = ModuleAsync ∨ acc_arrow a = InstanceAsync.

(** The callback writes to no other closure environment than [env]. *)
Definition reaction_of (env : loc) (rc : Reaction) : Prop :=
  match rc with
  | RSetMod e | RSetModInstance e => e = env
  | RNone | RInstance => True
  end.

End Spec.
Import Spec.

(* ===================================================================== *)
(** ** Concrete worlds used in the examples *)
(* ===================================================================== *)

Module Examples.

(** The eight bytes of an empty module: magic and version. *)
Definition wasm_bytes : list Z := [0; 97; 115; 109; 1; 0; 0; 0].

(** An engine that accepts exactly the code starting with the magic
    number and links everything. *)
Definition engine (buffer : bool) : Platform :=
  mkPlatform buffer
    (λ _ c, match c with
            | 0 :: 97 :: 115 :: 109 :: _ => None
            | _ => Some (CompileError "bad magic")
            end)
    (λ _ _ _, None).

(** A definition object of the compiled shape. *)
Definition compiled (t s : Z) (d : string) (e : JsVal) : JsObject :=
  {[ "t" := VNum t; "s" := VNum s; "d" := VStr d; "e" := e ]}.

(** A definition object of the authoring shape (the adder of the README). *)
Definition authoring : JsObject :=
  {[ "name" := VStr "adder"; "type" := VNum OutputType.INSTANCE;
     "mode" := VNum OutputMode.SYNC; "srctype" := VStr "C";
     "code" := VStr "int add(int a, int b) { return a + b; }" ]}.

(** A capture context that records nothing and raises its signal. *)
Definition raising_ctx : Ctx := mkCtx (λ def, throw (Raised (VObj def))).

(** A capture context that returns. *)
Definition quiet_ctx : Ctx := mkCtx (λ def, ret tt).

(** A world holding one definition at address 0. *)
Definition world_with (o : JsObject) : World :=
  mkWorld {[ 0%nat := OPlain o ]} [] [].

(** The definition of three bytes that are no module. *)
Definition bad_module (t s : Z) (e : JsVal) : World :=
  world_with (compiled t s "AQID" e).

(** The accessor and the world a successful call of an entry point
    leaves. *)
Definition after_entry (r : Completion (option Accessor) * World) : Accessor * World :=
  match r with
  | (Normal (Some a), w) => (a, w)
  | (_, w) => (mkAccessor BytesSync VUndef VUndef 0%nat, w)
  end.

(** The definition of an empty module, by output type, mode and [e]. *)
Definition empty_module (t s : Z) (e : JsVal) : World :=
  world_with (compiled t s "AGFzbQEAAAA=" e).

End Examples.

(* ===================================================================== *)
(** ** The life of an accessor *)
(* ===================================================================== *)

Module Lifetime.

(** The closure environment a [.then] callback assigns to, if any. *)
Definition reaction_env (rc : Reaction) : option loc :=
  match rc with
  | RSetMod e | RSetModInstance e => Some e
  | RNone | RInstance => None
  end.

(** An operation in flight belongs to a pending promise of the heap, and
    its callback assigns to closure variables that exist. *)
Definition job_wf (w : World) (j : Job) : Prop :=
  heap w !! job_promise j = Some (OPromise Pending)
  ∧ ∀ e, reaction_env (job_then j) = Some e → has_env w e = true.

(** A world whose operations in flight are of that kind, each with a
    promise of its own: what a program starts in (no operation in flight)
    and what the loaders keep. *)
Definition wf (w : World) : Prop :=
  Forall (job_wf w) (jobs w) ∧ NoDup (job_promise <$> jobs w).

(** One step in the life of an accessor [call]: it is called, or some
    promise settles. *)
Inductive step (P : Platform) (call : M JsVal) : World → World → Prop :=
| step_call w r w' : call w = (r, w') → step P call w w'
| step_settle p w : step P call w (settle P p w).

(** What may become of an object: closure variables are assigned to, a
    pending promise settles, and everything else (plain objects, byte
    arrays, modules, instances, settled promises) stays as it is. *)
Definition kept (o o' : HeapObj) : Prop :=
  match o with
  | OEnv _ _ => ∃ b m, o' = OEnv b m
  | OPromise Pending => ∃ st, o' = OPromise st
  | _ => o' = o
  end.

(** No object of [w] is removed from [w'], or changed beyond [kept]. *)
Definition stable (w w' : World) : Prop :=
  ∀ l o, heap w !! l = Some o → ∃ o', heap w' !! l = Some o' ∧ kept o o'.

(** [d] is a text the decoder of the platform reads as the bytes [c]. *)
Definition decodes_to (P : Platform) (a : Accessor) (c : list Z) : Prop :=
  ∃ s, acc_d a = VStr s ∧ _dec (hasBuffer P) s = Some c.

(** An operation in flight whose callback assigns to [mod] of the accessor
    [a] is one of the two its ASYNC arrow functions start, on the array
    [bytes] holds. *)
Definition job_of (a : Accessor) (w : World) (j : Job) : Prop :=
  reaction_env (job_then j) = Some (acc_env a) →
  truthy (env_bytes w (acc_env a)) = true
  ∧ ((job_op j = Compile (env_bytes w (acc_env a)) ∧ job_then j = RSetMod (acc_env a))
     ∨ (∃ io, job_op j = Instantiate (env_bytes w (acc_env a)) io
              ∧ job_then j = RSetModInstance (acc_env a))).

(** The cache of the accessor [a] of [InWasm] is coherent: [bytes], when
    set, is an array of the bytes [d] decodes to; [mod], when set, is a
    module of those bytes, and [bytes] is set then. *)
Definition coherent (P : Platform) (a : Accessor) (w : World) : Prop :=
  has_env w (acc_env a) = true
  ∧ (truthy (env_bytes w (acc_env a)) = true →
       ∃ c, bytes_at w (env_bytes w (acc_env a)) = Some c ∧ decodes_to P a c)
  ∧ (truthy (env_mod w (acc_env a)) = true →
       truthy (env_bytes w (acc_env a)) = true
       ∧ ∃ lm c, module_at w (env_mod w (acc_env a)) = Some (lm, c) ∧ decodes_to P a c)
  ∧ Forall (job_of a w) (jobs w).

(** A computation that only adds objects to the heap and starts no
    operation. *)
Definition grows {A} (m : M A) : Prop :=
  ∀ w r w', m w = (r, w') → heap w ⊆ heap w' ∧ jobs w' = jobs w.

(** An operation started by a computation that runs on the closure
    environment [env]: its promise is new and pending, and its callback
    assigns to no other environment. *)
Definition own_job (env : loc) (w w' : World) (j : Job) : Prop :=
  heap w !! job_promise j = None
  ∧ heap w' !! job_promise j = Some (OPromise Pending)
  ∧ ∀ e, reaction_env (job_then j) = Some e → e = env.

(** A computation that writes to no object but the closure environment
    [env], which it keeps, and starts operations of its own only. *)
Definition tidy (env : loc) {A} (m : M A) : Prop :=
  ∀ w r w', has_env w env = true → m w = (r, w') →
    (∀ l o, l ≠ env → heap w !! l = Some o → heap w' !! l = Some o)
    ∧ has_env w' env = true
    ∧ ∃ js, jobs w' = jobs w ++ js
            ∧ Forall (own_job env w w') js
            ∧ NoDup (job_promise <$> js).

(** From a world satisfying [Pre], [m] ends in a world satisfying [Inv],
    and in one satisfying [Post] of its value when it returns. *)
Definition hoare {A} (Pre : World → Prop) (m : M A) (Post : A → World → Prop)
    (Inv : World → Prop) : Prop :=
  ∀ w r w', Pre w → m w = (r, w') → Inv w' ∧ ∀ v, r = Normal v → Post v w'.

(** The events a step added hold no
    decoding, and [bytes] is what it was. *)
Definition undecoded (env : loc) (w w' : World) : Prop :=
  (∃ evs, trace w' = evs ++ trace w ∧ decodes evs = [])
  ∧ env_bytes w' env = env_bytes w env.

(** A computation that only adds objects to the heap, logs no decoding,
    and starts operations whose callbacks assign to nothing. *)
Definition calm {A} (m : M A) : Prop :=
  ∀ w r w', m w = (r, w') →
    heap w ⊆ heap w'
    ∧ (∃ evs, trace w' = evs ++ trace w ∧ decodes evs = [])
    ∧ ∃ js, jobs w' = jobs w ++ js
            ∧ Forall (λ j, reaction_env (job_then j) = None) js.

(** What holds of the accessor [a] of [EmWasm] all its life: [bytes] is
    the array [lb], [mod] is empty, and no operation in flight assigns
    to them. *)
Definition em_state (a : Accessor) (lb : loc) (w : World) : Prop :=
  heap w !! acc_env a = Some (OEnv (VObj lb) VUndef)
  ∧ Forall (λ j, reaction_env (job_then j) ≠ Some (acc_env a)) (jobs w).

(** The operation an ASYNC accessor of [InWasm] starts on the array [b]
    while [mod] is empty, and its callback. *)
Definition async_op (a : Accessor) (b : JsVal) : HostOp :=
  match acc_arrow a with
  | ModuleAsync => Compile b
  | _ => Instantiate b (_env (acc_e a))
  end.

Definition async_then (a : Accessor) : Reaction :=
  match acc_arrow a with
  | ModuleAsync => RSetMod (acc_env a)
  | _ => RSetModInstance (acc_env a)
  end.

(** [new W.Module(..)] and [new W.Instance(..)], the constructors that
    compile and instantiate on the calling thread. *)
Definition sync_engine_call (ev : Event) : bool :=
  match ev with
  | EvHost (NewModule _) | EvHost (NewInstance _ _) => true
  | _ => false
  end.

(** Any call of the engine. *)
Definition engine_call (ev : Event) : bool :=
  match ev with EvHost _ => true | EvDecode _ => false end.

(** [m] only adds events to the trace, all of them satisfying [ok]. *)
Definition emits (ok : Event → bool) {A} (m : M A) : Prop :=
  ∀ w r w', m w = (r, w') →
    ∃ evs, trace w' = evs ++ trace w ∧ forallb ok evs = true.

(** What the caller asked for: bytes, a module of them, or an instance of
    such a module with the import argument of [e]. *)
Definition expected (a : Accessor) (c : list Z) : Obs :=
  match acc_arrow a with
  | BytesSync | BytesAsync => ObsBytes c
  | ModuleSync | ModuleAsync => ObsModule c
  | InstanceSync | InstanceAsync => ObsInstance c (_env (acc_e a))
  end.


(** What an operation in flight for the ASYNC accessor [a] of either
    loader works on: it compiles the array of the bytes [c], or
    instantiates from that array, or from a module of these bytes. *)
Definition job_on (a : Accessor) (c : list Z) (w : World) (j : Job) : Prop :=
  match job_op j with
  | Compile b =>
      acc_arrow a = ModuleAsync ∧ bytes_at w b = Some c
      ∧ (job_then j = RSetMod (acc_env a) ∨ job_then j = RNone)
  | Instantiate src io =>
      acc_arrow a = InstanceAsync ∧ io = _env (acc_e a)
      ∧ ((bytes_at w src = Some c
          ∧ (job_then j = RSetModInstance (acc_env a) ∨ job_then j = RInstance))
         ∨ (∃ lm, module_at w src = Some (lm, c) ∧ job_then j = RNone))
  | _ => False
  end.

(** No operation in flight assigns to the closure variables at [env]. *)
Definition at_rest (env : loc) (w : World) : Prop :=
  Forall (λ j, reaction_env (job_then j) ≠ Some env) (jobs w).

End Lifetime.
Import Lifetime.

(* ===================================================================== *)
(** ** Facts about the codec *)
(* ===================================================================== *)

(** Linear arithmetic with division and remainder by constants. *)
Ltac divlia := Z.div_mod_to_equations; lia.

Section CodecFacts.

(** Induction on a list three elements at a time, as the encoder reads
    its input. *)
Lemma list_ind3 {A} (Q : list A → Prop) :
  Q [] → (∀ a, Q [a]) → (∀ a b, Q [a; b]) →
  (∀ a b c l, Q l → Q (a :: b :: c :: l)) →
  ∀ l, Q l.
Proof.
  intros H0 H1 H2 H3 l.
  cut (Q l ∧ (∀ a, Q (a :: l)) ∧ (∀ a b, Q (a :: b :: l))); [tauto|].
  induction l as [|x l (IH0 & IH1 & IH2)]; [by auto|].
  split_and!; auto.
Qed.

(** A property of all sextets is checked on the 64 of them. *)
Lemma sextet_cases (Q : Z → Prop) :
  Forall Q (seqZ 0 64) → ∀ n, 0 <= n < 64 → Q n.
Proof.
  intros HQ n Hn. eapply Forall_forall; [exact HQ|].
  apply elem_of_seqZ. lia.
Qed.

Lemma b64char_ok (n : Z) : 0 <= n < 64 → char_ok n.
Proof. apply sextet_cases. vm_compute. repeat constructor. Qed.

Lemma sextets_range (bs : list Z) :
  Forall is_byte bs → Forall is_sextet (sextets bs).
Proof.
  unfold is_byte, is_sextet.
  induction bs as [|a|a b|a b c l IH] using list_ind3; intros Hb; cbn [sextets].
  - constructor.
  - inversion_clear Hb. repeat (apply Forall_cons_2; [divlia|]). constructor.
  - inversion_clear Hb as [|? ? ? Hb']. inversion_clear Hb'.
    repeat (apply Forall_cons_2; [divlia|]). constructor.
  - inversion_clear Hb as [|? ? ? Hb']. inversion_clear Hb' as [|? ? ? Hb''].
    inversion_clear Hb''.
    repeat (apply Forall_cons_2; [divlia|]). by apply IH.
Qed.

Lemma unsextets_sextets (bs : list Z) :
  Forall is_byte bs → unsextets (sextets bs) = bs.
Proof.
  unfold is_byte.
  induction bs as [|a|a b|a b c l IH] using list_ind3; intros Hb.
  - done.
  - inversion_clear Hb. cbn [sextets unsextets]. f_equal. divlia.
  - inversion_clear Hb as [|? ? ? Hb']. inversion_clear Hb'.
    cbn [sextets unsextets]. repeat f_equal; divlia.
  - inversion_clear Hb as [|? ? ? Hb']. inversion_clear Hb' as [|? ? ? Hb''].
    inversion_clear Hb''.
    cbn [sextets unsextets]. rewrite IH by done.
    repeat f_equal; divlia.
Qed.


(** The encoder's output: text characters, then padding to a multiple of
    four. *)
Lemma sextets_length (bs : list Z) :
  ((length (sextets bs) + length (padding (length bs))) mod 4 = 0)%nat
  ∧ ((length (sextets bs)) mod 4 ≠ 1)%nat
  ∧ (length (padding (length bs)) ≤ 2)%nat.
Proof.
  induction bs as [|a|a b|a b c l (IH1 & IH2 & IH3)] using list_ind3;
    [split_and!; vm_compute; (done || lia) ..|].
  assert (Hp : padding (length (a :: b :: c :: l)) = padding (length l)).
  { unfold padding. cbn [length].
    replace (S (S (S (length l)))) with (length l + 1 * 3)%nat by lia.
    by rewrite Nat.Div0.mod_add. }
  rewrite Hp. cbn [sextets length].
  split_and!; [|  | done].
  - replace (S (S (S (S (length (sextets l))))) + length (padding (length l)))%nat
      with ((length (sextets l) + length (padding (length l))) + 1 * 4)%nat by lia.
    by rewrite Nat.Div0.mod_add.
  - replace (S (S (S (S (length (sextets l))))))
      with (length (sextets l) + 1 * 4)%nat by lia.
    by rewrite Nat.Div0.mod_add.
Qed.

Lemma padding_cases (n : nat) :
  padding n = [] ∨ padding n = [pad_char] ∨ padding n = [pad_char; pad_char].
Proof. unfold padding. destruct (n mod 3)%nat as [|[|[|?]]]; auto. Qed.

Lemma b64char_text (sx : list Z) :
  Forall is_sextet sx → Forall text_char (map b64char sx).
Proof.
  intros H. apply Forall_fmap. eapply Forall_impl; [exact H|].
  intros n Hn. destruct (b64char_ok n Hn) as (_ & _ & ? & ?). by split.
Qed.

Lemma strip_pad_text (l p : list ascii) :
  Forall text_char l →
  p = [] ∨ p = [pad_char] ∨ p = [pad_char; pad_char] →
  strip_pad (l ++ p) = l.
Proof.
  intros Hl Hp. induction Hl as [|c l [Hc _] Hl IH].
  - by destruct Hp as [->|[->| ->]].
  - cbn [app strip_pad]. rewrite IH.
    destruct (l ++ p) as [|c1 [|c2 r]] eqn:E.
    + apply app_eq_nil in E as [-> ->]. by rewrite Hc.
    + rewrite Hc. done.
    + done.
Qed.

Lemma until_pad_text (l p : list ascii) :
  Forall text_char l →
  p = [] ∨ p = [pad_char] ∨ p = [pad_char; pad_char] →
  until_pad (l ++ p) = l.
Proof.
  intros Hl Hp. induction Hl as [|c l [Hc _] Hl IH].
  - by destruct Hp as [->|[->| ->]].
  - cbn [app until_pad]. by rewrite Hc, IH.
Qed.

Lemma filter_ws_text (l p : list ascii) :
  Forall text_char l →
  p = [] ∨ p = [pad_char] ∨ p = [pad_char; pad_char] →
  filter (λ c, is_ws c = false) (l ++ p) = l ++ p.
Proof.
  intros Hl Hp. induction Hl as [|c l [_ Hc] Hl IH].
  - by destruct Hp as [->|[->| ->]].
  - cbn [app]. rewrite filter_cons_True by done. by rewrite IH.
Qed.

Lemma mapM_b64index (sx : list Z) :
  Forall is_sextet sx → mapM b64index (map b64char sx) = Some sx.
Proof.
  intros Hs. apply mapM_fmap_Forall_Some.
  eapply Forall_impl; [exact Hs|].
  intros n Hn. by destruct (b64char_ok n Hn) as (E & _).
Qed.

Lemma omap_b64index_lenient (sx : list Z) :
  Forall is_sextet sx → omap b64index_lenient (map b64char sx) = sx.
Proof.
  induction 1 as [|n sx Hn _ IH]; [done|].
  destruct (b64char_ok n Hn) as (_ & E & _).
  cbn -[b64char b64index_lenient]. rewrite E. f_equal. exact IH.
Qed.

(** The two platform decoders invert the encoder. *)
Lemma Buffer_from_base64_encode (bs : list Z) :
  Forall is_byte bs → Buffer_from_base64 (base64_encode bs) = bs.
Proof.
  intros Hb. unfold Buffer_from_base64, base64_encode.
  rewrite list_ascii_of_string_of_list_ascii.
  pose proof (sextets_range bs Hb) as Hs.
  rewrite until_pad_text by eauto using b64char_text, padding_cases.
  rewrite omap_b64index_lenient by done.
  by apply unsextets_sextets.
Qed.

Lemma atob_encode (bs : list Z) :
  Forall is_byte bs →
  atob (base64_encode bs) = Some (string_of_list_ascii (map ascii_of_Z bs)).
Proof.
  intros Hb. unfold atob, base64_encode.
  rewrite list_ascii_of_string_of_list_ascii.
  pose proof (sextets_range bs Hb) as Hs.
  destruct (sextets_length bs) as (Hl0 & Hl1 & _).
  rewrite filter_ws_text by eauto using b64char_text, padding_cases.
  rewrite length_app, length_map.
  rewrite Hl0. cbn [Nat.eqb].
  rewrite strip_pad_text by eauto using b64char_text, padding_cases.
  rewrite length_map.
  destruct (length (sextets bs) mod 4 =? 1)%nat eqn:E.
  { apply Nat.eqb_eq in E. done. }
  rewrite mapM_b64index by done. cbn.
  by rewrite unsextets_sextets.
Qed.


(** The loop of the fallback decoder writes the code unit of every
    character, in order. *)
Lemma string_get_of_list (cs : list ascii) (i : nat) :
  String.get i (string_of_list_ascii cs) = cs !! i.
Proof.
  revert i. induction cs as [|c cs IH]; intros [|i]; cbn; auto.
Qed.

Lemma string_length_of_list (cs : list ascii) :
  String.length (string_of_list_ascii cs) = length cs.
Proof. induction cs; cbn; auto. Qed.

Lemma fill_from (g : nat → Z) (post pre : list Z) :
  fold_left (λ r i, <[i := g i]> r) (seq (length pre) (length post)) (pre ++ post)
  = pre ++ map g (seq (length pre) (length post)).
Proof.
  revert pre. induction post as [|x post IH]; intros pre; [done|].
  cbn [length seq fold_left map].
  replace (<[length pre := g (length pre)]> (pre ++ x :: post))
    with (pre ++ g (length pre) :: post)
    by (rewrite <- (Nat.add_0_r (length pre)) at 2; by rewrite insert_app_r).
  rewrite (cons_middle (g (length pre)) pre post), app_assoc.
  replace (S (length pre)) with (length (pre ++ [g (length pre)]))
    by (rewrite length_app; cbn; lia).
  rewrite IH. by rewrite <- app_assoc.
Qed.

Lemma map_lookup_seq {A B} (h : option A → B) (cs : list A) :
  map (λ i, h (cs !! i)) (seq 0 (length cs)) = map (λ c, h (Some c)) cs.
Proof.
  induction cs as [|c cs IH]; [done|].
  cbn [length seq map]. f_equal.
  rewrite <- IH, <- fmap_S_seq.
  change (map ?f (S <$> ?l)) with (f <$> (S <$> l)).
  by rewrite <- list_fmap_compose.
Qed.

Lemma _dec_loop_spec (cs : list ascii) :
  _dec_loop (string_of_list_ascii cs) (replicate (length cs) 0)
  = map (λ c, Z_of_ascii c mod 256) cs.
Proof.
  unfold _dec_loop, u8_store, charCodeAt.
  rewrite length_replicate.
  pose proof (fill_from
    (λ i, match String.get i (string_of_list_ascii cs) with
          | Some c => Z_of_ascii c | None => 0 end mod 256)
    (replicate (length cs) 0) []) as H.
  rewrite length_replicate in H. cbn [length app] in H. rewrite H.
  erewrite map_ext; [|intros i; by rewrite string_get_of_list].
  apply (map_lookup_seq
    (λ o, match o with Some c => Z_of_ascii c | None => 0 end mod 256)).
Qed.

Lemma Z_of_ascii_of_Z (b : Z) : is_byte b → Z_of_ascii (ascii_of_Z b) mod 256 = b.
Proof.
  intros Hb. unfold Z_of_ascii, ascii_of_Z, is_byte in *.
  rewrite nat_ascii_embedding by lia.
  rewrite Z2Nat.id by lia. apply Z.mod_small. lia.
Qed.

(** [_dec] on either platform: what the fallback computes, and the round
    trip through the encoder. *)
Lemma _dec_fallback (s : string) :
  _dec false s
  = (λ bs, map (λ c, Z_of_ascii c mod 256) (list_ascii_of_string bs)) <$> atob s.
Proof.
  unfold _dec. destruct (atob s) as [bs|]; [|done]. cbn. f_equal.
  rewrite <- (string_of_list_ascii_of_string bs) at 1 2.
  rewrite string_length_of_list. apply _dec_loop_spec.
Qed.

Lemma _dec_encode (hasBuffer : bool) (bs : list Z) :
  Forall is_byte bs → _dec hasBuffer (base64_encode bs) = Some bs.
Proof.
  intros Hb. destruct hasBuffer.
  - unfold _dec. by rewrite Buffer_from_base64_encode.
  - rewrite _dec_fallback, atob_encode by done. cbn. f_equal.
    rewrite list_ascii_of_string_of_list_ascii.
    change (map ?f (map ?g ?l)) with (f <$> (g <$> l)).
    rewrite <- list_fmap_compose.
    rewrite <- (list_fmap_id bs) at 2.
    apply Forall_fmap_ext_1. eapply Forall_impl; [exact Hb|].
    intros b Hbb. by apply Z_of_ascii_of_Z.
Qed.

Lemma base64_encode_nonempty (bs : list Z) :
  bs ≠ [] → String.eqb (base64_encode bs) "" = false.
Proof.
  intros Hne. unfold base64_encode.
  destruct bs as [|a [|b [|c l]]]; [done|done..].
Qed.

End CodecFacts.

(* ===================================================================== *)
(** ** Facts about the runtime *)
(* ===================================================================== *)

Section RuntimeFacts.

Implicit Types (w : World) (l env p def : loc) (v : JsVal) (o : HeapObj).

Lemma fresh_heap w : heap w !! fresh (dom (heap w)) = None.
Proof. apply not_elem_of_dom, is_fresh. Qed.

Lemma fresh_ne w l o : heap w !! l = Some o → l ≠ fresh (dom (heap w)).
Proof. intros H ->. by rewrite fresh_heap in H. Qed.

Lemma truthy_env_mod w env :
  truthy (env_mod w env) = true → has_env w env = true.
Proof.
  unfold env_mod, has_env. by destruct (heap w !! env) as [[]|].
Qed.

Lemma truthy_env_bytes w env :
  truthy (env_bytes w env) = true → has_env w env = true.
Proof.
  unfold env_bytes, has_env. by destruct (heap w !! env) as [[]|].
Qed.

Lemma has_env_lookup w env :
  has_env w env = true →
  heap w !! env = Some (OEnv (env_bytes w env) (env_mod w env)).
Proof.
  unfold has_env, env_bytes, env_mod. by destruct (heap w !! env) as [[]|].
Qed.

(** Reads of the closure variables after a heap update elsewhere. *)
Lemma env_mod_insert_ne w env l o :
  l ≠ env → env_mod (set_heap (insert l o) w) env = env_mod w env.
Proof. intros H. unfold env_mod, set_heap. cbn. by rewrite lookup_insert_ne. Qed.

Lemma env_bytes_insert_ne w env l o :
  l ≠ env → env_bytes (set_heap (insert l o) w) env = env_bytes w env.
Proof. intros H. unfold env_bytes, set_heap. cbn. by rewrite lookup_insert_ne. Qed.

Lemma env_mod_insert_env w env b m :
  env_mod (set_heap (insert env (OEnv b m)) w) env = m.
Proof. unfold env_mod, set_heap. cbn. by rewrite lookup_insert_eq. Qed.

Lemma env_bytes_insert_env w env b m :
  env_bytes (set_heap (insert env (OEnv b m)) w) env = b.
Proof. unfold env_bytes, set_heap. cbn. by rewrite lookup_insert_eq. Qed.

End RuntimeFacts.

(* ===================================================================== *)
(** ** The entry point *)
(* ===================================================================== *)

Section Entry.

Implicit Types (w : World) (def : loc) (P : Platform) (ctx : option Ctx).

Lemma InWasm_compiled ctx def w :
  let o := props_at w def in
  truthy (get o "d") = true →
  Inwasm.InWasm ctx def w
  = (Normal (Some (mkAccessor (arrow_of (get o "t") (get o "s")) (get o "d") (get o "e")
                              (fresh (dom (heap w))))),
     set_heap (insert (fresh (dom (heap w))) (OEnv VUndef VUndef)) w).
Proof.
  intros o Hd. unfold Inwasm.InWasm. fold o. rewrite Hd.
  unfold bind, alloc, ret, arrow_of. by repeat case_match.
Qed.

Lemma InWasm_uncompiled ctx def w :
  truthy (get (props_at w def) "d") = false →
  Inwasm.InWasm ctx def w
  = match ctx with
    | None => (Throw Inwasm.must_run, w)
    | Some c => (add c def;;; ret None) w
    end.
Proof. intros Hd. unfold Inwasm.InWasm. rewrite Hd. destruct ctx; reflexivity. Qed.

Lemma EmWasm_uncompiled P ctx def w :
  truthy (get (props_at w def) "d") = false →
  Emwasm.EmWasm P ctx def w
  = match ctx with
    | None => (Throw Emwasm.must_run, w)
    | Some c => (add c def;;; ret None) w
    end.
Proof. intros Hd. unfold Emwasm.EmWasm. rewrite Hd. destruct ctx; reflexivity. Qed.

Lemma EmWasm_compiled P ctx def w :
  let o := props_at w def in
  truthy (get o "d") = true →
  Emwasm.EmWasm P ctx def w
  = match dec P (get o "d") w with
    | (Normal b, w1) =>
        (Normal (Some (mkAccessor (arrow_of (get o "t") (get o "s")) (get o "d") (get o "e")
                                  (fresh (dom (heap w1))))),
         set_heap (insert (fresh (dom (heap w1))) (OEnv b VUndef)) w1)
    | (Throw err, w1) => (Throw err, w1)
    end.
Proof.
  intros o Hd. unfold Emwasm.EmWasm. fold o. rewrite Hd.
  unfold bind at 1.
  destruct (dec P (get o "d") w) as [[b|err] w1]; [|reflexivity].
  unfold bind, alloc, ret, arrow_of. by repeat case_match.
Qed.

End Entry.

(** The only [Error] of the loaders is the one of the entry point. *)
Section NoError.

Lemma no_Error_bind {A B} (m : M A) (k : A → M B) :
  no_Error m → (∀ a, no_Error (k a)) → no_Error (bind m k).
Proof.
  intros Hm Hk w msg w'. unfold bind.
  destruct (m w) as [[a|err] w1] eqn:E.
  - apply Hk.
  - intros [= -> ->]. by eapply Hm.
Qed.

Lemma no_Error_total {A} (f : World → A * World) :
  no_Error (λ w, (Normal (f w).1, (f w).2)).
Proof. by intros w msg w'. Qed.

Lemma no_Error_ret {A} (a : A) : no_Error (ret a).
Proof. by intros w msg w'. Qed.

Lemma no_Error_dec P d : no_Error (dec P d).
Proof.
  unfold dec. apply no_Error_bind; [by intros w msg w'|]. intros _.
  destruct d; try by intros w msg w'.
  destruct (_dec (hasBuffer P) s); [|by intros w msg w'].
  apply no_Error_bind; by intros w msg w'.
Qed.

Lemma no_Error_bytes_of v : no_Error (bytes_of v).
Proof. intros w msg w'. unfold bytes_of. by repeat case_match. Qed.

Lemma no_Error_module_of v : no_Error (module_of v).
Proof. intros w msg w'. unfold module_of. by repeat case_match. Qed.

Lemma no_Error_validate P c : no_Error (validate P c).
Proof. intros w msg w'. unfold validate. by repeat case_match. Qed.

Lemma no_Error_link P c i : no_Error (link P c i).
Proof. intros w msg w'. unfold link. by repeat case_match. Qed.

Lemma no_Error_alloc o : no_Error (alloc o).
Proof. by intros w msg w'. Qed.

Lemma no_Error_log ev : no_Error (log ev).
Proof. by intros w msg w'. Qed.

Lemma no_Error_push_job j : no_Error (push_job j).
Proof. by intros w msg w'. Qed.

Lemma no_Error_read_bytes env : no_Error (read_bytes env).
Proof. by intros w msg w'. Qed.

Lemma no_Error_read_mod env : no_Error (read_mod env).
Proof. by intros w msg w'. Qed.

Lemma no_Error_write_bytes env v : no_Error (write_bytes env v).
Proof. by intros w msg w'. Qed.

Lemma no_Error_write_mod env v : no_Error (write_mod env v).
Proof. by intros w msg w'. Qed.

Create HintDb no_error.
#[local] Hint Resolve no_Error_ret no_Error_dec no_Error_bytes_of no_Error_module_of
  no_Error_validate no_Error_link no_Error_alloc no_Error_log no_Error_push_job
  no_Error_read_bytes no_Error_read_mod no_Error_write_bytes no_Error_write_mod
  : no_error.

Ltac no_error :=
  repeat first
    [ progress eauto with no_error
    | apply no_Error_bind; [|intros ?]
    | match goal with |- no_Error (if ?b then _ else _) => destruct b end ].

Lemma no_Error_perform P op : no_Error (perform P op).
Proof.
  destruct op; cbn [perform]; try by no_error.
  intros w msg w'. destruct (module_of src w) as [[mc|err] w1] eqn:E.
  - assert (H : no_Error (link P mc.2 imports;;;
        i <~ alloc (OInstance mc.1 imports);; ret (VObj i))) by no_error.
    apply H.
  - assert (H : no_Error (c <~ bytes_of src;;
        validate P c;;; link P c imports;;;
        m <~ alloc (OModule c);; i <~ alloc (OInstance m imports);;
        r <~ alloc (OPlain {[ "module" := VObj m; "instance" := VObj i ]});;
        ret (VObj r))) by no_error.
    apply H.
Qed.

Lemma no_Error_host_sync P op : no_Error (host_sync P op).
Proof. unfold host_sync. apply no_Error_bind; eauto using no_Error_log, no_Error_perform. Qed.

Lemma no_Error_host_async op r : no_Error (host_async op r).
Proof. unfold host_async. no_error. Qed.

Lemma no_Error_promise_resolve v : no_Error (promise_resolve v).
Proof. unfold promise_resolve. no_error. Qed.

#[local] Hint Resolve no_Error_host_sync no_Error_host_async no_Error_promise_resolve
  : no_error.

Lemma no_Error_or_bytes P a : no_Error (Inwasm.or_bytes P a).
Proof. unfold Inwasm.or_bytes. no_error. Qed.

#[local] Hint Resolve no_Error_or_bytes : no_error.

Lemma no_Error_or_mod P a : no_Error (Inwasm.or_mod P a).
Proof. unfold Inwasm.or_mod. no_error. Qed.

#[local] Hint Resolve no_Error_or_mod : no_error.

Lemma no_Error_call_in P a : no_Error (Inwasm.call P a).
Proof. unfold Inwasm.call. destruct (acc_arrow a); no_error. Qed.

Lemma no_Error_call_em P a : no_Error (Emwasm.call P a).
Proof. unfold Emwasm.call. destruct (acc_arrow a); no_error. Qed.

End NoError.

(* ===================================================================== *)
(** ** C5, C1: the entry point *)
(* ===================================================================== *)

(** C5.  An authoring-shaped definition (no [d], or any falsy [d]) without
    a capture context: both entry points raise their error at once and
    leave the world as it was, so no closure variable exists, nothing is
    logged and no engine operation is invoked.  It is the only [Error] of
    the loaders: without a context the entry point raises no other one, and
    no accessor call ever raises an [Error]. *)
Theorem C5_missing_compile_step (P : Platform) (def : loc) (w : World) :
  truthy (get (props_at w def) "d") = false →
  Inwasm.InWasm None def w = (Throw Inwasm.must_run, w)
  ∧ Emwasm.EmWasm P None def w = (Throw Emwasm.must_run, w)
  ∧ (∀ def1 w1 msg w2,
       Inwasm.InWasm None def1 w1 = (Throw (Error msg), w2) →
       Error msg = Inwasm.must_run ∧ w2 = w1
       ∧ truthy (get (props_at w1 def1) "d") = false)
  ∧ (∀ def1 w1 msg w2,
       Emwasm.EmWasm P None def1 w1 = (Throw (Error msg), w2) →
       Error msg = Emwasm.must_run ∧ w2 = w1
       ∧ truthy (get (props_at w1 def1) "d") = false)
  ∧ (∀ a w1 msg w2, Inwasm.call P a w1 ≠ (Throw (Error msg), w2))
  ∧ (∀ a w1 msg w2, Emwasm.call P a w1 ≠ (Throw (Error msg), w2)).
Proof.
  intros Hd. split_and!.
  - by rewrite InWasm_uncompiled.
  - by rewrite EmWasm_uncompiled.
  - intros def1 w1 msg w2.
    destruct (truthy (get (props_at w1 def1) "d")) eqn:E.
    + by rewrite InWasm_compiled.
    + rewrite InWasm_uncompiled by done. by intros [= <- <-].
  - intros def1 w1 msg w2.
    destruct (truthy (get (props_at w1 def1) "d")) eqn:E.
    + rewrite EmWasm_compiled by done.
      destruct (dec P _ w1) as [[b|err] w3] eqn:E'; [done|].
      intros [= -> ->]. by apply no_Error_dec in E'.
    + rewrite EmWasm_uncompiled by done. by intros [= <- <-].
  - intros a. apply no_Error_call_in.
  - intros a. apply no_Error_call_em.
Qed.

(** C5 at the adder of the README, run without the compile step. *)
Lemma C5_witness :
  Inwasm.InWasm None 0%nat (Examples.world_with Examples.authoring)
  = (Throw Inwasm.must_run, Examples.world_with Examples.authoring).
Proof.
  apply (C5_missing_compile_step (Examples.engine true) 0%nat
           (Examples.world_with Examples.authoring)).
  reflexivity.
Defined.

(** C1, as stated, fails: a definition that has the field [d], holding the
    empty string, is not given an accessor; both entry points treat it as
    uncompiled and raise. *)
Lemma C1_counterexample :
  let w := Examples.world_with
             (Examples.compiled OutputType.BYTES OutputMode.SYNC "" VUndef) in
  has (props_at w 0%nat) "d" = true
  ∧ Inwasm.InWasm None 0%nat w = (Throw Inwasm.must_run, w)
  ∧ Emwasm.EmWasm (Examples.engine true) None 0%nat w = (Throw Emwasm.must_run, w).
Proof. split_and!; reflexivity. Qed.

(** C1, amended.  The outcome of the entry point is decided by the
    truthiness of [d], not by its presence.  With a truthy [d], [InWasm]
    returns an accessor over new, empty closure variables, and [EmWasm]
    decodes [d] first: it returns an accessor when the decoder returns and
    raises what the decoder raises otherwise.  With a falsy or missing [d]
    and a capture context, the entry point calls [add] with the definition
    and returns nothing when [add] returns, what [add] raises passes
    through.  With a falsy or missing [d] and no context it raises. *)
Theorem C1_entry_by_truthiness (P : Platform) (ctx : option Ctx) (def : loc) (w : World) :
  let o := props_at w def in
  (truthy (get o "d") = true →
     (∃ a, Inwasm.InWasm ctx def w
           = (Normal (Some a),
              set_heap (insert (fresh (dom (heap w))) (OEnv VUndef VUndef)) w))
     ∧ (∀ b w1, dec P (get o "d") w = (Normal b, w1) →
          ∃ a, Emwasm.EmWasm P ctx def w
               = (Normal (Some a),
                  set_heap (insert (fresh (dom (heap w1))) (OEnv b VUndef)) w1))
     ∧ (∀ err w1, dec P (get o "d") w = (Throw err, w1) →
          Emwasm.EmWasm P ctx def w = (Throw err, w1)))
  ∧ (truthy (get o "d") = false → ∀ c, ctx = Some c →
       Inwasm.InWasm ctx def w
       = match add c def w with
         | (Normal _, w1) => (Normal None, w1)
         | (Throw err, w1) => (Throw err, w1)
         end
       ∧ Emwasm.EmWasm P ctx def w = Inwasm.InWasm ctx def w)
  ∧ (truthy (get o "d") = false → ctx = None →
       Inwasm.InWasm ctx def w = (Throw Inwasm.must_run, w)
       ∧ Emwasm.EmWasm P ctx def w = (Throw Emwasm.must_run, w)).
Proof.
  intros o. split_and!.
  - intros Hd. split_and!.
    + eexists. by apply InWasm_compiled.
    + intros b w1 E. eexists. rewrite EmWasm_compiled by done. fold o. by rewrite E.
    + intros err w1 E. rewrite EmWasm_compiled by done. fold o. by rewrite E.
  - intros Hd c ->. rewrite InWasm_uncompiled, EmWasm_uncompiled by done.
    split; [|done]. unfold bind, ret. by destruct (add c def w) as [[[]|] ?].
  - intros Hd ->. by rewrite InWasm_uncompiled, EmWasm_uncompiled.
Qed.

(** C1 at work: a compiled definition without a context, and the adder of
    the README in front of a context whose [add] raises. *)
Lemma C1_witness :
  (∃ a, Inwasm.InWasm None 0%nat
          (Examples.world_with
             (Examples.compiled OutputType.BYTES OutputMode.SYNC "AGFzbQEAAAA=" VUndef))
        = (Normal (Some a),
           set_heap (insert 1%nat (OEnv VUndef VUndef))
             (Examples.world_with
                (Examples.compiled OutputType.BYTES OutputMode.SYNC "AGFzbQEAAAA=" VUndef))))
  ∧ Inwasm.InWasm (Some Examples.raising_ctx) 0%nat (Examples.world_with Examples.authoring)
    = (Throw (Raised (VObj 0%nat)), Examples.world_with Examples.authoring).
Proof.
  split.
  - apply (C1_entry_by_truthiness (Examples.engine true) None 0%nat
             (Examples.world_with
                (Examples.compiled OutputType.BYTES OutputMode.SYNC "AGFzbQEAAAA=" VUndef))).
    reflexivity.
  - destruct (C1_entry_by_truthiness (Examples.engine true)
                (Some Examples.raising_ctx) 0%nat
                (Examples.world_with Examples.authoring)) as (_ & H & _).
    destruct (H eq_refl _ eq_refl) as [-> _]. reflexivity.
Defined.

(* ===================================================================== *)
(** ** What a computation adds to the trace *)
(* ===================================================================== *)

Section Logs.

Context {A B : Type}.

Lemma logs_weaken (m : M A) (Q Q' : Completion A → list Event → Prop) :
  logs m Q → (∀ r evs, Q r evs → Q' r evs) → logs m Q'.
Proof.
  intros Hm HQ w r w' E. destruct (Hm w r w' E) as (evs & ? & ?). eauto.
Qed.

Lemma logs_bind (m : M A) (k : A → M B) Q1 (Q2 : A → Completion B → list Event → Prop) :
  logs m Q1 → (∀ a, logs (k a) (Q2 a)) →
  logs (bind m k)
    (λ r evs,
       (∃ a evs1 evs2, evs = evs2 ++ evs1 ∧ Q1 (Normal a) evs1 ∧ Q2 a r evs2)
       ∨ (∃ err, r = Throw err ∧ Q1 (Throw err) evs)).
Proof.
  intros Hm Hk w r w' E. unfold bind in E.
  destruct (m w) as [[a|err] w1] eqn:Em.
  - destruct (Hm _ _ _ Em) as (evs1 & T1 & H1).
    destruct (Hk a _ _ _ E) as (evs2 & T2 & H2).
    exists (evs2 ++ evs1). split; [by rewrite T2, T1, app_assoc|].
    left. eauto 10.
  - injection E as <- <-.
    destruct (Hm _ _ _ Em) as (evs1 & T1 & H1). eauto 10.
Qed.

(** A step that leaves the trace alone and always returns. *)
Lemma logs_silent (f : World → A * World) :
  (∀ w, trace (f w).2 = trace w) →
  logs (λ w, (Normal (f w).1, (f w).2)) (λ r evs, evs = [] ∧ ∃ a, r = Normal a).
Proof.
  intros Hf w r w' [= <- <-]. exists []. rewrite Hf. eauto.
Qed.

End Logs.

Section LogsPrimitives.

Implicit Types (w : World) (env : loc) (v : JsVal).

Lemma logs_ret {A} (a : A) : logs (ret a) quiet_ok.
Proof. intros w r w' [= <- <-]. exists []. split; [done|]. split; eauto. Qed.

Lemma logs_throw {A} err : logs (throw (A:=A) err) quiet.
Proof. intros w r w' [= <- <-]. by exists []. Qed.

Lemma logs_alloc o : logs (alloc o) quiet_ok.
Proof. intros w r w' [= <- <-]. exists []. split; [done|]. split; eauto. Qed.

Lemma logs_push_job j : logs (push_job j) quiet_ok.
Proof. intros w r w' [= <- <-]. exists []. split; [done|]. split; eauto. Qed.

Lemma logs_read_bytes env : logs (read_bytes env) quiet_ok.
Proof. intros w r w' [= <- <-]. exists []. split; [done|]. split; eauto. Qed.

Lemma logs_read_mod env : logs (read_mod env) quiet_ok.
Proof. intros w r w' [= <- <-]. exists []. split; [done|]. split; eauto. Qed.

Lemma logs_write_bytes env v : logs (write_bytes env v) quiet_ok.
Proof. intros w r w' [= <- <-]. exists []. split; [done|]. split; eauto. Qed.

Lemma logs_write_mod env v : logs (write_mod env v) quiet_ok.
Proof. intros w r w' [= <- <-]. exists []. split; [done|]. split; eauto. Qed.

Lemma logs_bytes_of v : logs (bytes_of v) quiet.
Proof.
  intros w r w' E. exists []. split; [|done].
  unfold bytes_of in E. by repeat case_match; simplify_eq.
Qed.

Lemma logs_module_of v : logs (module_of v) quiet.
Proof.
  intros w r w' E. exists []. split; [|done].
  unfold module_of in E. by repeat case_match; simplify_eq.
Qed.

Lemma logs_read_prop v k : logs (read_prop v k) quiet.
Proof.
  intros w r w' E. exists []. split; [|done].
  unfold read_prop in E. by repeat case_match; simplify_eq.
Qed.

Lemma logs_validate P c : logs (validate P c) quiet.
Proof.
  intros w r w' E. exists []. split; [|done].
  unfold validate in E. by repeat case_match; simplify_eq.
Qed.

Lemma logs_link P c i : logs (link P c i) quiet.
Proof.
  intros w r w' E. exists []. split; [|done].
  unfold link in E. by repeat case_match; simplify_eq.
Qed.

Lemma logs_log ev : logs (log ev) (λ r evs, evs = [ev] ∧ r = Normal tt).
Proof. intros w r w' [= <- <-]. by exists [ev]. Qed.

End LogsPrimitives.

Lemma new_events_app (w w' : World) (evs : list Event) :
  trace w' = evs ++ trace w → new_events w w' = evs.
Proof.
  intros E. unfold new_events. rewrite E, length_app.
  replace (length evs + length (trace w) - length (trace w))%nat
    with (length evs) by lia.
  by rewrite take_app_length.
Qed.

(* ===================================================================== *)
(** ** C4: the import argument *)
(* ===================================================================== *)

Section Imports.

Implicit Types (P : Platform) (a : Accessor) (io : option ImportObject).

Lemma instantiations_app (evs2 evs1 : list Event) :
  instantiations (evs2 ++ evs1) = instantiations evs2 ++ instantiations evs1.
Proof. apply omap_app. Qed.

Lemma no_inst_bind {A B} (m : M A) (k : A → M B) :
  logs m no_inst → (∀ x, logs (k x) no_inst) → logs (bind m k) no_inst.
Proof.
  intros Hm Hk. eapply logs_weaken; [apply logs_bind; [exact Hm|exact Hk]|].
  intros r evs [(x & evs1 & evs2 & -> & H1 & H2)|(err & -> & H1)]; [|done].
  unfold no_inst in *. by rewrite instantiations_app, H1, H2.
Qed.

Lemma no_inst_quiet {A} (m : M A) : logs m quiet → logs m no_inst.
Proof.
  intros H. eapply logs_weaken; [exact H|].
  intros r evs E. red in E. by subst.
Qed.

Lemma no_inst_quiet_ok {A} (m : M A) : logs m quiet_ok → logs m no_inst.
Proof.
  intros H. eapply logs_weaken; [exact H|].
  intros r evs [E _]. by subst.
Qed.

Lemma no_inst_log_decode d : logs (log (EvDecode d)) no_inst.
Proof. eapply logs_weaken; [apply logs_log|]. by intros r evs [-> _]. Qed.

Lemma no_inst_log_compile b :
  logs (log (EvHost (NewModule b))) no_inst ∧ logs (log (EvHost (Compile b))) no_inst.
Proof. split; (eapply logs_weaken; [apply logs_log|]); by intros r evs [-> _]. Qed.

Ltac no_inst :=
  repeat first
    [ apply no_inst_bind; [|intros ?]
    | apply no_inst_log_decode
    | apply no_inst_log_compile
    | apply no_inst_quiet_ok;
        first [ apply logs_ret | apply logs_alloc | apply logs_push_job
              | apply logs_read_bytes | apply logs_read_mod
              | apply logs_write_bytes | apply logs_write_mod ]
    | apply no_inst_quiet;
        first [ apply logs_throw | apply logs_bytes_of | apply logs_module_of
              | apply logs_read_prop | apply logs_validate | apply logs_link ]
    | match goal with
      | |- logs (if ?b then _ else _) _ => destruct b
      | |- logs (match ?x with _ => _ end) _ => destruct x
      end ].

Lemma no_inst_dec P d : logs (dec P d) no_inst.
Proof. unfold dec. no_inst. Qed.

Lemma no_inst_perform_compile P b : logs (perform P (NewModule b)) no_inst.
Proof. cbn [perform]. no_inst. Qed.

Lemma no_inst_or_bytes P a : logs (Inwasm.or_bytes P a) no_inst.
Proof. unfold Inwasm.or_bytes. no_inst. Qed.

Lemma no_inst_new_module P b : logs (host_sync P (NewModule b)) no_inst.
Proof. unfold host_sync. no_inst. Qed.

Lemma no_inst_or_mod P a : logs (Inwasm.or_mod P a) no_inst.
Proof.
  unfold Inwasm.or_mod. no_inst.
Qed.

Lemma one_inst_new_instance P m io :
  logs (host_sync P (NewInstance m io)) (one_inst io).
Proof.
  unfold host_sync. eapply logs_weaken.
  - apply logs_bind; [apply logs_log|]. intros u.
    instantiate (1 := λ _, no_inst). cbn [perform]. no_inst.
  - intros r evs [(x & evs1 & evs2 & -> & [-> _] & H2)|(err & -> & [-> [=]])].
    unfold one_inst, no_inst in *. by rewrite instantiations_app, H2.
Qed.

Lemma one_inst_host_async src io rc :
  logs (host_async (Instantiate src io) rc)
    (λ r evs, instantiations evs = [io] ∧ ∃ v, r = Normal v).
Proof.
  intros w r w'. unfold host_async, bind, log, alloc, push_job, ret. cbn.
  intros [= <- <-]. exists [EvHost (Instantiate src io)]. cbn. eauto.
Qed.

Lemma inst_of_call_in P a :
  acc_arrow a = InstanceSync ∨ acc_arrow a = InstanceAsync →
  logs (Inwasm.call P a) (inst_of_call (_env (acc_e a))).
Proof.
  unfold Inwasm.call. intros [-> | ->].
  - eapply logs_weaken.
    + apply logs_bind; [apply no_inst_or_mod|]. intros m. apply one_inst_new_instance.
    + intros r evs [(x & evs1 & evs2 & -> & H1 & H2)|(err & -> & H1)].
      * unfold inst_of_call, one_inst, no_inst in *.
        rewrite instantiations_app, H1, H2. destruct r; auto.
      * by left.
  - eapply logs_weaken.
    + apply logs_bind; [apply logs_read_mod|]. intros m.
      instantiate (1 := λ _, inst_of_call (_env (acc_e a))).
      destruct (truthy m).
      * eapply logs_weaken; [apply one_inst_host_async|].
        by intros r evs [H [v ->]].
      * eapply logs_weaken.
        { apply logs_bind; [apply no_inst_or_bytes|]. intros b. apply one_inst_host_async. }
        intros r evs [(x & evs1 & evs2 & -> & H1 & H2 & v & ->)|(err & -> & H1)].
        -- unfold inst_of_call, no_inst in *. by rewrite instantiations_app, H1, H2.
        -- by left.
    + intros r evs [(x & evs1 & evs2 & -> & [-> _] & H2)|(err & -> & [_ [? [=]]])].
      by rewrite app_nil_r.
Qed.

Lemma inst_of_call_em P a :
  acc_arrow a = InstanceSync ∨ acc_arrow a = InstanceAsync →
  logs (Emwasm.call P a) (inst_of_call (_env (acc_e a))).
Proof.
  unfold Emwasm.call. intros [-> | ->].
  - eapply logs_weaken.
    + apply logs_bind; [apply logs_read_bytes|]. intros b.
      apply logs_bind; [apply no_inst_new_module|]. intros m.
      apply one_inst_new_instance.
    + intros r evs [(x & evs1 & evs2 & -> & [-> _] & H)|(err & -> & [_ [? [=]]])].
      rewrite app_nil_r.
      destruct H as [(y & evs1 & evs3 & -> & H1 & H2)|(err & -> & H1)].
      * unfold inst_of_call, one_inst, no_inst in *.
        rewrite instantiations_app, H1, H2. destruct r; auto.
      * by left.
  - eapply logs_weaken.
    + apply logs_bind; [apply logs_read_bytes|]. intros b. apply one_inst_host_async.
    + intros r evs [(x & evs1 & evs2 & -> & [-> _] & H & v & ->)|(err & -> & [_ [? [=]]])].
      by rewrite app_nil_r.
Qed.

End Imports.

(** C4, as stated, fails: with [e] set to the string [imp] the import
    object handed to the engine has the single key [env], holding [e]
    itself, and no key [imp]. *)
Lemma C4_counterexample :
  let w0 := Examples.world_with
              (Examples.compiled OutputType.INSTANCE OutputMode.SYNC
                 "AGFzbQEAAAA=" (VStr "imp")) in
  ∃ a w1 r w2,
    Inwasm.InWasm None 0%nat w0 = (Normal (Some a), w1)
    ∧ acc_e a = VStr "imp"
    ∧ Inwasm.call (Examples.engine true) a w1 = (r, w2)
    ∧ instantiations (new_events w1 w2) = [Some {[ "env" := VStr "imp" ]}]
    ∧ ({[ "env" := VStr "imp" ]} : ImportObject) !! "imp" = None.
Proof.
  do 4 eexists. split_and!; [reflexivity|reflexivity|reflexivity|by vm_compute|by vm_compute].
Qed.

(** C4, amended.  For an INSTANCE accessor of either loader, every
    instantiation a call invokes receives [_env(e)] as its import
    argument, and a call that returns has invoked exactly one.  When [e] is
    unset, or holds any other falsy value, that argument is absent; when
    [e] is truthy it is the object [{ env: e }]: one top-level key, always
    the literal [env], whose value is [e] itself. *)
Theorem C4_import_object (P : Platform) (a : Accessor) :
  acc_arrow a = InstanceSync ∨ acc_arrow a = InstanceAsync →
  (∀ w r w',
     Inwasm.call P a w = (r, w') ∨ Emwasm.call P a w = (r, w') →
     Forall (λ i, i = _env (acc_e a)) (instantiations (new_events w w'))
     ∧ (∀ v, r = Normal v → instantiations (new_events w w') = [_env (acc_e a)]))
  ∧ (truthy (acc_e a) = false → _env (acc_e a) = None)
  ∧ (truthy (acc_e a) = true →
       _env (acc_e a) = Some {[ "env" := acc_e a ]}
       ∧ dom ({[ "env" := acc_e a ]} : ImportObject) = {[ "env" ]}).
Proof.
  intros Ha. split_and!.
  - intros w r w' E.
    assert (∃ evs, trace w' = evs ++ trace w ∧ inst_of_call (_env (acc_e a)) r evs)
      as (evs & T & H).
    { destruct E as [E|E]; [by eapply inst_of_call_in|by eapply inst_of_call_em]. }
    rewrite (new_events_app _ _ _ T). unfold inst_of_call in H.
    destruct r as [v|err].
    + rewrite H. split; [by repeat constructor|done].
    + split; [|done]. destruct H as [-> | ->]; by repeat constructor.
  - unfold _env. by intros ->.
  - unfold _env. intros ->. split; [done|]. apply dom_singleton_L.
Qed.

(** C4 on the instance accessor of a definition that sets no [e], and of
    one whose [e] is an object. *)
Lemma C4_witness :
  _env (acc_e (mkAccessor InstanceSync (VStr "AGFzbQEAAAA=") VUndef 1%nat)) = None
  ∧ _env (acc_e (mkAccessor InstanceAsync (VStr "AGFzbQEAAAA=") (VObj 7%nat) 1%nat))
    = Some {[ "env" := VObj 7%nat ]}.
Proof.
  split.
  - apply (C4_import_object (Examples.engine true)
             (mkAccessor InstanceSync (VStr "AGFzbQEAAAA=") VUndef 1%nat)).
    + by left.
    + reflexivity.
  - apply (C4_import_object (Examples.engine true)
             (mkAccessor InstanceAsync (VStr "AGFzbQEAAAA=") (VObj 7%nat) 1%nat)).
    + by right.
    + reflexivity.
Defined.

(* ===================================================================== *)
(** ** The memoising expressions of [InWasm] *)
(* ===================================================================== *)

Section Memo.

Implicit Types (P : Platform) (a : Accessor) (w : World) (l env : loc) (v : JsVal).

(** Unfolds the monad and its primitive steps. *)
Ltac run :=
  unfold bind, ret, throw, alloc, log, push_job, read_bytes, read_mod,
    write_bytes, write_mod; cbn [fst snd heap trace jobs set_heap].

Lemma dec_ok P s c w :
  _dec (hasBuffer P) s = Some c →
  dec P (VStr s) w
  = (Normal (VObj (fresh (dom (heap w)))),
     mkWorld (<[fresh (dom (heap w)) := OBytes c]> (heap w))
             (EvDecode (VStr s) :: trace w) (jobs w)).
Proof. intros E. unfold dec. rewrite E. reflexivity. Qed.

Lemma dec_fail P d w r w' :
  dec P d w = (Throw r, w') →
  w' = mkWorld (heap w) (EvDecode d :: trace w) (jobs w)
  ∧ (r = DOMException ∨ r = TypeError).
Proof.
  unfold dec. run. destruct d; try (intros [= <- <-]; by auto).
  destruct (_dec (hasBuffer P) s); intros [= <- <-]; auto.
Qed.

Lemma dec_returns P d w b w' :
  dec P d w = (Normal b, w') →
  ∃ s c, d = VStr s ∧ _dec (hasBuffer P) s = Some c
         ∧ b = VObj (fresh (dom (heap w)))
         ∧ w' = mkWorld (<[fresh (dom (heap w)) := OBytes c]> (heap w))
                        (EvDecode d :: trace w) (jobs w).
Proof.
  unfold dec. run. destruct d; try done.
  destruct (_dec (hasBuffer P) s) eqn:E; [|done].
  intros [= <- <-]. eauto 10.
Qed.

(** [bytes || (bytes = _dec(d))] *)
Lemma or_bytes_hit P a w :
  truthy (env_bytes w (acc_env a)) = true →
  Inwasm.or_bytes P a w = (Normal (env_bytes w (acc_env a)), w).
Proof. intros H. unfold Inwasm.or_bytes. run. by rewrite H. Qed.

Lemma or_bytes_miss P a w :
  truthy (env_bytes w (acc_env a)) = false →
  Inwasm.or_bytes P a w
  = match dec P (acc_d a) w with
    | (Normal b, w1) =>
        (Normal b, set_heap (insert (acc_env a) (OEnv b (env_mod w1 (acc_env a)))) w1)
    | (Throw err, w1) => (Throw err, w1)
    end.
Proof.
  intros H. unfold Inwasm.or_bytes. run. rewrite H.
  by destruct (dec P (acc_d a) w) as [[b|err] w1].
Qed.

(** After [bytes || (bytes = _dec(d))] has returned, [bytes] holds the
    returned value, [mod] is what it was, and nothing else of the heap
    changed but for the new byte array. *)
Lemma or_bytes_returns P a w b w' :
  has_env w (acc_env a) = true →
  Inwasm.or_bytes P a w = (Normal b, w') →
  env_bytes w' (acc_env a) = b ∧ env_mod w' (acc_env a) = env_mod w (acc_env a)
  ∧ truthy b = true ∧ jobs w' = jobs w
  ∧ ((truthy (env_bytes w (acc_env a)) = true ∧ w' = w)
     ∨ (truthy (env_bytes w (acc_env a)) = false
        ∧ ∃ l s c, b = VObj l ∧ l = fresh (dom (heap w)) ∧ acc_d a = VStr s
            ∧ _dec (hasBuffer P) s = Some c
            ∧ heap w' = <[acc_env a := OEnv b (env_mod w (acc_env a))]>
                          (<[l := OBytes c]> (heap w))
            ∧ trace w' = EvDecode (acc_d a) :: trace w)).
Proof.
  intros He. destruct (truthy (env_bytes w (acc_env a))) eqn:Hb.
  - rewrite or_bytes_hit by done. intros [= <- <-]. split_and!; auto.
  - rewrite or_bytes_miss by done.
    destruct (dec P (acc_d a) w) as [[b'|err] w1] eqn:E; [|done].
    intros [= <- <-].
    apply dec_returns in E as (s & c & Hd & Hc & -> & ->).
    pose proof (has_env_lookup _ _ He) as Hl.
    assert (Hne : fresh (dom (heap w)) ≠ acc_env a).
    { intros Heq. pose proof (fresh_heap w) as Hf. rewrite Heq in Hf. congruence. }
    assert (Hm : env_mod
      {| heap := <[fresh (dom (heap w)):=OBytes c]> (heap w);
         trace := EvDecode (acc_d a) :: trace w; jobs := jobs w |} (acc_env a)
      = env_mod w (acc_env a)).
    { unfold env_mod. cbn. by rewrite lookup_insert_ne. }
    split_and!.
    + apply env_bytes_insert_env.
    + rewrite env_mod_insert_env. exact Hm.
    + done.
    + done.
    + right. split; [done|]. exists (fresh (dom (heap w))), s, c.
      split_and!; try done. cbn. by rewrite Hm.
Qed.

End Memo.

(* ===================================================================== *)
(** ** C3: BYTES *)
(* ===================================================================== *)

Section Bytes.

Implicit Types (P : Platform) (a : Accessor) (w : World) (l env : loc) (v : JsVal).

Lemma delivered_mono w w' q :
  heap w ⊆ heap w' → is_Some (heap w !! q) →
  delivered w' (VObj q) = delivered w (VObj q).
Proof.
  intros Hsub [o Ho]. unfold delivered.
  by rewrite (lookup_weaken _ _ _ _ Ho Hsub), Ho.
Qed.

Lemma heap_alloc_subseteq w o :
  heap w ⊆ heap (set_heap (insert (fresh (dom (heap w))) o) w).
Proof. cbn. apply insert_subseteq, fresh_heap. Qed.

(** A call of a BYTES accessor whose [bytes] is filled. *)
Lemma bytes_call_cached P a l c w :
  acc_arrow a = BytesSync ∨ acc_arrow a = BytesAsync →
  bytes_cached a l c w →
  ∃ q w1, Inwasm.call P a w = (Normal (VObj q), w1)
    ∧ bytes_cached a l c w1 ∧ trace w1 = trace w ∧ heap w ⊆ heap w1
    ∧ is_Some (heap w1 !! q) ∧ delivered w1 (VObj q) = VObj l
    ∧ (acc_arrow a = BytesSync → q = l).
Proof.
  intros Ha [Hb Hl]. unfold Inwasm.call.
  destruct Ha as [Ha|Ha]; rewrite Ha.
  - exists l, w. rewrite or_bytes_hit by (by rewrite Hb). rewrite Hb.
    split_and!; [done|by split|done|done|by eexists| |done].
    unfold delivered. by rewrite Hl.
  - unfold bind. rewrite or_bytes_hit by (by rewrite Hb). rewrite Hb.
    exists (fresh (dom (heap w))),
      (set_heap (insert (fresh (dom (heap w))) (OPromise (Fulfilled (VObj l)))) w).
    assert (Hne : ∀ q o, heap w !! q = Some o → fresh (dom (heap w)) ≠ q).
    { intros q o Hq Heq. pose proof (fresh_heap w) as Hf. rewrite Heq in Hf. congruence. }
    assert (He : has_env w (acc_env a) = true).
    { apply truthy_env_bytes. by rewrite Hb. }
    apply has_env_lookup in He.
    split_and!; [done| | done | | | | done].
    + split.
      * rewrite env_bytes_insert_ne by eauto. done.
      * cbn. rewrite lookup_insert_ne by eauto. done.
    + apply heap_alloc_subseteq.
    + cbn. rewrite lookup_insert_eq. by eexists.
    + unfold delivered. cbn. by rewrite lookup_insert_eq.
Qed.

Lemma bytes_calls_cached P a l c :
  acc_arrow a = BytesSync ∨ acc_arrow a = BytesAsync →
  ∀ n w, bytes_cached a l c w →
    let res := calls (Inwasm.call P a) n w in
    bytes_cached a l c res.2 ∧ trace res.2 = trace w ∧ heap w ⊆ heap res.2
    ∧ Forall (λ r, ∃ q, r = Normal (VObj q) ∧ delivered res.2 (VObj q) = VObj l) res.1
    ∧ (acc_arrow a = BytesSync → res.1 = replicate n (Normal (VObj l))).
Proof.
  intros Ha. induction n as [|n IH]; intros w Hc; cbn [calls fst snd].
  - split_and!; try done.
  - destruct (bytes_call_cached P a l c w Ha Hc)
      as (q & w1 & E & Hc1 & T1 & S1 & Hq & D1 & Hs).
    rewrite E. cbn [fst snd].
    destruct (IH w1 Hc1) as (Hc2 & T2 & S2 & F2 & R2).
    split_and!.
    + done.
    + by rewrite T2.
    + by etrans.
    + constructor; [|done]. exists q. split; [done|].
      by rewrite (delivered_mono w1).
    + intros Hsync. rewrite (R2 Hsync). by rewrite (Hs Hsync).
Qed.

End Bytes.

(** C3.  A compiled BYTES definition whose [d] is the base64 text of the
    bytes [bs], in either mode and on either platform: however many times
    the accessor of [InWasm] is called, every call delivers the same byte
    array [l] (directly in SYNC mode, as the value of a fulfilled promise
    in ASYNC mode), its content is [bs], and [_dec] ran exactly once.
    [_dec] itself inverts the encoder on both platforms; with [Buffer] it
    is the platform decoder, without it the characters of [atob]'s result
    mapped to their code units. *)
Theorem C3_bytes_once_roundtrip
    (P : Platform) (ctx : option Ctx) (def : loc) (w0 : World) (bs : list Z) :
  forallb is_byteb bs = true → bs ≠ [] →
  get (props_at w0 def) "d" = VStr (base64_encode bs) →
  get (props_at w0 def) "t" = VNum OutputType.BYTES →
  (∃ a w1 l,
     Inwasm.InWasm ctx def w0 = (Normal (Some a), w1)
     ∧ ∀ n, let res := calls (Inwasm.call P a) (S n) w1 in
         heap res.2 !! l = Some (OBytes bs)
         ∧ Forall (λ r, ∃ q, r = Normal (VObj q) ∧ delivered res.2 (VObj q) = VObj l) res.1
         ∧ (truthy (get (props_at w0 def) "s") = true →
              res.1 = replicate (S n) (Normal (VObj l)))
         ∧ trace res.2 = EvDecode (VStr (base64_encode bs)) :: trace w0)
  ∧ _dec (hasBuffer P) (base64_encode bs) = Some bs
  ∧ (∀ s, _dec true s = Some (Buffer_from_base64 s))
  ∧ (∀ s, _dec false s
          = (λ b, map (λ c, Z_of_ascii c mod 256) (list_ascii_of_string b)) <$> atob s).
Proof.
  intros Hbytes Hne Hd Ht.
  assert (Hb : Forall is_byte bs).
  { apply Forall_forall. intros b Hin.
    rewrite forallb_forall in Hbytes.
    apply list_elem_of_In, Hbytes in Hin. unfold is_byteb, is_byte in *. lia. }
  pose proof (_dec_encode (hasBuffer P) bs Hb) as Hdec.
  split_and!; [|done|done|apply _dec_fallback].
  set (s := get (props_at w0 def) "s").
  set (env := fresh (dom (heap w0))).
  set (w1 := set_heap (insert env (OEnv VUndef VUndef)) w0).
  set (a := mkAccessor (arrow_of (VNum OutputType.BYTES) s)
              (VStr (base64_encode bs)) (get (props_at w0 def) "e") env).
  set (l := fresh (dom (heap w1))).
  exists a, w1, l. split.
  { rewrite InWasm_compiled; rewrite Hd.
    - by rewrite Ht.
    - cbn. by rewrite base64_encode_nonempty. }
  assert (Ha : acc_arrow a = BytesSync ∨ acc_arrow a = BytesAsync).
  { cbn. unfold arrow_of. cbn. destruct (truthy s); auto. }
  assert (He : has_env w1 env = true).
  { unfold has_env, w1. cbn. by rewrite lookup_insert_eq. }
  (* the first call decodes *)
  assert (Hmiss : truthy (env_bytes w1 (acc_env a)) = false).
  { unfold env_bytes, w1. cbn. by rewrite lookup_insert_eq. }
  pose proof (or_bytes_miss P a w1 Hmiss) as Hob.
  cbn [acc_d a] in Hob. rewrite (dec_ok P _ bs w1 Hdec) in Hob.
  fold l in Hob.
  set (w2 := set_heap (insert (acc_env a) (OEnv (VObj l)
               (env_mod {| heap := <[l:=OBytes bs]> (heap w1);
                           trace := EvDecode (VStr (base64_encode bs)) :: trace w1;
                           jobs := jobs w1 |} (acc_env a))))
               {| heap := <[l:=OBytes bs]> (heap w1);
                  trace := EvDecode (VStr (base64_encode bs)) :: trace w1;
                  jobs := jobs w1 |}) in *.
  assert (Hle : l ≠ env).
  { intros Heq. pose proof (fresh_heap w1) as Hf. fold l in Hf.
    rewrite Heq in Hf. unfold w1 in Hf. cbn in Hf. by rewrite lookup_insert_eq in Hf. }
  assert (Hc2 : bytes_cached a l bs w2).
  { split.
    - unfold w2. apply env_bytes_insert_env.
    - unfold w2. cbn. rewrite lookup_insert_ne by done. by rewrite lookup_insert_eq. }
  intros n.
  assert (Hfirst : ∃ q w3, Inwasm.call P a w1 = (Normal (VObj q), w3)
            ∧ bytes_cached a l bs w3 ∧ trace w3 = trace w2 ∧ heap w2 ⊆ heap w3
            ∧ is_Some (heap w3 !! q) ∧ delivered w3 (VObj q) = VObj l
            ∧ (acc_arrow a = BytesSync → q = l)).
  { destruct Ha as [Ha|Ha]; unfold Inwasm.call; rewrite Ha.
    - exists l, w2. rewrite Hob. destruct Hc2 as [? Hl2].
      split_and!; [done|by split|done|done|by eexists| |done].
      unfold delivered. by rewrite Hl2.
    - unfold bind. rewrite Hob.
      exists (fresh (dom (heap w2))),
        (set_heap (insert (fresh (dom (heap w2))) (OPromise (Fulfilled (VObj l)))) w2).
      destruct Hc2 as [Hb2 Hl2].
      assert (Hne2 : ∀ q o, heap w2 !! q = Some o → fresh (dom (heap w2)) ≠ q).
      { intros q o Hq Heq. pose proof (fresh_heap w2) as Hf. rewrite Heq in Hf. congruence. }
      assert (He2 : has_env w2 (acc_env a) = true).
      { apply truthy_env_bytes. by rewrite Hb2. }
      apply has_env_lookup in He2.
      split_and!; [done| | done | | | | done].
      + split.
        * rewrite env_bytes_insert_ne by eauto. done.
        * cbn. rewrite lookup_insert_ne by eauto. done.
      + apply heap_alloc_subseteq.
      + cbn. rewrite lookup_insert_eq. by eexists.
      + unfold delivered. cbn. by rewrite lookup_insert_eq. }
  destruct Hfirst as (q & w3 & E & Hc3 & T3 & S3 & Hq & D3 & Hs).
  cbn [calls]. rewrite E. cbn [fst snd].
  destruct (bytes_calls_cached P a l bs Ha n w3 Hc3) as (Hc4 & T4 & S4 & F4 & R4).
  split_and!.
  - apply Hc4.
  - constructor; [|done]. exists q. split; [done|]. by rewrite (delivered_mono w3).
  - intros Hs'. rewrite R4.
    + rewrite Hs; [done|]. cbn. unfold arrow_of. cbn. fold s. by rewrite Hs'.
    + cbn. unfold arrow_of. cbn. fold s. by rewrite Hs'.
  - rewrite T4, T3. reflexivity.
Qed.

(** C3 on the module header, in SYNC mode. *)
Lemma C3_witness :
  _dec true (base64_encode Examples.wasm_bytes) = Some Examples.wasm_bytes.
Proof.
  apply (C3_bytes_once_roundtrip (Examples.engine true) None 0%nat
           (Examples.world_with
              (Examples.compiled OutputType.BYTES OutputMode.SYNC
                 (base64_encode Examples.wasm_bytes) VUndef))
           Examples.wasm_bytes).
  - reflexivity.
  - discriminate.
  - reflexivity.
  - reflexivity.
Defined.

(* ===================================================================== *)
(** ** The engine operations, step by step *)
(* ===================================================================== *)

Section Engine.

Implicit Types (P : Platform) (a : Accessor) (w : World) (l env p : loc) (v b m : JsVal).

Lemma bytes_of_eq v w :
  bytes_of v w
  = match bytes_at w v with
    | Some c => (Normal c, w)
    | None => (Throw TypeError, w)
    end.
Proof. unfold bytes_of, bytes_at. by repeat case_match. Qed.

Lemma module_of_eq v w :
  module_of v w
  = match module_at w v with
    | Some lc => (Normal lc, w)
    | None => (Throw TypeError, w)
    end.
Proof. unfold module_of, module_at. by repeat case_match. Qed.

(** Compilation, given the bytes and the verdict of the engine. *)
Lemma perform_compile P op b w :
  op = NewModule b ∨ op = Compile b →
  perform P op w
  = match bytes_at w b with
    | None => (Throw TypeError, w)
    | Some c =>
        match wasm_validate P (trace w) c with
        | Some err => (Throw (EngineError err), w)
        | None =>
            (Normal (VObj (fresh (dom (heap w)))),
             set_heap (insert (fresh (dom (heap w))) (OModule c)) w)
        end
    end.
Proof.
  intros [-> | ->]; cbn [perform]; unfold bind; rewrite bytes_of_eq;
    destruct (bytes_at w b) as [c|]; try done;
    unfold validate; by destruct (wasm_validate P (trace w) c).
Qed.

(** Instantiation of a module. *)
Lemma perform_instantiate_module P op src io l c w :
  op = NewInstance src io ∨ op = Instantiate src io →
  module_at w src = Some (l, c) →
  perform P op w
  = match wasm_link P (trace w) c io with
    | Some err => (Throw (EngineError err), w)
    | None =>
        (Normal (VObj (fresh (dom (heap w)))),
         set_heap (insert (fresh (dom (heap w))) (OInstance l io)) w)
    end.
Proof.
  intros [-> | ->] Hm; cbn [perform]; unfold bind; rewrite module_of_eq, Hm;
    cbn [fst snd]; unfold link; by destruct (wasm_link P (trace w) c io).
Qed.

Lemma perform_new_instance_type_error P src io w :
  module_at w src = None →
  perform P (NewInstance src io) w = (Throw TypeError, w).
Proof. intros Hm. cbn [perform]. unfold bind. by rewrite module_of_eq, Hm. Qed.

(** [W.instantiate(bytes, imports)]: compile, link, and the object
    [{ module, instance }]. *)
Lemma perform_instantiate_bytes P src io w :
  module_at w src = None →
  perform P (Instantiate src io) w
  = match bytes_at w src with
    | None => (Throw TypeError, w)
    | Some c =>
        match wasm_validate P (trace w) c with
        | Some err => (Throw (EngineError err), w)
        | None =>
            match wasm_link P (trace w) c io with
            | Some err => (Throw (EngineError err), w)
            | None =>
                let lm := fresh (dom (heap w)) in
                let w1 := set_heap (insert lm (OModule c)) w in
                let li := fresh (dom (heap w1)) in
                let w2 := set_heap (insert li (OInstance lm io)) w1 in
                let lr := fresh (dom (heap w2)) in
                (Normal (VObj lr),
                 set_heap (insert lr (OPlain {[ "module" := VObj lm;
                                                "instance" := VObj li ]})) w2)
            end
        end
    end.
Proof.
  intros Hm. cbn [perform]. rewrite module_of_eq, Hm.
  unfold bind. rewrite bytes_of_eq.
  destruct (bytes_at w src) as [c|]; [|done].
  unfold validate. destruct (wasm_validate P (trace w) c); [done|].
  unfold link. by destruct (wasm_link P (trace w) c io).
Qed.

Lemma host_sync_eq P op w : host_sync P op w = perform P op (logged op w).
Proof. reflexivity. Qed.

Lemma host_async_eq op rc w :
  host_async op rc w
  = (Normal (VObj (fresh (dom (heap w)))),
     mkWorld (<[fresh (dom (heap w)) := OPromise Pending]> (heap w))
             (EvHost op :: trace w)
             (jobs w ++ [mkJob op rc (fresh (dom (heap w)))])).
Proof. reflexivity. Qed.

Lemma promise_resolve_eq v w :
  promise_resolve v w
  = (Normal (VObj (fresh (dom (heap w)))),
     set_heap (insert (fresh (dom (heap w))) (OPromise (Fulfilled v))) w).
Proof. reflexivity. Qed.

(** The job of a promise that was just allocated is found behind the jobs
    of older promises. *)
Lemma take_job_new (js : list Job) (j : Job) (h : gmap loc HeapObj) :
  forallb (λ j, bool_decide (is_Some (h !! job_promise j))) js = true →
  h !! job_promise j = None →
  take_job (job_promise j) (js ++ [j]) = Some (j, js).
Proof.
  intros Hjs Hp. induction js as [|j0 js IH]; cbn.
  - by rewrite bool_decide_eq_true_2.
  - cbn in Hjs. apply andb_prop in Hjs as [H0 Hjs].
    apply bool_decide_eq_true_1 in H0.
    rewrite bool_decide_eq_false_2.
    + by rewrite IH.
    + intros Heq. rewrite Heq, Hp in H0. by destruct H0.
Qed.

Lemma take_job_none (js : list Job) (p : loc) (h : gmap loc HeapObj) :
  forallb (λ j, bool_decide (is_Some (h !! job_promise j))) js = true →
  h !! p = None →
  take_job p js = None.
Proof.
  intros Hjs Hp. induction js as [|j0 js IH]; [done|]. cbn.
  cbn in Hjs. apply andb_prop in Hjs as [H0 Hjs].
  apply bool_decide_eq_true_1 in H0.
  rewrite bool_decide_eq_false_2.
  - by rewrite IH.
  - intros Heq. rewrite Heq, Hp in H0. by destruct H0.
Qed.

(** [mod || (mod = new W.Module(bytes || (bytes = _dec(d))))] *)
Lemma or_mod_hit P a w :
  truthy (env_mod w (acc_env a)) = true →
  Inwasm.or_mod P a w = (Normal (env_mod w (acc_env a)), w).
Proof. intros H. unfold Inwasm.or_mod, bind, read_mod. by rewrite H. Qed.

Lemma or_mod_miss P a w :
  truthy (env_mod w (acc_env a)) = false →
  Inwasm.or_mod P a w
  = match Inwasm.or_bytes P a w with
    | (Normal b, w1) =>
        match host_sync P (NewModule b) w1 with
        | (Normal m, w2) =>
            (Normal m,
             set_heap (insert (acc_env a) (OEnv (env_bytes w2 (acc_env a)) m)) w2)
        | (Throw err, w2) => (Throw err, w2)
        end
    | (Throw err, w1) => (Throw err, w1)
    end.
Proof.
  intros H. unfold Inwasm.or_mod, bind, read_mod. rewrite H.
  destruct (Inwasm.or_bytes P a w) as [[b|err] w1]; [|done].
  by destruct (host_sync P (NewModule b) w1) as [[m|err] w2].
Qed.

(** What [mod || ...] returns is what [mod] holds afterwards, and it is an
    object. *)
Lemma or_mod_returns P a w m w' :
  Inwasm.or_mod P a w = (Normal m, w') →
  env_mod w' (acc_env a) = m ∧ truthy m = true.
Proof.
  destruct (truthy (env_mod w (acc_env a))) eqn:Hm.
  - rewrite or_mod_hit by done. by intros [= <- <-].
  - rewrite or_mod_miss by done.
    destruct (Inwasm.or_bytes P a w) as [[b|err] w1]; [|done].
    rewrite host_sync_eq, (perform_compile P _ b) by auto.
    destruct (bytes_at _ b) as [c|]; [|done].
    destruct (wasm_validate P _ c); [done|].
    intros [= <- <-]. split; [|done]. apply env_mod_insert_env.
Qed.

End Engine.

(* ===================================================================== *)
(** ** C2: MODULE *)
(* ===================================================================== *)

Section Module.

Implicit Types (P : Platform) (a : Accessor) (w : World) (l env p q : loc) (v b m : JsVal).

Lemma promise_state_mono w w' q st :
  heap w ⊆ heap w' → promise_state w q = Some st → promise_state w' q = Some st.
Proof.
  intros Hsub. unfold promise_state.
  destruct (heap w !! q) as [o|] eqn:E; [|done].
  by rewrite (lookup_weaken _ _ _ _ E Hsub).
Qed.

Lemma jobs_allocated_mono w w' :
  dom (heap w) ⊆ dom (heap w') → jobs w' = jobs w →
  jobs_allocated w = true → jobs_allocated w' = true.
Proof.
  unfold jobs_allocated. intros Hd ->. rewrite !forallb_forall.
  intros H j Hj. specialize (H j Hj).
  apply bool_decide_eq_true_1 in H. apply bool_decide_eq_true_2.
  apply elem_of_dom. apply Hd. by apply elem_of_dom.
Qed.

Lemma ready_split a w :
  ready a w = true → has_env w (acc_env a) = true ∧ jobs_allocated w = true.
Proof. unfold ready. by intros [[? ?]%andb_prop _]%andb_prop. Qed.

Lemma has_env_ne_fresh w env : has_env w env = true → fresh (dom (heap w)) ≠ env.
Proof.
  intros He Heq. apply has_env_lookup in He.
  pose proof (fresh_heap w) as Hf. rewrite Heq in Hf. congruence.
Qed.

(** After [bytes || ...] the heap has at least the objects it had. *)
Lemma or_bytes_dom P a w b w' :
  has_env w (acc_env a) = true →
  Inwasm.or_bytes P a w = (Normal b, w') →
  dom (heap w) ⊆ dom (heap w') ∧ has_env w' (acc_env a) = true.
Proof.
  intros He E.
  destruct (or_bytes_returns P a w b w' He E) as (Hb & _ & Ht & _ & [[_ ->]|[_ H]]).
  - done.
  - destruct H as (l & s & c & -> & -> & _ & _ & Hh & _). split.
    + rewrite Hh, !dom_insert. set_solver.
    + unfold has_env. rewrite Hh. by rewrite lookup_insert_eq.
Qed.

(** A MODULE accessor in ASYNC mode whose [mod] is filled. *)
Lemma module_async_cached P a w :
  acc_arrow a = ModuleAsync →
  truthy (env_mod w (acc_env a)) = true →
  Inwasm.call P a w
  = (Normal (VObj (fresh (dom (heap w)))),
     set_heap (insert (fresh (dom (heap w)))
                 (OPromise (Fulfilled (env_mod w (acc_env a))))) w).
Proof.
  intros Ha Hm. unfold Inwasm.call. rewrite Ha.
  unfold bind, read_mod. by rewrite Hm.
Qed.

Lemma settle_found P p w j rest :
  take_job p (jobs w) = Some (j, rest) →
  settle P p w
  = match (v <~ perform P (job_op j);; react (job_then j) v)
            (mkWorld (heap w) (trace w) rest) with
    | (Normal v, w1) => set_heap (insert p (OPromise (Fulfilled v))) w1
    | (Throw err, w1) => set_heap (insert p (OPromise (Rejected err))) w1
    end.
Proof. intros E. unfold settle. by rewrite E. Qed.

Lemma settle_idle P p w :
  take_job p (jobs w) = None → settle P p w = w.
Proof. intros E. unfold settle. by rewrite E. Qed.

End Module.

(** C2, as stated, fails on [EmWasm]: its MODULE accessor keeps no module;
    two calls compile twice and return two different modules. *)
Lemma C2_counterexample :
  let w0 := Examples.world_with
              (Examples.compiled OutputType.MODULE OutputMode.SYNC
                 "AGFzbQEAAAA=" VUndef) in
  ∃ a w1 w3,
    Emwasm.EmWasm (Examples.engine true) None 0%nat w0 = (Normal (Some a), w1)
    ∧ calls (Emwasm.call (Examples.engine true) a) 2 w1
      = ([Normal (VObj 3%nat); Normal (VObj 4%nat)], w3)
    ∧ trace w3 = [EvHost (NewModule (VObj 1%nat)); EvHost (NewModule (VObj 1%nat));
                  EvDecode (VStr "AGFzbQEAAAA=")].
Proof. do 3 eexists. split_and!; [reflexivity|reflexivity|by vm_compute]. Qed.

(* ===================================================================== *)
(** ** C7: INSTANCE, SYNC *)
(* ===================================================================== *)

Section InstanceSync.

Implicit Types (P : Platform) (a : Accessor) (w : World) (l env p q : loc) (v b m : JsVal).

Lemma bytes_at_logged op w v : bytes_at (logged op w) v = bytes_at w v.
Proof. reflexivity. Qed.

Lemma module_at_logged op w v : module_at (logged op w) v = module_at w v.
Proof. reflexivity. Qed.

Lemma bytes_at_lookup w v c :
  bytes_at w v = Some c → ∃ l, v = VObj l ∧ heap w !! l = Some (OBytes c).
Proof.
  unfold bytes_at. destruct v; try done.
  destruct (heap w !! l) as [[]|] eqn:E; try done. intros [= <-]. eauto.
Qed.

Lemma module_at_lookup w v lm c :
  module_at w v = Some (lm, c) → v = VObj lm ∧ heap w !! lm = Some (OModule c).
Proof.
  unfold module_at. destruct v; try done.
  destruct (heap w !! l) as [[]|] eqn:E; try done. by intros [= <- <-].
Qed.

(** Any outcome of [bytes || ...] keeps the objects of the heap, the
    closure variables in place, the jobs and [mod]. *)
Lemma or_bytes_any P a w r w' :
  has_env w (acc_env a) = true →
  Inwasm.or_bytes P a w = (r, w') →
  dom (heap w) ⊆ dom (heap w') ∧ has_env w' (acc_env a) = true
  ∧ jobs w' = jobs w ∧ env_mod w' (acc_env a) = env_mod w (acc_env a).
Proof.
  intros He E. destruct r as [b|err].
  - destruct (or_bytes_dom P a w b w' He E) as [? ?].
    destruct (or_bytes_returns P a w b w' He E) as (_ & ? & _ & ? & _). done.
  - destruct (truthy (env_bytes w (acc_env a))) eqn:Hb.
    + by rewrite or_bytes_hit in E.
    + rewrite or_bytes_miss in E by done.
      destruct (dec P (acc_d a) w) as [[b|err'] w1] eqn:Ed; [done|].
      injection E as <- <-. apply dec_fail in Ed as [-> _]. done.
Qed.

(** What [mod || ...] has done when it returns. *)
Lemma or_mod_returns_how P a w m w' :
  has_env w (acc_env a) = true →
  Inwasm.or_mod P a w = (Normal m, w') →
  (truthy (env_mod w (acc_env a)) = true ∧ w' = w ∧ m = env_mod w (acc_env a))
  ∨ (truthy (env_mod w (acc_env a)) = false
     ∧ ∃ b w1 c,
         Inwasm.or_bytes P a w = (Normal b, w1)
         ∧ bytes_at w1 b = Some c
         ∧ wasm_validate P (EvHost (NewModule b) :: trace w1) c = None
         ∧ m = VObj (fresh (dom (heap w1)))
         ∧ w' = set_heap (insert (acc_env a) (OEnv b m))
                  (set_heap (insert (fresh (dom (heap w1))) (OModule c))
                     (logged (NewModule b) w1))).
Proof.
  intros He. destruct (truthy (env_mod w (acc_env a))) eqn:Hm.
  - rewrite or_mod_hit by done. intros [= <- <-]. by left.
  - rewrite or_mod_miss by done.
    destruct (Inwasm.or_bytes P a w) as [[b|err] w1] eqn:Eb; [|done].
    rewrite host_sync_eq, (perform_compile P _ b) by auto.
    rewrite bytes_at_logged.
    destruct (bytes_at w1 b) as [c|] eqn:Hc; [|done].
    destruct (wasm_validate P _ c) eqn:Hv; [done|].
    intros [= <- <-]. right. split; [done|].
    exists b, w1, c. split_and!; try done.
    destruct (or_bytes_dom P a w b w1 He Eb) as [_ He1].
    destruct (or_bytes_returns P a w b w1 He Eb) as (Hb1 & _).
    rewrite env_bytes_insert_ne by (by apply (has_env_ne_fresh (logged (NewModule b) w1))).
    unfold env_bytes at 1. cbn [logged heap]. fold (env_bytes w1 (acc_env a)).
    by rewrite Hb1.
Qed.

Lemma or_mod_any P a w r w' :
  has_env w (acc_env a) = true →
  Inwasm.or_mod P a w = (r, w') →
  dom (heap w) ⊆ dom (heap w') ∧ has_env w' (acc_env a) = true
  ∧ jobs w' = jobs w.
Proof.
  intros He E.
  destruct (truthy (env_mod w (acc_env a))) eqn:Hm.
  - rewrite or_mod_hit in E by done. by injection E as <- <-.
  - rewrite or_mod_miss in E by done.
    destruct (Inwasm.or_bytes P a w) as [[b|err] w1] eqn:Eb.
    + destruct (or_bytes_any P a w _ w1 He Eb) as (Hd & He1 & Hj & _).
      rewrite host_sync_eq, (perform_compile P _ b) in E by auto.
      destruct (bytes_at _ b) as [c|]; [|by injection E as <- <-].
      destruct (wasm_validate P _ c); injection E as <- <-; [done|].
      split_and!.
      * cbn. rewrite !dom_insert. set_solver.
      * unfold has_env. cbn. by rewrite lookup_insert_eq.
      * done.
    + injection E as <- <-. by destruct (or_bytes_any P a w _ w1 He Eb) as (? & ? & ? & _).
Qed.

(** A call in SYNC mode for an instance, whatever its outcome. *)
Lemma instance_sync_any P a w r w' :
  acc_arrow a = InstanceSync →
  has_env w (acc_env a) = true →
  Inwasm.call P a w = (r, w') →
  dom (heap w) ⊆ dom (heap w') ∧ has_env w' (acc_env a) = true
  ∧ ∀ v, r = Normal v →
      ∃ i, v = VObj i ∧ heap w !! i = None ∧ is_Some (heap w' !! i).
Proof.
  intros Ha He E. unfold Inwasm.call in E. rewrite Ha in E. unfold bind in E.
  destruct (Inwasm.or_mod P a w) as [[m|err] w1] eqn:Em.
  2:{ injection E as <- <-. destruct (or_mod_any P a w _ w1 He Em) as (? & ? & _).
      by split_and!. }
  destruct (or_mod_any P a w _ w1 He Em) as (Hd & He1 & _).
  rewrite host_sync_eq in E.
  destruct (module_at (logged (NewInstance m (_env (acc_e a))) w1) m) as [[lm c]|] eqn:Hm.
  2:{ rewrite perform_new_instance_type_error in E by done.
      injection E as <- <-. by split_and!. }
  rewrite (perform_instantiate_module P _ m _ lm c) in E by auto.
  destruct (wasm_link P _ c _); injection E as <- <-; [by split_and!|].
  split_and!.
  - cbn. rewrite dom_insert. set_solver.
  - unfold has_env. cbn. rewrite lookup_insert_ne; [exact He1|].
    by apply has_env_ne_fresh.
  - intros v [= <-]. eexists. split; [done|]. split.
    + apply not_elem_of_dom. intros Hin. apply Hd in Hin.
      by apply is_fresh in Hin.
    + cbn. rewrite lookup_insert_eq. by eexists.
Qed.

Lemma instance_sync_fresh P a :
  acc_arrow a = InstanceSync →
  ∀ n w, has_env w (acc_env a) = true →
    let res := calls (Inwasm.call P a) n w in
    NoDup (returned res.1)
    ∧ (∀ v, v ∈ returned res.1 → ∃ i, v = VObj i ∧ heap w !! i = None).
Proof.
  intros Ha. induction n as [|n IH]; intros w He; cbn [calls fst snd].
  - split; [constructor|]. by intros v ?%elem_of_nil.
  - destruct (Inwasm.call P a w) as [r w1] eqn:E. cbn [fst snd].
    destruct (instance_sync_any P a w r w1 Ha He E) as (Hd & He1 & Hr).
    destruct (IH w1 He1) as (Hnd & Hfresh).
    assert (Hold : ∀ v, v ∈ returned (calls (Inwasm.call P a) n w1).1 →
                     ∃ i, v = VObj i ∧ heap w !! i = None ∧ heap w1 !! i = None).
    { intros v Hv. destruct (Hfresh v Hv) as (i & -> & Hi). exists i.
      split_and!; [done| |done]. apply not_elem_of_dom. intros Hin.
      apply Hd in Hin. by apply not_elem_of_dom in Hi. }
    destruct r as [v|err]; cbn.
    + destruct (Hr v eq_refl) as (i & -> & Hi & [o Ho]). split.
      * constructor; [|done]. intros Hin.
        destruct (Hold _ Hin) as (i' & [= <-] & _ & Hi1). congruence.
      * intros v [->|Hv]%elem_of_cons; [eauto|].
        destruct (Hold _ Hv) as (i' & -> & ? & _). eauto.
    + split; [done|]. intros v Hv.
      destruct (Hold _ Hv) as (i' & -> & ? & _). eauto.
Qed.

End InstanceSync.

Section InstanceSyncDetail.

Implicit Types (P : Platform) (a : Accessor) (w : World) (l env p q : loc) (v b m : JsVal).

(** The engine logs nothing of its own. *)
Lemma perform_trace P op w r w' : perform P op w = (r, w') → trace w' = trace w.
Proof.
  destruct op; cbn [perform]; unfold bind, bytes_of, module_of, validate, link, alloc, ret;
    intros E; repeat case_match; by simplify_eq.
Qed.

(** A call in SYNC mode for an instance that returns: the instance is a
    new object built from the module [mod] holds afterwards, and the
    module was compiled in this call only when [mod] was empty. *)
Lemma instance_sync_returns P a w v w' :
  acc_arrow a = InstanceSync →
  has_env w (acc_env a) = true →
  Inwasm.call P a w = (Normal v, w') →
  ∃ i lm c,
    v = VObj i ∧ heap w !! i = None
    ∧ heap w' !! i = Some (OInstance lm (_env (acc_e a)))
    ∧ env_mod w' (acc_env a) = VObj lm
    ∧ heap w' !! lm = Some (OModule c)
    ∧ (truthy (env_mod w (acc_env a)) = true →
         env_mod w (acc_env a) = VObj lm
         ∧ trace w' = EvHost (NewInstance (VObj lm) (_env (acc_e a))) :: trace w)
    ∧ (truthy (env_mod w (acc_env a)) = false →
         heap w !! lm = None
         ∧ bytes_at w' (env_bytes w' (acc_env a)) = Some c
         ∧ ∃ evs,
             trace w' = EvHost (NewInstance (VObj lm) (_env (acc_e a)))
                        :: EvHost (NewModule (env_bytes w' (acc_env a))) :: evs
             ∧ (evs = trace w ∨ evs = EvDecode (acc_d a) :: trace w)).
Proof.
  intros Ha He E. unfold Inwasm.call in E. rewrite Ha in E. unfold bind in E.
  destruct (Inwasm.or_mod P a w) as [[m|err] w1] eqn:Em; [|done].
  destruct (or_mod_any P a w _ w1 He Em) as (Hd & He1 & _).
  rewrite host_sync_eq in E.
  destruct (module_at (logged (NewInstance m (_env (acc_e a))) w1) m) as [[lm c]|] eqn:Hm.
  2:{ by rewrite perform_new_instance_type_error in E. }
  rewrite (perform_instantiate_module P _ m _ lm c) in E by auto.
  destruct (wasm_link P _ c _); [done|]. injection E as <- <-.
  rewrite module_at_logged in Hm. apply module_at_lookup in Hm as [-> Hlm].
  set (i := fresh (dom (heap w1))).
  assert (Hi1 : heap w1 !! i = None) by apply fresh_heap.
  assert (Hienv : i ≠ acc_env a) by (by apply has_env_ne_fresh).
  assert (Hilm : i ≠ lm) by (intros ->; congruence).
  assert (Hi : heap w !! i = None).
  { apply not_elem_of_dom. intros Hin. apply Hd in Hin. by apply is_fresh in Hin. }
  exists i, lm, c. split_and!; try done.
  - cbn. by rewrite lookup_insert_eq.
  - rewrite env_mod_insert_ne by done.
    change (env_mod (logged _ w1) (acc_env a)) with (env_mod w1 (acc_env a)).
    by apply or_mod_returns in Em as [-> _].
  - cbn. by rewrite lookup_insert_ne.
  - intros Hhit. destruct (or_mod_returns_how P a w _ w1 He Em)
      as [(_ & -> & Hmw)|(Hmiss & _)]; [|congruence].
    done.
  - intros Hmiss. destruct (or_mod_returns_how P a w _ w1 He Em)
      as [(Hhit & _)|(_ & b & w0 & c0 & Eb & Hc0 & _ & Hlm0 & Hw1)]; [congruence|].
    injection Hlm0 as ->.
    destruct (or_bytes_dom P a w b w0 He Eb) as [Hd0 He0].
    assert (Hne0 : fresh (dom (heap w0)) ≠ acc_env a) by (by apply has_env_ne_fresh).
    assert (Hc : c0 = c).
    { rewrite Hw1 in Hlm. cbn in Hlm.
      rewrite lookup_insert_ne, lookup_insert_eq in Hlm by done. congruence. }
    subst c0.
    assert (Hb : env_bytes w1 (acc_env a) = b).
    { rewrite Hw1. apply env_bytes_insert_env. }
    assert (Hbi : env_bytes (set_heap (insert i (OInstance (fresh (dom (heap w0)))
                     (_env (acc_e a))))
                     (logged (NewInstance (VObj (fresh (dom (heap w0)))) (_env (acc_e a))) w1))
                     (acc_env a) = b).
    { rewrite env_bytes_insert_ne by done. exact Hb. }
    split_and!.
    + apply not_elem_of_dom. intros Hin. apply Hd0 in Hin. by apply is_fresh in Hin.
    + rewrite Hbi. apply bytes_at_lookup in Hc0 as (l & -> & Hl).
      unfold bytes_at. cbn [heap set_heap logged].
      assert (Hl1 : heap w1 !! l = Some (OBytes c)).
      { rewrite Hw1. cbn.
        rewrite lookup_insert_ne.
        - rewrite lookup_insert_ne; [done|]. intros <-.
          pose proof (fresh_heap w0). congruence.
        - intros <-. apply has_env_lookup in He0. congruence. }
      rewrite lookup_insert_ne by (intros <-; congruence). by rewrite Hl1.
    + rewrite Hbi. exists (trace w0). split.
      * cbn. by rewrite Hw1.
      * destruct (or_bytes_returns P a w b w0 He Eb)
          as (_ & _ & _ & _ & [[_ ->]|[_ (l & s & c' & _ & _ & _ & _ & _ & ->)]]); auto.
Qed.

End InstanceSyncDetail.

(** C7, as stated, fails on [EmWasm]: its INSTANCE accessor in SYNC mode
    has no cached module to build from; two calls compile twice. *)
Lemma C7_counterexample :
  let aw := Examples.after_entry
              (Emwasm.EmWasm (Examples.engine true) None 0%nat
                 (Examples.empty_module OutputType.INSTANCE OutputMode.SYNC VUndef)) in
  let res := calls (Emwasm.call (Examples.engine true) aw.1) 2 aw.2 in
  res.1 = [Normal (VObj 4%nat); Normal (VObj 6%nat)]
  ∧ env_mod res.2 (acc_env aw.1) = VUndef
  ∧ new_events aw.2 res.2
    = [EvHost (NewInstance (VObj 5%nat) None); EvHost (NewModule (VObj 1%nat));
       EvHost (NewInstance (VObj 3%nat) None); EvHost (NewModule (VObj 1%nat))].
Proof. split_and!; by vm_compute. Qed.

(** C7, amended.  The accessor of [InWasm] for an INSTANCE definition in
    SYNC mode: a call that returns gives a new object, an instance built
    with the import argument [_env(e)] from the module [mod] holds after
    the call.  When [mod] was filled the call only instantiates; when it
    was empty the call compiles the module once, from the byte array
    [bytes] holds, and fills [mod].  Over any number of calls no instance
    is returned twice.  [EmWasm] keeps no module: each call of its accessor
    compiles the decoded bytes again before it instantiates. *)
Theorem C7_instance_sync (P : Platform) (a : Accessor) :
  acc_arrow a = InstanceSync →
  (∀ w v w', has_env w (acc_env a) = true →
     Inwasm.call P a w = (Normal v, w') →
     ∃ i lm c,
       v = VObj i ∧ heap w !! i = None
       ∧ heap w' !! i = Some (OInstance lm (_env (acc_e a)))
       ∧ env_mod w' (acc_env a) = VObj lm
       ∧ heap w' !! lm = Some (OModule c)
       ∧ (truthy (env_mod w (acc_env a)) = true →
            env_mod w (acc_env a) = VObj lm
            ∧ trace w' = EvHost (NewInstance (VObj lm) (_env (acc_e a))) :: trace w)
       ∧ (truthy (env_mod w (acc_env a)) = false →
            heap w !! lm = None
            ∧ bytes_at w' (env_bytes w' (acc_env a)) = Some c
            ∧ ∃ evs,
                trace w' = EvHost (NewInstance (VObj lm) (_env (acc_e a)))
                           :: EvHost (NewModule (env_bytes w' (acc_env a))) :: evs
                ∧ (evs = trace w ∨ evs = EvDecode (acc_d a) :: trace w)))
  ∧ (∀ n w, has_env w (acc_env a) = true →
       NoDup (returned (calls (Inwasm.call P a) n w).1))
  ∧ (∀ w r w', Emwasm.call P a w = (r, w') →
       ∃ evs, trace w' = evs ++ EvHost (NewModule (env_bytes w (acc_env a))) :: trace w).
Proof.
  intros Ha. split_and!.
  - intros w v w' He E. by apply (instance_sync_returns P).
  - intros n w He. by apply (instance_sync_fresh P).
  - intros w r w' E. unfold Emwasm.call in E. rewrite Ha in E.
    unfold bind, read_bytes in E.
    destruct (host_sync P (NewModule (env_bytes w (acc_env a))) w) as [[m|err] w1] eqn:E1;
      rewrite host_sync_eq in E1; apply perform_trace in E1.
    + rewrite host_sync_eq in E. apply perform_trace in E.
      cbn [logged trace] in E, E1.
      exists [EvHost (NewInstance m (_env (acc_e a)))]. by rewrite E, E1.
    + injection E as <- <-. cbn [logged trace] in E1. by exists [].
Qed.

(** C7 on the empty module: three calls of the accessor of [InWasm] return
    three different instances. *)
Lemma C7_witness :
  let aw := Examples.after_entry
              (Inwasm.InWasm None 0%nat
                 (Examples.empty_module OutputType.INSTANCE OutputMode.SYNC VUndef)) in
  NoDup (returned (calls (Inwasm.call (Examples.engine true) aw.1) 3 aw.2).1).
Proof.
  intros aw.
  apply (C7_instance_sync (Examples.engine true) aw.1); reflexivity.
Defined.

(* ===================================================================== *)
(** ** C6: INSTANCE, ASYNC *)
(* ===================================================================== *)

Section InstanceAsync.

Implicit Types (P : Platform) (a : Accessor) (w : World) (l env p q : loc) (v b m : JsVal).

Lemma ready_typed a w :
  ready a w = true →
  (truthy (env_bytes w (acc_env a)) = true →
     ∃ c, bytes_at w (env_bytes w (acc_env a)) = Some c)
  ∧ (truthy (env_mod w (acc_env a)) = true →
       ∃ lm c, module_at w (env_mod w (acc_env a)) = Some (lm, c)).
Proof.
  unfold ready, cells_typed, env_bytes, env_mod, bytes_at, module_at.
  intros [_ H]%andb_prop.
  destruct (heap w !! acc_env a) as [[| | | | |b m]|]; try done.
  apply andb_prop in H as [Hb Hm]. split.
  - intros Ht. rewrite Ht in Hb. cbn in Hb.
    destruct b; try done. destruct (heap w !! l) as [[]|]; try done. eauto.
  - intros Ht. rewrite Ht in Hm. cbn in Hm.
    destruct m; try done. destruct (heap w !! l) as [[]|]; try done. eauto.
Qed.

(** The bytes [bytes || ...] returns are a byte array. *)
Lemma or_bytes_typed P a w b w' :
  ready a w = true →
  Inwasm.or_bytes P a w = (Normal b, w') →
  ∃ c, bytes_at w' b = Some c.
Proof.
  intros Hr E. destruct (ready_split _ _ Hr) as [He _].
  destruct (or_bytes_returns P a w b w' He E)
    as (Hb & _ & _ & _ & [[Hhit ->]|[_ (l & s & c & -> & -> & _ & _ & Hh & _)]]).
  - rewrite <- Hb. by apply ready_typed.
  - exists c. unfold bytes_at. rewrite Hh.
    rewrite lookup_insert_ne by (apply not_eq_sym; by apply has_env_ne_fresh).
    by rewrite lookup_insert_eq.
Qed.

Lemma bytes_not_module w v c : bytes_at w v = Some c → module_at w v = None.
Proof.
  intros (l & -> & Hl)%bytes_at_lookup. unfold module_at. by rewrite Hl.
Qed.

(** [r => (mod = r.module) && r.instance] on the object the engine
    resolves [W.instantiate(bytes, ..)] with. *)
Lemma react_set_mod_instance env lr lm li w :
  heap w !! lr = Some (OPlain {[ "module" := VObj lm; "instance" := VObj li ]}) →
  lr ≠ env →
  react (RSetModInstance env) (VObj lr) w
  = (Normal (VObj li),
     set_heap (insert env (OEnv (env_bytes w env) (VObj lm))) w).
Proof.
  intros Hr Hne. cbn [react]. unfold bind, read_prop, write_mod, props_at.
  rewrite Hr. unfold get. rewrite lookup_insert_eq. cbn [default truthy id].
  cbn [heap set_heap]. rewrite lookup_insert_ne by done. rewrite Hr.
  rewrite lookup_insert_ne by done. by rewrite lookup_singleton_eq.
Qed.

(** A call in ASYNC mode for an instance. *)
Lemma instance_async_cached P a w :
  acc_arrow a = InstanceAsync →
  truthy (env_mod w (acc_env a)) = true →
  Inwasm.call P a w
  = host_async (Instantiate (env_mod w (acc_env a)) (_env (acc_e a))) RNone w.
Proof.
  intros Ha Hm. unfold Inwasm.call. rewrite Ha. unfold bind, read_mod. by rewrite Hm.
Qed.

Lemma instance_async_empty P a w :
  acc_arrow a = InstanceAsync →
  truthy (env_mod w (acc_env a)) = false →
  Inwasm.call P a w
  = match Inwasm.or_bytes P a w with
    | (Normal b, w1) =>
        host_async (Instantiate b (_env (acc_e a))) (RSetModInstance (acc_env a)) w1
    | (Throw err, w1) => (Throw err, w1)
    end.
Proof.
  intros Ha Hm. unfold Inwasm.call. rewrite Ha. unfold bind, read_mod. rewrite Hm.
  by destruct (Inwasm.or_bytes P a w) as [[b|err] w1].
Qed.

End InstanceAsync.

(** C6, as stated, fails on [EmWasm]: its INSTANCE accessor in ASYNC mode
    stores no module when the instantiation resolves, and the next call
    instantiates from the bytes again. *)
Lemma C6_counterexample :
  let aw := Examples.after_entry
              (Emwasm.EmWasm (Examples.engine true) None 0%nat
                 (Examples.empty_module OutputType.INSTANCE OutputMode.ASYNC VUndef)) in
  let r1 := Emwasm.call (Examples.engine true) aw.1 aw.2 in
  let w2 := settle (Examples.engine true) 3%nat r1.2 in
  let r2 := Emwasm.call (Examples.engine true) aw.1 w2 in
  r1.1 = Normal (VObj 3%nat)
  ∧ promise_state w2 3%nat = Some (Fulfilled (VObj 5%nat))
  ∧ heap w2 !! 5%nat = Some (OInstance 4%nat None)
  ∧ env_mod w2 (acc_env aw.1) = VUndef
  ∧ new_events w2 r2.2 = [EvHost (Instantiate (VObj 1%nat) None)]
  ∧ bytes_at w2 (VObj 1%nat) = Some Examples.wasm_bytes.
Proof. split_and!; by vm_compute. Qed.

(* ===================================================================== *)
(** ** C8: failures of the engine *)
(* ===================================================================== *)

Section Failures.

Implicit Types (P : Platform) (a : Accessor) (w : World) (l env p q : loc) (v b m : JsVal).

(** What [bytes || ...] adds to the trace. *)
Lemma or_bytes_trace P a w b w' :
  has_env w (acc_env a) = true →
  Inwasm.or_bytes P a w = (Normal b, w') →
  trace w' = trace w ∨ trace w' = EvDecode (acc_d a) :: trace w.
Proof.
  intros He E.
  destruct (or_bytes_returns P a w b w' He E)
    as (_ & _ & _ & _ & [[_ ->]|[_ (l & s & c & _ & _ & _ & _ & _ & ->)]]); auto.
Qed.

(** A failed compilation leaves the world as it was when the operation
    was invoked, but for its event. *)
Lemma host_sync_compile_fails P b w err w' :
  host_sync P (NewModule b) w = (Throw err, w') → w' = logged (NewModule b) w.
Proof.
  rewrite host_sync_eq, (perform_compile P _ b) by auto.
  intros E. by repeat case_match; simplify_eq.
Qed.

Lemma host_sync_instance_fails P m io w err w' :
  host_sync P (NewInstance m io) w = (Throw err, w') → w' = logged (NewInstance m io) w.
Proof.
  rewrite host_sync_eq. intros E.
  destruct (module_at (logged (NewInstance m io) w) m) as [[lm c]|] eqn:Hm.
  - rewrite (perform_instantiate_module P _ m io lm c) in E by auto.
    by repeat case_match; simplify_eq.
  - rewrite perform_new_instance_type_error in E by done. by simplify_eq.
Qed.

Lemma host_sync_trace P op w r w' :
  host_sync P op w = (r, w') → trace w' = EvHost op :: trace w.
Proof. rewrite host_sync_eq. by intros ->%perform_trace. Qed.

(** [mod || ...] fails with an error of the engine: the compilation
    failed, after [bytes] was filled. *)
Lemma or_mod_engine_error P a w err w' :
  has_env w (acc_env a) = true →
  Inwasm.or_mod P a w = (Throw (EngineError err), w') →
  ∃ b w1,
    Inwasm.or_bytes P a w = (Normal b, w1)
    ∧ host_sync P (NewModule b) w1 = (Throw (EngineError err), w')
    ∧ truthy (env_mod w (acc_env a)) = false
    ∧ env_mod w' (acc_env a) = env_mod w (acc_env a)
    ∧ env_bytes w' (acc_env a) = b ∧ truthy b = true
    ∧ has_env w' (acc_env a) = true.
Proof.
  intros He. destruct (truthy (env_mod w (acc_env a))) eqn:Hm.
  { by rewrite or_mod_hit. }
  rewrite or_mod_miss by done.
  destruct (Inwasm.or_bytes P a w) as [[b|err'] w1] eqn:Eb.
  - destruct (host_sync P (NewModule b) w1) as [[m|err'] w2] eqn:Eh; [done|].
    intros [= -> ->]. exists b, w1.
    destruct (or_bytes_returns P a w b w1 He Eb) as (Hb & Hmod & Ht & _).
    destruct (or_bytes_dom P a w b w1 He Eb) as [_ He1].
    apply host_sync_compile_fails in Eh as Hw. subst w'.
    by split_and!.
  - intros [= -> ->].
    destruct (truthy (env_bytes w (acc_env a))) eqn:Hb.
    + by rewrite or_bytes_hit in Eb.
    + rewrite or_bytes_miss in Eb by done.
      destruct (dec P (acc_d a) w) as [[b|e] w1] eqn:Ed; [done|].
      injection Eb as -> ->. by apply dec_fail in Ed as [_ [?|?]].
Qed.

(** With [bytes] filled and [mod] empty, [mod || ...] goes straight to the
    compilation. *)
Lemma or_mod_retry P a w :
  truthy (env_mod w (acc_env a)) = false →
  truthy (env_bytes w (acc_env a)) = true →
  Inwasm.or_mod P a w
  = match host_sync P (NewModule (env_bytes w (acc_env a))) w with
    | (Normal m, w2) =>
        (Normal m,
         set_heap (insert (acc_env a) (OEnv (env_bytes w2 (acc_env a)) m)) w2)
    | (Throw err, w2) => (Throw err, w2)
    end.
Proof.
  intros Hm Hb. rewrite or_mod_miss by done. by rewrite or_bytes_hit.
Qed.

(** What [mod || ...] adds to the trace when it returns: no
    instantiation. *)
Lemma or_mod_trace P a w m w' :
  has_env w (acc_env a) = true →
  Inwasm.or_mod P a w = (Normal m, w') →
  ∃ evs, trace w' = evs ++ trace w
         ∧ (∀ m' io, EvHost (NewInstance m' io) ∉ evs).
Proof.
  intros He E.
  destruct (or_mod_returns_how P a w m w' He E)
    as [(_ & -> & _)|(_ & b & w1 & c & Eb & _ & _ & _ & ->)].
  - exists []. split; [done|]. intros ?? ?%elem_of_nil. done.
  - destruct (or_bytes_trace P a w b w1 He Eb) as [T|T].
    + exists [EvHost (NewModule b)]. split; [cbn; by rewrite T|].
      intros ?? [=]%list_elem_of_singleton.
    + exists [EvHost (NewModule b); EvDecode (acc_d a)]. split; [cbn; by rewrite T|].
      intros ?? Hin. apply elem_of_cons in Hin as [[=]|Hin].
      by apply list_elem_of_singleton in Hin.
Qed.

(** The synchronous accessors. *)
Lemma sync_failure P a w err w' :
  acc_arrow a = ModuleSync ∨ acc_arrow a = InstanceSync →
  has_env w (acc_env a) = true →
  Inwasm.call P a w = (Throw (EngineError err), w') →
  ∃ op w0 evs,
    host_sync P op w0 = (Throw (EngineError err), w')
    ∧ trace w0 = evs ++ trace w ∧ (EvHost op ∉ evs)
    ∧ (∀ b, op = NewModule b →
         truthy (env_mod w (acc_env a)) = false
         ∧ env_mod w' (acc_env a) = env_mod w (acc_env a)
         ∧ env_bytes w' (acc_env a) = b)
    ∧ (∀ m io, op = NewInstance m io → env_mod w' (acc_env a) = m)
    ∧ (∀ r w'', Inwasm.call P a w' = (r, w'') →
         ∃ evs', trace w'' = evs' ++ EvHost op :: trace w').
Proof.
  intros Ha He E.
  assert (Hcompile : ∀ err w', Inwasm.or_mod P a w = (Throw (EngineError err), w') →
    ∃ b w0 evs,
      host_sync P (NewModule b) w0 = (Throw (EngineError err), w')
      ∧ trace w0 = evs ++ trace w ∧ (EvHost (NewModule b) ∉ evs)
      ∧ truthy (env_mod w (acc_env a)) = false
      ∧ env_mod w' (acc_env a) = env_mod w (acc_env a)
      ∧ env_bytes w' (acc_env a) = b
      ∧ Inwasm.or_mod P a w'
        = match host_sync P (NewModule b) w' with
          | (Normal m, w2) =>
              (Normal m, set_heap (insert (acc_env a) (OEnv (env_bytes w2 (acc_env a)) m)) w2)
          | (Throw err, w2) => (Throw err, w2)
          end).
  { clear E. intros err0 w0' E.
    destruct (or_mod_engine_error P a w err0 w0' He E)
      as (b & w1 & Eb & Eh & Hm & Hm' & Hb' & Htb & He').
    exists b, w1.
    destruct (or_bytes_trace P a w b w1 He Eb) as [T|T].
    - exists []. split_and!; try done.
      + by intros ?%elem_of_nil.
      + rewrite or_mod_retry; rewrite ?Hm', ?Hb'; done.
    - exists [EvDecode (acc_d a)]. split_and!; try done.
      + by intros [=]%list_elem_of_singleton.
      + rewrite or_mod_retry; rewrite ?Hm', ?Hb'; done. }
  unfold Inwasm.call in *. destruct Ha as [Ha|Ha]; rewrite Ha in *.
  - destruct (Hcompile err w' E) as (b & w0 & evs & Eh & T & Hnin & Hm & Hm' & Hb' & Hretry).
    exists (NewModule b), w0, evs. split_and!; try done.
    + by intros b' [= <-].
    + intros r w'' E'. rewrite Hretry in E'.
      destruct (host_sync P (NewModule b) w') as [[m|e] w2] eqn:E2;
        apply host_sync_trace in E2; injection E' as <- <-; exists []; by rewrite ?E2.
  - unfold bind in E.
    destruct (Inwasm.or_mod P a w) as [[m|err'] w1] eqn:Em.
    + (* the instantiation failed *)
      apply host_sync_instance_fails in E as Hw.
      destruct (or_mod_trace P a w m w1 He Em) as (evs & T & Hnin).
      destruct (or_mod_returns P a w m w1 Em) as [Hm Htm].
      exists (NewInstance m (_env (acc_e a))), w1, evs. split_and!; try done.
      * by intros m' io [= <- <-]; subst w'.
      * intros r w'' E'. unfold bind in E'.
        assert (Hm' : env_mod w' (acc_env a) = m) by (by subst w').
        rewrite or_mod_hit in E' by (by rewrite Hm'). rewrite Hm' in E'.
        apply host_sync_trace in E'. exists []. by rewrite E'.
    + (* the compilation failed *)
      injection E as -> ->.
      destruct (Hcompile err w' eq_refl)
        as (b & w0 & evs & Eh & T & Hnin & Hm & Hm' & Hb' & Hretry).
      exists (NewModule b), w0, evs. split_and!; try done.
      * by intros b' [= <-].
      * intros r w'' E'. unfold bind in E'. rewrite Hretry in E'.
        destruct (host_sync P (NewModule b) w') as [[m|e] w2] eqn:E2;
          apply host_sync_trace in E2.
        -- apply host_sync_trace in E'. cbn in E'.
           exists [EvHost (NewInstance m (_env (acc_e a)))]. by rewrite E', E2.
        -- injection E' as <- <-. exists []. by rewrite E2.
Qed.


(** The engine changes nothing when it raises. *)
Lemma perform_throws P op w err w' : perform P op w = (Throw err, w') → w' = w.
Proof.
  destruct op; cbn [perform]; unfold bind, bytes_of, module_of, validate, link, alloc, ret;
    intros E; repeat case_match; by simplify_eq.
Qed.

End Failures.

(* ===================================================================== *)
(** ** C10: the definition object is read once *)
(* ===================================================================== *)

Section Frame.

Variable def : loc.

Implicit Types (P : Platform) (a : Accessor) (w : World) (l env p q : loc) (v b m : JsVal).

Lemma mutate_dom w o o' :
  heap w !! def = Some o → dom (heap (mutate def o' w)) = dom (heap w).
Proof. intros H. cbn. apply dom_insert_lookup_L. by eexists. Qed.

Lemma mutate_fresh w o o' :
  heap w !! def = Some o →
  fresh (dom (heap (mutate def o' w))) = fresh (dom (heap w)).
Proof. intros H. by erewrite mutate_dom. Qed.

Lemma mutate_lookup_ne w o' l :
  l ≠ def → heap (mutate def o' w) !! l = heap w !! l.
Proof. intros H. cbn. by rewrite lookup_insert_ne. Qed.

Lemma mutate_insert w o' l x :
  l ≠ def →
  set_heap (insert l x) (mutate def o' w) = mutate def o' (set_heap (insert l x) w).
Proof.
  intros H. unfold mutate, set_heap. cbn. f_equal. by apply insert_insert_ne.
Qed.

Lemma has_env_ne_def w o env :
  heap w !! def = Some (OPlain o) → has_env w env = true → env ≠ def.
Proof. intros Hd He ->. apply has_env_lookup in He. congruence. Qed.

Lemma mutate_env_bytes w o o' env :
  heap w !! def = Some (OPlain o) →
  env_bytes (mutate def o' w) env = env_bytes w env.
Proof.
  intros Hd. unfold env_bytes. destruct (decide (env = def)) as [->|Hne].
  - cbn. by rewrite lookup_insert_eq, Hd.
  - by rewrite mutate_lookup_ne.
Qed.

Lemma mutate_env_mod w o o' env :
  heap w !! def = Some (OPlain o) →
  env_mod (mutate def o' w) env = env_mod w env.
Proof.
  intros Hd. unfold env_mod. destruct (decide (env = def)) as [->|Hne].
  - cbn. by rewrite lookup_insert_eq, Hd.
  - by rewrite mutate_lookup_ne.
Qed.

Lemma mutate_bytes_at w o o' v :
  heap w !! def = Some (OPlain o) →
  bytes_at (mutate def o' w) v = bytes_at w v.
Proof.
  intros Hd. unfold bytes_at. destruct v; try done.
  destruct (decide (l = def)) as [->|Hne].
  - cbn. by rewrite lookup_insert_eq, Hd.
  - by rewrite mutate_lookup_ne.
Qed.

Lemma mutate_module_at w o o' v :
  heap w !! def = Some (OPlain o) →
  module_at (mutate def o' w) v = module_at w v.
Proof.
  intros Hd. unfold module_at. destruct v; try done.
  destruct (decide (l = def)) as [->|Hne].
  - cbn. by rewrite lookup_insert_eq, Hd.
  - by rewrite mutate_lookup_ne.
Qed.

Section Blind.

Variable env : loc.

Lemma blind_bind {A B} (m : M A) (k : A → M B) :
  blind def env m → (∀ x, blind def env (k x)) → blind def env (bind m k).
Proof.
  intros Hm Hk w o o' Hd He. unfold bind.
  destruct (Hm w o o' Hd He) as (E & Hd1 & He1). rewrite E.
  destruct (m w) as [[x|err] w1]; cbn [fst snd] in *.
  - exact (Hk x w1 o o' Hd1 He1).
  - done.
Qed.

(** The same, when the continuation is blind only for the values the
    first step can return. *)
Lemma blind_bind_post {A B} (Q : A → Prop) (m : M A) (k : A → M B) :
  blind def env m →
  (∀ w o x w', heap w !! def = Some (OPlain o) → m w = (Normal x, w') → Q x) →
  (∀ x, Q x → blind def env (k x)) →
  blind def env (bind m k).
Proof.
  intros Hm HQ Hk w o o' Hd He. unfold bind.
  destruct (Hm w o o' Hd He) as (E & Hd1 & He1). rewrite E.
  destruct (m w) as [[x|err] w1] eqn:Em; cbn [fst snd] in *.
  - exact (Hk x (HQ w o x w1 Hd Em) w1 o o' Hd1 He1).
  - done.
Qed.

Lemma blind_ret {A} (x : A) : blind def env (ret x).
Proof. by intros w o o' Hd He. Qed.

Lemma blind_throw {A} err : blind def env (throw (A:=A) err).
Proof. by intros w o o' Hd He. Qed.

Lemma blind_log ev : blind def env (log ev).
Proof. by intros w o o' Hd He. Qed.

Lemma blind_push_job j : blind def env (push_job j).
Proof. by intros w o o' Hd He. Qed.

Lemma blind_alloc x : blind def env (alloc x).
Proof.
  intros w o o' Hd He. unfold alloc. cbn [fst snd].
  rewrite (mutate_fresh w _ o' Hd).
  assert (Hne : fresh (dom (heap w)) ≠ def) by (apply not_eq_sym; by eapply fresh_ne).
  split_and!.
  - by rewrite mutate_insert.
  - cbn. by rewrite lookup_insert_ne.
  - unfold has_env. cbn. rewrite lookup_insert_ne; [done|]. by apply has_env_ne_fresh.
Qed.

Lemma blind_read_bytes e : blind def env (read_bytes e).
Proof.
  intros w o o' Hd He. unfold read_bytes. cbn [fst snd].
  by rewrite (mutate_env_bytes w o o').
Qed.

Lemma blind_read_mod e : blind def env (read_mod e).
Proof.
  intros w o o' Hd He. unfold read_mod. cbn [fst snd].
  by rewrite (mutate_env_mod w o o').
Qed.

Lemma blind_write_bytes v : blind def env (write_bytes env v).
Proof.
  intros w o o' Hd He. unfold write_bytes. cbn [fst snd].
  pose proof (has_env_ne_def w o env Hd He) as Hne.
  rewrite (mutate_env_mod w o o') by done. split_and!.
  - by rewrite mutate_insert.
  - cbn. by rewrite lookup_insert_ne.
  - unfold has_env. cbn. by rewrite lookup_insert_eq.
Qed.

Lemma blind_write_mod v : blind def env (write_mod env v).
Proof.
  intros w o o' Hd He. unfold write_mod. cbn [fst snd].
  pose proof (has_env_ne_def w o env Hd He) as Hne.
  rewrite (mutate_env_bytes w o o') by done. split_and!.
  - by rewrite mutate_insert.
  - cbn. by rewrite lookup_insert_ne.
  - unfold has_env. cbn. by rewrite lookup_insert_eq.
Qed.

Lemma blind_bytes_of v : blind def env (bytes_of v).
Proof.
  intros w o o' Hd He. rewrite !bytes_of_eq, (mutate_bytes_at w o o') by done.
  by destruct (bytes_at w v).
Qed.

Lemma blind_module_of v : blind def env (module_of v).
Proof.
  intros w o o' Hd He. rewrite !module_of_eq, (mutate_module_at w o o') by done.
  by destruct (module_at w v).
Qed.

Lemma blind_validate P c : blind def env (validate P c).
Proof.
  intros w o o' Hd He. unfold validate. cbn [mutate set_heap trace].
  by destruct (wasm_validate P (trace w) c).
Qed.

Lemma blind_link P c io : blind def env (link P c io).
Proof.
  intros w o o' Hd He. unfold link. cbn [mutate set_heap trace].
  by destruct (wasm_link P (trace w) c io).
Qed.

Lemma blind_read_prop v k : v ≠ VObj def → blind def env (read_prop v k).
Proof.
  intros Hv w o o' Hd He. unfold read_prop, props_at.
  destruct v; try done. rewrite mutate_lookup_ne by congruence. done.
Qed.

Create HintDb blind.
#[local] Hint Resolve blind_ret blind_throw blind_log blind_push_job blind_alloc
  blind_read_bytes blind_read_mod blind_write_bytes blind_write_mod
  blind_bytes_of blind_module_of blind_validate blind_link : blind.

Ltac blind :=
  repeat first
    [ progress eauto with blind
    | apply blind_bind; [|intros ?]
    | match goal with
      | |- blind _ _ (if ?b then _ else _) => destruct b
      | |- blind _ _ (match ?x with _ => _ end) => destruct x
      end ].

Lemma blind_dec P d : blind def env (dec P d).
Proof. unfold dec. blind. Qed.

Lemma blind_perform P op : blind def env (perform P op).
Proof.
  destruct op; cbn [perform]; try by blind.
  intros w o o' Hd He.
  rewrite !module_of_eq, (mutate_module_at w o o') by done.
  destruct (module_at w src) as [mc|].
  - assert (H : blind def env (link P mc.2 imports;;;
        i <~ alloc (OInstance mc.1 imports);; ret (VObj i))) by blind.
    by apply H.
  - assert (H : blind def env (c <~ bytes_of src;;
        validate P c;;; link P c imports;;;
        m <~ alloc (OModule c);; i <~ alloc (OInstance m imports);;
        r <~ alloc (OPlain {[ "module" := VObj m; "instance" := VObj i ]});;
        ret (VObj r))) by blind.
    by apply H.
Qed.

#[local] Hint Resolve blind_dec blind_perform : blind.

Lemma blind_host_sync P op : blind def env (host_sync P op).
Proof. unfold host_sync. blind. Qed.

Lemma blind_host_async op rc : blind def env (host_async op rc).
Proof. unfold host_async. blind. Qed.

Lemma blind_promise_resolve v : blind def env (promise_resolve v).
Proof. unfold promise_resolve. blind. Qed.

#[local] Hint Resolve blind_host_sync blind_host_async blind_promise_resolve : blind.

Lemma blind_or_bytes P a : acc_env a = env → blind def env (Inwasm.or_bytes P a).
Proof. intros Ha. unfold Inwasm.or_bytes. rewrite Ha. blind. Qed.

Lemma blind_or_mod P a : acc_env a = env → blind def env (Inwasm.or_mod P a).
Proof.
  intros Ha. unfold Inwasm.or_mod.
  apply blind_bind; [rewrite Ha; blind|]. intros m. destruct (truthy m); [blind|].
  apply blind_bind; [by apply blind_or_bytes|]. intros b. rewrite Ha. blind.
Qed.

Lemma blind_call_in P a : acc_env a = env → blind def env (Inwasm.call P a).
Proof.
  intros Ha. pose proof (blind_or_bytes P a Ha). pose proof (blind_or_mod P a Ha).
  unfold Inwasm.call. rewrite Ha. destruct (acc_arrow a); blind.
Qed.

Lemma blind_call_em P a : acc_env a = env → blind def env (Emwasm.call P a).
Proof.
  intros Ha. unfold Emwasm.call. rewrite Ha. destruct (acc_arrow a); blind.
Qed.

Lemma fresh_not_in_sub (X Y : gset loc) : Y ⊆ X → fresh X ∉ Y.
Proof. intros H Hin. apply (is_fresh X). by apply H. Qed.

(** What the engine returns is a new object, never the definition. *)
Lemma perform_returns_new P op w v w' :
  perform P op w = (Normal v, w') →
  ∃ l, v = VObj l ∧ heap w !! l = None.
Proof.
  intros E.
  destruct op as [b|src io|b|src io].
  - rewrite (perform_compile P _ b) in E by auto.
    repeat case_match; simplify_eq. eexists. split; [done|]. apply fresh_heap.
  - destruct (module_at w src) as [[lm c]|] eqn:Hm.
    + rewrite (perform_instantiate_module P _ src io lm c) in E by auto.
      repeat case_match; simplify_eq. eexists. split; [done|]. apply fresh_heap.
    + by rewrite perform_new_instance_type_error in E.
  - rewrite (perform_compile P _ b) in E by auto.
    repeat case_match; simplify_eq. eexists. split; [done|]. apply fresh_heap.
  - destruct (module_at w src) as [[lm c]|] eqn:Hm.
    + rewrite (perform_instantiate_module P _ src io lm c) in E by auto.
      repeat case_match; simplify_eq. eexists. split; [done|]. apply fresh_heap.
    + rewrite perform_instantiate_bytes in E by done. cbv zeta in E.
      repeat case_match; simplify_eq. eexists. split; [reflexivity|].
      apply not_elem_of_dom, fresh_not_in_sub.
      rewrite !dom_insert_L. clear. set_solver.
Qed.

Lemma blind_react rc v :
  reaction_of env rc → v ≠ VObj def → blind def env (react rc v).
Proof.
  intros Hrc Hv. destruct rc; cbn [react]; cbn in Hrc; subst.
  - blind.
  - blind.
  - apply blind_bind; [by apply blind_read_prop|]. intros m.
    apply blind_bind; [blind|]. intros _.
    destruct (truthy m); [by apply blind_read_prop|blind].
  - by apply blind_read_prop.
Qed.

Lemma blind_perform_react P op rc :
  reaction_of env rc →
  blind def env (v <~ perform P op;; react rc v).
Proof.
  intros Hrc. apply (blind_bind_post (λ v, v ≠ VObj def)).
  - apply blind_perform.
  - intros w o v w' Hd E.
    apply perform_returns_new in E as (l & -> & Hl). congruence.
  - intros v Hv. by apply blind_react.
Qed.

End Blind.

(** Settling the promise of a job of the accessor commutes with the
    overwriting of the definition. *)
Lemma settle_mutate P env p w o o' j rest :
  heap w !! def = Some (OPlain o) → has_env w env = true →
  take_job p (jobs w) = Some (j, rest) →
  reaction_of env (job_then j) → p ≠ def →
  settle P p (mutate def o' w) = mutate def o' (settle P p w).
Proof.
  intros Hd He Hj Hrc Hp.
  rewrite (settle_found P p w j rest Hj).
  rewrite (settle_found P p (mutate def o' w) j rest) by done.
  change (mkWorld (heap (mutate def o' w)) (trace (mutate def o' w)) rest)
    with (mutate def o' (mkWorld (heap w) (trace w) rest)).
  destruct (blind_perform_react env P (job_op j) (job_then j) Hrc
              (mkWorld (heap w) (trace w) rest) o o' Hd He) as (E & _).
  rewrite E.
  destruct ((v <~ perform P (job_op j);; react (job_then j) v)
              (mkWorld (heap w) (trace w) rest)) as [[v|err] w1];
    cbn [fst snd]; by rewrite mutate_insert.
Qed.

End Frame.

Section FrameCalls.

Implicit Types (P : Platform) (a : Accessor) (w : World) (l env p q def : loc) (v b m : JsVal).

(** A call that returns a promise ends in [Promise.resolve] or in an
    asynchronous engine call whose callback writes to the accessor's own
    closure variables only. *)
Lemma async_call_shape P a w r w1 :
  async_arrow a → has_env w (acc_env a) = true →
  Inwasm.call P a w = (Normal r, w1) ∨ Emwasm.call P a w = (Normal r, w1) →
  ∃ w', jobs w' = jobs w ∧ dom (heap w) ⊆ dom (heap w')
    ∧ ((∃ x, promise_resolve x w' = (Normal r, w1))
       ∨ (∃ op rc, reaction_of (acc_env a) rc ∧ host_async op rc w' = (Normal r, w1))).
Proof.
  intros Ha He [E|E].
  - unfold Inwasm.call in E.
    destruct Ha as [Ha|[Ha|Ha]]; rewrite Ha in E; unfold bind, read_mod in E.
    + destruct (Inwasm.or_bytes P a w) as [[b|err] w'] eqn:Eb; [|done].
      destruct (or_bytes_any P a w _ w' He Eb) as (Hd & _ & Hj & _).
      exists w'. split_and!; eauto.
    + destruct (truthy (env_mod w (acc_env a))).
      * exists w. split_and!; eauto.
      * destruct (Inwasm.or_bytes P a w) as [[b|err] w'] eqn:Eb; [|done].
        destruct (or_bytes_any P a w _ w' He Eb) as (Hd & _ & Hj & _).
        exists w'. split_and!; [done..|]. right. do 2 eexists. split; [|exact E]. done.
    + destruct (truthy (env_mod w (acc_env a))).
      * exists w. split_and!; [done..|]. right. do 2 eexists. split; [|exact E]. done.
      * destruct (Inwasm.or_bytes P a w) as [[b|err] w'] eqn:Eb; [|done].
        destruct (or_bytes_any P a w _ w' He Eb) as (Hd & _ & Hj & _).
        exists w'. split_and!; [done..|]. right. do 2 eexists. split; [|exact E]. done.
  - unfold Emwasm.call in E.
    destruct Ha as [Ha|[Ha|Ha]]; rewrite Ha in E; unfold bind, read_bytes in E;
      exists w; (split_and!; [done..|]).
    + eauto.
    + right. do 2 eexists. split; [|exact E]. done.
    + right. do 2 eexists. split; [|exact E]. done.
Qed.

End FrameCalls.

(** C10.  The entry points read the definition object and never write to
    it: after a call without capture context, or on a definition with a
    truthy [d], the object is what it was, and with a falsy [d] in front of
    a capture context the world is exactly the one [add] left.  The
    accessor returned is made of the values [t], [s], [d], [e] had at that
    moment.  From then on the definition object is not looked at: if it is
    overwritten with any other object, every call of the accessor, and the
    settlement of the promise an asynchronous call returned, completes the
    same way and leaves the same world, but for the overwritten object. *)
Theorem C10_definition_frame (P : Platform) (def : loc) (o o' : JsObject) :
  (∀ ctx w r w',
     heap w !! def = Some (OPlain o) →
     Inwasm.InWasm ctx def w = (r, w') ∨ Emwasm.EmWasm P ctx def w = (r, w') →
     (truthy (get o "d") = true ∨ ctx = None → heap w' !! def = Some (OPlain o))
     ∧ (∀ c, truthy (get o "d") = false → ctx = Some c → w' = (add c def w).2))
  ∧ (∀ ctx w a w',
       heap w !! def = Some (OPlain o) →
       Inwasm.InWasm ctx def w = (Normal (Some a), w')
       ∨ Emwasm.EmWasm P ctx def w = (Normal (Some a), w') →
       acc_arrow a = arrow_of (get o "t") (get o "s")
       ∧ acc_d a = get o "d" ∧ acc_e a = get o "e"
       ∧ has_env w' (acc_env a) = true)
  ∧ (∀ a w,
       heap w !! def = Some (OPlain o) → has_env w (acc_env a) = true →
       Inwasm.call P a (mutate def o' w)
       = ((Inwasm.call P a w).1, mutate def o' (Inwasm.call P a w).2)
       ∧ Emwasm.call P a (mutate def o' w)
         = ((Emwasm.call P a w).1, mutate def o' (Emwasm.call P a w).2))
  ∧ (∀ a w p w1,
       heap w !! def = Some (OPlain o) → ready a w = true →
       acc_arrow a = BytesAsync ∨ acc_arrow a = ModuleAsync ∨ acc_arrow a = InstanceAsync →
       Inwasm.call P a w = (Normal (VObj p), w1)
       ∨ Emwasm.call P a w = (Normal (VObj p), w1) →
       settle P p (mutate def o' w1) = mutate def o' (settle P p w1)).
Proof.
  split_and!.
  - intros ctx w r w' Hd E.
    assert (Hp : props_at w def = o) by (unfold props_at; by rewrite Hd).
    destruct (truthy (get o "d")) eqn:Ht.
    + split; [intros _|by intros c [=]].
      destruct E as [E|E].
      * rewrite InWasm_compiled in E by (by rewrite Hp). injection E as <- <-.
        cbn. rewrite lookup_insert_ne; [done|]. apply not_eq_sym. by eapply fresh_ne.
      * rewrite EmWasm_compiled in E by (by rewrite Hp). rewrite Hp in E.
        destruct (dec P (get o "d") w) as [[b|err] w1] eqn:Ed.
        -- injection E as <- <-.
           apply dec_returns in Ed as (s & c & _ & _ & _ & ->).
           cbn. rewrite !lookup_insert_ne; [done| |].
           ++ apply not_eq_sym. by eapply fresh_ne.
           ++ intros Heq.
              pose proof (fresh_heap
                (mkWorld (<[fresh (dom (heap w)):=OBytes c]> (heap w))
                         (EvDecode (get o "d") :: trace w) (jobs w))) as Hf.
              cbn [heap] in Hf. rewrite Heq in Hf.
              rewrite lookup_insert_ne in Hf; [congruence|].
              apply not_eq_sym. by eapply fresh_ne.
        -- injection E as <- <-. by apply dec_fail in Ed as [-> _].
    + rewrite EmWasm_uncompiled, InWasm_uncompiled in E by (by rewrite Hp).
      split.
      * intros [[=]| ->]. by destruct E as [[= <- <-]|[= <- <-]].
      * intros c _ ->. unfold bind, ret in E.
        destruct (add c def w) as [[[]|err] w1]; by destruct E as [[= <- <-]|[= <- <-]].
  - intros ctx w a w' Hd E.
    assert (Hp : props_at w def = o) by (unfold props_at; by rewrite Hd).
    destruct (truthy (get o "d")) eqn:Ht.
    + destruct E as [E|E].
      * rewrite InWasm_compiled in E by (by rewrite Hp). rewrite Hp in E.
        injection E as <- <-. split_and!; try done.
        unfold has_env. cbn. by rewrite lookup_insert_eq.
      * rewrite EmWasm_compiled in E by (by rewrite Hp). rewrite Hp in E.
        destruct (dec P (get o "d") w) as [[b|err] w1]; [|done].
        injection E as <- <-. split_and!; try done.
        unfold has_env. cbn. by rewrite lookup_insert_eq.
    + rewrite EmWasm_uncompiled, InWasm_uncompiled in E by (by rewrite Hp).
      destruct ctx as [c|]; [|by destruct E].
      unfold bind, ret in E.
      destruct (add c def w) as [[[]|err] w1]; by destruct E.
  - intros a w Hd He. split.
    + by apply (blind_call_in def (acc_env a) P a eq_refl w o o').
    + by apply (blind_call_em def (acc_env a) P a eq_refl w o o').
  - intros a w p w1 Hd Hr Ha E.
    destruct (ready_split _ _ Hr) as [He Hj].
    assert (Hw1 : heap w1 !! def = Some (OPlain o) ∧ has_env w1 (acc_env a) = true).
    { destruct E as [E|E].
      - destruct (blind_call_in def (acc_env a) P a eq_refl w o o' Hd He) as (_ & H1 & H2).
        rewrite E in H1, H2. done.
      - destruct (blind_call_em def (acc_env a) P a eq_refl w o o' Hd He) as (_ & H1 & H2).
        rewrite E in H1, H2. done. }
    destruct Hw1 as [Hd1 He1].
    destruct (async_call_shape P a w (VObj p) w1 Ha He E)
      as (w' & Hjw & Hdw & [(x & Ex)|(op & rc & Hrc & Ex)]).
    + rewrite promise_resolve_eq in Ex. injection Ex as <- <-.
      pose proof (jobs_allocated_mono w w' Hdw Hjw Hj) as Hj'.
      assert (Hn : take_job (fresh (dom (heap w'))) (jobs w') = None).
      { eapply take_job_none; [exact Hj'|apply fresh_heap]. }
      rewrite !settle_idle; done.
    + rewrite host_async_eq in Ex. injection Ex as <- <-.
      pose proof (jobs_allocated_mono w w' Hdw Hjw Hj) as Hj'.
      apply (settle_mutate def P (acc_env a) _ _ o o'
               (mkJob op rc (fresh (dom (heap w')))) (jobs w')); try done.
      * pose proof (take_job_new (jobs w') (mkJob op rc (fresh (dom (heap w'))))
                      (heap w') Hj' (fresh_heap w')) as Htj.
        exact Htj.
      * intros Heq. cbn in Hd1. rewrite <- Heq in Hd1.
        by rewrite lookup_insert_eq in Hd1.
Qed.

(** C10 on the empty module: overwriting the definition with the adder of
    the README after the entry point has returned changes nothing of the
    first call of the accessor. *)
Lemma C10_witness :
  let aw := Examples.after_entry
              (Inwasm.InWasm None 0%nat
                 (Examples.empty_module OutputType.MODULE OutputMode.SYNC VUndef)) in
  Inwasm.call (Examples.engine true) aw.1 (mutate 0%nat Examples.authoring aw.2)
  = ((Inwasm.call (Examples.engine true) aw.1 aw.2).1,
     mutate 0%nat Examples.authoring (Inwasm.call (Examples.engine true) aw.1 aw.2).2).
Proof.
  intros aw.
  destruct (C10_definition_frame (Examples.engine true) 0%nat
              (Examples.compiled OutputType.MODULE OutputMode.SYNC "AGFzbQEAAAA=" VUndef)
              Examples.authoring) as (_ & _ & H & _).
  apply (H aw.1 aw.2); reflexivity.
Defined.

(* ===================================================================== *)
(** ** C9: the two loaders side by side *)
(* ===================================================================== *)


Section SideBySide.

Variables (buffer : bool) (valid : list Z → option HostErr)
  (links : list Z → option ImportObject → option HostErr).

Let P := steady_platform buffer valid links.



(** Evaluation of a heap expression in place. *)
Ltac ev t :=
  let r := eval vm_compute in t in
  progress (replace t with r by (vm_compute; reflexivity)).







End SideBySide.



Example ex_encode : base64_encode [0; 97; 115; 109] = "AGFzbQ==".
Proof. reflexivity. Qed.

Example ex_dec_buffer : _dec true "AGFzbQ==" = Some [0; 97; 115; 109].
Proof. reflexivity. Qed.

Example ex_dec_atob : _dec false "AGFzbQ==" = Some [0; 97; 115; 109].
Proof. reflexivity. Qed.

Example ex_dec_atob_bad : _dec false "AGF*" = None.
Proof. reflexivity. Qed.

(* ===================================================================== *)
(** ** The two branches of [_dec] *)
(* ===================================================================== *)

Section DecBranches.

Lemma index_of_spec (c : ascii) (l : list ascii) (i n : Z) :
  index_of c l i = Some n →
  i <= n < i + Z.of_nat (length l) ∧ nth (Z.to_nat (n - i)) l pad_char = c.
Proof.
  revert i. induction l as [|x l IH]; intros i; cbn [index_of]; [done|].
  destruct (Ascii.eqb c x) eqn:E.
  - intros [= <-]. apply Ascii.eqb_eq in E as ->.
    rewrite Z.sub_diag. cbn [length]. cbn. split; [lia|done].
  - intros H. apply IH in H as [Hn Hc]. cbn [length]. split; [lia|].
    replace (Z.to_nat (n - i)) with (S (Z.to_nat (n - (i + 1)))) by lia.
    done.
Qed.

(** A character the strict alphabet knows is the character of its
    sextet. *)
Lemma b64index_char (c : ascii) (n : Z) :
  b64index c = Some n → 0 <= n < 64 ∧ c = b64char n.
Proof.
  unfold b64index. intros H. apply index_of_spec in H as [Hn Hc].
  change (Z.of_nat (length alphabet)) with 64 in Hn.
  split; [lia|]. unfold b64char. by rewrite Z.sub_0_r in Hc.
Qed.

Lemma b64index_lenient_strict (c : ascii) (n : Z) :
  b64index c = Some n →
  b64index_lenient c = Some n ∧ Ascii.eqb c pad_char = false ∧ is_ws c = false.
Proof.
  intros H. apply b64index_char in H as [Hn ->].
  destruct (b64char_ok n Hn) as (_ & ? & ? & ?). done.
Qed.

(** Whitespace is no padding and no character of the lenient alphabet. *)
Lemma is_ws_skipped (c : ascii) :
  is_ws c = true → b64index_lenient c = None ∧ Ascii.eqb c pad_char = false.
Proof.
  unfold is_ws. cbv zeta. intros H.
  assert (Hc : c = ascii_of_nat 9 ∨ c = ascii_of_nat 10 ∨ c = ascii_of_nat 12
               ∨ c = ascii_of_nat 13 ∨ c = ascii_of_nat 32).
  { rewrite <- (ascii_nat_embedding c).
    repeat (apply orb_true_iff in H as [H|H]);
      apply Nat.eqb_eq in H; rewrite H; tauto. }
  destruct Hc as [->|[->|[->|[->| ->]]]]; by vm_compute.
Qed.

Lemma mapM_b64index_inv (data : list ascii) (sx : list Z) :
  mapM b64index data = Some sx →
  Forall is_sextet sx
  ∧ Forall (λ c, Ascii.eqb c pad_char = false) data
  ∧ omap b64index_lenient data = sx.
Proof.
  revert sx. induction data as [|c data IH]; intros sx.
  - intros [= <-]. by repeat constructor.
  - cbn [mapM]. intros H. apply bind_Some in H as (n & Hc & H).
    apply bind_Some in H as (sx' & Hsx & [= <-]).
    destruct (IH sx' Hsx) as (Hr & Hp & Ho).
    destruct (b64index_lenient_strict c n Hc) as (Hl & Hpad & _).
    destruct (b64index_char c n Hc) as [Hn _].
    split_and!.
    + by constructor.
    + by constructor.
    + cbn -[b64index_lenient]. by rewrite Hl, Ho.
Qed.

Lemma until_pad_clean (l : list ascii) :
  Forall (λ c, Ascii.eqb c pad_char = false) l → until_pad l = l.
Proof.
  induction 1 as [|c l Hc _ IH]; [done|]. cbn [until_pad]. by rewrite Hc, IH.
Qed.

Lemma until_pad_strip (l : list ascii) :
  Forall (λ c, Ascii.eqb c pad_char = false) (strip_pad l) →
  until_pad l = strip_pad l.
Proof.
  induction l as [|c r IH]; [done|].
  destruct r as [|c' r'].
  - cbn [strip_pad until_pad]. by destruct (Ascii.eqb c pad_char).
  - destruct r' as [|c'' r''].
    + cbn [strip_pad].
      destruct (Ascii.eqb c pad_char && Ascii.eqb c' pad_char) eqn:E.
      * apply andb_true_iff in E as [E _]. cbn [until_pad]. by rewrite E.
      * intros H. inversion_clear H as [|? ? Hc Hr].
        cbn [until_pad]. by rewrite Hc.
    + change (strip_pad (c :: c' :: c'' :: r''))
        with (c :: strip_pad (c' :: c'' :: r'')).
      intros H. inversion_clear H as [|? ? Hc Hr].
      cbn [until_pad]. rewrite Hc. f_equal. by apply IH.
Qed.

(** The lenient decoder reads through whitespace. *)
Lemma lenient_skips_ws (l : list ascii) :
  omap b64index_lenient (until_pad l)
  = omap b64index_lenient (until_pad (filter (λ c, is_ws c = false) l)).
Proof.
  induction l as [|c l IH]; [done|].
  destruct (is_ws c) eqn:W.
  - rewrite filter_cons_False by (by rewrite W).
    destruct (is_ws_skipped c W) as [Hi Hp].
    cbn [until_pad]. rewrite Hp. cbn -[b64index_lenient until_pad filter]. by rewrite Hi.
  - rewrite filter_cons_True by done.
    cbn [until_pad]. destruct (Ascii.eqb c pad_char); [done|].
    cbn -[b64index_lenient until_pad filter]. by rewrite IH.
Qed.

Lemma list_ind4 {A} (Q : list A → Prop) :
  Q [] → (∀ a, Q [a]) → (∀ a b, Q [a; b]) → (∀ a b c, Q [a; b; c]) →
  (∀ a b c d l, Q l → Q (a :: b :: c :: d :: l)) →
  ∀ l, Q l.
Proof.
  intros H0 H1 H2 H3 H4 l.
  cut (Q l ∧ (∀ a, Q (a :: l)) ∧ (∀ a b, Q (a :: b :: l))
       ∧ (∀ a b c, Q (a :: b :: c :: l))); [tauto|].
  induction l as [|x l (IH0 & IH1 & IH2 & IH3)]; [by auto|].
  split_and!; auto.
Qed.

(** Sextets make bytes. *)
Lemma unsextets_range (sx : list Z) :
  Forall is_sextet sx → Forall is_byte (unsextets sx).
Proof.
  unfold is_byte, is_sextet.
  induction sx as [|a|a b|a b c|a b c d l IH] using list_ind4; intros H;
    cbn [unsextets].
  - constructor.
  - constructor.
  - inversion_clear H as [|? ? ? H']. inversion_clear H'.
    repeat (apply Forall_cons_2; [divlia|]). constructor.
  - inversion_clear H as [|? ? ? H']. inversion_clear H' as [|? ? ? H''].
    inversion_clear H''.
    repeat (apply Forall_cons_2; [divlia|]). constructor.
  - inversion_clear H as [|? ? ? H']. inversion_clear H' as [|? ? ? H''].
    inversion_clear H'' as [|? ? ? H3]. inversion_clear H3.
    repeat (apply Forall_cons_2; [divlia|]). by apply IH.
Qed.

Lemma atob_lenient (s bs : string) :
  atob s = Some bs →
  ∃ sx, Forall is_sextet sx
        ∧ bs = string_of_list_ascii (map ascii_of_Z (unsextets sx))
        ∧ omap b64index_lenient (until_pad (list_ascii_of_string s)) = sx.
Proof.
  unfold atob. cbv zeta.
  set (data0 := filter (λ c, is_ws c = false) (list_ascii_of_string s)).
  destruct ((length data0 mod 4 =? 0)%nat) eqn:E4.
  - destruct ((length (strip_pad data0) mod 4 =? 1)%nat); [done|].
    intros H. apply bind_Some in H as (sx & Hsx & [= <-]).
    destruct (mapM_b64index_inv _ _ Hsx) as (Hr & Hp & Ho).
    exists sx. split_and!; [done..|].
    rewrite lenient_skips_ws. fold data0. by rewrite until_pad_strip.
  - destruct ((length data0 mod 4 =? 1)%nat); [done|].
    intros H. apply bind_Some in H as (sx & Hsx & [= <-]).
    destruct (mapM_b64index_inv _ _ Hsx) as (Hr & Hp & Ho).
    exists sx. split_and!; [done..|].
    rewrite lenient_skips_ws. fold data0. by rewrite until_pad_clean.
Qed.

End DecBranches.

(** X1.  Whenever the fallback branch of [_dec] (no [Buffer]: [atob] and
    the loop over the code units) returns, the [Buffer] branch returns the
    same bytes, each between 0 and 255: what [_dec] decodes does not depend
    on the platform, only whether it raises does. *)
Theorem X1_dec_platform_independent (s : string) (c : list Z) :
  _dec false s = Some c → _dec true s = Some c ∧ Forall is_byte c.
Proof.
  rewrite _dec_fallback. intros H.
  apply fmap_Some in H as (bs & Ha & ->).
  destruct (atob_lenient s bs Ha) as (sx & Hr & -> & Ho).
  rewrite list_ascii_of_string_of_list_ascii.
  assert (Hb : Forall is_byte (unsextets sx)) by (by apply unsextets_range).
  assert (E : map (λ c, Z_of_ascii c mod 256) (map ascii_of_Z (unsextets sx))
              = unsextets sx).
  { change (map ?f (map ?g ?l)) with (f <$> (g <$> l)).
    rewrite <- list_fmap_compose.
    rewrite <- (list_fmap_id (unsextets sx)) at 2.
    apply Forall_fmap_ext_1. eapply Forall_impl; [exact Hb|].
    intros b Hbb. by apply Z_of_ascii_of_Z. }
  rewrite E. split; [|done].
  unfold _dec, Buffer_from_base64. by rewrite Ho.
Qed.

(** X1 on a text with line breaks and spaces, which [atob] removes and
    [Buffer.from] skips. *)
Lemma X1_witness :
  _dec true (String "A" (String "G" (String "010"%char (String "F" (String "z"
       (String " " (String "b" (String "Q" (String "=" (String "=" EmptyString))))))))))
  = Some [0; 97; 115; 109]
  ∧ Forall is_byte [0; 97; 115; 109].
Proof.
  apply (X1_dec_platform_independent
           (String "A" (String "G" (String "010"%char (String "F" (String "z"
              (String " " (String "b" (String "Q" (String "=" (String "="
                 EmptyString))))))))))
           [0; 97; 115; 109]).
  reflexivity.
Defined.

(* ===================================================================== *)
(** ** Worlds reached by calls and settlements *)
(* ===================================================================== *)

Lemma grows_bind {A B} (m : M A) (k : A → M B) :
  grows m → (∀ x, grows (k x)) → grows (bind m k).
Proof.
  intros Hm Hk w r w' E. unfold bind in E.
  destruct (m w) as [[x|err] w1] eqn:E1.
  - destruct (Hm _ _ _ E1) as [H1 J1]. destruct (Hk x _ _ _ E) as [H2 J2].
    split; [by etrans|congruence].
  - injection E as <- <-. by apply (Hm _ _ _ E1).
Qed.

Lemma grows_pure {A} (f : World → Completion A) (g : World → list Event) :
  grows (λ w, (f w, mkWorld (heap w) (g w) (jobs w))).
Proof. by intros w r w' [= <- <-]. Qed.

Lemma grows_ret {A} (x : A) : grows (ret x).
Proof. by intros w r w' [= <- <-]. Qed.

Lemma grows_throw {A} err : grows (throw (A:=A) err).
Proof. by intros w r w' [= <- <-]. Qed.

Lemma grows_log ev : grows (log ev).
Proof. by intros w r w' [= <- <-]. Qed.

Lemma grows_alloc o : grows (alloc o).
Proof. intros w r w' [= <- <-]. split; [apply heap_alloc_subseteq|done]. Qed.

Lemma grows_read_bytes e : grows (read_bytes e).
Proof. by intros w r w' [= <- <-]. Qed.

Lemma grows_read_mod e : grows (read_mod e).
Proof. by intros w r w' [= <- <-]. Qed.

Lemma grows_bytes_of v : grows (bytes_of v).
Proof.
  intros w r w'. rewrite bytes_of_eq. by destruct (bytes_at w v); intros [= <- <-].
Qed.

Lemma grows_module_of v : grows (module_of v).
Proof.
  intros w r w'. rewrite module_of_eq. by destruct (module_at w v); intros [= <- <-].
Qed.

Lemma grows_validate P c : grows (validate P c).
Proof.
  intros w r w'. unfold validate.
  by destruct (wasm_validate P (trace w) c); intros [= <- <-].
Qed.

Lemma grows_link P c io : grows (link P c io).
Proof.
  intros w r w'. unfold link.
  by destruct (wasm_link P (trace w) c io); intros [= <- <-].
Qed.

Lemma grows_read_prop v k : grows (read_prop v k).
Proof. intros w r w'. unfold read_prop. by destruct v; intros [= <- <-]. Qed.

Create HintDb grows.
#[local] Hint Resolve grows_ret grows_throw grows_log grows_alloc grows_read_bytes
  grows_read_mod grows_bytes_of grows_module_of grows_validate grows_link
  grows_read_prop : grows.

Ltac grows :=
  repeat first
    [ progress eauto with grows
    | apply grows_bind; [|intros ?]
    | match goal with
      | |- grows (if ?b then _ else _) => destruct b
      | |- grows (match ?x with _ => _ end) => destruct x
      end ].

Lemma grows_dec P d : grows (dec P d).
Proof. unfold dec. grows. Qed.

Lemma grows_perform P op : grows (perform P op).
Proof.
  destruct op; cbn [perform]; try by grows.
  intros w r w'. rewrite module_of_eq.
  destruct (module_at w src) as [mc|].
  - assert (H : grows (link P mc.2 imports;;;
        i <~ alloc (OInstance mc.1 imports);; ret (VObj i))) by grows.
    apply H.
  - assert (H : grows (c <~ bytes_of src;;
        validate P c;;; link P c imports;;;
        m <~ alloc (OModule c);; i <~ alloc (OInstance m imports);;
        r <~ alloc (OPlain {[ "module" := VObj m; "instance" := VObj i ]});;
        ret (VObj r))) by grows.
    apply H.
Qed.

#[local] Hint Resolve grows_dec grows_perform : grows.

Lemma grows_host_sync P op : grows (host_sync P op).
Proof. unfold host_sync. grows. Qed.

Lemma grows_promise_resolve v : grows (promise_resolve v).
Proof. unfold promise_resolve. grows. Qed.

(** *** Computations that write to their closure environment only *)

Lemma has_env_frame w w' env :
  has_env w env = true →
  (∀ l o, heap w !! l = Some o → heap w' !! l = Some o) →
  has_env w' env = true.
Proof.
  unfold has_env. intros He H.
  destruct (heap w !! env) as [[]|] eqn:E; try done. by rewrite (H _ _ E).
Qed.

Lemma grows_tidy {A} env (m : M A) : grows m → tidy env m.
Proof.
  intros Hm w r w' He E. destruct (Hm _ _ _ E) as [Hs Hj].
  assert (Hl : ∀ l o, heap w !! l = Some o → heap w' !! l = Some o).
  { intros l o Hl. by eapply lookup_weaken. }
  split_and!.
  - intros l o _. apply Hl.
  - by eapply has_env_frame.
  - exists []. rewrite app_nil_r. split_and!; [done|constructor|constructor].
Qed.

Lemma tidy_bind {A B} env (m : M A) (k : A → M B) :
  tidy env m → (∀ x, tidy env (k x)) → tidy env (bind m k).
Proof.
  intros Hm Hk w r w' He E. unfold bind in E.
  destruct (m w) as [[x|err] w1] eqn:E1; [|injection E as <- <-; by eapply Hm].
  destruct (Hm _ _ _ He E1) as (F1 & He1 & js1 & J1 & O1 & N1).
  destruct (Hk x _ _ _ He1 E) as (F2 & He2 & js2 & J2 & O2 & N2).
  assert (Hnone : ∀ l, heap w1 !! l = None → heap w !! l = None).
  { intros l Hl. destruct (heap w !! l) as [o|] eqn:El; [|done].
    destruct (decide (l = env)) as [->|Hne].
    - unfold has_env in He1. by rewrite Hl in He1.
    - rewrite (F1 _ _ Hne El) in Hl. done. }
  split_and!.
  - intros l o Hne Hl. by apply F2, F1.
  - done.
  - exists (js1 ++ js2). split_and!.
    + by rewrite J2, J1, app_assoc.
    + apply Forall_app. split.
      * eapply Forall_impl; [exact O1|]. intros j (Hn & Hp & Hr).
        split_and!; [done| |done].
        apply F2; [|done]. intros Heq. rewrite Heq in Hp.
        unfold has_env in He1. by rewrite Hp in He1.
      * eapply Forall_impl; [exact O2|]. intros j (Hn & Hp & Hr).
        split_and!; [by apply Hnone|done|done].
    + rewrite fmap_app. apply NoDup_app. split_and!; [done| |done].
      intros p Hp1 Hp2.
      apply list_elem_of_fmap in Hp1 as (j1 & -> & Hj1).
      apply list_elem_of_fmap in Hp2 as (j2 & Heq & Hj2).
      rewrite Forall_forall in O1, O2.
      destruct (O1 _ Hj1) as (_ & Hp & _). destruct (O2 _ Hj2) as (Hn & _ & _).
      rewrite <- Heq in Hn. by rewrite Hp in Hn.
Qed.

Lemma tidy_write_bytes env v : tidy env (write_bytes env v).
Proof.
  intros w r w' He [= <- <-]. split_and!.
  - intros l o Hne Hl. cbn. by rewrite lookup_insert_ne.
  - unfold has_env. cbn. by rewrite lookup_insert_eq.
  - exists []. rewrite app_nil_r. split_and!; [done|constructor|constructor].
Qed.

Lemma tidy_write_mod env v : tidy env (write_mod env v).
Proof.
  intros w r w' He [= <- <-]. split_and!.
  - intros l o Hne Hl. cbn. by rewrite lookup_insert_ne.
  - unfold has_env. cbn. by rewrite lookup_insert_eq.
  - exists []. rewrite app_nil_r. split_and!; [done|constructor|constructor].
Qed.

Lemma tidy_host_async env op rc :
  (∀ e, reaction_env rc = Some e → e = env) → tidy env (host_async op rc).
Proof.
  intros Hrc w r w' He. rewrite host_async_eq. intros [= <- <-].
  pose proof (has_env_ne_fresh w env He) as Hne.
  split_and!.
  - intros l o _ Hl. cbn. rewrite lookup_insert_ne; [done|].
    intros <-. by rewrite fresh_heap in Hl.
  - unfold has_env. cbn. by rewrite lookup_insert_ne.
  - eexists [_]. split_and!; [done| |apply NoDup_singleton].
    apply Forall_singleton. split_and!; cbn.
    + apply fresh_heap.
    + by rewrite lookup_insert_eq.
    + done.
Qed.

Create HintDb tidy.
#[local] Hint Resolve tidy_write_bytes tidy_write_mod : tidy.
#[local] Hint Extern 1 (tidy _ _) => (apply grows_tidy; by grows) : tidy.

Ltac tidy :=
  repeat first
    [ progress eauto with tidy
    | apply tidy_host_async; by intros ? [= <-]
    | apply tidy_host_async; by intros ? [=]
    | apply tidy_bind; [|intros ?]
    | match goal with
      | |- tidy _ (if ?b then _ else _) => destruct b
      | |- tidy _ (match ?x with _ => _ end) => destruct x
      end ].

Lemma tidy_or_bytes P a : tidy (acc_env a) (Inwasm.or_bytes P a).
Proof. unfold Inwasm.or_bytes. tidy. Qed.

Lemma tidy_or_mod P a : tidy (acc_env a) (Inwasm.or_mod P a).
Proof.
  pose proof (tidy_or_bytes P a). unfold Inwasm.or_mod. tidy.
Qed.

Lemma tidy_call_in P a : tidy (acc_env a) (Inwasm.call P a).
Proof.
  pose proof (tidy_or_bytes P a). pose proof (tidy_or_mod P a).
  unfold Inwasm.call. destruct (acc_arrow a); tidy.
Qed.

Lemma tidy_call_em P a : tidy (acc_env a) (Emwasm.call P a).
Proof. unfold Emwasm.call. destruct (acc_arrow a); tidy. Qed.

(** *** Settlements *)

Lemma take_job_split (p : loc) (js : list Job) (j : Job) (rest : list Job) :
  take_job p js = Some (j, rest) →
  ∃ l1 l2, js = l1 ++ j :: l2 ∧ rest = l1 ++ l2 ∧ job_promise j = p.
Proof.
  revert rest. induction js as [|j0 js IH]; intros rest; cbn [take_job]; [done|].
  case_bool_decide as Hp.
  - intros [= <- <-]. by exists [], js.
  - destruct (take_job p js) as [[j' r']|]; [|done].
    intros [= <- <-]. destruct (IH r' eq_refl) as (l1 & l2 & -> & -> & Hj).
    by exists (j0 :: l1), l2.
Qed.

(** What a settlement is made of: nothing, or the operation of the first
    job of the promise, then its callback, then the new state of the
    promise. *)
Lemma settle_cases P p w :
  (take_job p (jobs w) = None ∧ settle P p w = w)
  ∨ ∃ j rest r w1,
      take_job p (jobs w) = Some (j, rest)
      ∧ perform P (job_op j) (mkWorld (heap w) (trace w) rest) = (r, w1)
      ∧ match r with
        | Throw err => settle P p w = set_heap (insert p (OPromise (Rejected err))) w1
        | Normal v =>
            ∃ r2 w2,
              react (job_then j) v w1 = (r2, w2)
              ∧ settle P p w
                = set_heap (insert p (OPromise match r2 with
                                               | Normal x => Fulfilled x
                                               | Throw e => Rejected e
                                               end)) w2
        end.
Proof.
  destruct (take_job p (jobs w)) as [[j rest]|] eqn:E.
  - right. rewrite (settle_found P p w j rest E). unfold bind.
    destruct (perform P (job_op j) _) as [[v|err] w1] eqn:Ep.
    + exists j, rest, (Normal v), w1. split_and!; [done..|].
      destruct (react (job_then j) v w1) as [[x|e] w2] eqn:Er; eauto.
    + exists j, rest, (Throw err), w1. by split_and!.
  - left. by rewrite settle_idle.
Qed.

(** A callback leaves the world as it is or assigns to [mod] of its
    environment. *)
Lemma react_writes rc v w r w' :
  react rc v w = (r, w') →
  w' = w
  ∨ ∃ e m, reaction_env rc = Some e
           ∧ w' = set_heap (insert e (OEnv (env_bytes w e) m)) w.
Proof.
  destruct rc as [|e|e|]; cbn [react].
  - intros [= <- <-]. by left.
  - intros [= <- <-]. right. by exists e, v.
  - unfold bind, read_prop, write_mod, ret.
    destruct v as [| |bb|n|s|l]; cbn [fst snd]; intros E;
      repeat case_match; simplify_eq; eauto.
  - unfold read_prop. destruct v as [| |bb|n|s|l]; intros [= <- <-]; by left.
Qed.

Lemma stable_refl w : stable w w.
Proof.
  intros l o Hl. exists o. split; [done|].
  destruct o as [| | | |[]|]; cbn; eauto.
Qed.

Lemma kept_trans o1 o2 o3 : kept o1 o2 → kept o2 o3 → kept o1 o3.
Proof.
  destruct o1 as [| | | |[]|]; cbn; try (intros ->; by cbn).
  - intros [st ->]. destruct st; cbn; [eauto| |]; intros ->; eauto.
  - intros (b' & m' & ->). by cbn.
Qed.

Lemma stable_trans w1 w2 w3 : stable w1 w2 → stable w2 w3 → stable w1 w3.
Proof.
  intros H1 H2 l o Hl. destruct (H1 _ _ Hl) as (o' & Hl' & K1).
  destruct (H2 _ _ Hl') as (o'' & Hl'' & K2).
  exists o''. split; [done|]. by eapply kept_trans.
Qed.

Lemma kept_refl o : kept o o.
Proof. destruct o as [| | | |[]|]; cbn; eauto. Qed.

Lemma stable_has_env w w' e : stable w w' → has_env w e = true → has_env w' e = true.
Proof.
  unfold has_env. intros H He.
  destruct (heap w !! e) as [[]|] eqn:E; try done.
  destruct (H _ _ E) as (o' & -> & (b' & m' & ->)). done.
Qed.

(** A tidy computation keeps a world well-formed and its objects. *)
Lemma tidy_wf {A} env (m : M A) w r w' :
  tidy env m → wf w → has_env w env = true → m w = (r, w') →
  wf w' ∧ stable w w' ∧ has_env w' env = true.
Proof.
  intros Hm [Hj Hn] He E.
  destruct (Hm _ _ _ He E) as (F & He' & js & J & O & N).
  assert (Hs : stable w w').
  { intros l o Hl. destruct (decide (l = env)) as [->|Hne].
    - unfold has_env in He, He'. rewrite Hl in He.
      destruct o; try done.
      destruct (heap w' !! env) as [[]|]; try done.
      eexists. split; [done|]. cbn. eauto.
    - exists o. split; [by apply F|apply kept_refl]. }
  split_and!; [|done..]. split.
  - rewrite J. apply Forall_app. split.
    + eapply Forall_impl; [exact Hj|]. intros j [Hp Hr]. split.
      * apply F; [|done]. intros Heq. rewrite Heq in Hp.
        unfold has_env in He. by rewrite Hp in He.
      * intros e Hre. eapply stable_has_env; eauto.
    + eapply Forall_impl; [exact O|]. intros j (_ & Hp & Hr). split; [done|].
      intros e Hre. by rewrite (Hr e Hre).
  - rewrite J, fmap_app. apply NoDup_app. split_and!; [done| |done].
    intros p Hp1 Hp2.
    apply list_elem_of_fmap in Hp1 as (j1 & -> & Hj1).
    apply list_elem_of_fmap in Hp2 as (j2 & Heq & Hj2).
    rewrite Forall_forall in Hj, O.
    destruct (Hj _ Hj1) as (Hp & _). destruct (O _ Hj2) as (Hnone & _ & _).
    rewrite <- Heq in Hnone. by rewrite Hp in Hnone.
Qed.

(** A settlement changes the promise it settles and the environment its
    callback assigns to, adds the objects of the engine, and nothing
    else. *)
Lemma settle_frame P p w :
  wf w →
  wf (settle P p w) ∧ stable w (settle P p w)
  ∧ trace (settle P p w) = trace w
  ∧ (∀ l o, heap w !! l = Some o → l ≠ p →
       (∀ j rest, take_job p (jobs w) = Some (j, rest) →
                  reaction_env (job_then j) ≠ Some l) →
       heap (settle P p w) !! l = Some o)
  ∧ (∀ j, j ∈ jobs (settle P p w) → j ∈ jobs w).
Proof.
  intros [Hj Hn].
  destruct (settle_cases P p w) as [[_ ->]|(j & rest & r & w1 & Et & Ep & Hr)].
  { split_and!; [done|apply stable_refl|done|done|done]. }
  destruct (take_job_split _ _ _ _ Et) as (l1 & l2 & Ejs & -> & Hpj).
  rewrite Ejs in Hj, Hn.
  apply Forall_app in Hj as [Hj1 Hj2]. apply Forall_cons in Hj2 as [[Hp He] Hj2].
  rewrite Hpj in Hp.
  rewrite fmap_app, fmap_cons in Hn. apply NoDup_app in Hn as (Hn1 & Hn12 & Hn2).
  apply NoDup_cons in Hn2 as [Hn2' Hn2]. rewrite Hpj in Hn12, Hn2'.
  destruct (grows_perform P (job_op j) _ _ _ Ep) as [Hsub Hjobs].
  pose proof (perform_trace P _ _ _ _ Ep) as Htr.
  cbn [heap jobs trace] in Hsub, Hjobs, Htr.
  assert (Hl1 : ∀ l o, heap w !! l = Some o → heap w1 !! l = Some o).
  { intros l o Hl. by eapply lookup_weaken. }
  (* the world after the callback *)
  assert (∃ w2 st, settle P p w = set_heap (insert p (OPromise st)) w2
            ∧ jobs w2 = l1 ++ l2 ∧ trace w2 = trace w
            ∧ (w2 = w1 ∨ ∃ e m, reaction_env (job_then j) = Some e
                 ∧ w2 = set_heap (insert e (OEnv (env_bytes w1 e) m)) w1))
    as (w2 & st & -> & Hj2' & Htr2 & Hw2).
  { destruct r as [v|err].
    - destruct Hr as (r2 & w2 & Er & ->). exists w2. eexists. split; [done|].
      apply react_writes in Er as [->|(e & m & Hre & ->)]; split_and!; eauto.
    - exists w1. eexists. split; [exact Hr|]. split_and!; auto. }
  assert (Hl2 : ∀ l o, heap w !! l = Some o →
            reaction_env (job_then j) ≠ Some l → heap w2 !! l = Some o).
  { intros l o Hl Hne. destruct Hw2 as [->|(e & m & Hre & ->)]; [by apply Hl1|].
    cbn. rewrite lookup_insert_ne; [by apply Hl1|]. congruence. }
  assert (Hfin : ∀ l o, heap w !! l = Some o → l ≠ p →
            reaction_env (job_then j) ≠ Some l →
            heap (set_heap (insert p (OPromise st)) w2) !! l = Some o).
  { intros l o Hl Hlp Hne. cbn. rewrite lookup_insert_ne by done. by apply Hl2. }
  assert (Hst : stable w (set_heap (insert p (OPromise st)) w2)).
  { intros l o Hl. destruct (decide (l = p)) as [->|Hlp].
    - rewrite Hp in Hl. injection Hl as <-. eexists. split; [apply lookup_insert_eq|].
      cbn. eauto.
    - destruct (decide (reaction_env (job_then j) = Some l)) as [Hre|Hne].
      + pose proof (He l Hre) as Hel. unfold has_env in Hel. rewrite Hl in Hel.
        destruct o; try done.
        destruct Hw2 as [->|(e & m' & Hre' & ->)].
        * exists (OEnv b m). split; [|cbn; eauto]. cbn.
          rewrite lookup_insert_ne by done. by apply Hl1.
        * assert (e = l) as -> by congruence.
          eexists. split; [|cbn; eauto]. cbn.
          rewrite lookup_insert_ne by done. apply lookup_insert_eq.
      + exists o. split; [by apply Hfin|apply kept_refl]. }
  split_and!; [|done|done| |].
  - split.
    + cbn [jobs set_heap]. rewrite Hj2'.
      assert (Hrest : ∀ j', j' ∈ l1 ++ l2 → job_wf w j' ∧ job_promise j' ≠ p).
      { intros j' Hin. apply elem_of_app in Hin as [Hin|Hin].
        - split; [by eapply Forall_forall in Hj1|].
          intros Heq. apply (Hn12 p); [|left].
          apply list_elem_of_fmap. by exists j'.
        - split; [by eapply Forall_forall in Hj2|].
          intros Heq. apply Hn2'. apply list_elem_of_fmap. by exists j'. }
      apply Forall_forall. intros j' Hin. destruct (Hrest j' Hin) as [[Hp' He'] Hne].
      split.
      * destruct (Hst _ _ Hp') as (o' & Ho' & K).
        apply Hfin; [done|done|]. intros Hre.
        pose proof (He _ Hre) as Hel. unfold has_env in Hel. by rewrite Hp' in Hel.
      * intros e Hre. eapply stable_has_env; eauto.
    + cbn [jobs set_heap]. rewrite Hj2', fmap_app. apply NoDup_app. split_and!; [done| |done].
      intros q Hq1 Hq2. apply (Hn12 q Hq1). by right.
  - intros l o Hl Hlp Hall. apply Hfin; [done..|]. by eapply Hall.
  - cbn [jobs set_heap]. rewrite Hj2', Ejs. intros j'. rewrite !elem_of_app.
    intros [?|?]; [by left|right; by right].
Qed.

(** *** What the entry points leave *)

Lemma wf_alloc w o :
  wf w → wf (set_heap (insert (fresh (dom (heap w))) o) w).
Proof.
  intros [Hj Hn]. split; [|done]. cbn [jobs set_heap].
  eapply Forall_impl; [exact Hj|]. intros j [Hp He]. split.
  - cbn. rewrite lookup_insert_ne; [done|]. intros Heq.
    rewrite <- Heq in Hp. by rewrite fresh_heap in Hp.
  - intros e Hre. unfold has_env. cbn. rewrite lookup_insert_ne.
    + by apply He.
    + by apply has_env_ne_fresh, He.
Qed.

Lemma wf_trace w tr : wf w → wf (mkWorld (heap w) tr (jobs w)).
Proof. by intros [Hj Hn]. Qed.

Lemma InWasm_entry ctx def w a w1 :
  Inwasm.InWasm ctx def w = (Normal (Some a), w1) →
  acc_env a = fresh (dom (heap w))
  ∧ w1 = set_heap (insert (fresh (dom (heap w))) (OEnv VUndef VUndef)) w.
Proof.
  destruct (truthy (get (props_at w def) "d")) eqn:Hd.
  - rewrite InWasm_compiled by done. by intros [= <- <-].
  - rewrite InWasm_uncompiled by done. destruct ctx as [c|]; [|done].
    unfold bind, ret. by destruct (add c def w) as [[]]; intros [=].
Qed.

Lemma EmWasm_entry P ctx def w a w1 :
  Emwasm.EmWasm P ctx def w = (Normal (Some a), w1) →
  ∃ l c, decodes_to P a c
    ∧ l = fresh (dom (heap w))
    ∧ acc_env a = fresh (dom (<[l := OBytes c]> (heap w)))
    ∧ w1 = set_heap (insert (acc_env a) (OEnv (VObj l) VUndef))
             (mkWorld (<[l := OBytes c]> (heap w)) (EvDecode (acc_d a) :: trace w)
                      (jobs w)).
Proof.
  destruct (truthy (get (props_at w def) "d")) eqn:Hd.
  - rewrite EmWasm_compiled by done.
    destruct (dec P _ w) as [[b|err] w2] eqn:E; [|done].
    apply dec_returns in E as (s & c & Hs & Hc & -> & ->).
    intros [= <- <-]. exists (fresh (dom (heap w))), c. cbn.
    split_and!; [by exists s|done..].
  - rewrite EmWasm_uncompiled by done. destruct ctx as [c|]; [|done].
    unfold bind, ret. by destruct (add c def w) as [[]]; intros [=].
Qed.

Lemma tidy_step_wf P a call w w' :
  tidy (acc_env a) call → wf w → has_env w (acc_env a) = true →
  step P call w w' →
  wf w' ∧ stable w w' ∧ has_env w' (acc_env a) = true.
Proof.
  intros Ht Hw He Hs. destruct Hs as [w r w' E|p w].
  - exact (tidy_wf _ _ _ _ _ Ht Hw He E).
  - destruct (settle_frame P p w Hw) as (Hw' & Hs & _).
    split_and!; [done..|]. by eapply stable_has_env.
Qed.

Lemma tidy_reach_wf P a call w w' :
  tidy (acc_env a) call → wf w → has_env w (acc_env a) = true →
  rtc (step P call) w w' →
  wf w' ∧ stable w w' ∧ has_env w' (acc_env a) = true.
Proof.
  intros Ht Hw He Hr. induction Hr as [w|w w1 w2 Hs _ IH].
  - split_and!; [done|apply stable_refl|done].
  - destruct (tidy_step_wf P a call w w1 Ht Hw He Hs) as (Hw1 & Hs1 & He1).
    destruct (IH Hw1 He1) as (Hw2 & Hs2 & He2).
    split_and!; [done| |done]. by eapply stable_trans.
Qed.

(** X7.  Nothing the program holds is taken from it or changed behind its
    back.  From a world with well-formed operations in flight, whatever
    sequence of calls of an accessor (of [InWasm] or of [EmWasm]) and of
    settlements follows: every object of the heap stays where it is;
    plain objects, byte arrays, modules, instances and settled promises
    stay as they are; the only changes are a pending promise settling and
    closure variables being assigned to. *)
Theorem X7_objects_kept (P : Platform) (a : Accessor) (call : M JsVal) (w w' : World) :
  call = Inwasm.call P a ∨ call = Emwasm.call P a →
  wf w → has_env w (acc_env a) = true →
  rtc (step P call) w w' →
  stable w w' ∧ wf w' ∧ has_env w' (acc_env a) = true.
Proof.
  intros Hc Hw He Hr.
  assert (Ht : tidy (acc_env a) call).
  { destruct Hc as [-> | ->]; [apply tidy_call_in|apply tidy_call_em]. }
  destruct (tidy_reach_wf P a call w w' Ht Hw He Hr) as (? & ? & ?). done.
Qed.

(** X7 on the empty module: the definition object and the byte array the
    first call returned are in place after a second call and the
    settlement of its promise. *)
Lemma X7_witness :
  let P := Examples.engine true in
  let aw := Examples.after_entry
              (Inwasm.InWasm None 0%nat
                 (Examples.empty_module OutputType.MODULE OutputMode.ASYNC VUndef)) in
  let w1 := (Inwasm.call P aw.1 aw.2).2 in
  let w2 := settle P 3%nat w1 in
  stable aw.2 w2 ∧ wf w2 ∧ has_env w2 (acc_env aw.1) = true.
Proof.
  intros P aw w1 w2.
  apply (X7_objects_kept P aw.1 (Inwasm.call P aw.1) aw.2 w2).
  - by left.
  - split; [apply Forall_nil_2|apply NoDup_nil_2].
  - reflexivity.
  - eapply rtc_l; [|apply rtc_once, (step_settle P _ 3%nat)].
    eapply step_call. apply surjective_pairing.
Defined.

(** *** What a settlement is made of, in a well-formed world *)

Lemma settle_shape P p w j rest :
  take_job p (jobs w) = Some (j, rest) →
  ∃ w1 w2 st,
    heap w ⊆ heap w1 ∧ trace w1 = trace w ∧ jobs w1 = rest
    ∧ (w2 = w1
       ∨ ∃ e m, reaction_env (job_then j) = Some e
                ∧ w2 = set_heap (insert e (OEnv (env_bytes w1 e) m)) w1)
    ∧ settle P p w = set_heap (insert p (OPromise st)) w2.
Proof.
  intros Et.
  destruct (settle_cases P p w) as [[E _]|(j' & rest' & r & w1 & Et' & Ep & Hr)];
    [congruence|].
  rewrite Et in Et'. injection Et' as <- <-.
  destruct (grows_perform P (job_op j) _ _ _ Ep) as [Hsub Hjobs].
  pose proof (perform_trace P _ _ _ _ Ep) as Htr.
  cbn [heap jobs trace] in Hsub, Hjobs, Htr.
  destruct r as [v|err].
  - destruct Hr as (r2 & w2 & Er & ->). exists w1, w2. eexists.
    split_and!; [done..| |done].
    apply react_writes in Er as [->|(e & m & Hre & ->)]; eauto.
  - exists w1, w1. eexists. split_and!; [done..|by left|exact Hr].
Qed.

Lemma env_bytes_weaken w w' env :
  has_env w env = true → heap w ⊆ heap w' → env_bytes w' env = env_bytes w env.
Proof.
  intros He Hs. unfold env_bytes. rewrite (has_env_lookup w env He).
  by rewrite (lookup_weaken _ _ _ _ (has_env_lookup w env He) Hs).
Qed.

Lemma env_mod_weaken w w' env :
  has_env w env = true → heap w ⊆ heap w' → env_mod w' env = env_mod w env.
Proof.
  intros He Hs. unfold env_mod. rewrite (has_env_lookup w env He).
  by rewrite (lookup_weaken _ _ _ _ (has_env_lookup w env He) Hs).
Qed.

Lemma has_env_weaken w w' env :
  has_env w env = true → heap w ⊆ heap w' → has_env w' env = true.
Proof.
  intros He Hs. unfold has_env.
  by rewrite (lookup_weaken _ _ _ _ (has_env_lookup w env He) Hs).
Qed.

Lemma job_promise_in w p j rest :
  wf w → take_job p (jobs w) = Some (j, rest) →
  heap w !! p = Some (OPromise Pending).
Proof.
  intros [Hj _] Et. destruct (take_job_split _ _ _ _ Et) as (l1 & l2 & E & _ & <-).
  rewrite E in Hj. apply Forall_app in Hj as [_ Hj].
  by apply Forall_cons in Hj as [[Hp _] _].
Qed.

(** A settlement leaves [bytes] of every closure environment as it is. *)
Lemma settle_env_bytes P p w env :
  wf w → has_env w env = true →
  env_bytes (settle P p w) env = env_bytes w env
  ∧ trace (settle P p w) = trace w.
Proof.
  intros Hw He. destruct (take_job p (jobs w)) as [[j rest]|] eqn:Et;
    [|by rewrite settle_idle].
  pose proof (job_promise_in w p j rest Hw Et) as Hp.
  destruct (settle_shape P p w j rest Et) as (w1 & w2 & st & Hs & Ht & Hj & Hw2 & ->).
  assert (Hpe : p ≠ env).
  { intros ->. unfold has_env in He. by rewrite Hp in He. }
  rewrite env_bytes_insert_ne by done. cbn [trace set_heap].
  destruct Hw2 as [->|(e & m & Hre & ->)].
  - split; [by apply env_bytes_weaken|done].
  - split; [|done]. destruct (decide (e = env)) as [->|Hne].
    + rewrite env_bytes_insert_env. by apply env_bytes_weaken.
    + rewrite env_bytes_insert_ne by done. by apply env_bytes_weaken.
Qed.

(** *** Calls once [bytes] is set *)

Lemma decodes_app (evs2 evs1 : list Event) :
  decodes (evs2 ++ evs1) = decodes evs2 ++ decodes evs1.
Proof. apply omap_app. Qed.

Lemma undecoded_refl env w : undecoded env w w.
Proof. split; [by exists []|done]. Qed.

Lemma undecoded_trans env w1 w2 w3 :
  undecoded env w1 w2 → undecoded env w2 w3 → undecoded env w1 w3.
Proof.
  intros [(evs1 & T1 & D1) B1] [(evs2 & T2 & D2) B2]. split; [|congruence].
  exists (evs2 ++ evs1). rewrite T2, T1, app_assoc. split; [done|].
  by rewrite decodes_app, D1, D2.
Qed.

Lemma undecoded_grows {A} (m : M A) env w r w' evs :
  grows m → has_env w env = true → m w = (r, w') →
  trace w' = evs ++ trace w → decodes evs = [] →
  undecoded env w w'.
Proof.
  intros Hm He E T D. destruct (Hm _ _ _ E) as [Hs _].
  split; [by exists evs|by apply env_bytes_weaken].
Qed.

Lemma undecoded_host_sync P op env w r w' :
  has_env w env = true → host_sync P op w = (r, w') → undecoded env w w'.
Proof.
  intros He E. eapply (undecoded_grows _ env w r w' [EvHost op]);
    [apply grows_host_sync|done|done| |done].
  by rewrite (host_sync_trace P op w r w' E).
Qed.

Lemma undecoded_host_async op rc env w r w' :
  has_env w env = true → host_async op rc w = (r, w') → undecoded env w w'.
Proof.
  intros He. rewrite host_async_eq. intros [= <- <-]. split.
  - by exists [EvHost op].
  - apply (env_bytes_insert_ne w). by apply has_env_ne_fresh.
Qed.

Lemma undecoded_promise_resolve v env w r w' :
  has_env w env = true → promise_resolve v w = (r, w') → undecoded env w w'.
Proof.
  intros He E. eapply (undecoded_grows _ env w r w' []);
    [apply grows_promise_resolve|done|done| |done].
  rewrite promise_resolve_eq in E. by injection E as <- <-.
Qed.

Lemma undecoded_write_mod env v w :
  undecoded env w (set_heap (insert env (OEnv (env_bytes w env) v)) w).
Proof. split; [by exists []|apply env_bytes_insert_env]. Qed.

Lemma or_mod_undecoded P a w r w' :
  truthy (env_bytes w (acc_env a)) = true →
  Inwasm.or_mod P a w = (r, w') →
  undecoded (acc_env a) w w'.
Proof.
  intros Hb E. pose proof (truthy_env_bytes _ _ Hb) as He.
  destruct (truthy (env_mod w (acc_env a))) eqn:Hm.
  - rewrite or_mod_hit in E by done. injection E as <- <-. apply undecoded_refl.
  - rewrite or_mod_retry in E by done.
    destruct (host_sync P _ w) as [[m|err] w2] eqn:Eh.
    + injection E as <- <-.
      eapply undecoded_trans; [by eapply undecoded_host_sync|].
      apply undecoded_write_mod.
    + injection E as <- <-. by eapply undecoded_host_sync.
Qed.

Lemma call_undecoded P a w r w' :
  truthy (env_bytes w (acc_env a)) = true →
  Inwasm.call P a w = (r, w') →
  undecoded (acc_env a) w w'.
Proof.
  intros Hb E. pose proof (truthy_env_bytes _ _ Hb) as He.
  unfold Inwasm.call in E. destruct (acc_arrow a).
  - rewrite or_bytes_hit in E by done. injection E as <- <-. apply undecoded_refl.
  - unfold bind in E. rewrite or_bytes_hit in E by done.
    by eapply undecoded_promise_resolve.
  - by eapply or_mod_undecoded.
  - unfold bind, read_mod in E. destruct (truthy (env_mod w (acc_env a))).
    + by eapply undecoded_promise_resolve.
    + rewrite or_bytes_hit in E by done. by eapply undecoded_host_async.
  - unfold bind in E. destruct (Inwasm.or_mod P a w) as [[m|err] w1] eqn:Em.
    + pose proof (or_mod_undecoded P a w _ _ Hb Em) as H1.
      eapply undecoded_trans; [exact H1|].
      eapply undecoded_host_sync; [|exact E].
      destruct (or_mod_any P a w _ _ He Em) as (_ & ? & _). done.
    + injection E as <- <-. by eapply or_mod_undecoded.
  - unfold bind, read_mod in E. destruct (truthy (env_mod w (acc_env a))).
    + by eapply undecoded_host_async.
    + rewrite or_bytes_hit in E by done. by eapply undecoded_host_async.
Qed.

Lemma reach_undecoded P a w w' :
  wf w → truthy (env_bytes w (acc_env a)) = true →
  rtc (step P (Inwasm.call P a)) w w' →
  undecoded (acc_env a) w w'.
Proof.
  intros Hw Hb Hr. induction Hr as [w|w w1 w2 Hs _ IH]; [apply undecoded_refl|].
  pose proof (truthy_env_bytes _ _ Hb) as He.
  destruct (tidy_step_wf P a _ w w1 (tidy_call_in P a) Hw He Hs) as (Hw1 & _ & He1).
  assert (H1 : undecoded (acc_env a) w w1).
  { destruct Hs as [w r w' E|p w].
    - by eapply call_undecoded.
    - destruct (settle_env_bytes P p w (acc_env a) Hw He) as [Hbb Ht].
      split; [|done]. exists []. by rewrite Ht. }
  eapply undecoded_trans; [exact H1|]. apply IH; [done|].
  destruct H1 as [_ ->]. done.
Qed.

(** X9.  Once [bytes] is set, the accessor of [InWasm] never decodes
    again: whatever calls and settlements follow, no call of [_dec] is
    among the events they add, and [bytes] holds the same array. *)
Theorem X9_decoded_once (P : Platform) (a : Accessor) (w w' : World) :
  wf w → truthy (env_bytes w (acc_env a)) = true →
  rtc (step P (Inwasm.call P a)) w w' →
  decodes (new_events w w') = []
  ∧ env_bytes w' (acc_env a) = env_bytes w (acc_env a).
Proof.
  intros Hw Hb Hr.
  destruct (reach_undecoded P a w w' Hw Hb Hr) as [(evs & T & D) B].
  split; [|done]. by rewrite (new_events_app w w' evs T).
Qed.

(** X9 on the empty module with output type INSTANCE in SYNC mode: after
    a first call, two more calls decode nothing. *)
Lemma X9_witness :
  let P := Examples.engine true in
  let aw := Examples.after_entry
              (Inwasm.InWasm None 0%nat
                 (Examples.empty_module OutputType.INSTANCE OutputMode.SYNC VUndef)) in
  let w1 := (Inwasm.call P aw.1 aw.2).2 in
  let w3 := (calls (Inwasm.call P aw.1) 2 w1).2 in
  decodes (new_events aw.2 w1) = [VStr "AGFzbQEAAAA="]
  ∧ decodes (new_events w1 w3) = []
  ∧ env_bytes w3 (acc_env aw.1) = env_bytes w1 (acc_env aw.1).
Proof.
  intros P aw w1 w3. split; [reflexivity|].
  apply (X9_decoded_once P aw.1 w1 w3).
  - split; [apply Forall_nil_2|apply NoDup_nil_2].
  - reflexivity.
  - eapply rtc_l; [|apply rtc_once]; eapply step_call; apply surjective_pairing.
Defined.

(** *** One cache for each accessor *)

(** The closure environment [env2] of another accessor, with no operation
    in flight that assigns to it, is out of reach of the accessor [a]. *)
Lemma other_env_step P a w w' env2 o :
  wf w → has_env w (acc_env a) = true →
  heap w !! env2 = Some o → has_env w env2 = true → env2 ≠ acc_env a →
  Forall (λ j, reaction_env (job_then j) ≠ Some env2) (jobs w) →
  step P (Inwasm.call P a) w w' →
  heap w' !! env2 = Some o
  ∧ Forall (λ j, reaction_env (job_then j) ≠ Some env2) (jobs w').
Proof.
  intros Hw He Ho He2 Hne Hj Hs. destruct Hs as [w r w' E|p w].
  - destruct (tidy_call_in P a w r w' He E) as (F & _ & js & -> & O & _).
    split; [by apply F|]. apply Forall_app. split; [done|].
    eapply Forall_impl; [exact O|]. intros j (_ & _ & Hr) Hre.
    by apply Hne, Hr.
  - destruct (settle_frame P p w Hw) as (_ & _ & _ & F & Hin). split.
    + destruct (take_job p (jobs w)) as [[j rest]|] eqn:Et;
        [|by rewrite settle_idle].
      apply F; [done| |].
      * intros Heq. pose proof (job_promise_in w p j rest Hw Et) as Hp.
        rewrite <- Heq in Hp. unfold has_env in He2. by rewrite Hp in He2.
      * intros j' rest' [= <- <-].
        destruct (take_job_split _ _ _ _ Et) as (l1 & l2 & E & _ & _).
        rewrite E in Hj. apply Forall_app in Hj as [_ Hj].
        by apply Forall_cons in Hj as [Hj _].
    + apply Forall_forall. intros j Hjin.
      rewrite Forall_forall in Hj. by apply Hj, Hin.
Qed.

Lemma other_env_reach P a w w' env2 o :
  wf w → has_env w (acc_env a) = true →
  heap w !! env2 = Some o → has_env w env2 = true → env2 ≠ acc_env a →
  Forall (λ j, reaction_env (job_then j) ≠ Some env2) (jobs w) →
  rtc (step P (Inwasm.call P a)) w w' →
  heap w' !! env2 = Some o.
Proof.
  intros Hw He Ho He2 Hne Hj Hr.
  induction Hr as [w|w w1 w2 Hs _ IH]; [done|].
  destruct (tidy_step_wf P a _ w w1 (tidy_call_in P a) Hw He Hs) as (Hw1 & _ & He1).
  destruct (other_env_step P a w w1 env2 o Hw He Ho He2 Hne Hj Hs) as [Ho1 Hj1].
  apply IH; try done. unfold has_env. rewrite Ho1.
  unfold has_env in He2. by rewrite Ho in He2.
Qed.

(** X11.  Each call of [InWasm] makes a cache of its own, even on the same
    definition object.  Of two accessors returned one after the other,
    the closure variables are two different objects, and whatever calls
    of the first and settlements follow, [bytes] and [mod] of the second
    stay empty: the second decodes and compiles for itself. *)
Theorem X11_caches_not_shared (P : Platform) (ctx ctx' : option Ctx) (def def' : loc)
    (a1 a2 : Accessor) (w0 w1 w2 w : World) :
  wf w0 →
  Inwasm.InWasm ctx def w0 = (Normal (Some a1), w1) →
  Inwasm.InWasm ctx' def' w1 = (Normal (Some a2), w2) →
  rtc (step P (Inwasm.call P a1)) w2 w →
  acc_env a1 ≠ acc_env a2
  ∧ heap w !! acc_env a2 = Some (OEnv VUndef VUndef).
Proof.
  intros Hw E1 E2 Hr.
  apply InWasm_entry in E1 as [A1 Ew1]. apply InWasm_entry in E2 as [A2 ->].
  assert (Hw1 : wf w1) by (rewrite Ew1; by apply wf_alloc).
  assert (H1 : heap w1 !! acc_env a1 = Some (OEnv VUndef VUndef)).
  { rewrite A1, Ew1. apply lookup_insert_eq. }
  assert (Hne : acc_env a1 ≠ acc_env a2).
  { rewrite A2. by eapply fresh_ne. }
  split; [done|].
  eapply (other_env_reach P a1); [| | | | |  |exact Hr].
  - by apply wf_alloc.
  - unfold has_env. cbn [heap set_heap].
    rewrite lookup_insert_ne by (by rewrite A2 in Hne). by rewrite H1.
  - rewrite A2. apply lookup_insert_eq.
  - unfold has_env. rewrite A2. cbn [heap set_heap]. by rewrite lookup_insert_eq.
  - done.
  - destruct Hw1 as [Hj _]. cbn [jobs set_heap].
    eapply Forall_impl; [exact Hj|]. intros j [_ He] Hre.
    pose proof (He _ Hre) as He2. rewrite A2 in He2.
    by apply has_env_ne_fresh in He2.
Qed.

(** X11 on the empty module: after two entries on the same definition
    and a call of the first accessor, which caches its module, the cache
    of the second is empty. *)
Lemma X11_witness :
  let P := Examples.engine true in
  let w0 := Examples.empty_module OutputType.MODULE OutputMode.SYNC VUndef in
  let aw1 := Examples.after_entry (Inwasm.InWasm None 0%nat w0) in
  let aw2 := Examples.after_entry (Inwasm.InWasm None 0%nat aw1.2) in
  let w := (Inwasm.call P aw1.1 aw2.2).2 in
  env_mod w (acc_env aw1.1) = VObj 4%nat
  ∧ acc_env aw1.1 ≠ acc_env aw2.1
  ∧ heap w !! acc_env aw2.1 = Some (OEnv VUndef VUndef).
Proof.
  intros P w0 aw1 aw2 w. split; [reflexivity|].
  apply (X11_caches_not_shared P None None 0%nat 0%nat aw1.1 aw2.1 w0 aw1.2 aw2.2 w).
  - split; [apply Forall_nil_2|apply NoDup_nil_2].
  - reflexivity.
  - reflexivity.
  - apply rtc_once. eapply step_call. apply surjective_pairing.
Defined.

(** *** The cache of [InWasm] stays coherent *)

Lemma subseteq_stable w w' : heap w ⊆ heap w' → stable w w'.
Proof.
  intros Hs l o Hl. exists o. split; [by eapply lookup_weaken|apply kept_refl].
Qed.

Lemma stable_bytes_at w w' v c :
  stable w w' → bytes_at w v = Some c → bytes_at w' v = Some c.
Proof.
  intros Hs Hb. apply bytes_at_lookup in Hb as (l & -> & Hl).
  destruct (Hs _ _ Hl) as (o' & Hl' & K). cbn in K. subst o'.
  unfold bytes_at. by rewrite Hl'.
Qed.

Lemma stable_module_at w w' v lc :
  stable w w' → module_at w v = Some lc → module_at w' v = Some lc.
Proof.
  intros Hs Hm. destruct lc as [lm c].
  apply module_at_lookup in Hm as (-> & Hl).
  destruct (Hs _ _ Hl) as (o' & Hl' & K). cbn in K. subst o'.
  unfold module_at. by rewrite Hl'.
Qed.

Lemma coh_stable P a w w' :
  coherent P a w → stable w w' →
  heap w' !! acc_env a = heap w !! acc_env a →
  (∀ j, j ∈ jobs w' → j ∈ jobs w) →
  coherent P a w'.
Proof.
  intros (He & Hb & Hm & Hj) Hs Henv Hin.
  assert (Eb : env_bytes w' (acc_env a) = env_bytes w (acc_env a))
    by (unfold env_bytes; by rewrite Henv).
  assert (Em : env_mod w' (acc_env a) = env_mod w (acc_env a))
    by (unfold env_mod; by rewrite Henv).
  split_and!.
  - unfold has_env in *. by rewrite Henv.
  - rewrite Eb. intros Ht. destruct (Hb Ht) as (c & Hc & Hd).
    exists c. split; [by eapply stable_bytes_at|done].
  - rewrite Em, Eb. intros Ht. destruct (Hm Ht) as (Htb & lm & c & Hc & Hd).
    split; [done|]. exists lm, c. split; [by eapply stable_module_at|done].
  - apply Forall_forall. intros j Hjin. rewrite Forall_forall in Hj.
    unfold job_of. rewrite Eb. by apply Hj, Hin.
Qed.

Lemma coh_grows {A} P a (m : M A) w r w' :
  grows m → coherent P a w → m w = (r, w') → coherent P a w'.
Proof.
  intros Hg Hc E. destruct (Hg _ _ _ E) as [Hs Hj].
  apply (coh_stable P a w w' Hc); [by apply subseteq_stable| |by rewrite Hj].
  destruct Hc as (He & _).
  by rewrite (lookup_weaken _ _ _ _ (has_env_lookup w _ He) Hs), <- has_env_lookup.
Qed.

Lemma bytes_at_insert_env w env b m v :
  has_env w env = true →
  bytes_at (set_heap (insert env (OEnv b m)) w) v = bytes_at w v.
Proof.
  intros He. destruct v as [| | | | |l]; try done. unfold bytes_at. cbn [heap set_heap].
  destruct (decide (l = env)) as [->|Hne].
  - rewrite lookup_insert_eq, (has_env_lookup w env He). done.
  - by rewrite lookup_insert_ne.
Qed.

Lemma module_at_insert_env w env b m v :
  has_env w env = true →
  module_at (set_heap (insert env (OEnv b m)) w) v = module_at w v.
Proof.
  intros He. destruct v as [| | | | |l]; try done. unfold module_at. cbn [heap set_heap].
  destruct (decide (l = env)) as [->|Hne].
  - rewrite lookup_insert_eq, (has_env_lookup w env He). done.
  - by rewrite lookup_insert_ne.
Qed.

Lemma coh_set_mod P a w m lm c :
  coherent P a w → truthy (env_bytes w (acc_env a)) = true →
  module_at w m = Some (lm, c) → decodes_to P a c →
  coherent P a (set_heap (insert (acc_env a) (OEnv (env_bytes w (acc_env a)) m)) w).
Proof.
  intros (He & Hb & Hm & Hj) Htb Hmod Hd.
  split_and!.
  - unfold has_env. cbn. by rewrite lookup_insert_eq.
  - rewrite env_bytes_insert_env, bytes_at_insert_env by done. auto.
  - rewrite env_mod_insert_env, env_bytes_insert_env, module_at_insert_env by done.
    intros _. split; [done|]. by exists lm, c.
  - cbn [jobs set_heap]. eapply Forall_impl; [exact Hj|]. intros j Hjo.
    unfold job_of. by rewrite env_bytes_insert_env.
Qed.

Lemma coh_set_bytes P a w b c :
  coherent P a w → truthy (env_bytes w (acc_env a)) = false →
  truthy b = true → bytes_at w b = Some c → decodes_to P a c →
  coherent P a (set_heap (insert (acc_env a) (OEnv b (env_mod w (acc_env a)))) w).
Proof.
  intros (He & Hb & Hm & Hj) Hfb Htb Hbytes Hd.
  split_and!.
  - unfold has_env. cbn. by rewrite lookup_insert_eq.
  - rewrite env_bytes_insert_env, bytes_at_insert_env by done. intros _. by exists c.
  - rewrite env_mod_insert_env. intros Ht. destruct (Hm Ht) as [Ht' _]. congruence.
  - cbn [jobs set_heap]. eapply Forall_impl; [exact Hj|]. intros j Hjo Hre.
    destruct (Hjo Hre) as [Ht' _]. congruence.
Qed.

Lemma host_async_coh P a op rc w r w' :
  coherent P a w →
  job_of a w (mkJob op rc (fresh (dom (heap w)))) →
  host_async op rc w = (r, w') → coherent P a w'.
Proof.
  intros Hc Hjo. rewrite host_async_eq. intros [= <- <-].
  pose proof Hc as (He & _).
  assert (Hc1 : coherent P a (set_heap (insert (fresh (dom (heap w))) (OPromise Pending)) w)).
  { by apply (coh_grows P a (alloc (OPromise Pending)) w (Normal (fresh (dom (heap w))))
                (set_heap (insert (fresh (dom (heap w))) (OPromise Pending)) w)
                (grows_alloc _) Hc). }
  destruct Hc1 as (He1 & Hb1 & Hm1 & Hj1).
  split_and!; [done..|].
  cbn [jobs]. apply Forall_app. split; [done|]. apply Forall_singleton.
  unfold job_of in *. unfold env_bytes in *. cbn [heap set_heap] in *.
  rewrite lookup_insert_ne by (by apply has_env_ne_fresh). done.
Qed.

Lemma or_bytes_coh P a w r w' :
  coherent P a w → Inwasm.or_bytes P a w = (r, w') →
  coherent P a w'
  ∧ ∀ b, r = Normal b → env_bytes w' (acc_env a) = b ∧ truthy b = true.
Proof.
  intros Hc E. pose proof Hc as (He & _).
  destruct (truthy (env_bytes w (acc_env a))) eqn:Hb.
  - rewrite or_bytes_hit in E by done. injection E as <- <-.
    split; [done|]. by intros b [= <-].
  - rewrite or_bytes_miss in E by done.
    destruct (dec P (acc_d a) w) as [[b|err] w1] eqn:Ed.
    + injection E as <- <-.
      pose proof (coh_grows P a _ _ _ _ (grows_dec P _) Hc Ed) as Hc1.
      destruct (grows_dec P _ _ _ _ Ed) as [Hs _].
      apply dec_returns in Ed as (s & c & Hds & Hdc & -> & Hw1).
      assert (Hb1 : truthy (env_bytes w1 (acc_env a)) = false).
      { by rewrite (env_bytes_weaken w w1). }
      split.
      * apply (coh_set_bytes P a w1 _ c Hc1 Hb1); [done| |by exists s].
        rewrite Hw1. unfold bytes_at. cbn. by rewrite lookup_insert_eq.
      * intros b [= <-]. by rewrite env_bytes_insert_env.
    + injection E as <- <-. split; [|done].
      by apply (coh_grows P a _ _ _ _ (grows_dec P _) Hc Ed).
Qed.

Lemma host_sync_new_module P b w m w' :
  host_sync P (NewModule b) w = (Normal m, w') →
  ∃ lm c, bytes_at w b = Some c ∧ module_at w' m = Some (lm, c).
Proof.
  rewrite host_sync_eq, (perform_compile P _ b) by auto.
  rewrite bytes_at_logged. destruct (bytes_at w b) as [c|]; [|done].
  destruct (wasm_validate P _ c); [done|]. intros [= <- <-].
  exists (fresh (dom (heap w))), c. split; [done|].
  unfold module_at. cbn. by rewrite lookup_insert_eq.
Qed.

Lemma or_mod_coh P a w r w' :
  coherent P a w → Inwasm.or_mod P a w = (r, w') → coherent P a w'.
Proof.
  intros Hc E.
  destruct (truthy (env_mod w (acc_env a))) eqn:Hm.
  - rewrite or_mod_hit in E by done. by injection E as <- <-.
  - rewrite or_mod_miss in E by done.
    destruct (Inwasm.or_bytes P a w) as [[b|err] w1] eqn:Eb.
    + destruct (or_bytes_coh P a w _ _ Hc Eb) as [Hc1 Hb1].
      destruct (Hb1 b eq_refl) as [Heb Htb].
      destruct (host_sync P (NewModule b) w1) as [[m|err] w2] eqn:Eh.
      * injection E as <- <-.
        pose proof (coh_grows P a _ _ _ _ (grows_host_sync P _) Hc1 Eh) as Hc2.
        destruct (grows_host_sync P _ _ _ _ Eh) as [Hs _].
        destruct (host_sync_new_module P b w1 m w2 Eh) as (lm & c & Hbc & Hmc).
        pose proof Hc1 as (He1 & Hbok & _).
        rewrite Heb in Hbok. destruct (Hbok Htb) as (c' & Hbc' & Hd).
        assert (c' = c) as -> by congruence.
        eapply coh_set_mod; [done| |exact Hmc|done].
        rewrite (env_bytes_weaken w1 w2) by done. by rewrite Heb.
      * injection E as <- <-.
        by apply (coh_grows P a _ _ _ _ (grows_host_sync P _) Hc1 Eh).
    + injection E as <- <-. by destruct (or_bytes_coh P a w _ _ Hc Eb).
Qed.

Lemma bytes_job_coh P a op rc w b r w' :
  coherent P a w → env_bytes w (acc_env a) = b → truthy b = true →
  (op = Compile b ∧ rc = RSetMod (acc_env a))
  ∨ (∃ io, op = Instantiate b io ∧ rc = RSetModInstance (acc_env a)) →
  host_async op rc w = (r, w') → coherent P a w'.
Proof.
  intros Hc Hb Ht Hop. apply host_async_coh; [done|].
  intros _. cbn [job_op job_then]. rewrite Hb. done.
Qed.

Lemma call_coh P a w r w' :
  coherent P a w → Inwasm.call P a w = (r, w') → coherent P a w'.
Proof.
  intros Hc E. unfold Inwasm.call in E. destruct (acc_arrow a).
  - by destruct (or_bytes_coh P a w _ _ Hc E).
  - unfold bind in E. destruct (Inwasm.or_bytes P a w) as [[b|err] w1] eqn:Eb.
    + destruct (or_bytes_coh P a w _ _ Hc Eb) as [Hc1 _].
      by apply (coh_grows P a _ _ _ _ (grows_promise_resolve _) Hc1 E).
    + injection E as <- <-. by destruct (or_bytes_coh P a w _ _ Hc Eb).
  - by eapply or_mod_coh.
  - unfold bind, read_mod in E. destruct (truthy (env_mod w (acc_env a))).
    + by apply (coh_grows P a _ _ _ _ (grows_promise_resolve _) Hc E).
    + destruct (Inwasm.or_bytes P a w) as [[b|err] w1] eqn:Eb.
      * destruct (or_bytes_coh P a w _ _ Hc Eb) as [Hc1 Hb1].
        destruct (Hb1 b eq_refl) as [Heb Htb].
        eapply bytes_job_coh; [exact Hc1|exact Heb|exact Htb| |exact E]. by left.
      * injection E as <- <-. by destruct (or_bytes_coh P a w _ _ Hc Eb).
  - unfold bind in E. destruct (Inwasm.or_mod P a w) as [[m|err] w1] eqn:Em.
    + pose proof (or_mod_coh P a w _ _ Hc Em) as Hc1.
      by apply (coh_grows P a _ _ _ _ (grows_host_sync P _) Hc1 E).
    + injection E as <- <-. by eapply or_mod_coh.
  - unfold bind, read_mod in E. destruct (truthy (env_mod w (acc_env a))).
    + eapply host_async_coh; [exact Hc| |exact E]. by intros [=].
    + destruct (Inwasm.or_bytes P a w) as [[b|err] w1] eqn:Eb.
      * destruct (or_bytes_coh P a w _ _ Hc Eb) as [Hc1 Hb1].
        destruct (Hb1 b eq_refl) as [Heb Htb].
        eapply bytes_job_coh; [exact Hc1|exact Heb|exact Htb| |exact E].
        right. by eexists.
      * injection E as <- <-. by destruct (or_bytes_coh P a w _ _ Hc Eb).
Qed.

Lemma bytes_at_insert_promise w p st0 st v :
  heap w !! p = Some (OPromise st0) →
  bytes_at (set_heap (insert p (OPromise st)) w) v = bytes_at w v.
Proof.
  intros Hp. destruct v as [| | | | |l]; try done. unfold bytes_at. cbn [heap set_heap].
  destruct (decide (l = p)) as [->|Hne].
  - by rewrite lookup_insert_eq, Hp.
  - by rewrite lookup_insert_ne.
Qed.

Lemma module_at_insert_promise w p st0 st v :
  heap w !! p = Some (OPromise st0) →
  module_at (set_heap (insert p (OPromise st)) w) v = module_at w v.
Proof.
  intros Hp. destruct v as [| | | | |l]; try done. unfold module_at. cbn [heap set_heap].
  destruct (decide (l = p)) as [->|Hne].
  - by rewrite lookup_insert_eq, Hp.
  - by rewrite lookup_insert_ne.
Qed.

Lemma coh_settled P a w p st0 st :
  coherent P a w → heap w !! p = Some (OPromise st0) →
  coherent P a (set_heap (insert p (OPromise st)) w).
Proof.
  intros (He & Hb & Hm & Hj) Hp.
  assert (Hne : p ≠ acc_env a).
  { intros ->. unfold has_env in He. by rewrite Hp in He. }
  split_and!.
  - unfold has_env. cbn. by rewrite lookup_insert_ne.
  - rewrite env_bytes_insert_ne, (bytes_at_insert_promise w p st0) by done. done.
  - rewrite env_mod_insert_ne, env_bytes_insert_ne,
      (module_at_insert_promise w p st0) by done. done.
  - cbn [jobs set_heap]. eapply Forall_impl; [exact Hj|]. intros j Hjo.
    unfold job_of. by rewrite env_bytes_insert_ne.
Qed.

Lemma coh_alloc P a w o :
  coherent P a w → coherent P a (set_heap (insert (fresh (dom (heap w))) o) w).
Proof.
  intros Hc.
  by apply (coh_grows P a (alloc o) w (Normal (fresh (dom (heap w)))) _ (grows_alloc o) Hc).
Qed.

Lemma kept_alloc w o p x :
  heap w !! p = Some x →
  heap (set_heap (insert (fresh (dom (heap w))) o) w) !! p = Some x.
Proof.
  intros Hp. cbn. rewrite lookup_insert_ne; [done|].
  apply not_eq_sym. by eapply fresh_ne.
Qed.

(** The operation of a job of the accessor and its callback: [mod] is
    assigned a module of the decoded bytes, or nothing changes. *)
Lemma own_job_coh P a w op rc r w1 :
  coherent P a w → truthy (env_bytes w (acc_env a)) = true →
  (op = Compile (env_bytes w (acc_env a)) ∧ rc = RSetMod (acc_env a))
  ∨ (∃ io, op = Instantiate (env_bytes w (acc_env a)) io
           ∧ rc = RSetModInstance (acc_env a)) →
  (v <~ perform P op;; react rc v) w = (r, w1) →
  coherent P a w1
  ∧ ∀ p st, heap w !! p = Some (OPromise st) → heap w1 !! p = Some (OPromise st).
Proof.
  intros Hc Htb Hshape E. pose proof Hc as (He & Hbok & _).
  destruct (Hbok Htb) as (c & Hbc & Hd).
  set (b := env_bytes w (acc_env a)) in *.
  unfold bind in E.
  destruct Hshape as [[-> ->]|(io & -> & ->)].
  - rewrite (perform_compile P _ b) in E by auto. rewrite Hbc in E.
    destruct (wasm_validate P (trace w) c) as [err|].
    { injection E as <- <-. by split. }
    cbn [react] in E. unfold bind, write_mod, ret in E. cbn [fst snd] in E.
    injection E as <- <-.
    set (lm := fresh (dom (heap w))).
    set (w' := set_heap (insert lm (OModule c)) w).
    assert (Hc' : coherent P a w') by (by apply coh_alloc).
    assert (He' : has_env w' (acc_env a) = true) by (by destruct Hc').
    assert (Hsub : heap w ⊆ heap w') by apply heap_alloc_subseteq.
    split.
    + eapply coh_set_mod; [done| | |done].
      * rewrite (env_bytes_weaken w w') by done. done.
      * unfold module_at, w'. cbn. by rewrite lookup_insert_eq.
    + intros p st Hp. cbn [heap set_heap].
      rewrite lookup_insert_ne.
      * by apply (kept_alloc w).
      * intros Heq. unfold has_env in He'. rewrite Heq in He'.
        unfold w', lm in He'. by rewrite (kept_alloc w _ _ _ Hp) in He'.
  - rewrite perform_instantiate_bytes in E by (by eapply bytes_not_module).
    rewrite Hbc in E.
    destruct (wasm_validate P (trace w) c) as [err|].
    { injection E as <- <-. by split. }
    destruct (wasm_link P (trace w) c io) as [err|].
    { injection E as <- <-. by split. }
    cbv beta iota zeta in E.
    set (lm := fresh (dom (heap w))) in *.
    set (wa := set_heap (insert lm (OModule c)) w) in *.
    set (li := fresh (dom (heap wa))) in *.
    set (wb := set_heap (insert li (OInstance lm io)) wa) in *.
    set (lr := fresh (dom (heap wb))) in *.
    set (wc := set_heap (insert lr (OPlain {[ "module" := VObj lm;
                                               "instance" := VObj li ]})) wb) in *.
    assert (Hca : coherent P a wa) by (by apply coh_alloc).
    assert (Hcb : coherent P a wb) by (by apply coh_alloc).
    assert (Hcc : coherent P a wc) by (by apply coh_alloc).
    assert (Hec : has_env wc (acc_env a) = true) by (by destruct Hcc).
    assert (Hsa : heap w ⊆ heap wa) by apply heap_alloc_subseteq.
    assert (Hsb : heap wa ⊆ heap wb) by apply heap_alloc_subseteq.
    assert (Hsc : heap wb ⊆ heap wc) by apply heap_alloc_subseteq.
    assert (Hlr : heap wc !! lr
              = Some (OPlain {[ "module" := VObj lm; "instance" := VObj li ]})).
    { unfold wc. cbn. by rewrite lookup_insert_eq. }
    assert (Hne : lr ≠ acc_env a).
    { intros Heq. unfold has_env in Hec. rewrite <- Heq, Hlr in Hec. done. }
    rewrite (react_set_mod_instance (acc_env a) lr lm li wc Hlr Hne) in E.
    injection E as <- <-.
    assert (Hlm : heap wc !! lm = Some (OModule c)).
    { apply (lookup_weaken (heap wa)); [|by etrans].
      unfold wa. cbn. by rewrite lookup_insert_eq. }
    split.
    + eapply coh_set_mod; [done| | |done].
      * rewrite (env_bytes_weaken w wc); [done|done|]. by etrans; [|etrans].
      * unfold module_at. by rewrite Hlm.
    + intros p st Hp. cbn [heap set_heap].
      assert (Hpc : heap wc !! p = Some (OPromise st)).
      { apply (lookup_weaken (heap w)); [done|]. by etrans; [|etrans]. }
      rewrite lookup_insert_ne; [done|].
      intros Heq. unfold has_env in Hec. rewrite Heq in Hec. by rewrite Hpc in Hec.
Qed.

Lemma settle_coh P a p w :
  coherent P a w → wf w → coherent P a (settle P p w).
Proof.
  intros Hc Hw. pose proof Hc as (He & Hbok & _ & Hjobs).
  destruct (take_job p (jobs w)) as [[j rest]|] eqn:Et; [|by rewrite settle_idle].
  pose proof (job_promise_in w p j rest Hw Et) as Hp.
  destruct (take_job_split _ _ _ _ Et) as (l1 & l2 & Ejs & Erest & Hpj).
  assert (Hpe : p ≠ acc_env a).
  { intros ->. unfold has_env in He. by rewrite Hp in He. }
  destruct (decide (reaction_env (job_then j) = Some (acc_env a))) as [Hre|Hne].
  - assert (Hjo : job_of a w j).
    { rewrite Forall_forall in Hjobs. apply Hjobs. rewrite Ejs.
      apply elem_of_app. right. by left. }
    destruct (Hjo Hre) as [Htb Hshape].
    set (w0 := mkWorld (heap w) (trace w) rest).
    assert (Hc0 : coherent P a w0).
    { apply (coh_stable P a w);
        [done|intros l o Hl; exists o; split; [done|apply kept_refl]|done|].
      cbn. rewrite Ejs, Erest. intros j'. rewrite !elem_of_app.
      intros [?|?]; [by left|right; by right]. }
    rewrite (settle_found P p w j rest Et). fold w0.
    destruct ((v <~ perform P (job_op j);; react (job_then j) v) w0)
      as [r w1] eqn:E.
    destruct (own_job_coh P a w0 (job_op j) (job_then j) r w1 Hc0 Htb Hshape E)
      as [Hc1 Hk].
    destruct r; eapply coh_settled; try done; by apply Hk.
  - destruct (settle_frame P p w Hw) as (_ & Hs & _ & F & Hin).
    apply (coh_stable P a w); [done|done| |done].
    rewrite (has_env_lookup w _ He). apply F; [by apply has_env_lookup|done|].
    intros j' rest' Ht. rewrite Et in Ht. by injection Ht as <- <-.
Qed.

Lemma coh_ready P a w : coherent P a w → wf w → ready a w = true.
Proof.
  intros (He & Hb & Hm & _) [Hj _]. unfold ready.
  rewrite He. cbn [andb]. apply andb_true_iff. split.
  - unfold jobs_allocated. apply forallb_forall. intros j Hin.
    apply bool_decide_eq_true_2. rewrite Forall_forall in Hj.
    apply list_elem_of_In in Hin. destruct (Hj j Hin) as [-> _]. done.
  - unfold cells_typed. rewrite (has_env_lookup w _ He).
    apply andb_true_iff. split.
    + destruct (truthy (env_bytes w (acc_env a))) eqn:Ht; [|done]. cbn.
      destruct (Hb eq_refl) as (c & Hc & _).
      apply bytes_at_lookup in Hc as (l & -> & ->). done.
    + destruct (truthy (env_mod w (acc_env a))) eqn:Ht; [|done]. cbn.
      destruct (Hm eq_refl) as (_ & lm & c & Hc & _).
      apply module_at_lookup in Hc as (-> & ->). done.
Qed.

Lemma InWasm_entry_coh P ctx def w a w1 :
  wf w → Inwasm.InWasm ctx def w = (Normal (Some a), w1) →
  coherent P a w1 ∧ wf w1
  ∧ env_bytes w1 (acc_env a) = VUndef ∧ env_mod w1 (acc_env a) = VUndef.
Proof.
  intros Hw E. apply InWasm_entry in E as [A ->].
  split_and!.
  - split_and!.
    + unfold has_env. rewrite A. cbn. by rewrite lookup_insert_eq.
    + rewrite A, env_bytes_insert_env. done.
    + rewrite A, env_mod_insert_env. done.
    + cbn [jobs set_heap]. destruct Hw as [Hj _].
      eapply Forall_impl; [exact Hj|]. intros j [_ Hre] Hr.
      rewrite A in Hr. by apply Hre, has_env_ne_fresh in Hr.
  - by apply wf_alloc.
  - by rewrite A, env_bytes_insert_env.
  - by rewrite A, env_mod_insert_env.
Qed.

Lemma reach_coh P a w w' :
  coherent P a w → wf w → rtc (step P (Inwasm.call P a)) w w' →
  coherent P a w' ∧ wf w'.
Proof.
  intros Hc Hw Hr. induction Hr as [w|w w1 w2 Hs _ IH]; [done|].
  pose proof Hc as (He & _).
  destruct (tidy_step_wf P a _ w w1 (tidy_call_in P a) Hw He Hs) as (Hw1 & _ & _).
  apply IH; [|done]. destruct Hs as [w r w' E|p w].
  - by eapply call_coh.
  - by apply settle_coh.
Qed.

(** X8.  The cache of an accessor of [InWasm] is coherent all its life.
    After the entry point, whatever calls and settlements follow, also
    with several ASYNC calls in flight: [bytes], when set, is an array of
    the bytes [_dec] reads from [d]; [mod], when set, is a module compiled
    from these bytes, and is set only when [bytes] is; every operation in
    flight that will assign to [mod] compiles the array [bytes] holds.
    Such a world is one in which the accessor can run ([ready]). *)
Theorem X8_cache_coherent (P : Platform) (ctx : option Ctx) (def : loc)
    (a : Accessor) (w0 w1 w : World) :
  wf w0 →
  Inwasm.InWasm ctx def w0 = (Normal (Some a), w1) →
  rtc (step P (Inwasm.call P a)) w1 w →
  coherent P a w ∧ wf w ∧ ready a w = true.
Proof.
  intros Hw E Hr.
  destruct (InWasm_entry_coh P ctx def w0 a w1 Hw E) as (Hc1 & Hw1 & _).
  destruct (reach_coh P a w1 w Hc1 Hw1 Hr) as [Hc Hwf].
  split_and!; [done..|]. by apply (coh_ready P).
Qed.

(** X8 on the empty module in ASYNC mode: two calls before any settlement,
    then both settlements. *)
Lemma X8_witness :
  let P := Examples.engine true in
  let w0 := Examples.empty_module OutputType.MODULE OutputMode.ASYNC VUndef in
  let aw := Examples.after_entry (Inwasm.InWasm None 0%nat w0) in
  let w2 := (calls (Inwasm.call P aw.1) 2 aw.2).2 in
  let w4 := settle P 4%nat (settle P 3%nat w2) in
  coherent P aw.1 w4 ∧ wf w4 ∧ ready aw.1 w4 = true.
Proof.
  intros P w0 aw w2 w4.
  apply (X8_cache_coherent P None 0%nat aw.1 w0 aw.2 w4).
  - split; [apply Forall_nil_2|apply NoDup_nil_2].
  - reflexivity.
  - eapply rtc_l; [eapply step_call; apply surjective_pairing|].
    eapply rtc_l; [eapply step_call; apply surjective_pairing|].
    eapply rtc_l; [apply (step_settle P _ 3%nat)|].
    apply rtc_once, (step_settle P _ 4%nat).
Defined.

(** *** The accessors of [EmWasm] keep no state *)

Lemma calm_bind {A B} (m : M A) (k : A → M B) :
  calm m → (∀ x, calm (k x)) → calm (bind m k).
Proof.
  intros Hm Hk w r w' E. unfold bind in E.
  destruct (m w) as [[x|err] w1] eqn:E1; [|injection E as <- <-; by eapply Hm].
  destruct (Hm _ _ _ E1) as (S1 & (evs1 & T1 & D1) & js1 & J1 & R1).
  destruct (Hk x _ _ _ E) as (S2 & (evs2 & T2 & D2) & js2 & J2 & R2).
  split_and!.
  - by etrans.
  - exists (evs2 ++ evs1). rewrite T2, T1, app_assoc. split; [done|].
    by rewrite decodes_app, D1, D2.
  - exists (js1 ++ js2). rewrite J2, J1, app_assoc. split; [done|].
    by apply Forall_app.
Qed.

Lemma calm_read_bytes env : calm (read_bytes env).
Proof.
  intros w r w' [= <- <-]. split_and!; [done|by exists []|].
  exists []. by rewrite app_nil_r.
Qed.

Lemma calm_host_sync P op : calm (host_sync P op).
Proof.
  intros w r w' E. destruct (grows_host_sync P op _ _ _ E) as [Hs Hj].
  split_and!; [done| |].
  - exists [EvHost op]. by rewrite (host_sync_trace P op w r w' E).
  - exists []. by rewrite app_nil_r.
Qed.

Lemma calm_promise_resolve v : calm (promise_resolve v).
Proof.
  intros w r w' E. destruct (grows_promise_resolve v _ _ _ E) as [Hs Hj].
  rewrite promise_resolve_eq in E. injection E as <- <-.
  split_and!; [done|by exists []|]. exists []. by rewrite app_nil_r.
Qed.

Lemma calm_host_async op rc : reaction_env rc = None → calm (host_async op rc).
Proof.
  intros Hrc w r w'. rewrite host_async_eq. intros [= <- <-].
  split_and!.
  - cbn. apply insert_subseteq, fresh_heap.
  - by exists [EvHost op].
  - eexists [_]. split; [done|]. by apply Forall_singleton.
Qed.

Lemma calm_call_em P a : calm (Emwasm.call P a).
Proof.
  unfold Emwasm.call.
  destruct (acc_arrow a);
    repeat first
      [ apply calm_read_bytes | apply calm_host_sync | apply calm_promise_resolve
      | apply calm_host_async; reflexivity
      | apply calm_bind; [|intros ?] ].
Qed.

Lemma em_step P a lb w w' :
  wf w → em_state a lb w → step P (Emwasm.call P a) w w' →
  em_state a lb w' ∧ undecoded (acc_env a) w w'.
Proof.
  intros Hw [Henv Hj] Hs.
  assert (He : has_env w (acc_env a) = true) by (unfold has_env; by rewrite Henv).
  destruct Hs as [w r w' E|p w].
  - destruct (calm_call_em P a w r w' E) as (Hsub & Htr & js & Hjs & Hr).
    split; [split|split; [done|by apply env_bytes_weaken]].
    + by eapply lookup_weaken.
    + rewrite Hjs. apply Forall_app. split; [done|].
      eapply Forall_impl; [exact Hr|]. by intros j ->.
  - destruct (settle_frame P p w Hw) as (_ & _ & Ht & F & Hin).
    destruct (settle_env_bytes P p w (acc_env a) Hw He) as [Hb _].
    split; [split|split; [exists []; by rewrite Ht|done]].
    + destruct (take_job p (jobs w)) as [[j rest]|] eqn:Et;
        [|by rewrite settle_idle].
      apply F; [done| |].
      * intros Heq. pose proof (job_promise_in w p j rest Hw Et) as Hp.
        rewrite <- Heq in Hp. congruence.
      * intros j' rest' [= <- <-].
        destruct (take_job_split _ _ _ _ Et) as (l1 & l2 & E & _ & _).
        rewrite E in Hj. apply Forall_app in Hj as [_ Hj].
        by apply Forall_cons in Hj as [Hj _].
    + apply Forall_forall. intros j Hjin.
      rewrite Forall_forall in Hj. by apply Hj, Hin.
Qed.

Lemma em_reach P a lb w w' :
  wf w → em_state a lb w → rtc (step P (Emwasm.call P a)) w w' →
  em_state a lb w' ∧ undecoded (acc_env a) w w'.
Proof.
  intros Hw Hst Hr. induction Hr as [w|w w1 w2 Hs _ IH].
  - split; [done|apply undecoded_refl].
  - assert (He : has_env w (acc_env a) = true).
    { destruct Hst as [Henv _]. unfold has_env. by rewrite Henv. }
    destruct (tidy_step_wf P a _ w w1 (tidy_call_em P a) Hw He Hs) as (Hw1 & _ & _).
    destruct (em_step P a lb w w1 Hw Hst Hs) as [Hst1 Hu1].
    destruct (IH Hw1 Hst1) as [Hst2 Hu2].
    split; [done|]. by eapply undecoded_trans.
Qed.

(** X10.  [EmWasm] decodes once, in the entry point, and its accessors
    keep no other state.  After the entry point, whatever calls and
    settlements follow: [bytes] is the array decoded at entry, which holds
    the bytes [_dec] reads from [d]; [mod] is empty; the one call of
    [_dec] is that of the entry point; and the BYTES accessor in SYNC mode
    returns that same array and leaves the world as it is. *)
Theorem X10_emwasm_stateless (P : Platform) (ctx : option Ctx) (def : loc)
    (a : Accessor) (w0 w1 w : World) :
  wf w0 →
  Emwasm.EmWasm P ctx def w0 = (Normal (Some a), w1) →
  rtc (step P (Emwasm.call P a)) w1 w →
  ∃ lb c,
    decodes_to P a c
    ∧ heap w !! acc_env a = Some (OEnv (VObj lb) VUndef)
    ∧ heap w !! lb = Some (OBytes c)
    ∧ decodes (new_events w0 w) = [acc_d a]
    ∧ (acc_arrow a = BytesSync → Emwasm.call P a w = (Normal (VObj lb), w)).
Proof.
  intros Hw E Hr.
  apply EmWasm_entry in E as (lb & c & Hd & -> & Henv & Hw1).
  set (lb := fresh (dom (heap w0))) in *.
  set (wd := mkWorld (<[lb := OBytes c]> (heap w0)) (EvDecode (acc_d a) :: trace w0)
               (jobs w0)) in *.
  assert (Hwd : wf wd).
  { apply (wf_trace (set_heap (insert lb (OBytes c)) w0)
             (EvDecode (acc_d a) :: trace w0)).
    by apply wf_alloc. }
  assert (Hw1' : wf w1).
  { rewrite Hw1, Henv. by apply (wf_alloc wd). }
  assert (Hlb1 : heap w1 !! lb = Some (OBytes c)).
  { rewrite Hw1. cbn [heap set_heap]. rewrite lookup_insert_ne.
    - unfold wd. cbn. by rewrite lookup_insert_eq.
    - rewrite Henv. apply not_eq_sym. apply (fresh_ne wd _ (OBytes c)).
      unfold wd. cbn. by rewrite lookup_insert_eq. }
  assert (Hst1 : em_state a lb w1).
  { split.
    - rewrite Hw1. cbn. by rewrite lookup_insert_eq.
    - rewrite Hw1. cbn [jobs set_heap wd]. destruct Hwd as [Hj _].
      eapply Forall_impl; [exact Hj|]. intros j [_ He] Hre.
      pose proof (He _ Hre) as He2. rewrite Henv in He2.
      by apply (has_env_ne_fresh wd) in He2. }
  assert (He1 : has_env w1 (acc_env a) = true).
  { destruct Hst1 as [H _]. unfold has_env. by rewrite H. }
  destruct (em_reach P a lb w1 w Hw1' Hst1 Hr) as [[Hcell Hjobs] [(evs & T & D) _]].
  destruct (tidy_reach_wf P a _ w1 w (tidy_call_em P a) Hw1' He1 Hr) as (_ & Hs & _).
  exists lb, c. split_and!; [done|done| | |].
  - destruct (Hs _ _ Hlb1) as (o' & Ho' & K). cbn in K. by subst o'.
  - assert (T' : trace w = (evs ++ [EvDecode (acc_d a)]) ++ trace w0).
    { rewrite T, Hw1. cbn. by rewrite <- app_assoc. }
    rewrite (new_events_app w0 w _ T'), decodes_app, D. done.
  - intros Ha. unfold Emwasm.call. rewrite Ha. unfold read_bytes, env_bytes.
    by rewrite Hcell.
Qed.

(** X10 on the empty module with output type INSTANCE in ASYNC mode: a
    call, its settlement and another call. *)
Lemma X10_witness :
  let P := Examples.engine true in
  let w0 := Examples.empty_module OutputType.INSTANCE OutputMode.ASYNC VUndef in
  let aw := Examples.after_entry (Emwasm.EmWasm P None 0%nat w0) in
  let w2 := settle P 3%nat (Emwasm.call P aw.1 aw.2).2 in
  let w3 := (Emwasm.call P aw.1 w2).2 in
  ∃ lb c,
    decodes_to P aw.1 c
    ∧ heap w3 !! acc_env aw.1 = Some (OEnv (VObj lb) VUndef)
    ∧ heap w3 !! lb = Some (OBytes c)
    ∧ decodes (new_events w0 w3) = [acc_d aw.1]
    ∧ (acc_arrow aw.1 = BytesSync → Emwasm.call P aw.1 w3 = (Normal (VObj lb), w3)).
Proof.
  intros P w0 aw w2 w3.
  apply (X10_emwasm_stateless P None 0%nat aw.1 w0 aw.2 w3).
  - split; [apply Forall_nil_2|apply NoDup_nil_2].
  - reflexivity.
  - eapply rtc_l; [eapply step_call; apply surjective_pairing|].
    eapply rtc_l; [apply (step_settle P _ 3%nat)|].
    apply rtc_once. eapply step_call. apply surjective_pairing.
Defined.

(** *** ASYNC accessors of [InWasm]: failures and calls in flight *)

Lemma or_bytes_throws P a w err w' :
  Inwasm.or_bytes P a w = (Throw err, w') →
  (err = DOMException ∨ err = TypeError)
  ∧ w' = mkWorld (heap w) (EvDecode (acc_d a) :: trace w) (jobs w)
  ∧ truthy (env_bytes w (acc_env a)) = false.
Proof.
  intros E. destruct (truthy (env_bytes w (acc_env a))) eqn:Hb.
  - by rewrite or_bytes_hit in E.
  - rewrite or_bytes_miss in E by done.
    destruct (dec P (acc_d a) w) as [[b|e] w1] eqn:Ed; [done|].
    injection E as <- <-. apply dec_fail in Ed as [-> He]. done.
Qed.

Lemma async_call_eq P a w :
  acc_arrow a = ModuleAsync ∨ acc_arrow a = InstanceAsync →
  truthy (env_mod w (acc_env a)) = false →
  Inwasm.call P a w
  = match Inwasm.or_bytes P a w with
    | (Normal b, w1) => host_async (async_op a b) (async_then a) w1
    | (Throw err, w1) => (Throw err, w1)
    end.
Proof.
  intros Ha Hm. unfold Inwasm.call, async_op, async_then.
  destruct Ha as [-> | ->]; unfold bind, read_mod; by rewrite Hm.
Qed.

(** X4.  How the accessors of the ASYNC mode fail.  An ASYNC accessor of
    [InWasm] throws only what the decoder throws: then [bytes] was empty,
    the call did nothing but call [_dec], and no promise was made; an
    error of the engine never comes out of the call itself.  When it
    returns, it returns a promise.  An ASYNC accessor of [EmWasm] never
    throws. *)
Theorem X4_async_failures (P : Platform) (a : Accessor) :
  async_arrow a →
  (∀ w err w', Inwasm.call P a w = (Throw err, w') →
     (err = DOMException ∨ err = TypeError)
     ∧ w' = mkWorld (heap w) (EvDecode (acc_d a) :: trace w) (jobs w)
     ∧ truthy (env_bytes w (acc_env a)) = false)
  ∧ (∀ w v w', has_env w (acc_env a) = true →
       Inwasm.call P a w = (Normal v, w') ∨ Emwasm.call P a w = (Normal v, w') →
       ∃ p st, v = VObj p ∧ heap w !! p = None ∧ heap w' !! p = Some (OPromise st))
  ∧ (∀ w, ∃ v w', Emwasm.call P a w = (Normal v, w')).
Proof.
  intros Ha. split_and!.
  - intros w err w' E. unfold Inwasm.call in E.
    destruct Ha as [Ha|[Ha|Ha]]; rewrite Ha in E; unfold bind, read_mod in E.
    + destruct (Inwasm.or_bytes P a w) as [[b|e] w1] eqn:Eb; [done|].
      injection E as <- <-. by eapply or_bytes_throws.
    + destruct (truthy (env_mod w (acc_env a))); [done|].
      destruct (Inwasm.or_bytes P a w) as [[b|e] w1] eqn:Eb; [done|].
      injection E as <- <-. by eapply or_bytes_throws.
    + destruct (truthy (env_mod w (acc_env a))); [done|].
      destruct (Inwasm.or_bytes P a w) as [[b|e] w1] eqn:Eb; [done|].
      injection E as <- <-. by eapply or_bytes_throws.
  - intros w v w' He E.
    destruct (async_call_shape P a w v w' Ha He E) as (w1 & Hj & Hd & Hfin).
    assert (Hnone : heap w !! fresh (dom (heap w1)) = None).
    { apply not_elem_of_dom. intros Hin. apply (is_fresh (dom (heap w1))). by apply Hd. }
    destruct Hfin as [(x & Ep)|(op & rc & _ & Eh)].
    + rewrite promise_resolve_eq in Ep. injection Ep as <- <-.
      do 2 eexists. split_and!; [done|done|]. cbn. by rewrite lookup_insert_eq.
    + rewrite host_async_eq in Eh. injection Eh as <- <-.
      do 2 eexists. split_and!; [done|done|]. cbn. by rewrite lookup_insert_eq.
  - intros w. unfold Emwasm.call.
    destruct Ha as [Ha|[Ha|Ha]]; rewrite Ha; unfold bind, read_bytes;
      rewrite ?promise_resolve_eq, ?host_async_eq; eauto.
Qed.

(** X4 on a text [atob] refuses, without [Buffer]: the MODULE accessor of
    [InWasm] in ASYNC mode throws [DOMException] and returns no promise. *)
Lemma X4_witness :
  let P := Examples.engine false in
  let aw := Examples.after_entry
              (Inwasm.InWasm None 0%nat
                 (Examples.world_with
                    (Examples.compiled OutputType.MODULE OutputMode.ASYNC "AGF*" VUndef))) in
  let r := Inwasm.call P aw.1 aw.2 in
  r.1 = Throw DOMException
  ∧ (DOMException = DOMException ∨ DOMException = TypeError)
  ∧ r.2 = mkWorld (heap aw.2) (EvDecode (acc_d aw.1) :: trace aw.2) (jobs aw.2)
  ∧ truthy (env_bytes aw.2 (acc_env aw.1)) = false.
Proof.
  intros P aw r. split; [reflexivity|].
  apply (proj1 (X4_async_failures P aw.1 (or_intror (or_introl eq_refl)))
           aw.2 DOMException r.2).
  reflexivity.
Defined.

(** X5.  A text the decoder refuses is decoded again at every call.  With
    [bytes] and [mod] empty, each call of the accessor of [InWasm],
    whatever its output type and mode, calls [_dec] once and throws; the
    heap is untouched, nothing is cached, the engine is not invoked and no
    promise is made. *)
Theorem X5_failed_decode_retried (P : Platform) (a : Accessor) (s : string)
    (w : World) (n : nat) :
  acc_d a = VStr s → _dec (hasBuffer P) s = None →
  truthy (env_bytes w (acc_env a)) = false →
  truthy (env_mod w (acc_env a)) = false →
  calls (Inwasm.call P a) n w
  = (replicate n (Throw DOMException),
     mkWorld (heap w) (replicate n (EvDecode (VStr s)) ++ trace w) (jobs w)).
Proof.
  intros Hd Hs Hb Hm.
  assert (Hdec : ∀ w0, dec P (acc_d a) w0
            = (Throw DOMException,
               mkWorld (heap w0) (EvDecode (VStr s) :: trace w0) (jobs w0))).
  { intros w0. rewrite Hd. unfold dec. by rewrite Hs. }
  assert (Hob : ∀ w0, truthy (env_bytes w0 (acc_env a)) = false →
            Inwasm.or_bytes P a w0
            = (Throw DOMException,
               mkWorld (heap w0) (EvDecode (VStr s) :: trace w0) (jobs w0))).
  { intros w0 H0. by rewrite or_bytes_miss, Hdec. }
  assert (Hcall : ∀ w0, truthy (env_bytes w0 (acc_env a)) = false →
            truthy (env_mod w0 (acc_env a)) = false →
            Inwasm.call P a w0
            = (Throw DOMException,
               mkWorld (heap w0) (EvDecode (VStr s) :: trace w0) (jobs w0))).
  { intros w0 H0 H1. unfold Inwasm.call.
    destruct (acc_arrow a); unfold bind, read_mod;
      rewrite ?H1, ?or_mod_miss, ?Hob by done; done. }
  revert w Hb Hm. induction n as [|n IH]; intros w Hb Hm.
  - by destruct w.
  - cbn [calls]. rewrite (Hcall w Hb Hm). cbn [fst snd].
    rewrite IH by done. cbn [heap trace jobs].
    by rewrite (replicate_S_end n (EvDecode (VStr s))), <- app_assoc.
Qed.

(** X5 on a text [atob] refuses, without [Buffer]: three calls of the
    INSTANCE accessor in SYNC mode. *)
Lemma X5_witness :
  let P := Examples.engine false in
  let aw := Examples.after_entry
              (Inwasm.InWasm None 0%nat
                 (Examples.world_with
                    (Examples.compiled OutputType.INSTANCE OutputMode.SYNC "AGF*" VUndef))) in
  calls (Inwasm.call P aw.1) 3 aw.2
  = (replicate 3 (Throw DOMException),
     mkWorld (heap aw.2) (replicate 3 (EvDecode (VStr "AGF*")) ++ trace aw.2) (jobs aw.2)).
Proof.
  intros P aw.
  apply (X5_failed_decode_retried P aw.1 "AGF*" aw.2 3); reflexivity.
Defined.

Lemma or_bytes_runs P a c w :
  has_env w (acc_env a) = true → decodes_to P a c →
  ∃ b w1, Inwasm.or_bytes P a w = (Normal b, w1).
Proof.
  intros He (s & Hd & Hs).
  destruct (truthy (env_bytes w (acc_env a))) eqn:Hb.
  - rewrite or_bytes_hit by done. eauto.
  - rewrite or_bytes_miss, Hd, (dec_ok P s c) by done. eauto.
Qed.

(** One call of an ASYNC accessor while [mod] is empty. *)
Lemma async_call_starts P a c w :
  acc_arrow a = ModuleAsync ∨ acc_arrow a = InstanceAsync →
  has_env w (acc_env a) = true → decodes_to P a c →
  truthy (env_mod w (acc_env a)) = false →
  ∃ p b w1 devs,
    Inwasm.call P a w = (Normal (VObj p), w1)
    ∧ heap w !! p = None ∧ heap w1 !! p = Some (OPromise Pending)
    ∧ has_env w1 (acc_env a) = true
    ∧ env_bytes w1 (acc_env a) = b ∧ truthy b = true
    ∧ env_mod w1 (acc_env a) = env_mod w (acc_env a)
    ∧ jobs w1 = jobs w ++ [mkJob (async_op a b) (async_then a) p]
    ∧ trace w1 = EvHost (async_op a b) :: devs ++ trace w
    ∧ ((truthy (env_bytes w (acc_env a)) = true ∧ devs = [])
       ∨ (truthy (env_bytes w (acc_env a)) = false ∧ devs = [EvDecode (acc_d a)])).
Proof.
  intros Ha He Hd Hm. rewrite async_call_eq by done.
  destruct (or_bytes_runs P a c w He Hd) as (b & w0 & Eb). rewrite Eb.
  destruct (or_bytes_any P a w _ _ He Eb) as (Hdom & He0 & Hj0 & Hm0).
  destruct (or_bytes_returns P a w b w0 He Eb) as (Hb0 & _ & Htb & _ & Hhow).
  rewrite host_async_eq.
  pose proof (has_env_ne_fresh w0 _ He0) as Hne.
  exists (fresh (dom (heap w0))), b.
  eexists. exists (if truthy (env_bytes w (acc_env a)) then [] else [EvDecode (acc_d a)]).
  split_and!; [done| | | | |done| | | |].
  - apply not_elem_of_dom. intros Hin. apply (is_fresh (dom (heap w0))). by apply Hdom.
  - cbn. by rewrite lookup_insert_eq.
  - unfold has_env. cbn. rewrite lookup_insert_ne by done. exact He0.
  - unfold env_bytes. cbn. rewrite lookup_insert_ne by done. exact Hb0.
  - unfold env_mod. cbn. rewrite lookup_insert_ne by done. exact Hm0.
  - cbn. by rewrite Hj0.
  - cbn. f_equal.
    destruct Hhow as [[Ht ->]|(Hf & l & s & c' & _ & _ & _ & _ & _ & ->)].
    + by rewrite Ht.
    + by rewrite Hf.
  - destruct (truthy (env_bytes w (acc_env a))); auto.
Qed.

Lemma calls_frame (call : M JsVal) env n w :
  tidy env call → has_env w env = true →
  (∀ l o, l ≠ env → heap w !! l = Some o → heap (calls call n w).2 !! l = Some o)
  ∧ has_env (calls call n w).2 env = true.
Proof.
  intros Ht. revert w. induction n as [|n IH]; intros w He; [done|].
  cbn [calls snd]. destruct (call w) as [r w1] eqn:E. cbn [fst snd].
  destruct (Ht _ _ _ He E) as (F & He1 & _). destruct (IH w1 He1) as [F1 He2].
  split; [|done]. intros l o Hne Hl. by apply F1, F.
Qed.

Lemma async_calls_in_flight P a c n w :
  acc_arrow a = ModuleAsync ∨ acc_arrow a = InstanceAsync →
  has_env w (acc_env a) = true → decodes_to P a c →
  truthy (env_mod w (acc_env a)) = false →
  let res := calls (Inwasm.call P a) n w in
  let b := env_bytes res.2 (acc_env a) in
  ∃ ps devs,
    res.1 = (λ p, Normal (VObj p)) <$> ps ∧ length ps = n ∧ NoDup ps
    ∧ Forall (λ p, heap w !! p = None ∧ heap res.2 !! p = Some (OPromise Pending)) ps
    ∧ jobs res.2 = jobs w ++ (mkJob (async_op a b) (async_then a) <$> ps)
    ∧ trace res.2 = replicate n (EvHost (async_op a b)) ++ devs ++ trace w
    ∧ (devs = [] ∨ devs = [EvDecode (acc_d a)])
    ∧ env_mod res.2 (acc_env a) = env_mod w (acc_env a)
    ∧ (truthy (env_bytes w (acc_env a)) = true →
         b = env_bytes w (acc_env a) ∧ devs = []).
Proof.
  intros Ha He Hd. revert w He. induction n as [|n IH]; intros w He Hm res b.
  - exists [], []. subst res b. cbn. split_and!; try done.
    + constructor.
    + by rewrite app_nil_r.
    + auto.
  - destruct (async_call_starts P a c w Ha He Hd Hm)
      as (p & b1 & w1 & devs1 & E & Hn & Hp & He1 & Hb1 & Htb1 & Hm1 & Hj1 & Ht1 & Hdev1).
    assert (Hm1' : truthy (env_mod w1 (acc_env a)) = false) by (by rewrite Hm1).
    destruct (IH w1 He1 Hm1') as (ps & devs & R & L & N & F & J & T & _ & M & B).
    rewrite Hb1 in B. destruct (B Htb1) as [Bb ->].
    assert (Eres : res = ((Normal (VObj p)) :: (calls (Inwasm.call P a) n w1).1,
                          (calls (Inwasm.call P a) n w1).2)).
    { subst res. cbn [calls]. by rewrite E. }
    assert (Ebb : b = b1) by (subst b; by rewrite Eres).
    destruct (calls_frame (Inwasm.call P a) (acc_env a) n w1 (tidy_call_in P a) He1)
      as [Fr _].
    assert (Hpe : p ≠ acc_env a).
    { intros Heq. unfold has_env in He1. rewrite <- Heq, Hp in He1. done. }
    exists (p :: ps), devs1. rewrite Eres in *. cbn [fst snd] in *.
    rewrite Ebb in *. rewrite Bb in *.
    split_and!.
    + by rewrite R.
    + cbn. by rewrite L.
    + apply NoDup_cons. split; [|done]. intros Hin.
      rewrite Forall_forall in F. destruct (F p Hin) as [Hnone _]. congruence.
    + apply Forall_cons. split; [split; [done|by apply Fr]|].
      eapply Forall_impl; [exact F|]. intros q [Hq1 Hq2]. split; [|done].
      destruct (heap w !! q) as [o|] eqn:Eq; [|done].
      destruct (tidy_call_in P a w _ _ He E) as (Fw & _).
      destruct (decide (q = acc_env a)) as [->|Hqe].
      * unfold has_env in He1. by rewrite Hq1 in He1.
      * by rewrite (Fw _ _ Hqe Eq) in Hq1.
    + rewrite J, Hj1, <- app_assoc. done.
    + rewrite T, Ht1. cbn [app]. rewrite replicate_S_end, <- app_assoc. done.
    + destruct Hdev1 as [[_ ->]|[_ ->]]; auto.
    + by rewrite M.
    + intros Ht. destruct Hdev1 as [[_ ->]|[Hf _]]; [|congruence].
      split; [|done]. rewrite <- Hb1.
      destruct (call_undecoded P a w _ _ Ht E) as [_ Hu]. done.
Qed.

(** X6.  In ASYNC mode [mod] is assigned when a promise settles, not when
    the accessor is called: calls made before any settlement each start
    an engine operation of their own.  With [mod] empty, [n] calls of the
    MODULE or INSTANCE accessor of [InWasm] in a row return [n] different
    new pending promises and leave [n] operations in flight, all on the
    one array [bytes] holds, each with the callback that assigns to
    [mod]; [_dec] is called at most once, and [mod] is still empty. *)
Theorem X6_async_calls_in_flight (P : Platform) (a : Accessor) (c : list Z)
    (n : nat) (w : World) :
  acc_arrow a = ModuleAsync ∨ acc_arrow a = InstanceAsync →
  has_env w (acc_env a) = true → decodes_to P a c →
  truthy (env_mod w (acc_env a)) = false →
  let res := calls (Inwasm.call P a) n w in
  let b := env_bytes res.2 (acc_env a) in
  ∃ ps devs,
    res.1 = (λ p, Normal (VObj p)) <$> ps ∧ length ps = n ∧ NoDup ps
    ∧ Forall (λ p, heap w !! p = None ∧ heap res.2 !! p = Some (OPromise Pending)) ps
    ∧ jobs res.2 = jobs w ++ (mkJob (async_op a b) (async_then a) <$> ps)
    ∧ trace res.2 = replicate n (EvHost (async_op a b)) ++ devs ++ trace w
    ∧ (devs = [] ∨ devs = [EvDecode (acc_d a)])
    ∧ env_mod res.2 (acc_env a) = env_mod w (acc_env a).
Proof.
  intros Ha He Hd Hm res b.
  destruct (async_calls_in_flight P a c n w Ha He Hd Hm)
    as (ps & devs & ? & ? & ? & ? & ? & ? & ? & ? & _).
  exists ps, devs. by split_and!.
Qed.

(** X6 on the empty module: three calls of the MODULE accessor in ASYNC
    mode before any settlement. *)
Lemma X6_witness :
  let P := Examples.engine true in
  let aw := Examples.after_entry
              (Inwasm.InWasm None 0%nat
                 (Examples.empty_module OutputType.MODULE OutputMode.ASYNC VUndef)) in
  let res := calls (Inwasm.call P aw.1) 3 aw.2 in
  let b := env_bytes res.2 (acc_env aw.1) in
  ∃ ps devs,
    res.1 = (λ p, Normal (VObj p)) <$> ps ∧ length ps = 3%nat ∧ NoDup ps
    ∧ Forall (λ p, heap aw.2 !! p = None ∧ heap res.2 !! p = Some (OPromise Pending)) ps
    ∧ jobs res.2 = jobs aw.2 ++ (mkJob (async_op aw.1 b) (async_then aw.1) <$> ps)
    ∧ trace res.2 = replicate 3 (EvHost (async_op aw.1 b)) ++ devs ++ trace aw.2
    ∧ (devs = [] ∨ devs = [EvDecode (acc_d aw.1)])
    ∧ env_mod res.2 (acc_env aw.1) = env_mod aw.2 (acc_env aw.1).
Proof.
  intros P aw.
  apply (X6_async_calls_in_flight P aw.1 Examples.wasm_bytes 3 aw.2).
  - by left.
  - reflexivity.
  - exists "AGFzbQEAAAA=". split; reflexivity.
  - reflexivity.
Defined.

(** *** The callback assigns to [mod] at every settlement *)

Lemma env_mod_settled w p st0 st env :
  heap w !! p = Some (OPromise st0) →
  env_mod (set_heap (insert p (OPromise st)) w) env = env_mod w env.
Proof.
  intros Hp. unfold env_mod. cbn [heap set_heap].
  destruct (decide (p = env)) as [->|Hne].
  - by rewrite lookup_insert_eq, Hp.
  - by rewrite lookup_insert_ne.
Qed.

(** The operation of a job of the accessor and its callback, when they
    return: [mod] is a module that was not in the heap before. *)
Lemma own_job_assigns P a w op rc v w1 :
  coherent P a w → truthy (env_bytes w (acc_env a)) = true →
  (op = Compile (env_bytes w (acc_env a)) ∧ rc = RSetMod (acc_env a))
  ∨ (∃ io, op = Instantiate (env_bytes w (acc_env a)) io
           ∧ rc = RSetModInstance (acc_env a)) →
  (x <~ perform P op;; react rc x) w = (Normal v, w1) →
  ∃ lm, heap w !! lm = None ∧ env_mod w1 (acc_env a) = VObj lm
        ∧ (rc = RSetMod (acc_env a) → v = VObj lm).
Proof.
  intros Hc Htb Hshape E. pose proof Hc as (He & Hbok & _).
  destruct (Hbok Htb) as (c & Hbc & Hd).
  set (b := env_bytes w (acc_env a)) in *.
  unfold bind in E.
  destruct Hshape as [[-> ->]|(io & -> & ->)].
  - rewrite (perform_compile P _ b) in E by auto. rewrite Hbc in E.
    destruct (wasm_validate P (trace w) c) as [err|]; [done|].
    cbn [react] in E. unfold bind, write_mod, ret in E. cbn [fst snd] in E.
    injection E as <- <-.
    exists (fresh (dom (heap w))). split_and!; [apply fresh_heap| |done].
    by rewrite env_mod_insert_env.
  - rewrite perform_instantiate_bytes in E by (by eapply bytes_not_module).
    rewrite Hbc in E.
    destruct (wasm_validate P (trace w) c) as [err|]; [done|].
    destruct (wasm_link P (trace w) c io) as [err|]; [done|].
    cbv beta iota zeta in E.
    set (lm := fresh (dom (heap w))) in *.
    set (wa := set_heap (insert lm (OModule c)) w) in *.
    set (li := fresh (dom (heap wa))) in *.
    set (wb := set_heap (insert li (OInstance lm io)) wa) in *.
    set (lr := fresh (dom (heap wb))) in *.
    set (wc := set_heap (insert lr (OPlain {[ "module" := VObj lm;
                                               "instance" := VObj li ]})) wb) in *.
    assert (Hec : has_env wc (acc_env a) = true).
    { apply (has_env_weaken w); [done|].
      etrans; [apply heap_alloc_subseteq|].
      etrans; [apply (heap_alloc_subseteq wa)|apply (heap_alloc_subseteq wb)]. }
    assert (Hlr : heap wc !! lr
              = Some (OPlain {[ "module" := VObj lm; "instance" := VObj li ]})).
    { unfold wc. cbn. by rewrite lookup_insert_eq. }
    assert (Hne : lr ≠ acc_env a).
    { intros Heq. unfold has_env in Hec. rewrite <- Heq, Hlr in Hec. done. }
    rewrite (react_set_mod_instance (acc_env a) lr lm li wc Hlr Hne) in E.
    injection E as <- <-.
    exists lm. split_and!; [apply fresh_heap| |done].
    by rewrite env_mod_insert_env.
Qed.

(** X2.  The callbacks [m => mod = m] and [r => (mod = r.module) && ..]
    assign to [mod] at every settlement, also when [mod] is set already:
    the last settlement wins.  In a world reached from the entry point of
    [InWasm], when the promise of an operation in flight of the accessor
    is fulfilled, [mod] holds from then on a module that did not exist
    before this settlement, whatever [mod] held; for the MODULE accessor
    it is the module the promise is fulfilled with. *)
Theorem X2_last_settlement_wins (P : Platform) (a : Accessor) (w : World)
    (p : loc) (j : Job) (rest : list Job) (v : JsVal) :
  coherent P a w → wf w →
  take_job p (jobs w) = Some (j, rest) →
  reaction_env (job_then j) = Some (acc_env a) →
  promise_state (settle P p w) p = Some (Fulfilled v) →
  ∃ lm, heap w !! lm = None
        ∧ env_mod (settle P p w) (acc_env a) = VObj lm
        ∧ (job_then j = RSetMod (acc_env a) → v = VObj lm).
Proof.
  intros Hc Hw Et Hre Hst. pose proof Hc as (He & _ & _ & Hjobs).
  pose proof (job_promise_in w p j rest Hw Et) as Hp.
  destruct (take_job_split _ _ _ _ Et) as (l1 & l2 & Ejs & Erest & Hpj).
  assert (Hjo : job_of a w j).
  { rewrite Forall_forall in Hjobs. apply Hjobs. rewrite Ejs.
    apply elem_of_app. right. by left. }
  destruct (Hjo Hre) as [Htb Hshape].
  set (w0 := mkWorld (heap w) (trace w) rest).
  assert (Hc0 : coherent P a w0).
  { apply (coh_stable P a w);
      [done|intros l o Hl; exists o; split; [done|apply kept_refl]|done|].
    cbn. rewrite Ejs, Erest. intros j'. rewrite !elem_of_app.
    intros [?|?]; [by left|right; by right]. }
  rewrite (settle_found P p w j rest Et) in Hst |- *. fold w0 in Hst |- *.
  destruct ((x <~ perform P (job_op j);; react (job_then j) x) w0)
    as [[x|err] w1] eqn:E.
  - destruct (own_job_coh P a w0 _ _ _ _ Hc0 Htb Hshape E) as [_ Hk].
    destruct (own_job_assigns P a w0 _ _ _ _ Hc0 Htb Hshape E) as (lm & Hn & Hm & Hv).
    unfold promise_state in Hst. cbn [heap set_heap] in Hst.
    rewrite lookup_insert_eq in Hst. injection Hst as ->.
    exists lm. split_and!; [done| |done].
    rewrite (env_mod_settled w1 p Pending) by (by apply Hk). done.
  - unfold promise_state in Hst. cbn [heap set_heap] in Hst.
    by rewrite lookup_insert_eq in Hst.
Qed.

(** X2 on the empty module: two calls of the MODULE accessor in ASYNC
    mode, then the two settlements; the second leaves its own module in
    [mod], not the one the first promise was fulfilled with. *)
Lemma X2_witness :
  let P := Examples.engine true in
  let aw := Examples.after_entry
              (Inwasm.InWasm None 0%nat
                 (Examples.empty_module OutputType.MODULE OutputMode.ASYNC VUndef)) in
  let w2 := (calls (Inwasm.call P aw.1) 2 aw.2).2 in
  let w3 := settle P 3%nat w2 in
  env_mod w3 (acc_env aw.1) = VObj 5%nat
  ∧ ∃ lm, heap w3 !! lm = None
          ∧ env_mod (settle P 4%nat w3) (acc_env aw.1) = VObj lm
          ∧ (RSetMod 1%nat = RSetMod (acc_env aw.1) → VObj 6%nat = VObj lm).
Proof.
  intros P aw w2 w3. split; [reflexivity|].
  assert (Hreach : rtc (step P (Inwasm.call P aw.1)) aw.2 w3).
  { eapply rtc_l; [eapply step_call; apply surjective_pairing|].
    eapply rtc_l; [eapply step_call; apply surjective_pairing|].
    apply rtc_once, (step_settle P _ 3%nat). }
  destruct (reach_coh P aw.1 aw.2 w3) as [Hc Hw]; [| |exact Hreach|].
  - apply (InWasm_entry_coh P None 0%nat
             (Examples.empty_module OutputType.MODULE OutputMode.ASYNC VUndef)).
    + split; [apply Forall_nil_2|apply NoDup_nil_2].
    + reflexivity.
  - split; [apply Forall_nil_2|apply NoDup_nil_2].
  - apply (X2_last_settlement_wins P aw.1 w3 4%nat
             (mkJob (Compile (VObj 2%nat)) (RSetMod 1%nat) 4%nat) [] (VObj 6%nat) Hc Hw);
      reflexivity.
Defined.

(** *** Which engine calls an accessor makes *)

Lemma emits_bind ok {A B} (m : M A) (k : A → M B) :
  emits ok m → (∀ x, emits ok (k x)) → emits ok (bind m k).
Proof.
  intros Hm Hk w r w' E. unfold bind in E.
  destruct (m w) as [[x|err] w1] eqn:E1; [|injection E as <- <-; by eapply Hm].
  destruct (Hm _ _ _ E1) as (evs1 & T1 & O1).
  destruct (Hk x _ _ _ E) as (evs2 & T2 & O2).
  exists (evs2 ++ evs1). rewrite T2, T1, app_assoc. split; [done|].
  by rewrite forallb_app, O1, O2.
Qed.

Lemma emits_quiet ok {A} (m : M A) : logs m quiet → emits ok m.
Proof.
  intros H w r w' E. destruct (H _ _ _ E) as (evs & T & Q). red in Q. subst evs.
  by exists [].
Qed.

Lemma emits_quiet_ok ok {A} (m : M A) : logs m quiet_ok → emits ok m.
Proof.
  intros H w r w' E. destruct (H _ _ _ E) as (evs & T & [Q _]). subst evs.
  by exists [].
Qed.

Lemma emits_log ok ev : ok ev = true → emits ok (log ev).
Proof.
  intros Hok w r w' [= <- <-]. exists [ev]. cbn. by rewrite Hok.
Qed.

Ltac emits :=
  repeat first
    [ apply emits_bind; [|intros ?]
    | apply emits_log; reflexivity
    | apply emits_quiet_ok;
        first [ apply logs_ret | apply logs_alloc | apply logs_push_job
              | apply logs_read_bytes | apply logs_read_mod
              | apply logs_write_bytes | apply logs_write_mod ]
    | apply emits_quiet;
        first [ apply logs_throw | apply logs_bytes_of | apply logs_module_of
              | apply logs_read_prop | apply logs_validate | apply logs_link ]
    | match goal with
      | |- emits _ (if ?b then _ else _) => destruct b
      | |- emits _ (match ?x with _ => _ end) => destruct x
      end ].

Lemma emits_or_bytes ok P a :
  (∀ d, ok (EvDecode d) = true) → emits ok (Inwasm.or_bytes P a).
Proof.
  intros Hd. unfold Inwasm.or_bytes, dec.
  repeat first [ apply emits_log; apply Hd | progress emits ].
Qed.

Lemma emits_new_events ok {A} (m : M A) w r w' :
  emits ok m → m w = (r, w') → forallb ok (new_events w w') = true.
Proof.
  intros Hm E. destruct (Hm _ _ _ E) as (evs & T & O).
  by rewrite (new_events_app w w' evs T).
Qed.

(** X3.  The engine calls of an accessor, by mode and output type, for
    both loaders.  An ASYNC accessor never calls the constructors
    [new W.Module] and [new W.Instance], which compile and instantiate on
    the calling thread: its only engine calls are [W.compile] and
    [W.instantiate].  A BYTES accessor calls the engine not at all. *)
Theorem X3_engine_calls_by_mode (P : Platform) (a : Accessor) (call : M JsVal)
    (w w' : World) (r : Completion JsVal) :
  call = Inwasm.call P a ∨ call = Emwasm.call P a →
  call w = (r, w') →
  (async_arrow a → forallb (λ ev, negb (sync_engine_call ev)) (new_events w w') = true)
  ∧ (acc_arrow a = BytesSync ∨ acc_arrow a = BytesAsync →
       forallb (λ ev, negb (engine_call ev)) (new_events w w') = true).
Proof.
  intros Hc E. split.
  - intros Ha. eapply emits_new_events; [|exact E].
    pose proof (emits_or_bytes (λ ev, negb (sync_engine_call ev)) P a
                  (λ _, eq_refl)) as Hob.
    destruct Hc as [-> | ->].
    + unfold Inwasm.call. destruct Ha as [Ha|[Ha|Ha]]; rewrite Ha;
        unfold promise_resolve, host_async; emits; try apply Hob; emits.
    + unfold Emwasm.call. destruct Ha as [Ha|[Ha|Ha]]; rewrite Ha;
        unfold promise_resolve, host_async; emits.
  - intros Ha. eapply emits_new_events; [|exact E].
    pose proof (emits_or_bytes (λ ev, negb (engine_call ev)) P a
                  (λ _, eq_refl)) as Hob.
    destruct Hc as [-> | ->].
    + unfold Inwasm.call. destruct Ha as [Ha|Ha]; rewrite Ha;
        unfold promise_resolve; emits; try apply Hob; emits.
    + unfold Emwasm.call. destruct Ha as [Ha|Ha]; rewrite Ha;
        unfold promise_resolve; emits.
Qed.

(** X3 on the empty module: the first call of the INSTANCE accessor of
    [InWasm] in ASYNC mode decodes and calls [W.instantiate]. *)
Lemma X3_witness :
  let P := Examples.engine true in
  let aw := Examples.after_entry
              (Inwasm.InWasm None 0%nat
                 (Examples.empty_module OutputType.INSTANCE OutputMode.ASYNC VUndef)) in
  let r := Inwasm.call P aw.1 aw.2 in
  new_events aw.2 r.2
  = [EvHost (Instantiate (VObj 2%nat) None); EvDecode (VStr "AGFzbQEAAAA=")]
  ∧ forallb (λ ev, negb (sync_engine_call ev)) (new_events aw.2 r.2) = true.
Proof.
  intros P aw r. split; [reflexivity|].
  apply (proj1 (X3_engine_calls_by_mode P aw.1 (Inwasm.call P aw.1) aw.2 r.2 r.1
                  (or_introl eq_refl) (surjective_pairing _))).
  right. by right.
Defined.

(* ===================================================================== *)
(** ** What the accessors deliver *)
(* ===================================================================== *)

Lemma observe_bytes w v c : bytes_at w v = Some c → observe w v = ObsBytes c.
Proof. intros H. apply bytes_at_lookup in H as (l & -> & Hl). cbn. by rewrite Hl. Qed.

Lemma observe_module w v lm c : module_at w v = Some (lm, c) → observe w v = ObsModule c.
Proof. intros H. apply module_at_lookup in H as (-> & Hl). cbn. by rewrite Hl. Qed.

Lemma observe_instance w i lm io c :
  heap w !! i = Some (OInstance lm io) → heap w !! lm = Some (OModule c) →
  observe w (VObj i) = ObsInstance c io.
Proof. intros Hi Hl. cbn. by rewrite Hi, Hl. Qed.



(* ===================================================================== *)
(** ** What the accessors of [EmWasm] deliver *)
(* ===================================================================== *)

(** The state of an accessor of [EmWasm] in the worlds reached from its
    entry point. *)
Lemma em_reach_cell P ctx def a w0 w1 w :
  wf w0 →
  Emwasm.EmWasm P ctx def w0 = (Normal (Some a), w1) →
  rtc (step P (Emwasm.call P a)) w1 w →
  ∃ lb c, decodes_to P a c ∧ wf w
    ∧ heap w !! acc_env a = Some (OEnv (VObj lb) VUndef)
    ∧ heap w !! lb = Some (OBytes c).
Proof.
  intros Hw E Hr.
  apply EmWasm_entry in E as (lb & c & Hd & -> & Henv & Hw1).
  set (lb := fresh (dom (heap w0))) in *.
  set (wd := mkWorld (<[lb := OBytes c]> (heap w0)) (EvDecode (acc_d a) :: trace w0)
               (jobs w0)) in *.
  assert (Hwd : wf wd).
  { apply (wf_trace (set_heap (insert lb (OBytes c)) w0)
             (EvDecode (acc_d a) :: trace w0)).
    by apply wf_alloc. }
  assert (Hw1' : wf w1).
  { rewrite Hw1, Henv. by apply (wf_alloc wd). }
  assert (Hlb1 : heap w1 !! lb = Some (OBytes c)).
  { rewrite Hw1. cbn [heap set_heap]. rewrite lookup_insert_ne.
    - unfold wd. cbn. by rewrite lookup_insert_eq.
    - rewrite Henv. apply not_eq_sym. apply (fresh_ne wd _ (OBytes c)).
      unfold wd. cbn. by rewrite lookup_insert_eq. }
  assert (Hst1 : em_state a lb w1).
  { split.
    - rewrite Hw1. cbn. by rewrite lookup_insert_eq.
    - rewrite Hw1. cbn [jobs set_heap wd]. destruct Hwd as [Hj _].
      eapply Forall_impl; [exact Hj|]. intros j [_ He] Hre.
      pose proof (He _ Hre) as He2. rewrite Henv in He2.
      by apply (has_env_ne_fresh wd) in He2. }
  assert (He1 : has_env w1 (acc_env a) = true).
  { destruct Hst1 as [H _]. unfold has_env. by rewrite H. }
  destruct (em_reach P a lb w1 w Hw1' Hst1 Hr) as [[Hcell Hjobs] _].
  destruct (tidy_reach_wf P a _ w1 w (tidy_call_em P a) Hw1' He1 Hr) as (Hww & Hs & _).
  exists lb, c. split_and!; [done|done|done|].
  destruct (Hs _ _ Hlb1) as (o' & Ho' & K). cbn in K. by subst o'.
Qed.



(* ===================================================================== *)
(** ** Operations in flight on any schedule *)
(* ===================================================================== *)

Lemma settle_jobs P p w j rest :
  take_job p (jobs w) = Some (j, rest) → jobs (settle P p w) = rest.
Proof.
  intros Ht. destruct (settle_shape P p w j rest Ht) as (w1 & w2 & st & _ & _ & J & H2 & ->).
  cbn [jobs set_heap].
  destruct H2 as [->|(e & m & _ & ->)]; done.
Qed.

Lemma settle_keeps_job P p w j :
  j ∈ jobs w → job_promise j ≠ p → j ∈ jobs (settle P p w).
Proof.
  intros Hin Hne.
  destruct (take_job p (jobs w)) as [[j' rest]|] eqn:Ht.
  - rewrite (settle_jobs P p w j' rest Ht).
    apply take_job_split in Ht as (l1 & l2 & Hjs & -> & Hp).
    rewrite Hjs in Hin. apply elem_of_app in Hin as [Hin|Hin].
    + apply elem_of_app. by left.
    + apply elem_of_cons in Hin as [->|Hin]; [done|].
      apply elem_of_app. by right.
  - by rewrite settle_idle.
Qed.

Lemma take_job_elem (js : list Job) (j : Job) :
  NoDup (job_promise <$> js) → j ∈ js →
  ∃ rest, take_job (job_promise j) js = Some (j, rest).
Proof.
  induction js as [|j0 js IH]; intros Hn Hin; [by apply elem_of_nil in Hin|].
  rewrite fmap_cons in Hn. apply NoDup_cons in Hn as [Hnin Hn].
  cbn [take_job]. case_bool_decide as Hp.
  - apply elem_of_cons in Hin as [->|Hin]; [by eexists|].
    exfalso. apply Hnin. rewrite Hp. apply list_elem_of_fmap. by exists j.
  - apply elem_of_cons in Hin as [->|Hin]; [done|].
    destruct (IH Hn Hin) as [rest ->]. by eexists.
Qed.

Lemma settle_job P w j :
  wf w → j ∈ jobs w →
  ∃ rest,
    take_job (job_promise j) (jobs w) = Some (j, rest)
    ∧ settle P (job_promise j) w
      = match (v <~ perform P (job_op j);; react (job_then j) v)
                (mkWorld (heap w) (trace w) rest) with
        | (Normal v, w1) => set_heap (insert (job_promise j) (OPromise (Fulfilled v))) w1
        | (Throw err, w1) => set_heap (insert (job_promise j) (OPromise (Rejected err))) w1
        end.
Proof.
  intros [_ Hn] Hin. destruct (take_job_elem _ _ Hn Hin) as [rest Ht].
  exists rest. split; [done|]. by apply settle_found.
Qed.

(** The settlement of an operation in flight settles its promise. *)
Lemma settle_settles P w j :
  wf w → j ∈ jobs w →
  ∃ st, promise_state (settle P (job_promise j) w) (job_promise j) = Some st
        ∧ st ≠ Pending.
Proof.
  intros Hw Hin. destruct (settle_job P w j Hw Hin) as (rest & _ & ->).
  destruct ((v <~ perform P (job_op j);; react (job_then j) v) _) as [[v|err] w1];
    unfold promise_state; cbn [heap set_heap]; rewrite lookup_insert_eq; by eexists.
Qed.

(** An operation in flight stays in flight until its promise settles. *)
Lemma fate P a call j w w' :
  tidy (acc_env a) call → wf w → has_env w (acc_env a) = true →
  j ∈ jobs w → rtc (step P call) w w' →
  j ∈ jobs w'
  ∨ ∃ ws, rtc (step P call) w ws ∧ j ∈ jobs ws
          ∧ rtc (step P call) (settle P (job_promise j) ws) w'.
Proof.
  intros Ht Hw He Hin Hr. induction Hr as [w|w w1 w2 Hs Hr IH]; [by left|].
  destruct (tidy_step_wf P a call w w1 Ht Hw He Hs) as (Hw1 & _ & He1).
  assert (Hcases : j ∈ jobs w1 ∨ w1 = settle P (job_promise j) w).
  { destruct Hs as [w r w1 E|p w].
    - left. destruct (Ht _ _ _ He E) as (_ & _ & js & -> & _).
      apply elem_of_app. by left.
    - destruct (decide (job_promise j = p)) as [<-|Hne]; [by right|].
      left. by apply settle_keeps_job. }
  destruct Hcases as [Hin1| ->].
  - destruct (IH Hw1 He1 Hin1) as [H|(ws & Hr1 & Hin' & Hr2)]; [by left|].
    right. exists ws. split; [by eapply rtc_l|done].
  - right. exists w. split; [apply rtc_refl|done].
Qed.

Lemma stable_promise w w' p st :
  stable w w' → promise_state w p = Some st → st ≠ Pending →
  promise_state w' p = Some st.
Proof.
  unfold promise_state. intros Hs Hp Hst.
  destruct (heap w !! p) as [o|] eqn:Hl; [|done].
  destruct o as [| | | |st'|]; try done. injection Hp as ->.
  destruct (Hs _ _ Hl) as (o' & -> & K).
  destruct st; [done| |]; cbn in K; by subst o'.
Qed.

Lemma stable_observe w w' v :
  stable w w' → observe w v ≠ ObsOther → observe w' v = observe w v.
Proof.
  intros Hs Ho. destruct v as [| |bb|n|s|l]; try done. cbn in Ho |- *.
  destruct (heap w !! l) as [o|] eqn:Hl; [|done].
  destruct (Hs _ _ Hl) as (o' & -> & K).
  destruct o as [| | |lm io| |]; try done; cbn in K; subst o'; try done.
  destruct (heap w !! lm) as [om|] eqn:Hm; [|done].
  destruct (Hs _ _ Hm) as (om' & -> & Km).
  destruct om; try done; cbn in Km; by subst om'.
Qed.

Lemma job_pending w j : wf w → j ∈ jobs w → promise_state w (job_promise j) = Some Pending.
Proof.
  intros [Hj _] Hin. rewrite Forall_forall in Hj. destruct (Hj j Hin) as [Hp _].
  unfold promise_state. by rewrite Hp.
Qed.

(** The operation of a promise that is still pending is still in flight. *)
Lemma pending_in_flight P a call j w w' :
  tidy (acc_env a) call → wf w → has_env w (acc_env a) = true →
  j ∈ jobs w → rtc (step P call) w w' →
  promise_state w' (job_promise j) = Some Pending → j ∈ jobs w'.
Proof.
  intros Ht Hw He Hin Hr Hp.
  destruct (fate P a call j w w' Ht Hw He Hin Hr) as [H|(ws & Hr1 & Hin' & Hr2)]; [done|].
  destruct (tidy_reach_wf P a call w ws Ht Hw He Hr1) as (Hws & _ & Hes).
  destruct (settle_settles P ws j Hws Hin') as (st & Hst & Hne).
  destruct (tidy_step_wf P a call ws _ Ht Hws Hes (step_settle P call (job_promise j) ws))
    as (Hw1 & _ & He1).
  destruct (tidy_reach_wf P a call _ w' Ht Hw1 He1 Hr2) as (_ & Hs & _).
  rewrite (stable_promise _ _ _ _ Hs Hst Hne) in Hp. congruence.
Qed.

(** An engine operation neither reads nor changes the list of operations
    in flight. *)
Lemma perform_jobs P op w js :
  perform P op (mkWorld (heap w) (trace w) js)
  = ((perform P op w).1,
     mkWorld (heap (perform P op w).2) (trace (perform P op w).2) js).
Proof.
  destruct op as [b|m io|b|src io];
    unfold perform, bind, bytes_of, module_of, validate, link, alloc, ret, set_heap;
    cbn [heap trace jobs fst snd];
    repeat (case_match; simplify_eq/=; try done).
Qed.

(** *** How an operation in flight settles *)

Lemma job_promise_ne_env w j e :
  wf w → j ∈ jobs w → has_env w e = true → job_promise j ≠ e.
Proof.
  intros [Hj _] Hin He Heq. rewrite Forall_forall in Hj.
  destruct (Hj j Hin) as [Hp _]. unfold has_env in He. rewrite <- Heq, Hp in He. done.
Qed.

Lemma job_env w j e :
  wf w → j ∈ jobs w → reaction_env (job_then j) = Some e → has_env w e = true.
Proof.
  intros [Hj _] Hin He. rewrite Forall_forall in Hj.
  destruct (Hj j Hin) as [_ H]. by apply H.
Qed.

(** When the operation fails, its promise is rejected with the error of
    the operation, and nothing else changes. *)
Lemma settle_rejects P w j err :
  wf w → j ∈ jobs w → (perform P (job_op j) w).1 = Throw err →
  promise_state (settle P (job_promise j) w) (job_promise j) = Some (Rejected err)
  ∧ heap (settle P (job_promise j) w)
    = <[job_promise j := OPromise (Rejected err)]> (heap w)
  ∧ trace (settle P (job_promise j) w) = trace w.
Proof.
  intros Hw Hin Hf. destruct (settle_job P w j Hw Hin) as (rest & _ & ->).
  unfold bind. rewrite perform_jobs.
  destruct (perform P (job_op j) w) as [r w'] eqn:E. cbn [fst snd] in Hf |- *.
  subst r. apply perform_throws in E as ->.
  unfold promise_state. cbn [heap trace set_heap]. by rewrite lookup_insert_eq.
Qed.

(** A compilation in flight, with the callback [m => mod = m] or none. *)
Lemma settle_compiled P w j b c x :
  wf w → j ∈ jobs w → job_op j = Compile b → bytes_at w b = Some c →
  (job_then j = RNone ∨ ∃ e, job_then j = RSetMod e) →
  promise_state (settle P (job_promise j) w) (job_promise j) = Some (Fulfilled x) →
  ∃ lm, x = VObj lm ∧ heap w !! lm = None
    ∧ heap (settle P (job_promise j) w) !! lm = Some (OModule c)
    ∧ (∀ e, job_then j = RSetMod e →
         env_mod (settle P (job_promise j) w) e = VObj lm
         ∧ env_bytes (settle P (job_promise j) w) e = env_bytes w e).
Proof.
  intros Hw Hin Hop Hb Hrc.
  pose proof (job_pending w j Hw Hin) as Hpp.
  destruct (settle_job P w j Hw Hin) as (rest & _ & ->).
  unfold bind. rewrite perform_jobs, Hop.
  rewrite (perform_compile P _ b w) by auto. rewrite Hb.
  destruct (wasm_validate P (trace w) c) as [err|].
  { cbn [fst snd]. unfold promise_state. cbn [heap set_heap].
    by rewrite lookup_insert_eq. }
  cbn [fst snd heap trace set_heap].
  set (lm := fresh (dom (heap w))).
  assert (Hlm : heap w !! lm = None) by apply fresh_heap.
  assert (Hpl : job_promise j ≠ lm).
  { intros Heq. unfold promise_state in Hpp. rewrite Heq, Hlm in Hpp. done. }
  destruct Hrc as [Hrc|[e Hrc]]; rewrite Hrc; cbn [react]; unfold bind, write_mod, ret;
    cbn [fst snd heap set_heap]; unfold promise_state; cbn [heap set_heap];
    rewrite lookup_insert_eq; intros [= <-]; exists lm.
  - split_and!; [done|done| |done].
    rewrite lookup_insert_ne by done. by rewrite lookup_insert_eq.
  - assert (He : has_env w e = true) by (eapply job_env; [done..|by rewrite Hrc]).
    assert (Hpe : job_promise j ≠ e) by (by eapply job_promise_ne_env).
    assert (Hle : e ≠ lm).
    { intros Heq. unfold has_env in He. rewrite Heq, Hlm in He. done. }
    split_and!; [done|done| |].
    + rewrite lookup_insert_ne by done. rewrite lookup_insert_ne by done.
      by rewrite lookup_insert_eq.
    + intros e' [= <-]. unfold env_mod, env_bytes. cbn [heap set_heap].
      rewrite !(lookup_insert_ne _ (job_promise j) e) by done.
      rewrite !lookup_insert_eq. split; [done|].
      by rewrite lookup_insert_ne by (by apply not_eq_sym).
Qed.

(** An instantiation from bytes in flight, with the callback
    [r => (mod = r.module) && r.instance] or [r => r.instance]. *)
Lemma settle_instantiated P w j b io c x :
  wf w → j ∈ jobs w → job_op j = Instantiate b io → bytes_at w b = Some c →
  (job_then j = RInstance ∨ ∃ e, job_then j = RSetModInstance e) →
  promise_state (settle P (job_promise j) w) (job_promise j) = Some (Fulfilled x) →
  ∃ i lm, x = VObj i ∧ heap w !! i = None ∧ heap w !! lm = None
    ∧ heap (settle P (job_promise j) w) !! i = Some (OInstance lm io)
    ∧ heap (settle P (job_promise j) w) !! lm = Some (OModule c)
    ∧ (∀ e, job_then j = RSetModInstance e →
         env_mod (settle P (job_promise j) w) e = VObj lm
         ∧ env_bytes (settle P (job_promise j) w) e = env_bytes w e).
Proof.
  intros Hw Hin Hop Hb Hrc.
  pose proof (job_pending w j Hw Hin) as Hpp.
  destruct (settle_job P w j Hw Hin) as (rest & _ & ->).
  unfold bind. rewrite perform_jobs, Hop.
  rewrite (perform_instantiate_bytes P b io w) by (by eapply bytes_not_module).
  rewrite Hb.
  destruct (wasm_validate P (trace w) c) as [err|].
  { cbn [fst snd]. unfold promise_state. cbn [heap set_heap].
    by rewrite lookup_insert_eq. }
  destruct (wasm_link P (trace w) c io) as [err|].
  { cbn [fst snd]. unfold promise_state. cbn [heap set_heap].
    by rewrite lookup_insert_eq. }
  cbv zeta. cbn [fst snd].
  set (lm := fresh (dom (heap w))).
  set (wA := set_heap (insert lm (OModule c)) w).
  set (li := fresh (dom (heap wA))).
  set (wB := set_heap (insert li (OInstance lm io)) wA).
  set (lr := fresh (dom (heap wB))).
  set (wC := set_heap (insert lr (OPlain {[ "module" := VObj lm; "instance" := VObj li ]})) wB).
  assert (Hlm : heap w !! lm = None) by apply fresh_heap.
  assert (HliA : heap wA !! li = None) by apply fresh_heap.
  assert (HlrB : heap wB !! lr = None) by apply fresh_heap.
  assert (Hli_lm : li ≠ lm).
  { intros Heq. rewrite Heq in HliA. unfold wA in HliA. cbn in HliA.
    by rewrite lookup_insert_eq in HliA. }
  assert (Hli : heap w !! li = None).
  { unfold wA in HliA. cbn in HliA. by rewrite lookup_insert_ne in HliA. }
  assert (Hlr_li : lr ≠ li).
  { intros Heq. rewrite Heq in HlrB. unfold wB in HlrB. cbn in HlrB.
    by rewrite lookup_insert_eq in HlrB. }
  assert (Hlr_lm : lr ≠ lm).
  { intros Heq. rewrite Heq in HlrB. unfold wB, wA in HlrB. cbn in HlrB.
    rewrite lookup_insert_ne in HlrB by (by apply not_eq_sym).
    by rewrite lookup_insert_eq in HlrB. }
  assert (Hlr : heap w !! lr = None).
  { unfold wB, wA in HlrB. cbn in HlrB.
    rewrite lookup_insert_ne in HlrB by (by apply not_eq_sym).
    by rewrite lookup_insert_ne in HlrB by (by apply not_eq_sym). }
  assert (Hp_lm : job_promise j ≠ lm).
  { intros Heq. unfold promise_state in Hpp. rewrite Heq, Hlm in Hpp. done. }
  assert (Hp_li : job_promise j ≠ li).
  { intros Heq. unfold promise_state in Hpp. rewrite Heq, Hli in Hpp. done. }
  assert (HrC : heap (mkWorld (heap wC) (trace wC) rest) !! lr
                = Some (OPlain {[ "module" := VObj lm; "instance" := VObj li ]})).
  { unfold wC. cbn. by rewrite lookup_insert_eq. }
  destruct Hrc as [Hrc|[e Hrc]]; rewrite Hrc.
  - cbn [react read_prop]. unfold props_at. rewrite HrC. unfold get.
    rewrite lookup_insert_ne by done. rewrite lookup_singleton_eq. cbn [default id].
    unfold promise_state. cbn [heap set_heap]. rewrite lookup_insert_eq.
    intros [= <-]. exists li, lm. unfold wC, wB, wA. cbn [heap set_heap].
    split_and!; [done|done|done| | |done].
    + rewrite (lookup_insert_ne _ (job_promise j) li) by done.
      rewrite (lookup_insert_ne _ lr li) by done.
      by rewrite lookup_insert_eq.
    + rewrite (lookup_insert_ne _ (job_promise j) lm) by done.
      rewrite (lookup_insert_ne _ lr lm) by done.
      rewrite (lookup_insert_ne _ li lm) by done.
      by rewrite lookup_insert_eq.
  - assert (He : has_env w e = true) by (eapply job_env; [done..|by rewrite Hrc]).
    assert (Hpe : job_promise j ≠ e) by (by eapply job_promise_ne_env).
    assert (Hxe : ∀ l, heap w !! l = None → l ≠ e).
    { intros l Hl Heq. unfold has_env in He. rewrite <- Heq, Hl in He. done. }
    rewrite (react_set_mod_instance e lr lm li _ HrC) by (by apply Hxe).
    unfold promise_state. cbn [heap set_heap]. rewrite lookup_insert_eq.
    intros [= <-]. exists li, lm. unfold env_mod, env_bytes, wC, wB, wA.
    cbn [heap set_heap].
    split_and!; [done|done|done| | |].
    + rewrite (lookup_insert_ne _ (job_promise j) li) by done.
      rewrite (lookup_insert_ne _ e li) by (by apply not_eq_sym, Hxe).
      rewrite (lookup_insert_ne _ lr li) by done.
      by rewrite lookup_insert_eq.
    + rewrite (lookup_insert_ne _ (job_promise j) lm) by done.
      rewrite (lookup_insert_ne _ e lm) by (by apply not_eq_sym, Hxe).
      rewrite (lookup_insert_ne _ lr lm) by done.
      rewrite (lookup_insert_ne _ li lm) by done.
      by rewrite lookup_insert_eq.
    + intros e' [= <-].
      rewrite !(lookup_insert_ne _ (job_promise j) e) by done.
      rewrite !lookup_insert_eq. split; [done|].
      rewrite (lookup_insert_ne _ lr e) by (by apply Hxe).
      rewrite (lookup_insert_ne _ li e) by (by apply Hxe).
      by rewrite (lookup_insert_ne _ lm e) by (by apply Hxe).
Qed.

(** An instantiation from a module in flight, without callback. *)
Lemma settle_instantiated_module P w j m io lm c x :
  wf w → j ∈ jobs w → job_op j = Instantiate m io →
  module_at w m = Some (lm, c) → job_then j = RNone →
  promise_state (settle P (job_promise j) w) (job_promise j) = Some (Fulfilled x) →
  ∃ i, x = VObj i ∧ heap w !! i = None
    ∧ heap (settle P (job_promise j) w) !! i = Some (OInstance lm io)
    ∧ heap (settle P (job_promise j) w) !! lm = Some (OModule c).
Proof.
  intros Hw Hin Hop Hm Hrc.
  pose proof (job_pending w j Hw Hin) as Hpp.
  destruct (settle_job P w j Hw Hin) as (rest & _ & ->).
  unfold bind. rewrite perform_jobs, Hop.
  rewrite (perform_instantiate_module P _ m io lm c w) by auto.
  destruct (wasm_link P (trace w) c io) as [err|].
  { cbn [fst snd]. unfold promise_state. cbn [heap set_heap].
    by rewrite lookup_insert_eq. }
  cbn [fst snd heap trace set_heap]. rewrite Hrc. cbn [react ret].
  set (li := fresh (dom (heap w))).
  assert (Hli : heap w !! li = None) by apply fresh_heap.
  apply module_at_lookup in Hm as [-> Hlm].
  assert (Hp_li : job_promise j ≠ li).
  { intros Heq. unfold promise_state in Hpp. rewrite Heq, Hli in Hpp. done. }
  assert (Hp_lm : job_promise j ≠ lm).
  { intros Heq. unfold promise_state in Hpp. rewrite Heq, Hlm in Hpp. done. }
  assert (Hli_lm : li ≠ lm) by (intros Heq; rewrite Heq in Hli; congruence).
  unfold promise_state. cbn [heap set_heap]. rewrite lookup_insert_eq.
  intros [= <-]. exists li. split_and!; [done|done| |].
  - rewrite lookup_insert_ne by done. by rewrite lookup_insert_eq.
  - rewrite lookup_insert_ne by done. by rewrite lookup_insert_ne.
Qed.

(** *** What a promise is fulfilled with, whenever it settles *)

Lemma expected_not_other a c : expected a c ≠ ObsOther.
Proof. unfold expected. by destruct (acc_arrow a). Qed.

Lemma decodes_to_unique P a c c' : decodes_to P a c → decodes_to P a c' → c = c'.
Proof. intros (s & Hs & Hc) (s' & Hs' & Hc'). congruence. Qed.

Lemma job_on_stable a c w w' j : stable w w' → job_on a c w j → job_on a c w' j.
Proof.
  intros Hs. unfold job_on. destruct (job_op j) as [b|m io|b|src io]; try done.
  - intros (Ha & Hb & Hrc). split_and!; [done| |done]. by eapply stable_bytes_at.
  - intros (Ha & Hio & [[Hb Hrc]|(lm & Hm & Hrc)]); split_and!; try done.
    + left. split; [|done]. by eapply stable_bytes_at.
    + right. exists lm. split; [|done]. by eapply stable_module_at.
Qed.

Lemma stable_absent w w' l : stable w w' → heap w' !! l = None → heap w !! l = None.
Proof.
  intros Hs Hl. destruct (heap w !! l) as [o|] eqn:E; [|done].
  destruct (Hs _ _ E) as (o' & Ho' & _). congruence.
Qed.

(** The settlement of an operation of the accessor [a]: when its promise
    is fulfilled, the value is what [a] was asked for, made at this
    settlement. *)
Lemma job_on_settles P a c w j x :
  wf w → j ∈ jobs w → job_on a c w j →
  promise_state (settle P (job_promise j) w) (job_promise j) = Some (Fulfilled x) →
  observe (settle P (job_promise j) w) x = expected a c
  ∧ ∃ l, x = VObj l ∧ heap w !! l = None.
Proof.
  intros Hw Hin Hon Hp. unfold job_on in Hon. unfold expected.
  destruct (job_op j) as [b|m io|b|src io] eqn:Hop; try done.
  - destruct Hon as (Ha & Hb & Hrc). rewrite Ha.
    destruct (settle_compiled P w j b c x Hw Hin Hop Hb) as (lm & -> & Hnew & Hlm & _);
      [destruct Hrc; eauto|done|].
    split; [|by eauto]. cbn. by rewrite Hlm.
  - destruct Hon as (Ha & -> & [[Hb Hrc]|(lm & Hm & Hrc)]); rewrite Ha.
    + destruct (settle_instantiated P w j src _ c x Hw Hin Hop Hb)
        as (i & lm & -> & Hnew & _ & Hi & Hlm & _); [destruct Hrc; eauto|done|].
      split; [|by eauto]. by eapply observe_instance.
    + destruct (settle_instantiated_module P w j src _ lm c x Hw Hin Hop Hm Hrc Hp)
        as (i & -> & Hnew & Hi & Hlm).
      split; [|by eauto]. by eapply observe_instance.
Qed.

(** On any schedule: when the promise of an operation of the accessor [a]
    is found fulfilled, its value is what [a] was asked for, and it did not
    exist when the operation was in flight. *)
Lemma job_delivers P a c call j w w' x :
  tidy (acc_env a) call → wf w → has_env w (acc_env a) = true →
  j ∈ jobs w → job_on a c w j →
  rtc (step P call) w w' →
  promise_state w' (job_promise j) = Some (Fulfilled x) →
  observe w' x = expected a c ∧ ∃ l, x = VObj l ∧ heap w !! l = None.
Proof.
  intros Ht Hw He Hin Hon Hr Hp.
  destruct (fate P a call j w w' Ht Hw He Hin Hr) as [Hin'|(ws & Hr1 & Hin' & Hr2)].
  - destruct (tidy_reach_wf P a call w w' Ht Hw He Hr) as (Hw' & _).
    rewrite (job_pending w' j Hw' Hin') in Hp. done.
  - destruct (tidy_reach_wf P a call w ws Ht Hw He Hr1) as (Hws & Hs1 & Hes).
    destruct (settle_settles P ws j Hws Hin') as (st & Hst & Hne).
    destruct (tidy_step_wf P a call ws _ Ht Hws Hes (step_settle P call (job_promise j) ws))
      as (Hw1 & _ & He1).
    destruct (tidy_reach_wf P a call _ w' Ht Hw1 He1 Hr2) as (_ & Hs2 & _).
    rewrite (stable_promise _ _ _ _ Hs2 Hst Hne) in Hp. injection Hp as ->.
    destruct (job_on_settles P a c ws j x Hws Hin' (job_on_stable _ _ _ _ _ Hs1 Hon) Hst)
      as (Ho & l & -> & Hl).
    split.
    + rewrite (stable_observe _ _ _ Hs2); [done|]. rewrite Ho. apply expected_not_other.
    + exists l. split; [done|]. by eapply stable_absent.
Qed.

(** *** What an ASYNC call returns *)

Lemma bytes_at_alloc w v c o :
  bytes_at w v = Some c →
  bytes_at (set_heap (insert (fresh (dom (heap w))) o) w) v = Some c.
Proof.
  intros H. apply bytes_at_lookup in H as (l & -> & Hl).
  unfold bytes_at. cbn [heap set_heap]. rewrite lookup_insert_ne; [by rewrite Hl|].
  intros Heq. pose proof (fresh_heap w) as Hf. rewrite Heq in Hf. congruence.
Qed.

Lemma module_at_alloc w v lc o :
  module_at w v = Some lc →
  module_at (set_heap (insert (fresh (dom (heap w))) o) w) v = Some lc.
Proof.
  destruct lc as [lm c]. intros H. apply module_at_lookup in H as (-> & Hl).
  unfold module_at. cbn [heap set_heap]. rewrite lookup_insert_ne; [by rewrite Hl|].
  intros Heq. pose proof (fresh_heap w) as Hf. rewrite Heq in Hf. congruence.
Qed.

(** What [host_async] leaves: a new pending promise and its operation, the
    last in flight. *)
Lemma host_async_starts op rc w v w1 :
  host_async op rc w = (Normal v, w1) →
  v = VObj (fresh (dom (heap w)))
  ∧ mkJob op rc (fresh (dom (heap w))) ∈ jobs w1
  ∧ jobs w1 = jobs w ++ [mkJob op rc (fresh (dom (heap w)))]
  ∧ trace w1 = EvHost op :: trace w
  ∧ heap w1 = <[fresh (dom (heap w)) := OPromise Pending]> (heap w).
Proof.
  rewrite host_async_eq. intros [= <- <-]. cbn [jobs trace heap].
  split_and!; try done. apply elem_of_app. right. by apply list_elem_of_singleton.
Qed.

(** An ASYNC accessor of [InWasm] that returns in a coherent world
    returns a new promise: one that is fulfilled already with the cached
    value, or the promise of an operation it has just started. *)
Lemma inwasm_async_starts P a w v w1 :
  coherent P a w → wf w → async_arrow a →
  Inwasm.call P a w = (Normal v, w1) →
  ∃ p c, v = VObj p ∧ decodes_to P a c ∧ heap w !! p = None
    ∧ ((∃ x, promise_state w1 p = Some (Fulfilled x)
             ∧ observe w1 x = expected a c
             ∧ (acc_arrow a = BytesAsync ∨ truthy (env_mod w (acc_env a)) = true))
       ∨ (∃ j, j ∈ jobs w1 ∧ job_promise j = p ∧ job_on a c w1 j
               ∧ (truthy (env_mod w (acc_env a)) = true →
                    job_op j = Instantiate (env_mod w (acc_env a)) (_env (acc_e a))
                    ∧ job_then j = RNone)
               ∧ (truthy (env_mod w (acc_env a)) = false →
                    job_op j = async_op a (env_bytes w1 (acc_env a))
                    ∧ job_then j = async_then a))).
Proof.
  intros Hc Hw Ha E. pose proof Hc as (He & Hbok & Hmok & _).
  unfold expected, job_on.
  assert (Hfresh : ∀ w0 r, Inwasm.or_bytes P a w = (r, w0) →
            heap w !! fresh (dom (heap w0)) = None).
  { intros w0 r Eb.
    destruct (tidy_wf _ _ _ _ _ (tidy_or_bytes P a) Hw He Eb) as (_ & Hs & _).
    eapply stable_absent; [done|apply fresh_heap]. }
  destruct Ha as [Ha|[Ha|Ha]].
  - (* BYTES *)
    unfold Inwasm.call in E. rewrite Ha in E |- *. unfold bind in E.
    destruct (Inwasm.or_bytes P a w) as [[b|err] w0] eqn:Eb; [|done].
    destruct (or_bytes_coh P a w _ _ Hc Eb) as [Hc0 Hb0].
    destruct (Hb0 b eq_refl) as [Hbb Ht].
    destruct Hc0 as (_ & Hbok0 & _). rewrite Hbb in Hbok0.
    destruct (Hbok0 Ht) as (c & Hbc & Hd).
    rewrite promise_resolve_eq in E. injection E as <- <-.
    exists (fresh (dom (heap w0))), c. split_and!; [done|done| |].
    { by apply (Hfresh w0 (Normal b)). }
    left. exists b. unfold promise_state. cbn [heap set_heap]. rewrite lookup_insert_eq.
    split_and!; [done| |by left].
    apply observe_bytes. by apply bytes_at_alloc.
  - (* MODULE *)
    destruct (truthy (env_mod w (acc_env a))) eqn:Htm.
    + rewrite module_async_cached in E by done. injection E as <- <-.
      destruct (Hmok eq_refl) as (_ & lm & c & Hmc & Hd).
      exists (fresh (dom (heap w))), c. split_and!; [done|done|apply fresh_heap|].
      left. exists (env_mod w (acc_env a)). unfold promise_state. cbn [heap set_heap].
      rewrite lookup_insert_eq. rewrite Ha. split_and!; [done| |by right].
      eapply observe_module. by apply module_at_alloc.
    + rewrite async_call_eq in E by auto.
      destruct (Inwasm.or_bytes P a w) as [[b|err] w0] eqn:Eb; [|done].
      destruct (or_bytes_coh P a w _ _ Hc Eb) as [Hc0 Hb0].
      destruct (Hb0 b eq_refl) as [Hbb Ht].
      pose proof Hc0 as (He0 & Hbok0 & _). rewrite Hbb in Hbok0.
      destruct (Hbok0 Ht) as (c & Hbc & Hd).
      destruct (host_async_starts _ _ _ _ _ E) as (-> & Hin & _ & _ & Hh).
      exists (fresh (dom (heap w0))), c. split_and!; [done|done| |].
      { by apply (Hfresh w0 (Normal b)). }
      right. eexists. split; [exact Hin|]. cbn [job_promise job_op job_then].
      assert (Hb1 : env_bytes w1 (acc_env a) = b).
      { unfold env_bytes. rewrite Hh. rewrite lookup_insert_ne.
        - exact Hbb.
        - by apply has_env_ne_fresh. }
      unfold async_op, async_then. rewrite Ha, Hb1.
      split; [done|]. split; [|by split].
      split_and!; [done| |by left].
      apply bytes_at_lookup in Hbc as (l & -> & Hl). unfold bytes_at. rewrite Hh.
      rewrite lookup_insert_ne; [by rewrite Hl|].
      intros Heq. pose proof (fresh_heap w0) as Hf. rewrite Heq in Hf. congruence.
  - (* INSTANCE *)
    destruct (truthy (env_mod w (acc_env a))) eqn:Htm.
    + rewrite instance_async_cached in E by done.
      destruct (Hmok eq_refl) as (_ & lm & c & Hmc & Hd).
      destruct (host_async_starts _ _ _ _ _ E) as (-> & Hin & _ & _ & Hh).
      exists (fresh (dom (heap w))), c. split_and!; [done|done|apply fresh_heap|].
      right. eexists. split; [exact Hin|]. cbn [job_promise job_op job_then].
      split; [done|]. split; [|by split].
      split_and!; [done|done|]. right. exists lm. split; [|done].
      apply module_at_lookup in Hmc as (Hm & Hl). rewrite Hm.
      unfold module_at. rewrite Hh.
      rewrite lookup_insert_ne; [by rewrite Hl|].
      intros Heq. pose proof (fresh_heap w) as Hf. rewrite Heq in Hf. congruence.
    + rewrite async_call_eq in E by auto.
      destruct (Inwasm.or_bytes P a w) as [[b|err] w0] eqn:Eb; [|done].
      destruct (or_bytes_coh P a w _ _ Hc Eb) as [Hc0 Hb0].
      destruct (Hb0 b eq_refl) as [Hbb Ht].
      pose proof Hc0 as (He0 & Hbok0 & _). rewrite Hbb in Hbok0.
      destruct (Hbok0 Ht) as (c & Hbc & Hd).
      destruct (host_async_starts _ _ _ _ _ E) as (-> & Hin & _ & _ & Hh).
      exists (fresh (dom (heap w0))), c. split_and!; [done|done| |].
      { by apply (Hfresh w0 (Normal b)). }
      right. eexists. split; [exact Hin|]. cbn [job_promise job_op job_then].
      assert (Hb1 : env_bytes w1 (acc_env a) = b).
      { unfold env_bytes. rewrite Hh. rewrite lookup_insert_ne.
        - exact Hbb.
        - by apply has_env_ne_fresh. }
      unfold async_op, async_then. rewrite Ha, Hb1.
      split; [done|]. split; [|by split].
      split_and!; [done|done|]. left. split; [|by left].
      apply bytes_at_lookup in Hbc as (l & -> & Hl). unfold bytes_at. rewrite Hh.
      rewrite lookup_insert_ne; [by rewrite Hl|].
      intros Heq. pose proof (fresh_heap w0) as Hf. rewrite Heq in Hf. congruence.
Qed.

(** An ASYNC accessor of [EmWasm] returns a new promise: one fulfilled
    with the array [bytes], or the promise of an operation on that array
    it has just started, whose callback keeps nothing. *)
Lemma emwasm_async_starts P a lb c w v w1 :
  heap w !! acc_env a = Some (OEnv (VObj lb) VUndef) →
  heap w !! lb = Some (OBytes c) →
  async_arrow a →
  Emwasm.call P a w = (Normal v, w1) →
  ∃ p, v = VObj p ∧ heap w !! p = None
    ∧ ((acc_arrow a = BytesAsync
        ∧ promise_state w1 p = Some (Fulfilled (VObj lb))
        ∧ heap w1 !! lb = Some (OBytes c))
       ∨ (∃ j, j ∈ jobs w1 ∧ job_promise j = p ∧ job_on a c w1 j
               ∧ reaction_env (job_then j) = None
               ∧ (acc_arrow a = ModuleAsync → job_op j = Compile (VObj lb))
               ∧ (acc_arrow a = InstanceAsync →
                    job_op j = Instantiate (VObj lb) (_env (acc_e a))))).
Proof.
  intros Hcell Hlb Ha E. unfold Emwasm.call in E.
  assert (Hb : env_bytes w (acc_env a) = VObj lb).
  { unfold env_bytes. by rewrite Hcell. }
  set (p := fresh (dom (heap w))).
  assert (Hp : heap w !! p = None) by apply fresh_heap.
  assert (Hpl : p ≠ lb) by (intros Heq; rewrite Heq in Hp; congruence).
  exists p. unfold job_on.
  destruct Ha as [Ha|[Ha|Ha]]; rewrite Ha in E |- *;
    unfold bind, read_bytes in E; rewrite Hb in E.
  - rewrite promise_resolve_eq in E. injection E as <- <-. fold p.
    split_and!; [done|done|]. left. unfold promise_state. cbn [heap set_heap].
    rewrite lookup_insert_eq. split_and!; [done|done|].
    by rewrite lookup_insert_ne.
  - destruct (host_async_starts _ _ _ _ _ E) as (-> & Hin & _ & _ & Hh). fold p in Hin, Hh.
    split_and!; [done|done|]. right. eexists. split; [exact Hin|].
    cbn [job_promise job_op job_then reaction_env].
    split; [done|]. split; [|by split_and!].
    split_and!; [done| |by right].
    unfold bytes_at. rewrite Hh. rewrite lookup_insert_ne by done. by rewrite Hlb.
  - destruct (host_async_starts _ _ _ _ _ E) as (-> & Hin & _ & _ & Hh). fold p in Hin, Hh.
    split_and!; [done|done|]. right. eexists. split; [exact Hin|].
    cbn [job_promise job_op job_then reaction_env].
    split; [done|]. split; [|by split_and!].
    split_and!; [done|done|]. left. split; [|by right].
    unfold bytes_at. rewrite Hh. rewrite lookup_insert_ne by done. by rewrite Hlb.
Qed.





(** *** The cache on any schedule *)

(** The callbacks do not fail on what the engine hands them. *)
Lemma react_obj rc l w r w' : react rc (VObj l) w = (r, w') → ∃ x, r = Normal x.
Proof.
  destruct rc; cbn [react]; unfold bind, read_prop, write_mod, ret;
    intros E; repeat case_match; simplify_eq; by eexists.
Qed.

(** A promise is rejected only with the error of its operation. *)
Lemma settle_rejected_inv P w j err :
  wf w → j ∈ jobs w →
  promise_state (settle P (job_promise j) w) (job_promise j) = Some (Rejected err) →
  (perform P (job_op j) w).1 = Throw err.
Proof.
  intros Hw Hin. destruct (settle_job P w j Hw Hin) as (rest & _ & ->).
  unfold bind. rewrite perform_jobs.
  destruct (perform P (job_op j) w) as [[v|e] w1] eqn:E; cbn [fst snd].
  - destruct (perform_returns_new P _ _ _ _ E) as (l & -> & _).
    destruct (react (job_then j) (VObj l) _) as [r w2] eqn:Er.
    destruct (react_obj _ _ _ _ _ Er) as [x ->].
    unfold promise_state. cbn [heap set_heap]. by rewrite lookup_insert_eq.
  - unfold promise_state. cbn [heap set_heap]. rewrite lookup_insert_eq. by intros [= ->].
Qed.

(** A settlement leaves the closure variables it does not assign to. *)
Lemma settle_env P p w e :
  wf w → has_env w e = true →
  (∀ j, j ∈ jobs w → job_promise j = p → reaction_env (job_then j) ≠ Some e) →
  heap (settle P p w) !! e = heap w !! e.
Proof.
  intros Hw He Hq.
  destruct (take_job p (jobs w)) as [[j rest]|] eqn:Ht; [|by rewrite settle_idle].
  pose proof (job_promise_in w p j rest Hw Ht) as Hp.
  destruct (take_job_split _ _ _ _ Ht) as (l1 & l2 & Hjs & _ & Hpj).
  assert (Hin : j ∈ jobs w).
  { rewrite Hjs. apply elem_of_app. right. by left. }
  destruct (settle_frame P p w Hw) as (_ & _ & _ & Hk & _).
  pose proof (has_env_lookup w e He) as Hl. rewrite Hl.
  apply Hk; [done| |].
  - intros Heq. rewrite Heq in Hl. congruence.
  - intros j' rest' Ht'. rewrite Ht in Ht'. injection Ht' as <- _. by apply Hq.
Qed.

(** A settlement either leaves [mod] of the accessor [a] as it is, or sets
    it to a module that did not exist before. *)
Lemma settle_mod P a p w :
  coherent P a w → wf w →
  env_mod (settle P p w) (acc_env a) = env_mod w (acc_env a)
  ∨ ∃ lm, env_mod (settle P p w) (acc_env a) = VObj lm ∧ heap w !! lm = None.
Proof.
  intros Hc Hw. pose proof Hc as (He & Hbok & _ & Hjobs).
  destruct (take_job p (jobs w)) as [[j rest]|] eqn:Ht; [|left; by rewrite settle_idle].
  destruct (take_job_split _ _ _ _ Ht) as (l1 & l2 & Hjs & _ & Hpj).
  assert (Hin : j ∈ jobs w).
  { rewrite Hjs. apply elem_of_app. right. by left. }
  subst p.
  destruct (decide (reaction_env (job_then j) = Some (acc_env a))) as [Hre|Hre].
  - rewrite Forall_forall in Hjobs.
    destruct (Hjobs j Hin Hre) as [Htb Hshape].
    destruct (Hbok Htb) as (c & Hbc & _).
    destruct (settle_settles P w j Hw Hin) as (st & Hst & Hne).
    destruct st as [|x|err]; [done| |].
    + right. destruct Hshape as [[Hop Hrc]|(io & Hop & Hrc)].
      * destruct (settle_compiled P w j _ c x Hw Hin Hop Hbc) as (lm & _ & Hn & _ & Hm);
          [eauto|done|].
        exists lm. split; [|done]. by destruct (Hm _ Hrc).
      * destruct (settle_instantiated P w j _ io c x Hw Hin Hop Hbc)
          as (i & lm & _ & _ & Hn & _ & _ & Hm); [eauto|done|].
        exists lm. split; [|done]. by destruct (Hm _ Hrc).
    + left. apply settle_rejected_inv in Hst; [|done..].
      destruct (settle_rejects P w j err Hw Hin Hst) as (_ & Hh & _).
      unfold env_mod. rewrite Hh. rewrite lookup_insert_ne; [done|].
      by eapply job_promise_ne_env.
  - left. unfold env_mod. rewrite (settle_env P (job_promise j) w (acc_env a)); [done..|].
    intros j' Hin' Hp'.
    destruct Hw as [_ Hn].
    destruct (take_job_elem _ _ Hn Hin') as [rest' Ht'].
    rewrite Hp', Ht in Ht'. by injection Ht' as <- _.
Qed.

(** A call of an ASYNC accessor made while [mod] is set leaves [mod] and
    starts no operation that assigns to it. *)
Lemma cached_call P a w r w' :
  acc_arrow a = ModuleAsync ∨ acc_arrow a = InstanceAsync →
  has_env w (acc_env a) = true →
  truthy (env_mod w (acc_env a)) = true →
  Inwasm.call P a w = (r, w') →
  env_mod w' (acc_env a) = env_mod w (acc_env a)
  ∧ (at_rest (acc_env a) w → at_rest (acc_env a) w')
  ∧ (acc_arrow a = ModuleAsync → trace w' = trace w ∧ jobs w' = jobs w).
Proof.
  intros Ha He Htm E. destruct Ha as [Ha|Ha].
  - rewrite module_async_cached in E by done. injection E as <- <-.
    split_and!; [|done|done].
    apply env_mod_insert_ne. by apply has_env_ne_fresh.
  - rewrite instance_async_cached in E by done.
    rewrite host_async_eq in E. injection E as <- <-.
    split_and!.
    + unfold env_mod. cbn [heap]. rewrite lookup_insert_ne; [done|].
      by apply has_env_ne_fresh.
    + intros Hq. unfold at_rest. cbn [jobs]. apply Forall_app. split; [done|].
      apply Forall_singleton. done.
    + intros Ha'. congruence.
Qed.

(** Once set, [mod] stays set. *)
Lemma mod_stays P a w w' :
  coherent P a w → wf w →
  acc_arrow a = ModuleAsync ∨ acc_arrow a = InstanceAsync →
  truthy (env_mod w (acc_env a)) = true →
  rtc (step P (Inwasm.call P a)) w w' →
  truthy (env_mod w' (acc_env a)) = true.
Proof.
  intros Hc Hw Ha Htm Hr. induction Hr as [w|w w1 w2 Hs _ IH]; [done|].
  pose proof Hc as (He & _).
  destruct (reach_coh P a w w1 Hc Hw (rtc_once _ _ Hs)) as [Hc1 Hw1].
  apply IH; [done|done|].
  destruct Hs as [w r w1 E|p w].
  - destruct (cached_call P a w r w1 Ha He Htm E) as (-> & _). done.
  - destruct (settle_mod P a p w Hc Hw) as [->|(lm & -> & _)]; done.
Qed.

(** Once [mod] is set and no operation in flight assigns to it, it holds
    the same module for ever. *)
Lemma at_rest_reach P a w w' :
  coherent P a w → wf w →
  acc_arrow a = ModuleAsync ∨ acc_arrow a = InstanceAsync →
  truthy (env_mod w (acc_env a)) = true →
  at_rest (acc_env a) w →
  rtc (step P (Inwasm.call P a)) w w' →
  env_mod w' (acc_env a) = env_mod w (acc_env a)
  ∧ at_rest (acc_env a) w'
  ∧ (acc_arrow a = ModuleAsync → trace w' = trace w).
Proof.
  intros Hc Hw Ha Htm Hq Hr. induction Hr as [w|w w1 w2 Hs _ IH]; [done|].
  pose proof Hc as (He & _).
  destruct (reach_coh P a w w1 Hc Hw (rtc_once _ _ Hs)) as [Hc1 Hw1].
  assert (H1 : env_mod w1 (acc_env a) = env_mod w (acc_env a)
               ∧ at_rest (acc_env a) w1
               ∧ (acc_arrow a = ModuleAsync → trace w1 = trace w)).
  { destruct Hs as [w r w1 E|p w].
    - destruct (cached_call P a w r w1 Ha He Htm E) as (Hm & Hq1 & Ht).
      split_and!; [done|by apply Hq1|]. intros Ha'. by destruct (Ht Ha').
    - destruct (settle_frame P p w Hw) as (_ & _ & Ht & _ & Hsub).
      split_and!; [| |done].
      + unfold env_mod. rewrite (settle_env P p w (acc_env a)); [done..|].
        intros j Hin _. unfold at_rest in Hq. rewrite Forall_forall in Hq. by apply Hq.
      + unfold at_rest in *. rewrite Forall_forall in Hq |- *.
        intros j Hin. by apply Hq, Hsub. }
  destruct H1 as (Hm1 & Hq1 & Ht1).
  destruct (IH Hc1 Hw1) as (Hm2 & Hq2 & Ht2); [by rewrite Hm1|done|].
  split_and!; [by rewrite Hm2|done|].
  intros Ha'. by rewrite (Ht2 Ha'), (Ht1 Ha').
Qed.

(* ===================================================================== *)
(** ** The claims on asynchronous accessors, on any schedule *)
(* ===================================================================== *)

Lemma job_eta (j : Job) : j = mkJob (job_op j) (job_then j) (job_promise j).
Proof. by destruct j. Qed.

Lemma observe_module_inv w l c :
  observe w (VObj l) = ObsModule c → heap w !! l = Some (OModule c).
Proof.
  cbn. destruct (heap w !! l) as [[| |c'|lm io| |]|]; try done; [by intros [= ->]|].
  by destruct (heap w !! lm) as [[]|].
Qed.

Lemma observe_instance_inv w l c io :
  observe w (VObj l) = ObsInstance c io →
  ∃ lm, heap w !! l = Some (OInstance lm io) ∧ heap w !! lm = Some (OModule c).
Proof.
  cbn. destruct (heap w !! l) as [[| | |lm io'| |]|]; try done.
  destruct (heap w !! lm) as [[| |c'| | |]|] eqn:Hm; try done.
  intros [= -> ->]. by exists lm.
Qed.

(** The operation of a promise that is still pending, in the world where
    it is found pending. *)
Lemma still_in_flight P a call j w ws :
  tidy (acc_env a) call → wf w → has_env w (acc_env a) = true →
  j ∈ jobs w → rtc (step P call) w ws →
  promise_state ws (job_promise j) = Some Pending →
  j ∈ jobs ws ∧ wf ws ∧ stable w ws ∧ has_env ws (acc_env a) = true.
Proof.
  intros Ht Hw He Hin Hr Hp.
  destruct (tidy_reach_wf P a call w ws Ht Hw He Hr) as (Hws & Hs & Hes).
  split; [exact (pending_in_flight P a call j w ws Ht Hw He Hin Hr Hp)|done].
Qed.

(** The call of an ASYNC accessor of [InWasm] made while [mod] is empty:
    the operation it has started. *)
Lemma inwasm_started P a w p w1 :
  coherent P a w → wf w →
  acc_arrow a = ModuleAsync ∨ acc_arrow a = InstanceAsync →
  truthy (env_mod w (acc_env a)) = false →
  Inwasm.call P a w = (Normal (VObj p), w1) →
  ∃ c, decodes_to P a c ∧ heap w !! p = None
    ∧ wf w1 ∧ has_env w1 (acc_env a) = true ∧ coherent P a w1
    ∧ truthy (env_bytes w1 (acc_env a)) = true
    ∧ bytes_at w1 (env_bytes w1 (acc_env a)) = Some c
    ∧ mkJob (async_op a (env_bytes w1 (acc_env a))) (async_then a) p ∈ jobs w1
    ∧ job_on a c w1 (mkJob (async_op a (env_bytes w1 (acc_env a))) (async_then a) p)
    ∧ ∃ evs, trace w1 = EvHost (async_op a (env_bytes w1 (acc_env a))) :: evs
             ∧ (evs = trace w ∨ evs = EvDecode (acc_d a) :: trace w).
Proof.
  intros Hc Hw Ha Htm E. pose proof Hc as (He & _).
  destruct (tidy_wf _ _ _ _ _ (tidy_call_in P a) Hw He E) as (Hw1 & _ & He1).
  pose proof (call_coh P a w _ _ Hc E) as Hc1.
  assert (Ha' : async_arrow a) by (destruct Ha; [right; by left|right; by right]).
  destruct (inwasm_async_starts P a w _ w1 Hc Hw Ha' E)
    as (p' & c & [= <-] & Hd & Hn & [(x & _ & _ & [Hb|Hb])|(j & Hin & Hp & Hon & _ & Hop)]).
  { destruct Ha; congruence. }
  { congruence. }
  destruct (Hop Htm) as [Hop1 Hrc1].
  assert (Hj : j = mkJob (async_op a (env_bytes w1 (acc_env a))) (async_then a) p).
  { rewrite (job_eta j). by rewrite Hop1, Hrc1, Hp. }
  rewrite <- Hj.
  assert (Hbc : bytes_at w1 (env_bytes w1 (acc_env a)) = Some c).
  { unfold job_on in Hon. rewrite Hop1 in Hon. unfold async_op in Hon.
    destruct Ha as [Ha|Ha]; rewrite Ha in Hon.
    - by destruct Hon as (_ & Hb & _).
    - destruct Hon as (_ & _ & [[Hb _]|(lm & _ & Hrc)]); [done|].
      rewrite Hrc1 in Hrc. unfold async_then in Hrc. by rewrite Ha in Hrc. }
  exists c. split_and!; try done.
  - apply bytes_at_lookup in Hbc as (l & -> & _). done.
  - destruct (async_call_starts P a c w Ha He Hd Htm)
      as (p' & b & w1' & devs & E' & _ & _ & _ & Hb & _ & _ & _ & T & Hdevs).
    rewrite E in E'. injection E' as <- <-. rewrite Hb, T.
    eexists. split; [done|]. destruct Hdevs as [[_ ->]|[_ ->]]; auto.
Qed.

(** C2, amended.  The accessor of [InWasm] for a MODULE definition caches
    the module.  In SYNC mode, once a call has returned a module, every
    later call returns that same module and leaves the world, and so the
    trace, as it is.  In ASYNC mode: a call made while [mod] holds a
    module returns a new promise that is fulfilled already with the module
    [mod] holds at that moment, adds no event and starts no operation; a
    call made while [mod] is empty starts a compilation, and whenever the
    promise of that call settles, after whatever calls and settlements, if
    it is fulfilled then it is fulfilled with a new module of the decoded
    bytes and [mod] holds that module from this settlement on, until
    another compilation that was in flight settles; once [mod] holds a
    module it holds one for ever, and every later call returns an
    already-fulfilled promise of a module of the decoded bytes without
    decoding or compiling; once [mod] holds a module and no compilation is
    in flight, it is that one module for ever.  [EmWasm] keeps no module:
    each call of its accessor compiles the bytes decoded at entry again,
    and what it yields is a module that did not exist before. *)
Theorem C2_module_cached (P : Platform) (a : Accessor) :
  (acc_arrow a = ModuleSync →
     ∀ w m w', Inwasm.call P a w = (Normal m, w') →
       ∀ n, calls (Inwasm.call P a) n w' = (replicate n (Normal m), w'))
  ∧ (acc_arrow a = ModuleAsync →
       (∀ w, truthy (env_mod w (acc_env a)) = true →
          ∃ q, heap w !! q = None
            ∧ Inwasm.call P a w
              = (Normal (VObj q),
                 set_heap (insert q (OPromise (Fulfilled (env_mod w (acc_env a))))) w))
       ∧ (∀ w p w1, coherent P a w → wf w →
            truthy (env_mod w (acc_env a)) = false →
            Inwasm.call P a w = (Normal (VObj p), w1) →
            mkJob (Compile (env_bytes w1 (acc_env a))) (RSetMod (acc_env a)) p ∈ jobs w1
            ∧ ∀ ws m, rtc (step P (Inwasm.call P a)) w1 ws →
                promise_state ws p = Some Pending →
                promise_state (settle P p ws) p = Some (Fulfilled m) →
                env_mod (settle P p ws) (acc_env a) = m
                ∧ ∃ lm c, m = VObj lm ∧ heap ws !! lm = None
                    ∧ heap (settle P p ws) !! lm = Some (OModule c)
                    ∧ decodes_to P a c)
       ∧ (∀ w w', coherent P a w → wf w →
            truthy (env_mod w (acc_env a)) = true →
            rtc (step P (Inwasm.call P a)) w w' →
            (∃ lm c, env_mod w' (acc_env a) = VObj lm
               ∧ heap w' !! lm = Some (OModule c) ∧ decodes_to P a c)
            ∧ (at_rest (acc_env a) w →
                 env_mod w' (acc_env a) = env_mod w (acc_env a)
                 ∧ trace w' = trace w)))
  ∧ (∀ ctx def w0 w1 w r w',
       wf w0 →
       Emwasm.EmWasm P ctx def w0 = (Normal (Some a), w1) →
       rtc (step P (Emwasm.call P a)) w1 w →
       Emwasm.call P a w = (r, w') →
       env_mod w' (acc_env a) = VUndef
       ∧ (acc_arrow a = ModuleSync →
            trace w' = EvHost (NewModule (env_bytes w (acc_env a))) :: trace w
            ∧ ∀ m, r = Normal m →
                ∃ lm c, m = VObj lm ∧ heap w !! lm = None
                  ∧ heap w' !! lm = Some (OModule c) ∧ decodes_to P a c)
       ∧ (acc_arrow a = ModuleAsync →
            trace w' = EvHost (Compile (env_bytes w (acc_env a))) :: trace w
            ∧ ∃ p, r = Normal (VObj p)
                ∧ ∀ ws m, rtc (step P (Emwasm.call P a)) w' ws →
                    promise_state ws p = Some (Fulfilled m) →
                    ∃ lm c, m = VObj lm ∧ heap w' !! lm = None
                      ∧ heap ws !! lm = Some (OModule c) ∧ decodes_to P a c)).
Proof.
  split_and!.
  - intros Ha w m w' E.
    assert (Hhit : Inwasm.call P a w' = (Normal m, w')).
    { unfold Inwasm.call in *. rewrite Ha in *.
      apply or_mod_returns in E as [Hm Ht].
      rewrite or_mod_hit by (by rewrite Hm). by rewrite Hm. }
    induction n as [|n IH]; [done|].
    cbn [calls]. rewrite Hhit. cbn [fst snd]. by rewrite IH.
  - intros Ha. split_and!.
    + intros w Htm. exists (fresh (dom (heap w))). split; [apply fresh_heap|].
      by apply module_async_cached.
    + intros w p w1 Hc Hw Htm E.
      destruct (inwasm_started P a w p w1 Hc Hw (or_introl Ha) Htm E)
        as (c & Hd & _ & Hw1 & He1 & _ & _ & Hbc & Hin & Hon & _).
      unfold async_op, async_then in Hin, Hon. rewrite Ha in Hin, Hon.
      split; [done|]. intros ws m Hr Hp Hf.
      set (j := mkJob (Compile (env_bytes w1 (acc_env a))) (RSetMod (acc_env a)) p) in *.
      destruct (still_in_flight P a _ j w1 ws (tidy_call_in P a) Hw1 He1 Hin Hr Hp)
        as (Hins & Hws & Hs & _).
      destruct (settle_compiled P ws j _ c m Hws Hins eq_refl
                  (stable_bytes_at _ _ _ _ Hs Hbc)) as (lm & -> & Hn & Hl & Hm);
        [right; by eexists|done|].
      destruct (Hm _ eq_refl) as [Hm' _]. split; [done|]. by exists lm, c.
    + intros w w' Hc Hw Htm Hr.
      destruct (reach_coh P a w w' Hc Hw Hr) as [Hc' Hw'].
      pose proof (mod_stays P a w w' Hc Hw (or_introl Ha) Htm Hr) as Htm'.
      split.
      * destruct Hc' as (_ & _ & Hmok & _).
        destruct (Hmok Htm') as (_ & lm & c & Hmc & Hd).
        apply module_at_lookup in Hmc as [Hm Hl]. by exists lm, c.
      * intros Hq.
        destruct (at_rest_reach P a w w' Hc Hw (or_introl Ha) Htm Hq Hr) as (Hm & _ & Ht).
        split; [done|by apply Ht].
  - intros ctx def w0 w1 w r w' Hw0 E Hr Ec.
    destruct (em_reach_cell P ctx def a w0 w1 w Hw0 E Hr) as (lb & c & Hd & Hw & Hcell & Hlb).
    assert (Hb : env_bytes w (acc_env a) = VObj lb).
    { unfold env_bytes. by rewrite Hcell. }
    assert (He : has_env w (acc_env a) = true).
    { unfold has_env. by rewrite Hcell. }
    destruct (calm_call_em P a w r w' Ec) as (Hsub & _).
    destruct (tidy_wf _ _ _ _ _ (tidy_call_em P a) Hw He Ec) as (Hw' & _ & He').
    split_and!.
    + unfold env_mod. by rewrite (lookup_weaken _ _ _ _ Hcell Hsub).
    + intros Ha. unfold Emwasm.call in Ec. rewrite Ha in Ec.
      unfold bind, read_bytes in Ec. split; [by apply host_sync_trace in Ec|].
      intros m ->. rewrite Hb in Ec.
      destruct (host_sync_new_module P _ _ _ _ Ec) as (lm & c' & Hc' & Hm).
      unfold bytes_at in Hc'. rewrite Hlb in Hc'. injection Hc' as <-.
      apply module_at_lookup in Hm as [-> Hl].
      rewrite host_sync_eq in Ec.
      destruct (perform_returns_new P _ _ _ _ Ec) as (l & [= <-] & Hn).
      by exists lm, c.
    + intros Ha.
      assert (Ha' : async_arrow a) by (right; by left).
      split.
      { unfold Emwasm.call in Ec. rewrite Ha in Ec. unfold bind, read_bytes in Ec.
        rewrite host_async_eq in Ec. by injection Ec as <- <-. }
      assert (Hret : ∃ v, r = Normal v).
      { unfold Emwasm.call in Ec. rewrite Ha in Ec. unfold bind, read_bytes in Ec.
        rewrite host_async_eq in Ec. injection Ec as <- _. by eexists. }
      destruct Hret as [v ->].
      destruct (emwasm_async_starts P a lb c w v w' Hcell Hlb Ha' Ec)
        as (p & -> & _ & [(Hab & _)|(j & Hin & <- & Hon & _)]); [congruence|].
      exists (job_promise j). split; [done|]. intros ws m Hrs Hp.
      destruct (job_delivers P a c _ j w' ws m (tidy_call_em P a) Hw' He' Hin Hon Hrs Hp)
        as (Ho & l & -> & Hn).
      unfold expected in Ho. rewrite Ha in Ho. apply observe_module_inv in Ho.
      by exists l, c.
Qed.

(** C2 on the empty module.  SYNC: three more calls return the module of
    the first.  ASYNC: two calls while [mod] is empty start two
    compilations; the first settles and leaves its module in [mod], the
    second settles and leaves its own; from then on no compilation is in
    flight and a call returns a promise fulfilled with that module.
    [EmWasm]: a call and the settlement of its promise. *)
Lemma C2_witness :
  let P := Examples.engine true in
  let s := Examples.after_entry
             (Inwasm.InWasm None 0%nat
                (Examples.empty_module OutputType.MODULE OutputMode.SYNC VUndef)) in
  let rs := Inwasm.call P s.1 s.2 in
  let a := Examples.after_entry
             (Inwasm.InWasm None 0%nat
                (Examples.empty_module OutputType.MODULE OutputMode.ASYNC VUndef)) in
  let r1 := Inwasm.call P a.1 a.2 in
  let r2 := Inwasm.call P a.1 r1.2 in
  let w3 := settle P 3%nat r2.2 in
  let w4 := settle P 4%nat w3 in
  let r5 := Inwasm.call P a.1 w4 in
  let e := Examples.after_entry
             (Emwasm.EmWasm P None 0%nat
                (Examples.empty_module OutputType.MODULE OutputMode.ASYNC VUndef)) in
  let re := Emwasm.call P e.1 e.2 in
  calls (Inwasm.call P s.1) 3 rs.2 = (replicate 3 (Normal (VObj 3%nat)), rs.2)
  ∧ (∃ q, heap w4 !! q = None
       ∧ Inwasm.call P a.1 w4
         = (Normal (VObj q),
            set_heap (insert q (OPromise (Fulfilled (env_mod w4 (acc_env a.1))))) w4))
  ∧ (env_mod w3 (acc_env a.1) = VObj 5%nat
     ∧ ∃ lm c, VObj 5%nat = VObj lm ∧ heap r2.2 !! lm = None
         ∧ heap w3 !! lm = Some (OModule c) ∧ decodes_to P a.1 c)
  ∧ (env_mod w4 (acc_env a.1) = VObj 6%nat
     ∧ ∃ lm c, VObj 6%nat = VObj lm ∧ heap w3 !! lm = None
         ∧ heap w4 !! lm = Some (OModule c) ∧ decodes_to P a.1 c)
  ∧ (∃ lm c, env_mod r5.2 (acc_env a.1) = VObj lm
       ∧ heap r5.2 !! lm = Some (OModule c) ∧ decodes_to P a.1 c)
  ∧ (env_mod r5.2 (acc_env a.1) = env_mod w4 (acc_env a.1) ∧ trace r5.2 = trace w4)
  ∧ (env_mod re.2 (acc_env e.1) = VUndef
     ∧ trace re.2 = EvHost (Compile (env_bytes e.2 (acc_env e.1))) :: trace e.2
     ∧ ∃ lm c, VObj 4%nat = VObj lm ∧ heap re.2 !! lm = None
         ∧ heap (settle P 3%nat re.2) !! lm = Some (OModule c) ∧ decodes_to P e.1 c).
Proof.
  intros P s rs a r1 r2 w3 w4 r5 e re.
  assert (Hwf0 : ∀ o, wf (Examples.world_with o)).
  { intros o. split; [apply Forall_nil_2|apply NoDup_nil_2]. }
  destruct (InWasm_entry_coh P None 0%nat
              (Examples.empty_module OutputType.MODULE OutputMode.ASYNC VUndef)
              a.1 a.2 (Hwf0 _) eq_refl) as (Hc & Hw & _).
  assert (R1 : rtc (step P (Inwasm.call P a.1)) a.2 r1.2).
  { apply rtc_once. eapply step_call. apply surjective_pairing. }
  assert (R2 : rtc (step P (Inwasm.call P a.1)) r1.2 r2.2).
  { apply rtc_once. eapply step_call. apply surjective_pairing. }
  assert (R3 : rtc (step P (Inwasm.call P a.1)) r1.2 w3).
  { eapply rtc_r; [exact R2|]. apply step_settle. }
  assert (R4 : rtc (step P (Inwasm.call P a.1)) a.2 w4).
  { etrans; [exact R1|]. eapply rtc_r; [exact R3|]. apply step_settle. }
  destruct (reach_coh P a.1 a.2 r1.2 Hc Hw R1) as [Hc1 Hw1].
  destruct (reach_coh P a.1 a.2 w4 Hc Hw R4) as [Hc4 Hw4].
  destruct (C2_module_cached P s.1) as (HS & _ & _).
  destruct (C2_module_cached P a.1) as (_ & HA & _).
  destruct (HA eq_refl) as (HA1 & HA2 & HA3).
  destruct (C2_module_cached P e.1) as (_ & _ & HE).
  split; [|split; [|split; [|split; [|split; [|split]]]]].
  - apply (HS eq_refl s.2 (VObj 3%nat) rs.2). reflexivity.
  - apply (HA1 w4). reflexivity.
  - apply (proj2 (HA2 a.2 3%nat r1.2 Hc Hw eq_refl eq_refl) r2.2 (VObj 5%nat) R2);
      reflexivity.
  - apply (proj2 (HA2 r1.2 4%nat r2.2 Hc1 Hw1 eq_refl eq_refl) w3 (VObj 6%nat));
      [eapply rtc_r; [apply rtc_refl|apply step_settle]|reflexivity|reflexivity].
  - apply (proj1 (HA3 w4 r5.2 Hc4 Hw4 eq_refl
                    (rtc_once _ _ (step_call P _ w4 r5.1 r5.2 (surjective_pairing _))))).
  - apply (proj2 (HA3 w4 r5.2 Hc4 Hw4 eq_refl
                    (rtc_once _ _ (step_call P _ w4 r5.1 r5.2 (surjective_pairing _))))).
    apply Forall_nil_2.
  - destruct (HE None 0%nat
                (Examples.empty_module OutputType.MODULE OutputMode.ASYNC VUndef)
                e.2 e.2 re.1 re.2 (Hwf0 _) eq_refl (rtc_refl _ _) (surjective_pairing _))
      as (Hm & _ & Hasync).
    destruct (Hasync eq_refl) as (Ht & p & Hp & Hful).
    split; [exact Hm|]. split; [exact Ht|].
    injection Hp as <-.
    apply (Hful (settle P 3%nat re.2) (VObj 4%nat)).
    + apply rtc_once. apply step_settle.
    + reflexivity.
Defined.

Lemma job_unique w j j' :
  wf w → j ∈ jobs w → j' ∈ jobs w → job_promise j' = job_promise j → j' = j.
Proof.
  intros [_ Hn] Hin Hin' Hp.
  destruct (take_job_elem _ _ Hn Hin) as [rest Ht].
  destruct (take_job_elem _ _ Hn Hin') as [rest' Ht'].
  rewrite Hp, Ht in Ht'. by injection Ht' as <- _.
Qed.

(** The settlement of an operation whose callback does not assign to the
    closure variables at [e] leaves them. *)
Lemma settle_keeps_env P w j e :
  wf w → j ∈ jobs w → has_env w e = true →
  reaction_env (job_then j) ≠ Some e →
  heap (settle P (job_promise j) w) !! e = heap w !! e.
Proof.
  intros Hw Hin He Hre. apply settle_env; [done..|].
  intros j' Hin' Hp. by rewrite (job_unique w j j' Hw Hin Hin' Hp).
Qed.

(** C6, amended.  The accessor of [InWasm] for an INSTANCE definition in
    ASYNC mode, in a world reached from the entry point.  A call made
    while [mod] holds a module instantiates from that module, with no
    callback; whenever the promise of that call settles, after whatever
    calls and settlements, if it is fulfilled then with a new instance of
    that module, and the settlement leaves [mod] alone.  A call made while
    [mod] is empty instantiates from the byte array [bytes] holds
    (decoding [d] first when [bytes] is empty too); whenever the promise
    of that call settles, if it is fulfilled then with a new instance of a
    new module compiled from these bytes, and [mod] holds that module from
    this settlement on, until another instantiation from bytes that was in
    flight settles.  Once [mod] holds a module it holds one for ever, a
    module of the decoded bytes, and every later call instantiates from
    the module [mod] holds at that moment; once no instantiation from
    bytes is in flight it is that one module for ever.  The accessor of
    [EmWasm] instantiates from the bytes decoded at entry on every call,
    with a callback that keeps nothing: whenever the promise settles, if
    it is fulfilled then with a new instance of a new module, and [mod]
    stays empty. *)
Theorem C6_instance_async (P : Platform) (a : Accessor) :
  acc_arrow a = InstanceAsync →
  (∀ w p w1 lm c, coherent P a w → wf w →
     module_at w (env_mod w (acc_env a)) = Some (lm, c) →
     Inwasm.call P a w = (Normal (VObj p), w1) →
     trace w1 = EvHost (Instantiate (VObj lm) (_env (acc_e a))) :: trace w
     ∧ mkJob (Instantiate (VObj lm) (_env (acc_e a))) RNone p ∈ jobs w1
     ∧ ∀ ws v, rtc (step P (Inwasm.call P a)) w1 ws →
         promise_state ws p = Some Pending →
         promise_state (settle P p ws) p = Some (Fulfilled v) →
         ∃ i, v = VObj i ∧ heap ws !! i = None
           ∧ heap (settle P p ws) !! i = Some (OInstance lm (_env (acc_e a)))
           ∧ heap (settle P p ws) !! lm = Some (OModule c)
           ∧ env_mod (settle P p ws) (acc_env a) = env_mod ws (acc_env a))
  ∧ (∀ w p w1, coherent P a w → wf w →
       truthy (env_mod w (acc_env a)) = false →
       Inwasm.call P a w = (Normal (VObj p), w1) →
       (∃ evs,
          trace w1 = EvHost (Instantiate (env_bytes w1 (acc_env a)) (_env (acc_e a))) :: evs
          ∧ (evs = trace w ∨ evs = EvDecode (acc_d a) :: trace w))
       ∧ mkJob (Instantiate (env_bytes w1 (acc_env a)) (_env (acc_e a)))
               (RSetModInstance (acc_env a)) p ∈ jobs w1
       ∧ ∀ ws v, rtc (step P (Inwasm.call P a)) w1 ws →
           promise_state ws p = Some Pending →
           promise_state (settle P p ws) p = Some (Fulfilled v) →
           ∃ i lm c, v = VObj i ∧ heap ws !! i = None ∧ heap ws !! lm = None
             ∧ decodes_to P a c
             ∧ heap (settle P p ws) !! i = Some (OInstance lm (_env (acc_e a)))
             ∧ heap (settle P p ws) !! lm = Some (OModule c)
             ∧ env_mod (settle P p ws) (acc_env a) = VObj lm)
  ∧ (∀ w w', coherent P a w → wf w →
       truthy (env_mod w (acc_env a)) = true →
       rtc (step P (Inwasm.call P a)) w w' →
       (∃ lm c, env_mod w' (acc_env a) = VObj lm
          ∧ heap w' !! lm = Some (OModule c) ∧ decodes_to P a c
          ∧ Inwasm.call P a w'
            = host_async (Instantiate (VObj lm) (_env (acc_e a))) RNone w')
       ∧ (at_rest (acc_env a) w → env_mod w' (acc_env a) = env_mod w (acc_env a)))
  ∧ (∀ ctx def w0 w1 w r w',
       wf w0 →
       Emwasm.EmWasm P ctx def w0 = (Normal (Some a), w1) →
       rtc (step P (Emwasm.call P a)) w1 w →
       Emwasm.call P a w = (r, w') →
       ∃ lb c p, decodes_to P a c ∧ heap w !! lb = Some (OBytes c)
         ∧ r = Normal (VObj p)
         ∧ trace w' = EvHost (Instantiate (VObj lb) (_env (acc_e a))) :: trace w
         ∧ env_mod w' (acc_env a) = VUndef
         ∧ ∀ ws v, rtc (step P (Emwasm.call P a)) w' ws →
             promise_state ws p = Some Pending →
             promise_state (settle P p ws) p = Some (Fulfilled v) →
             ∃ i lm, v = VObj i ∧ heap ws !! i = None ∧ heap ws !! lm = None
               ∧ heap (settle P p ws) !! i = Some (OInstance lm (_env (acc_e a)))
               ∧ heap (settle P p ws) !! lm = Some (OModule c)
               ∧ env_mod (settle P p ws) (acc_env a) = VUndef).
Proof.
  intros Ha. split_and!.
  - intros w p w1 lm c Hc Hw Hm E. pose proof Hc as (He & _).
    destruct (tidy_wf _ _ _ _ _ (tidy_call_in P a) Hw He E) as (Hw1 & _ & He1).
    pose proof Hm as Hm0. apply module_at_lookup in Hm0 as [Hmv Hl].
    assert (Htm : truthy (env_mod w (acc_env a)) = true) by (by rewrite Hmv).
    rewrite instance_async_cached in E by done. rewrite Hmv in E.
    destruct (host_async_starts _ _ _ _ _ E) as ([= ->] & Hin & _ & T & Hh).
    split; [done|]. split; [done|]. intros ws v Hr Hp Hf.
    set (j := mkJob (Instantiate (VObj lm) (_env (acc_e a))) RNone (fresh (dom (heap w)))) in *.
    destruct (still_in_flight P a _ j w1 ws (tidy_call_in P a) Hw1 He1 Hin Hr Hp)
      as (Hins & Hws & Hs & Hes).
    assert (Hm1 : module_at w1 (VObj lm) = Some (lm, c)).
    { unfold module_at. rewrite Hh. rewrite lookup_insert_ne; [by rewrite Hl|].
      intros Heq. pose proof (fresh_heap w) as Hf'. rewrite Heq in Hf'. congruence. }
    destruct (settle_instantiated_module P ws j _ _ lm c v Hws Hins eq_refl
                (stable_module_at _ _ _ _ Hs Hm1) eq_refl Hf) as (i & -> & Hn & Hi & Hlm).
    exists i. split_and!; try done.
    pose proof (settle_keeps_env P ws j (acc_env a) Hws Hins Hes) as Hk.
    unfold j in Hk. cbn [job_promise job_then reaction_env] in Hk.
    unfold env_mod. by rewrite Hk.
  - intros w p w1 Hc Hw Htm E.
    destruct (inwasm_started P a w p w1 Hc Hw (or_intror Ha) Htm E)
      as (c & Hd & _ & Hw1 & He1 & _ & _ & Hbc & Hin & Hon & HT).
    unfold async_op, async_then in Hin, Hon, HT. rewrite Ha in Hin, Hon, HT.
    split; [done|]. split; [done|]. intros ws v Hr Hp Hf.
    set (j := mkJob (Instantiate (env_bytes w1 (acc_env a)) (_env (acc_e a)))
                (RSetModInstance (acc_env a)) p) in *.
    destruct (still_in_flight P a _ j w1 ws (tidy_call_in P a) Hw1 He1 Hin Hr Hp)
      as (Hins & Hws & Hs & _).
    destruct (settle_instantiated P ws j _ _ c v Hws Hins eq_refl
                (stable_bytes_at _ _ _ _ Hs Hbc))
      as (i & lm & -> & Hni & Hnl & Hi & Hl & Hm); [right; by eexists|done|].
    destruct (Hm _ eq_refl) as [Hm' _]. by exists i, lm, c.
  - intros w w' Hc Hw Htm Hr.
    destruct (reach_coh P a w w' Hc Hw Hr) as [Hc' Hw'].
    pose proof (mod_stays P a w w' Hc Hw (or_intror Ha) Htm Hr) as Htm'.
    split.
    + destruct Hc' as (_ & _ & Hmok & _).
      destruct (Hmok Htm') as (_ & lm & c & Hmc & Hd).
      apply module_at_lookup in Hmc as [Hm Hl]. exists lm, c.
      split_and!; try done. rewrite instance_async_cached by done. by rewrite Hm.
    + intros Hq.
      by destruct (at_rest_reach P a w w' Hc Hw (or_intror Ha) Htm Hq Hr) as (Hm & _).
  - intros ctx def w0 w1 w r w' Hw0 E Hr Ec.
    destruct (em_reach_cell P ctx def a w0 w1 w Hw0 E Hr) as (lb & c & Hd & Hw & Hcell & Hlb).
    assert (Hb : env_bytes w (acc_env a) = VObj lb).
    { unfold env_bytes. by rewrite Hcell. }
    assert (He : has_env w (acc_env a) = true).
    { unfold has_env. by rewrite Hcell. }
    destruct (calm_call_em P a w r w' Ec) as (Hsub & _).
    destruct (tidy_wf _ _ _ _ _ (tidy_call_em P a) Hw He Ec) as (Hw' & _ & He').
    assert (Hr' : rtc (step P (Emwasm.call P a)) w1 w').
    { eapply rtc_r; [exact Hr|]. by eapply step_call. }
    pose proof Ec as Ec0.
    unfold Emwasm.call in Ec. rewrite Ha in Ec. unfold bind, read_bytes in Ec.
    rewrite Hb in Ec.
    assert (Hret : r = Normal (VObj (fresh (dom (heap w))))).
    { rewrite host_async_eq in Ec. by injection Ec as <- _. }
    subst r.
    destruct (host_async_starts _ _ _ _ _ Ec) as (_ & Hin & _ & T & Hh).
    exists lb, c, (fresh (dom (heap w))). split_and!; try done.
    { unfold env_mod. by rewrite (lookup_weaken _ _ _ _ Hcell Hsub). }
    intros ws v Hrs Hp Hf.
    set (j := mkJob (Instantiate (VObj lb) (_env (acc_e a))) RInstance
                (fresh (dom (heap w)))) in *.
    destruct (still_in_flight P a _ j w' ws (tidy_call_em P a) Hw' He' Hin Hrs Hp)
      as (Hins & Hws & Hs & _).
    assert (Hbc : bytes_at w' (VObj lb) = Some c).
    { unfold bytes_at. by rewrite (lookup_weaken _ _ _ _ Hlb Hsub). }
    destruct (settle_instantiated P ws j _ _ c v Hws Hins eq_refl
                (stable_bytes_at _ _ _ _ Hs Hbc))
      as (i & lm & -> & Hni & Hnl & Hi & Hl & _); [by left|done|].
    exists i, lm. split_and!; try done.
    assert (Hrr : rtc (step P (Emwasm.call P a)) w1 (settle P (job_promise j) ws)).
    { etrans; [exact Hr'|]. eapply rtc_r; [exact Hrs|]. apply step_settle. }
    destruct (em_reach_cell P ctx def a w0 w1 _ Hw0 E Hrr) as (lb' & c' & _ & _ & Hcell' & _).
    unfold j in Hcell'. cbn [job_promise] in Hcell'.
    unfold env_mod. by rewrite Hcell'.
Qed.

(** C6 on the empty module.  Two calls while [mod] is empty start two
    instantiations from the bytes; the first settles and leaves its module
    in [mod]; a third call instantiates from that module; the second
    instantiation settles and leaves its own module in [mod]; the third
    settles with an instance of the module it was started on and leaves
    [mod] alone.  [EmWasm]: a call and the settlement of its promise. *)
Lemma C6_witness :
  let P := Examples.engine true in
  let a := Examples.after_entry
             (Inwasm.InWasm None 0%nat
                (Examples.empty_module OutputType.INSTANCE OutputMode.ASYNC VUndef)) in
  let r1 := Inwasm.call P a.1 a.2 in
  let r2 := Inwasm.call P a.1 r1.2 in
  let w3 := settle P 3%nat r2.2 in
  let r3 := Inwasm.call P a.1 w3 in
  let w4 := settle P 4%nat r3.2 in
  let w5 := settle P 8%nat w4 in
  let r6 := Inwasm.call P a.1 w5 in
  let e := Examples.after_entry
             (Emwasm.EmWasm P None 0%nat
                (Examples.empty_module OutputType.INSTANCE OutputMode.ASYNC VUndef)) in
  let re := Emwasm.call P e.1 e.2 in
  (∃ i, VObj 12%nat = VObj i ∧ heap w4 !! i = None
     ∧ heap w5 !! i = Some (OInstance 5%nat (_env (acc_e a.1)))
     ∧ heap w5 !! 5%nat = Some (OModule Examples.wasm_bytes)
     ∧ env_mod w5 (acc_env a.1) = env_mod w4 (acc_env a.1))
  ∧ (∃ i lm c, VObj 6%nat = VObj i ∧ heap r2.2 !! i = None ∧ heap r2.2 !! lm = None
       ∧ decodes_to P a.1 c
       ∧ heap w3 !! i = Some (OInstance lm (_env (acc_e a.1)))
       ∧ heap w3 !! lm = Some (OModule c)
       ∧ env_mod w3 (acc_env a.1) = VObj lm)
  ∧ (∃ lm c, env_mod w4 (acc_env a.1) = VObj lm
       ∧ heap w4 !! lm = Some (OModule c) ∧ decodes_to P a.1 c
       ∧ Inwasm.call P a.1 w4
         = host_async (Instantiate (VObj lm) (_env (acc_e a.1))) RNone w4)
  ∧ env_mod r6.2 (acc_env a.1) = env_mod w5 (acc_env a.1)
  ∧ (∃ lb c p, decodes_to P e.1 c ∧ heap e.2 !! lb = Some (OBytes c)
       ∧ re.1 = Normal (VObj p)
       ∧ trace re.2 = EvHost (Instantiate (VObj lb) (_env (acc_e e.1))) :: trace e.2
       ∧ env_mod re.2 (acc_env e.1) = VUndef
       ∧ ∃ i lm, VObj 5%nat = VObj i ∧ heap re.2 !! i = None ∧ heap re.2 !! lm = None
           ∧ heap (settle P p re.2) !! i = Some (OInstance lm (_env (acc_e e.1)))
           ∧ heap (settle P p re.2) !! lm = Some (OModule c)
           ∧ env_mod (settle P p re.2) (acc_env e.1) = VUndef).
Proof.
  intros P a r1 r2 w3 r3 w4 w5 r6 e re.
  assert (Hwf0 : ∀ o, wf (Examples.world_with o)).
  { intros o. split; [apply Forall_nil_2|apply NoDup_nil_2]. }
  destruct (InWasm_entry_coh P None 0%nat
              (Examples.empty_module OutputType.INSTANCE OutputMode.ASYNC VUndef)
              a.1 a.2 (Hwf0 _) eq_refl) as (Hc & Hw & _).
  assert (R1 : rtc (step P (Inwasm.call P a.1)) a.2 r1.2).
  { apply rtc_once. eapply step_call. apply surjective_pairing. }
  assert (R2 : rtc (step P (Inwasm.call P a.1)) r1.2 r2.2).
  { apply rtc_once. eapply step_call. apply surjective_pairing. }
  assert (R3 : rtc (step P (Inwasm.call P a.1)) a.2 w3).
  { etrans; [exact R1|]. eapply rtc_r; [exact R2|]. apply step_settle. }
  assert (R34 : rtc (step P (Inwasm.call P a.1)) w3 w4).
  { eapply rtc_l; [eapply step_call; apply surjective_pairing|].
    apply rtc_once. apply step_settle. }
  assert (R5 : rtc (step P (Inwasm.call P a.1)) a.2 w5).
  { etrans; [exact R3|]. eapply rtc_r; [exact R34|]. apply step_settle. }
  destruct (reach_coh P a.1 a.2 w3 Hc Hw R3) as [Hc3 Hw3].
  destruct (reach_coh P a.1 a.2 w5 Hc Hw R5) as [Hc5 Hw5].
  destruct (C6_instance_async P a.1 eq_refl) as (H1 & H2 & H3 & _).
  destruct (C6_instance_async P e.1 eq_refl) as (_ & _ & _ & H4).
  assert (E3 : Inwasm.call P a.1 w3 = (Normal (VObj 8%nat), r3.2))
    by (vm_compute; reflexivity).
  assert (M3 : module_at w3 (env_mod w3 (acc_env a.1)) = Some (5%nat, Examples.wasm_bytes))
    by (vm_compute; reflexivity).
  assert (E1 : Inwasm.call P a.1 a.2 = (Normal (VObj 3%nat), r1.2))
    by (vm_compute; reflexivity).
  assert (T0 : truthy (env_mod a.2 (acc_env a.1)) = false) by (vm_compute; reflexivity).
  assert (T3 : truthy (env_mod w3 (acc_env a.1)) = true) by (vm_compute; reflexivity).
  assert (T5 : truthy (env_mod w5 (acc_env a.1)) = true) by (vm_compute; reflexivity).
  assert (Q5 : at_rest (acc_env a.1) w5) by (vm_compute; apply Forall_nil_2).
  split; [|split; [|split; [|split]]].
  - apply (proj2 (proj2 (H1 w3 8%nat r3.2 5%nat Examples.wasm_bytes Hc3 Hw3 M3 E3))
             w4 (VObj 12%nat));
      [apply rtc_once; apply step_settle|vm_compute; reflexivity|vm_compute; reflexivity].
  - apply (proj2 (proj2 (H2 a.2 3%nat r1.2 Hc Hw T0 E1)) r2.2 (VObj 6%nat) R2);
      vm_compute; reflexivity.
  - apply (proj1 (H3 w3 w4 Hc3 Hw3 T3 R34)).
  - apply (proj2 (H3 w5 r6.2 Hc5 Hw5 T5
                    (rtc_once _ _ (step_call P _ w5 r6.1 r6.2 (surjective_pairing _))))).
    exact Q5.
  - destruct (H4 None 0%nat
                (Examples.empty_module OutputType.INSTANCE OutputMode.ASYNC VUndef)
                e.2 e.2 re.1 re.2 (Hwf0 _) eq_refl (rtc_refl _ _) (surjective_pairing _))
      as (lb & c & p & Hd & Hlb & Hr & Ht & Hm & Hful).
    exists lb, c, p. split; [exact Hd|]. split; [exact Hlb|]. split; [exact Hr|].
    split; [exact Ht|]. split; [exact Hm|].
    injection Hr as <-.
    apply (Hful re.2 (VObj 5%nat));
      [apply rtc_refl|vm_compute; reflexivity|vm_compute; reflexivity].
Defined.

Lemma env_mod_logged op w e : env_mod (logged op w) e = env_mod w e.
Proof. done. Qed.

Lemma env_bytes_logged op w e : env_bytes (logged op w) e = env_bytes w e.
Proof. done. Qed.

(** The operation behind the promise an ASYNC accessor of [InWasm] has
    returned, while that promise is pending. *)
Lemma inwasm_in_flight P a w p w1 :
  coherent P a w → wf w →
  acc_arrow a = ModuleAsync ∨ acc_arrow a = InstanceAsync →
  Inwasm.call P a w = (Normal (VObj p), w1) →
  promise_state w1 p = Some Pending →
  ∃ op rc,
    mkJob op rc p ∈ jobs w1
    ∧ wf w1 ∧ has_env w1 (acc_env a) = true
    ∧ (∃ evs, trace w1 = EvHost op :: evs
              ∧ (evs = trace w ∨ evs = EvDecode (acc_d a) :: trace w))
    ∧ ((truthy (env_mod w (acc_env a)) = true
        ∧ op = Instantiate (env_mod w (acc_env a)) (_env (acc_e a)) ∧ rc = RNone
        ∧ acc_arrow a = InstanceAsync)
       ∨ (truthy (env_mod w (acc_env a)) = false
          ∧ truthy (env_bytes w1 (acc_env a)) = true
          ∧ op = async_op a (env_bytes w1 (acc_env a)) ∧ rc = async_then a)).
Proof.
  intros Hc Hw Ha E Hp. pose proof Hc as (He & _).
  destruct (truthy (env_mod w (acc_env a))) eqn:Htm.
  - destruct Ha as [Ha|Ha].
    + rewrite module_async_cached in E by done. injection E as <- <-.
      unfold promise_state in Hp. cbn [heap set_heap] in Hp.
      by rewrite lookup_insert_eq in Hp.
    + destruct (tidy_wf _ _ _ _ _ (tidy_call_in P a) Hw He E) as (Hw1 & _ & He1).
      rewrite instance_async_cached in E by done.
      destruct (host_async_starts _ _ _ _ _ E) as ([= ->] & Hin & _ & T & _).
      do 2 eexists. split_and!; [exact Hin|done|done| |].
      * eexists. split; [exact T|by left].
      * left. by split_and!.
  - destruct (inwasm_started P a w p w1 Hc Hw Ha Htm E)
      as (c & _ & _ & Hw1 & He1 & _ & Htb & _ & Hin & _ & HT).
    do 2 eexists. split_and!; [exact Hin|done|done|exact HT|].
    right. by split_and!.
Qed.

(** C8.  The accessors of [InWasm] never retry, and hand on the error of
    the engine.  In a SYNC accessor: when [new W.Module(..)] fails, the
    call fails with that very error, in the world the failing operation
    left, which is the world it was invoked in plus its event; [mod] is as
    empty as before and [bytes] holds the array; the next call invokes the
    compilation on that array again.  When [new W.Instance(..)] fails, the
    call fails with that very error; [mod] holds the module it was given;
    the next call invokes the instantiation of that module again.
    Conversely a SYNC call that fails with an error of the engine fails
    with the error of an engine operation that was invoked once in the
    call.  In an ASYNC accessor, while the promise of a call is pending,
    after whatever calls and settlements, its operation is in flight; the
    promise is rejected exactly when the operation fails, with the error
    of the operation; that settlement changes the state of the promise
    and nothing else, so [mod] is what it was; and the next call, made
    while [mod] is what it was at the failed call, starts the same
    operation with the same callback again. *)
Theorem C8_no_retry (P : Platform) (a : Accessor) :
  (acc_arrow a = ModuleSync ∨ acc_arrow a = InstanceSync →
     ∀ w b w0 err w',
       has_env w (acc_env a) = true →
       truthy (env_mod w (acc_env a)) = false →
       Inwasm.or_bytes P a w = (Normal b, w0) →
       host_sync P (NewModule b) w0 = (Throw err, w') →
       Inwasm.call P a w = (Throw err, w')
       ∧ w' = logged (NewModule b) w0
       ∧ env_mod w' (acc_env a) = env_mod w (acc_env a)
       ∧ env_bytes w' (acc_env a) = b
       ∧ (∀ r w'', Inwasm.call P a w' = (r, w'') →
            ∃ evs', trace w'' = evs' ++ EvHost (NewModule b) :: trace w'))
  ∧ (acc_arrow a = InstanceSync →
       ∀ w m w0 err w',
         has_env w (acc_env a) = true →
         Inwasm.or_mod P a w = (Normal m, w0) →
         host_sync P (NewInstance m (_env (acc_e a))) w0 = (Throw err, w') →
         Inwasm.call P a w = (Throw err, w')
         ∧ w' = logged (NewInstance m (_env (acc_e a))) w0
         ∧ env_mod w' (acc_env a) = m
         ∧ (∀ r w'', Inwasm.call P a w' = (r, w'') →
              ∃ evs', trace w'' = evs' ++ EvHost (NewInstance m (_env (acc_e a))) :: trace w'))
  ∧ (acc_arrow a = ModuleSync ∨ acc_arrow a = InstanceSync →
       ∀ w err w',
         has_env w (acc_env a) = true →
         Inwasm.call P a w = (Throw (EngineError err), w') →
         ∃ op w0 evs,
           host_sync P op w0 = (Throw (EngineError err), w')
           ∧ w' = logged op w0
           ∧ trace w0 = evs ++ trace w ∧ (EvHost op ∉ evs)
           ∧ (∀ b, op = NewModule b →
                truthy (env_mod w (acc_env a)) = false
                ∧ env_mod w' (acc_env a) = env_mod w (acc_env a)
                ∧ env_bytes w' (acc_env a) = b)
           ∧ (∀ m io, op = NewInstance m io → env_mod w' (acc_env a) = m)
           ∧ (∀ r w'', Inwasm.call P a w' = (r, w'') →
                ∃ evs', trace w'' = evs' ++ EvHost op :: trace w'))
  ∧ (acc_arrow a = ModuleAsync ∨ acc_arrow a = InstanceAsync →
       ∀ w p w1 ws,
         coherent P a w → wf w →
         Inwasm.call P a w = (Normal (VObj p), w1) →
         rtc (step P (Inwasm.call P a)) w1 ws →
         promise_state ws p = Some Pending →
         ∃ op rc,
           mkJob op rc p ∈ jobs ws
           ∧ (∃ evs, trace w1 = EvHost op :: evs
                     ∧ (evs = trace w ∨ evs = EvDecode (acc_d a) :: trace w))
           ∧ (∀ err, (perform P op ws).1 = Throw err
                     ↔ promise_state (settle P p ws) p = Some (Rejected err))
           ∧ (∀ err, (perform P op ws).1 = Throw err →
                heap (settle P p ws) = <[p := OPromise (Rejected err)]> (heap ws)
                ∧ trace (settle P p ws) = trace ws
                ∧ env_mod (settle P p ws) (acc_env a) = env_mod ws (acc_env a)
                ∧ (env_mod ws (acc_env a) = env_mod w (acc_env a) →
                     Inwasm.call P a (settle P p ws)
                     = host_async op rc (settle P p ws)))).
Proof.
  split_and!.
  - intros Ha w b w0 err w' He Htm Eb Eh.
    destruct (or_bytes_returns P a w b w0 He Eb) as (Hb0 & Hm0 & Htb & _).
    pose proof (host_sync_compile_fails P b w0 err w' Eh) as Hw'.
    assert (Eo : Inwasm.or_mod P a w = (Throw err, w')).
    { rewrite or_mod_miss by done. by rewrite Eb, Eh. }
    assert (Hm' : env_mod w' (acc_env a) = env_mod w (acc_env a)).
    { by rewrite Hw', env_mod_logged. }
    assert (Hb' : env_bytes w' (acc_env a) = b).
    { by rewrite Hw', env_bytes_logged. }
    assert (Hretry : Inwasm.or_mod P a w'
        = match host_sync P (NewModule b) w' with
          | (Normal m, w2) =>
              (Normal m, set_heap (insert (acc_env a) (OEnv (env_bytes w2 (acc_env a)) m)) w2)
          | (Throw err, w2) => (Throw err, w2)
          end).
    { rewrite or_mod_retry; rewrite ?Hm', ?Hb'; done. }
    split_and!; try done.
    + unfold Inwasm.call. destruct Ha as [Ha|Ha]; rewrite Ha; [done|].
      unfold bind. by rewrite Eo.
    + intros r w'' E'. unfold Inwasm.call in E'.
      destruct Ha as [Ha|Ha]; rewrite Ha in E'.
      * rewrite Hretry in E'.
        destruct (host_sync P (NewModule b) w') as [[m|e] w2] eqn:E2;
          apply host_sync_trace in E2; injection E' as <- <-; exists []; by rewrite ?E2.
      * unfold bind in E'. rewrite Hretry in E'.
        destruct (host_sync P (NewModule b) w') as [[m|e] w2] eqn:E2;
          apply host_sync_trace in E2.
        -- apply host_sync_trace in E'. cbn in E'.
           exists [EvHost (NewInstance m (_env (acc_e a)))]. by rewrite E', E2.
        -- injection E' as <- <-. exists []. by rewrite E2.
  - intros Ha w m w0 err w' He Em Eh.
    destruct (or_mod_returns P a w m w0 Em) as [Hm Htm].
    pose proof (host_sync_instance_fails P m _ w0 err w' Eh) as Hw'.
    assert (Hm' : env_mod w' (acc_env a) = m) by (by rewrite Hw', env_mod_logged).
    split_and!; try done.
    + unfold Inwasm.call. rewrite Ha. unfold bind. by rewrite Em.
    + intros r w'' E'. unfold Inwasm.call in E'. rewrite Ha in E'. unfold bind in E'.
      rewrite or_mod_hit in E' by (by rewrite Hm'). rewrite Hm' in E'.
      apply host_sync_trace in E'. exists []. by rewrite E'.
  - intros Ha w err w' He E.
    destruct (sync_failure P a w err w' Ha He E)
      as (op & w0 & evs & Eh & T & Hnin & Hc & Hi & Hnext).
    exists op, w0, evs. split_and!; try done.
    rewrite host_sync_eq in Eh. by apply perform_throws in Eh.
  - intros Ha w p w1 ws Hc Hw E Hr Hp.
    assert (Hp1 : promise_state w1 p = Some Pending).
    { pose proof Hc as (He & _).
      destruct (tidy_wf _ _ _ _ _ (tidy_call_in P a) Hw He E) as (Hw1 & _ & He1).
      destruct (tidy_reach_wf P a _ w1 ws (tidy_call_in P a) Hw1 He1 Hr) as (_ & Hs & _).
      assert (Ha' : async_arrow a) by (destruct Ha; [right; by left|right; by right]).
      destruct (inwasm_async_starts P a w _ w1 Hc Hw Ha' E)
        as (p' & c & [= <-] & _ & _ & [(x & Hx & _)|(j & Hin & Hpj & _)]).
      - rewrite (stable_promise _ _ _ _ Hs Hx) in Hp; done.
      - rewrite <- Hpj. by apply job_pending. }
    destruct (inwasm_in_flight P a w p w1 Hc Hw Ha E Hp1)
      as (op & rc & Hin & Hw1 & He1 & HT & Hkind).
    set (j := mkJob op rc p) in *.
    destruct (still_in_flight P a _ j w1 ws (tidy_call_in P a) Hw1 He1 Hin Hr Hp)
      as (Hins & Hws & Hs & Hes).
    exists op, rc. split_and!; [done|done| |].
    + intros err. split.
      * intros Hf. by destruct (settle_rejects P ws j err Hws Hins Hf).
      * intros Hrej. by apply (settle_rejected_inv P ws j err Hws Hins).
    + intros err Hf.
      destruct (settle_rejects P ws j err Hws Hins Hf) as (_ & Hh & Ht).
      cbn [job_promise j] in Hh, Ht.
      assert (Hpe : p ≠ acc_env a) by (by apply (job_promise_ne_env ws j)).
      assert (Hm : env_mod (settle P p ws) (acc_env a) = env_mod ws (acc_env a)).
      { unfold env_mod. rewrite Hh. by rewrite lookup_insert_ne. }
      assert (Hb : env_bytes (settle P p ws) (acc_env a) = env_bytes ws (acc_env a)).
      { unfold env_bytes. rewrite Hh. by rewrite lookup_insert_ne. }
      split_and!; [done|done|done|].
      intros Hsame. rewrite <- Hm in Hsame.
      destruct Hkind as [(Htm & -> & -> & Hai)|(Htm & Htb & -> & ->)].
      * rewrite instance_async_cached by (by rewrite ?Hsame). by rewrite Hsame.
      * destruct (reach_undecoded P a w1 ws Hw1 Htb Hr) as [_ Hbs].
        rewrite async_call_eq by (by rewrite ?Hsame).
        rewrite or_bytes_hit by (by rewrite Hb, Hbs).
        by rewrite Hb, Hbs.
Qed.

(** C8 on three bytes that are no module, and on an engine that links
    nothing.  The MODULE accessor in SYNC mode fails with the error of the
    failed compilation and compiles again when called again; the INSTANCE
    accessor in SYNC mode fails with the error of the failed
    instantiation; the promise of the MODULE accessor in ASYNC mode, still
    pending after another call, is rejected with the error of its
    compilation, and the next call starts the compilation again. *)
Lemma C8_witness :
  let P := Examples.engine true in
  let err := EngineError (CompileError "bad magic") in
  let s := Examples.after_entry
             (Inwasm.InWasm None 0%nat
                (Examples.bad_module OutputType.MODULE OutputMode.SYNC VUndef)) in
  let rb := Inwasm.or_bytes P s.1 s.2 in
  let rh := host_sync P (NewModule (VObj 2%nat)) rb.2 in
  let L := steady_platform true (λ _, None) (λ _ _, Some (LinkError "import")) in
  let lerr := EngineError (LinkError "import") in
  let i := Examples.after_entry
             (Inwasm.InWasm None 0%nat
                (Examples.empty_module OutputType.INSTANCE OutputMode.SYNC VUndef)) in
  let rm := Inwasm.or_mod L i.1 i.2 in
  let ri := host_sync L (NewInstance (VObj 3%nat) (_env (acc_e i.1))) rm.2 in
  let a := Examples.after_entry
             (Inwasm.InWasm None 0%nat
                (Examples.bad_module OutputType.MODULE OutputMode.ASYNC VUndef)) in
  let r1 := Inwasm.call P a.1 a.2 in
  let r2 := Inwasm.call P a.1 r1.2 in
  let w3 := settle P 3%nat r2.2 in
  (Inwasm.call P s.1 s.2 = (Throw err, rh.2)
   ∧ rh.2 = logged (NewModule (VObj 2%nat)) rb.2
   ∧ env_mod rh.2 (acc_env s.1) = env_mod s.2 (acc_env s.1)
   ∧ env_bytes rh.2 (acc_env s.1) = VObj 2%nat
   ∧ (∀ r w'', Inwasm.call P s.1 rh.2 = (r, w'') →
        ∃ evs', trace w'' = evs' ++ EvHost (NewModule (VObj 2%nat)) :: trace rh.2))
  ∧ (Inwasm.call L i.1 i.2 = (Throw lerr, ri.2)
     ∧ ri.2 = logged (NewInstance (VObj 3%nat) (_env (acc_e i.1))) rm.2
     ∧ env_mod ri.2 (acc_env i.1) = VObj 3%nat
     ∧ (∀ r w'', Inwasm.call L i.1 ri.2 = (r, w'') →
          ∃ evs', trace w''
                  = evs' ++ EvHost (NewInstance (VObj 3%nat) (_env (acc_e i.1))) :: trace ri.2))
  ∧ (∃ op w0 evs,
       host_sync P op w0 = (Throw err, rh.2)
       ∧ rh.2 = logged op w0
       ∧ trace w0 = evs ++ trace s.2 ∧ (EvHost op ∉ evs)
       ∧ (∀ b, op = NewModule b →
            truthy (env_mod s.2 (acc_env s.1)) = false
            ∧ env_mod rh.2 (acc_env s.1) = env_mod s.2 (acc_env s.1)
            ∧ env_bytes rh.2 (acc_env s.1) = b)
       ∧ (∀ m io, op = NewInstance m io → env_mod rh.2 (acc_env s.1) = m)
       ∧ (∀ r' w'', Inwasm.call P s.1 rh.2 = (r', w'') →
            ∃ evs', trace w'' = evs' ++ EvHost op :: trace rh.2))
  ∧ (∃ op rc,
       mkJob op rc 3%nat ∈ jobs r2.2
       ∧ (perform P op r2.2).1 = Throw err
       ∧ promise_state w3 3%nat = Some (Rejected err)
       ∧ heap w3 = <[3%nat := OPromise (Rejected err)]> (heap r2.2)
       ∧ trace w3 = trace r2.2
       ∧ env_mod w3 (acc_env a.1) = env_mod r2.2 (acc_env a.1)
       ∧ Inwasm.call P a.1 w3 = host_async op rc w3).
Proof.
  intros P err s rb rh L lerr i rm ri a r1 r2 w3.
  assert (Hwf0 : ∀ o, wf (Examples.world_with o)).
  { intros o. split; [apply Forall_nil_2|apply NoDup_nil_2]. }
  destruct (InWasm_entry_coh P None 0%nat
              (Examples.bad_module OutputType.MODULE OutputMode.ASYNC VUndef)
              a.1 a.2 (Hwf0 _) eq_refl) as (Hc & Hw & _).
  destruct (C8_no_retry P s.1) as (H1 & _ & H3 & _).
  destruct (C8_no_retry L i.1) as (_ & H2 & _).
  destruct (C8_no_retry P a.1) as (_ & _ & _ & H4).
  split; [|split; [|split]].
  - apply (H1 (or_introl eq_refl) s.2 (VObj 2%nat) rb.2 err rh.2);
      vm_compute; reflexivity.
  - apply (H2 eq_refl i.2 (VObj 3%nat) rm.2 lerr ri.2); vm_compute; reflexivity.
  - apply (H3 (or_introl eq_refl) s.2 (CompileError "bad magic") rh.2);
      vm_compute; reflexivity.
  - destruct (H4 (or_introl eq_refl) a.2 3%nat r1.2 r2.2 Hc Hw)
      as (op & rc & Hin & _ & Hiff & Hfwd).
    + vm_compute; reflexivity.
    + apply rtc_once. eapply step_call. apply surjective_pairing.
    + vm_compute; reflexivity.
    + assert (Hrej : promise_state w3 3%nat = Some (Rejected err))
        by (vm_compute; reflexivity).
      pose proof (proj2 (Hiff err) Hrej) as Hf.
      destruct (Hfwd err Hf) as (Hh & Ht & Hm & Hnext).
      exists op, rc. split; [exact Hin|]. split; [exact Hf|]. split; [exact Hrej|].
      split; [exact Hh|]. split; [exact Ht|]. split; [exact Hm|].
      apply Hnext. vm_compute; reflexivity.
Defined.
